(** * DistributedFusedAdam: fragment mapper, gradient buckets, hooks, checkpoint

    A shallow embedding of
    [apex/contrib/optimizers/distributed_fused_adam.py].

    Conventions of the model.
    - Python integers are [Z]; [//] is [Z.div] (both floor), and a zero
      divisor raises [ZeroDivisionError].
    - A one-dimensional tensor is a [list T] of elements; the element type
      [T] comes with a zero and an addition ([TensorElt]).  Data type casts
      are not modelled: parameters, optimizer state and gradient buckets
      share one element type.
    - A parameter object is identified by its position
      [(param_group_id, param_id)] in [param_groups]; the dictionary
      [self.state[param]] is the finite map [state_fragments], the attribute
      [param.grad] is the finite map [param_grad] (absent key = [None]).
    - Exceptions are the [Raise] results; a loop that runs out of fuel
      returns [OutOfFuel], which stands for a Python loop that has not
      finished within the given number of iterations.
    - CUDA streams are not modelled: every operation takes effect in
      program order, which is the order the stream fences of the source
      enforce between conflicting operations.
    - The collective operations of the gradient and parameter
      synchronization are parameters of the model ([Collectives]).  For the
      checkpoint a process group is the list of the optimizers of its
      ranks, and [torch.distributed.gather] copies their shards to the
      root; workspace memory from [torch.empty] is filled with zeros.
    - The field [status_log] is a ghost field: it records every assignment
      to the status of a gradient bucket.
    - The parameter class is patched so that the read of an attribute of a
      parameter calls its pre-forward hook while
      [_pre_forward_hook_is_enabled] is set
      ([getattribute_with_pre_forward_hook]).  The methods of the optimizer
      are modelled for parameters whose flag is not set, where such a read
      has no effect; the flag is set by [step] only, which is not
      modelled.  The properties of operations that read a parameter
      assume that its flag is not set.
    - The model covers the configuration [contiguous_grad_buffer=False],
      [contiguous_param_buffer=False], [store_param_remainders=False]
      (the constructor defaults).  It leaves out [step] and the local
      Adam update, gradient norms and clipping, and the v1 checkpoint
      format.  The attributes [_grad_norm], [_grad_scale] and
      [_dummy_overflow_buf] of the gradient norm are not part of the
      state: [zero_grad] resets them and [_finish_bucket_grad_sync]
      discards the cached norm when it finishes a bucket, and these
      assignments have no counterpart in the model.
    - The properties of the mapper and of the gradient and parameter
      synchronization are stated for the layouts that
      [_init_param_state] builds ([layout_wf]).  [init_params_bucket]
      adds fragments without elements to them; the layouts it returns are
      outside [layout_wf]. *)

From Stdlib Require Import ZArith Lia Bool String.
From stdpp Require Import base option list gmap sorting.

Local Open Scope Z_scope.

(** ** Results and exceptions *)

Inductive exn : Type :=
  | ZeroDivisionError
  | IndexError
  | KeyError
  | ValueError
  | AttributeError
  | TypeError
  | RuntimeError (msg : string).

Inductive result (A : Type) : Type :=
  | Ok (a : A)
  | Raise (e : exn)
  | OutOfFuel.

Arguments Ok {A} a.
Arguments Raise {A} e.
Arguments OutOfFuel {A}.

Global Instance result_ret : MRet result := λ A a, Ok a.
Global Instance result_bind : MBind result := λ A B f m,
  match m with
  | Ok a => f a
  | Raise e => Raise e
  | OutOfFuel => OutOfFuel
  end.

Definition is_Ok {A} (r : result A) : Prop := ∃ a, r = Ok a.

(** A [for] loop whose body may raise: the state is threaded through the
    elements of [l] in order. *)
Fixpoint for_each {A S : Type} (body : A → S → result S) (l : list A) (s : S)
  : result S :=
  match l with
  | [] => Ok s
  | x :: l' => s' ← body x s; for_each body l' s'
  end.

(** ** Tensors *)

Class TensorElt (T : Type) := { tzero : T; tadd : T → T → T }.

Global Instance Z_TensorElt : TensorElt Z := {| tzero := 0; tadd := Z.add |}.

Section Tensor.
Context {T : Type} `{TensorElt T}.

(** [torch.zeros([n])]; a negative size is an error. *)
Definition zeros (n : Z) : result (list T) :=
  if n <? 0 then Raise (RuntimeError "negative dimension")
  else Ok (replicate (Z.to_nat n) tzero).

(** Python slice index normalisation for a sequence of length [len]. *)
Definition slice_index (len i : Z) : Z :=
  if i <? 0 then Z.max (i + len) 0 else Z.min i len.

(** Offset and length of [t[start:stop]]. *)
Definition slice_bounds (len : nat) (start stop : Z) : nat * nat :=
  let a := slice_index (Z.of_nat len) start in
  let b := Z.max a (slice_index (Z.of_nat len) stop) in
  (Z.to_nat a, Z.to_nat (b - a)).

Definition tensor_slice (t : list T) (start stop : Z) : list T :=
  let '(off, cnt) := slice_bounds (length t) start stop in
  take cnt (drop off t).

(** The tensor [t] after its view [t[start:stop]] was overwritten by [v]
    ([v] has the length of the view). *)
Definition tensor_slice_set (t : list T) (start stop : Z) (v : list T) : list T :=
  let '(off, cnt) := slice_bounds (length t) start stop in
  take off t ++ v ++ drop (off + cnt) t.

(** Broadcasting of the source of an in-place operation on a
    one-dimensional view of [n] elements. *)
Definition broadcast_to (n : nat) (src : list T) : result (list T) :=
  if decide (length src = n) then Ok src
  else match src with
       | [x] => Ok (replicate n x)
       | _ => Raise (RuntimeError "size mismatch")
       end.

(** [t[start:stop].copy_(src)] *)
Definition slice_copy_ (t : list T) (start stop : Z) (src : list T) : result (list T) :=
  v ← broadcast_to (length (tensor_slice t start stop)) src;
  Ok (tensor_slice_set t start stop v).

(** [t[start:stop].add_(src)] *)
Definition slice_add_ (t : list T) (start stop : Z) (src : list T) : result (list T) :=
  v ← broadcast_to (length (tensor_slice t start stop)) src;
  Ok (tensor_slice_set t start stop (zip_with tadd (tensor_slice t start stop) v)).

(** [t.add_(src)] *)
Definition tensor_add_ (t src : list T) : result (list T) :=
  v ← broadcast_to (length t) src;
  Ok (zip_with tadd t v).
End Tensor.

(** ** Data model *)

Definition ParamKey : Type := (nat * nat)%type.

Record ParameterFragment := {
  param_group_id : nat;
  param_id : nat;
  bucket_id : nat;
  param_range : Z * Z;
  bucket_range : Z * Z;
  in_local_shard : bool;
  shard_range : option (Z * Z);
  shard_bucket_range : option (Z * Z);
  shard_param_range : option (Z * Z);
}.

Definition fragment_key (f : ParameterFragment) : ParamKey :=
  (param_group_id f, param_id f).

Record StateBucket {T : Type} := {
  bucket_size : Z;
  shard_size : Z;
  filled_size : Z;
  able_to_fill : bool;
  contiguous_buffer_offset : Z;
  fragments : list ParameterFragment;
  params_shard : option (list T);
  exp_avg_shard : list T;
  exp_avg_sq_shard : list T;
}.
Arguments StateBucket T : clear implicits.

Inductive GradientStatus := READY | PARTIALLY_FILLED | FULLY_FILLED | SYNCING.

Global Instance GradientStatus_eq_dec : EqDecision GradientStatus.
Proof. solve_decision. Defined.

Record GradientBucket {T : Type} := {
  grads_shard : option (list T);
  grads_bucket : option (list T);
  sync_grads_shard : option (list T);
  status : GradientStatus;
  grads_generated : gset ParamKey;
}.
Arguments GradientBucket T : clear implicits.

(** [GradientBucket.__init__] *)
Definition GradientBucket_init {T} : GradientBucket T :=
  {| grads_shard := None; grads_bucket := None; sync_grads_shard := None;
     status := READY; grads_generated := ∅ |}.

Module ParameterStatus.
Inductive t := SHARDED | SYNCING | READY.

Global Instance eq_dec : EqDecision t.
Proof. solve_decision. Defined.
End ParameterStatus.

Module ParameterBucket.
Record t {T : Type} := {
  params_shard : option (list T);
  params_bucket : option (list T);
  status : ParameterStatus.t;
  params_updated : gset ParamKey;
}.
Arguments t T : clear implicits.

(** [ParameterBucket.__init__] *)
Definition init {T} : t T :=
  {| params_shard := None; params_bucket := None;
     status := ParameterStatus.SHARDED; params_updated := ∅ |}.
End ParameterBucket.

(** The attributes set by [DistributedFusedAdam.__init__] that the modelled
    methods read. *)
Record Config := {
  alignment : Z;
  default_shard_size : Z;
  distributed_size : Z;
  distributed_rank : Z;
  redundant_size : Z;
  store_params : bool;
  greedy_grad_copy : bool;
  overlap_grad_sync : bool;
  overlap_param_sync : bool;
  average_grad_sync : bool;
  pipeline_size : Z;
}.

(** One status assignment [bucket.status = new] of the source, with the
    status the bucket had before it and the parameters that own a fragment
    of the bucket but were not in [bucket.grads_generated] at that time. *)
Record StatusWrite := {
  sw_bucket : nat;
  sw_old : GradientStatus;
  sw_new : GradientStatus;
  sw_pending : list ParamKey;
}.

Record Optimizer {T : Type} := {
  config : Config;
  (** [param_groups[g]["params"][i]], flattened values of each parameter *)
  param_groups : list (list (list T));
  (** [self.state["buckets"]] *)
  state_buckets : list (StateBucket T);
  (** [self.state["step"]] *)
  state_step : Z;
  (** [self.state[param]["fragments"]] *)
  state_fragments : gmap ParamKey (list ParameterFragment);
  (** [param.grad], flattened *)
  param_grad : gmap ParamKey (list T);
  (** [param._pre_forward_hook_is_enabled] *)
  pre_forward_hook_is_enabled : gmap ParamKey bool;
  (** [self._grads_buckets], a [defaultdict(GradientBucket)] *)
  _grads_buckets : gmap nat (GradientBucket T);
  (** [self._params_buckets], an [OrderedDict]: the items in insertion
      order *)
  _params_buckets : list (nat * ParameterBucket.t T);
  (** History of the assignments to [bucket.status] (not in the source:
      kept to state properties of status transitions). *)
  status_log : list StatusWrite;
}.
Arguments Optimizer T : clear implicits.

Section Setters.
Context {T : Type}.
Implicit Types (st : Optimizer T) (b : StateBucket T) (g : GradientBucket T).

Definition set_state_buckets (bs : list (StateBucket T)) st : Optimizer T :=
  {| config := config st; param_groups := param_groups st;
     state_buckets := bs; state_step := state_step st;
     state_fragments := state_fragments st; param_grad := param_grad st;
     pre_forward_hook_is_enabled := pre_forward_hook_is_enabled st;
     _grads_buckets := _grads_buckets st;
     _params_buckets := _params_buckets st; status_log := status_log st |}.

Definition set_state_fragments (fs : gmap ParamKey (list ParameterFragment)) st
  : Optimizer T :=
  {| config := config st; param_groups := param_groups st;
     state_buckets := state_buckets st; state_step := state_step st;
     state_fragments := fs; param_grad := param_grad st;
     pre_forward_hook_is_enabled := pre_forward_hook_is_enabled st;
     _grads_buckets := _grads_buckets st;
     _params_buckets := _params_buckets st; status_log := status_log st |}.

Definition set_param_grad (gr : gmap ParamKey (list T)) st : Optimizer T :=
  {| config := config st; param_groups := param_groups st;
     state_buckets := state_buckets st; state_step := state_step st;
     state_fragments := state_fragments st; param_grad := gr;
     pre_forward_hook_is_enabled := pre_forward_hook_is_enabled st;
     _grads_buckets := _grads_buckets st;
     _params_buckets := _params_buckets st; status_log := status_log st |}.

Definition set_pre_forward_hook_is_enabled (fl : gmap ParamKey bool) st
  : Optimizer T :=
  {| config := config st; param_groups := param_groups st;
     state_buckets := state_buckets st; state_step := state_step st;
     state_fragments := state_fragments st; param_grad := param_grad st;
     pre_forward_hook_is_enabled := fl;
     _grads_buckets := _grads_buckets st;
     _params_buckets := _params_buckets st; status_log := status_log st |}.

Definition set_grads_buckets (gb : gmap nat (GradientBucket T)) st : Optimizer T :=
  {| config := config st; param_groups := param_groups st;
     state_buckets := state_buckets st; state_step := state_step st;
     state_fragments := state_fragments st; param_grad := param_grad st;
     pre_forward_hook_is_enabled := pre_forward_hook_is_enabled st;
     _grads_buckets := gb; _params_buckets := _params_buckets st;
     status_log := status_log st |}.

Definition set_params_buckets (pb : list (nat * ParameterBucket.t T)) st
  : Optimizer T :=
  {| config := config st; param_groups := param_groups st;
     state_buckets := state_buckets st; state_step := state_step st;
     state_fragments := state_fragments st; param_grad := param_grad st;
     pre_forward_hook_is_enabled := pre_forward_hook_is_enabled st;
     _grads_buckets := _grads_buckets st; _params_buckets := pb;
     status_log := status_log st |}.

Definition set_status_log (lg : list StatusWrite) st : Optimizer T :=
  {| config := config st; param_groups := param_groups st;
     state_buckets := state_buckets st; state_step := state_step st;
     state_fragments := state_fragments st; param_grad := param_grad st;
     pre_forward_hook_is_enabled := pre_forward_hook_is_enabled st;
     _grads_buckets := _grads_buckets st;
     _params_buckets := _params_buckets st; status_log := lg |}.

Definition set_state_step (n : Z) st : Optimizer T :=
  {| config := config st; param_groups := param_groups st;
     state_buckets := state_buckets st; state_step := n;
     state_fragments := state_fragments st; param_grad := param_grad st;
     pre_forward_hook_is_enabled := pre_forward_hook_is_enabled st;
     _grads_buckets := _grads_buckets st;
     _params_buckets := _params_buckets st; status_log := status_log st |}.

Definition set_param_groups (pg : list (list (list T))) st : Optimizer T :=
  {| config := config st; param_groups := pg;
     state_buckets := state_buckets st; state_step := state_step st;
     state_fragments := state_fragments st; param_grad := param_grad st;
     pre_forward_hook_is_enabled := pre_forward_hook_is_enabled st;
     _grads_buckets := _grads_buckets st;
     _params_buckets := _params_buckets st; status_log := status_log st |}.

(** The parameter object with identity [k], as its flattened values. *)
Definition lookup_param st (k : ParamKey) : option (list T) :=
  param_groups st !! k.1 ≫= λ grp, grp !! k.2.

Definition set_fragments (fs : list ParameterFragment) b : StateBucket T :=
  {| bucket_size := bucket_size b; shard_size := shard_size b;
     filled_size := filled_size b; able_to_fill := able_to_fill b;
     contiguous_buffer_offset := contiguous_buffer_offset b;
     fragments := fs; params_shard := params_shard b;
     exp_avg_shard := exp_avg_shard b; exp_avg_sq_shard := exp_avg_sq_shard b |}.

Definition set_filled_size (n : Z) b : StateBucket T :=
  {| bucket_size := bucket_size b; shard_size := shard_size b;
     filled_size := n; able_to_fill := able_to_fill b;
     contiguous_buffer_offset := contiguous_buffer_offset b;
     fragments := fragments b; params_shard := params_shard b;
     exp_avg_shard := exp_avg_shard b; exp_avg_sq_shard := exp_avg_sq_shard b |}.


Definition set_params_shard (p : option (list T)) b : StateBucket T :=
  {| bucket_size := bucket_size b; shard_size := shard_size b;
     filled_size := filled_size b; able_to_fill := able_to_fill b;
     contiguous_buffer_offset := contiguous_buffer_offset b;
     fragments := fragments b; params_shard := p;
     exp_avg_shard := exp_avg_shard b; exp_avg_sq_shard := exp_avg_sq_shard b |}.

Definition set_exp_avg_shard (p : list T) b : StateBucket T :=
  {| bucket_size := bucket_size b; shard_size := shard_size b;
     filled_size := filled_size b; able_to_fill := able_to_fill b;
     contiguous_buffer_offset := contiguous_buffer_offset b;
     fragments := fragments b; params_shard := params_shard b;
     exp_avg_shard := p; exp_avg_sq_shard := exp_avg_sq_shard b |}.

Definition set_exp_avg_sq_shard (p : list T) b : StateBucket T :=
  {| bucket_size := bucket_size b; shard_size := shard_size b;
     filled_size := filled_size b; able_to_fill := able_to_fill b;
     contiguous_buffer_offset := contiguous_buffer_offset b;
     fragments := fragments b; params_shard := params_shard b;
     exp_avg_shard := exp_avg_shard b; exp_avg_sq_shard := p |}.
End Setters.

(** ** Construction of the sizes ([__init__], "Determine bucket sizes") *)

Inductive dtype := float32 | float16 | bfloat16.

(** [torch.finfo(dtype).bits // 8] *)
Definition dtype_size (d : dtype) : Z :=
  match d with float32 => 32 / 8 | float16 => 16 / 8 | bfloat16 => 16 / 8 end.

(** [(number + multiple - 1 if round_up else number) // multiple * multiple] *)
Definition _round_to_multiple (number multiple : Z) (round_up : bool) : result Z :=
  if multiple =? 0 then Raise ZeroDivisionError
  else Ok ((if round_up then number + multiple - 1 else number) / multiple * multiple).

(** [self.alignment = 128 // dtype_size] *)
Definition init_alignment (grad_sync_dtype : dtype) : Z :=
  128 / dtype_size grad_sync_dtype.

(** [self.default_shard_size].  The argument [raw_shard_size] is the value of
    [int(bucket_size / self.distributed_size)], a floating point quotient
    (with [bucket_size = 1024 * 1024 * bucket_cap_mb / dtype_size]) that the
    model takes as given. *)
Definition init_default_shard_size (grad_sync_dtype : dtype) (raw_shard_size : Z)
  : result Z :=
  shard_size ← _round_to_multiple raw_shard_size (init_alignment grad_sync_dtype) false;
  Ok (Z.max shard_size (init_alignment grad_sync_dtype)).

(** The constructor, restricted to the attributes of the model: the sizes,
    the process group sizes and ranks, the flags, and the empty state. *)
Definition __init__ {T} (params : list (list (list T)))
    (grad_sync_dtype : dtype) (raw_shard_size : Z)
    (distributed_size distributed_rank redundant_size : Z)
    (average_grad_sync overlap_grad_sync overlap_param_sync store_params : bool)
    (pipeline_size : Z) : result (Optimizer T) :=
  shard_size ← init_default_shard_size grad_sync_dtype raw_shard_size;
  Ok {| config :=
          {| alignment := init_alignment grad_sync_dtype;
             default_shard_size := shard_size;
             distributed_size := distributed_size;
             distributed_rank := distributed_rank;
             redundant_size := redundant_size;
             store_params := store_params;
             greedy_grad_copy := true;
             overlap_grad_sync := overlap_grad_sync;
             overlap_param_sync := overlap_param_sync;
             average_grad_sync := average_grad_sync;
             pipeline_size := pipeline_size |};
        param_groups := params;
        state_buckets := [];
        state_step := 0;
        state_fragments := ∅;
        param_grad := ∅;
        pre_forward_hook_is_enabled := ∅;
        _grads_buckets := ∅;
        _params_buckets := [];
        status_log := [] |}.

(** ** Fragment mapper ([_init_param_state]) *)

Section Mapper.
Context {T : Type} `{TensorElt T}.

(** [StateBucket.__init__] *)
Definition StateBucket_init (bucket_size shard_size : Z)
    (contiguous_buffer_offset : Z) (store_params : bool) : result (StateBucket T) :=
  z ← zeros shard_size;
  Ok {| bucket_size := bucket_size; shard_size := shard_size;
        filled_size := 0; able_to_fill := true;
        contiguous_buffer_offset := contiguous_buffer_offset;
        fragments := [];
        params_shard := if store_params then Some z else None;
        exp_avg_shard := z; exp_avg_sq_shard := z |}.

(** The bucket appended when there is none yet, or when the last one is
    full or may not be filled further. *)
Definition new_bucket (c : Config) (buffer_offset : Z) : result (StateBucket T) :=
  let shard_size := default_shard_size c in
  let bucket_size := shard_size * distributed_size c in
  StateBucket_init bucket_size shard_size buffer_offset (store_params c).

(** "Fragment position within local shard" and "Record fragment info". *)
Definition make_fragment (c : Config) (k : ParamKey) (bucket_id : nat)
    (shard_size param_start param_end bucket_start bucket_end : Z)
  : ParameterFragment :=
  let shard_id := distributed_rank c in
  let shard_start := bucket_start - shard_size * shard_id in
  let shard_end := bucket_end - shard_size * shard_id in
  let shard_start := Z.min (Z.max shard_start 0) shard_size in
  let shard_end := Z.min (Z.max shard_end 0) shard_size in
  let in_local_shard := shard_start <? shard_end in
  let shard_bucket_start := shard_start + shard_size * shard_id in
  let shard_bucket_end := shard_bucket_start + shard_end - shard_start in
  let shard_param_start := shard_bucket_start - bucket_start + param_start in
  let shard_param_end := shard_param_start + shard_end - shard_start in
  {| param_group_id := k.1; param_id := k.2; bucket_id := bucket_id;
     param_range := (param_start, param_end);
     bucket_range := (bucket_start, bucket_end);
     in_local_shard := in_local_shard;
     shard_range := if in_local_shard then Some (shard_start, shard_end) else None;
     shard_bucket_range :=
       if in_local_shard then Some (shard_bucket_start, shard_bucket_end) else None;
     shard_param_range :=
       if in_local_shard then Some (shard_param_start, shard_param_end) else None |}.

(** One iteration of the loop "Split parameter values into fragments".
    The state of the loop is [param_start], the bucket list and the
    fragment list of the parameter. *)
Definition split_iter (c : Config) (k : ParamKey) (param_size : Z)
    (param_start : Z) (buckets : list (StateBucket T))
    (frags : list ParameterFragment)
  : result (Z * list (StateBucket T) * list ParameterFragment) :=
  let bucket_id := (length buckets - 1)%nat in
  match last buckets with
  | None => Raise IndexError
  | Some bucket =>
    bucket_start ← _round_to_multiple (filled_size bucket) (alignment c) true;
    let fragment_size :=
      Z.min (param_size - param_start) (bucket_size bucket - bucket_start) in
    let param_end := param_start + fragment_size in
    let bucket_end := bucket_start + fragment_size in
    if (fragment_size <=? 0) || negb (able_to_fill bucket) then
      nb ← new_bucket c (contiguous_buffer_offset bucket + bucket_size bucket);
      Ok (param_start, buckets ++ [nb], frags)
    else
      let fragment :=
        make_fragment c k bucket_id (shard_size bucket)
          param_start param_end bucket_start bucket_end in
      let bucket' :=
        set_filled_size bucket_end
          (set_fragments (fragments bucket ++ [fragment]) bucket) in
      Ok (param_end, <[bucket_id := bucket']> buckets, frags ++ [fragment])
  end.

(** The loop [while param_start < param_size]; [fuel] bounds the number
    of iterations. *)
Fixpoint split_param (fuel : nat) (c : Config) (k : ParamKey) (param_size : Z)
    (param_start : Z) (buckets : list (StateBucket T))
    (frags : list ParameterFragment)
  : result (list (StateBucket T) * list ParameterFragment) :=
  if negb (param_start <? param_size) then Ok (buckets, frags)
  else match fuel with
  | O => OutOfFuel
  | S fuel' =>
    '(param_start', buckets', frags') ←
      split_iter c k param_size param_start buckets frags;
    split_param fuel' c k param_size param_start' buckets' frags'
  end.

(** Iterations that suffice for a parameter of [param_size] elements. *)
Definition split_fuel (param_size : Z) : nat := (2 * Z.to_nat param_size + 1)%nat.

(** One iteration of "Initialize main param buffer". *)
Definition init_main_param (param : list T) (buckets : list (StateBucket T))
    (fragment : ParameterFragment) : result (list (StateBucket T)) :=
  if in_local_shard fragment then
    match buckets !! bucket_id fragment with
    | None => Raise IndexError
    | Some bucket =>
      match shard_param_range fragment, shard_range fragment, params_shard bucket with
      | Some (param_start, param_end), Some (shard_start, shard_end), Some ps =>
        let model_param_fragment := tensor_slice param param_start param_end in
        ps' ← slice_copy_ ps shard_start shard_end model_param_fragment;
        Ok (<[bucket_id fragment := set_params_shard (Some ps') bucket]> buckets)
      | _, _, _ => Raise AttributeError
      end
    end
  else Ok buckets.

Fixpoint init_main_params (param : list T) (buckets : list (StateBucket T))
    (frags : list ParameterFragment) : result (list (StateBucket T)) :=
  match frags with
  | [] => Ok buckets
  | f :: frags' =>
    buckets' ← init_main_param param buckets f;
    init_main_params param buckets' frags'
  end.

(** "Make sure there is at least one bucket". *)
Definition ensure_bucket (c : Config) (buckets : list (StateBucket T))
  : result (list (StateBucket T)) :=
  match buckets with
  | [] => nb ← new_bucket c 0; Ok [nb]
  | _ => Ok buckets
  end.

(** [_init_param_state(param, param_group_id, param_id)] with
    [k = (param_group_id, param_id)] the position of [param]. *)
Definition _init_param_state (k : ParamKey) (st : Optimizer T)
  : result (Optimizer T) :=
  match state_fragments st !! k with
  | Some _ => Ok st
  | None =>
    match lookup_param st k with
    | None => Raise KeyError
    | Some param =>
      let c := config st in
      buckets ← ensure_bucket c (state_buckets st);
      let param_size := Z.of_nat (length param) in
      '(buckets, frags) ←
        split_param (split_fuel param_size) c k param_size 0 buckets [];
      buckets ←
        (if store_params c then init_main_params param buckets frags
         else Ok buckets);
      Ok (set_state_buckets buckets
            (set_state_fragments (<[k := frags]> (state_fragments st)) st))
    end
  end.
End Mapper.

(** ** Gradient buckets *)

(** The collective operations, external to the optimizer: what
    [reduce_scatter_tensor] leaves in the output shard for a given local
    bucket, what [all_reduce] leaves in the buffer (the boolean tells
    whether the reduction is [ReduceOp.AVG] or [ReduceOp.SUM]), and what
    [all_gather_into_tensor] leaves in the output bucket for a given local
    shard. *)
Class Collectives (T : Type) := {
  reduce_scatter_tensor : bool → Z → list T → list T;
  all_reduce : bool → list T → list T;
  all_gather_into_tensor : Z → list T → list T;
}.

Section GradientSync.
Context {T : Type} `{TensorElt T} `{Collectives T}.
Implicit Types (st : Optimizer T) (b : GradientBucket T).

Definition set_grads_shard (x : option (list T)) b : GradientBucket T :=
  {| grads_shard := x; grads_bucket := grads_bucket b;
     sync_grads_shard := sync_grads_shard b; status := status b;
     grads_generated := grads_generated b |}.

Definition set_grads_bucket (x : option (list T)) b : GradientBucket T :=
  {| grads_shard := grads_shard b; grads_bucket := x;
     sync_grads_shard := sync_grads_shard b; status := status b;
     grads_generated := grads_generated b |}.

Definition set_sync_grads_shard (x : option (list T)) b : GradientBucket T :=
  {| grads_shard := grads_shard b; grads_bucket := grads_bucket b;
     sync_grads_shard := x; status := status b;
     grads_generated := grads_generated b |}.

Definition set_status (x : GradientStatus) b : GradientBucket T :=
  {| grads_shard := grads_shard b; grads_bucket := grads_bucket b;
     sync_grads_shard := sync_grads_shard b; status := x;
     grads_generated := grads_generated b |}.

Definition set_grads_generated (x : gset ParamKey) b : GradientBucket T :=
  {| grads_shard := grads_shard b; grads_bucket := grads_bucket b;
     sync_grads_shard := sync_grads_shard b; status := status b;
     grads_generated := x |}.

(** [self._grads_buckets[bucket_id]]: the bucket read from the
    [defaultdict] ... *)
Definition grads_bucket_at (bucket_id : nat) st : GradientBucket T :=
  default GradientBucket_init (_grads_buckets st !! bucket_id).

(** ... and the dictionary after the read, which creates a missing entry. *)
Definition touch_grads_bucket (bucket_id : nat) st : Optimizer T :=
  set_grads_buckets
    (<[bucket_id := grads_bucket_at bucket_id st]> (_grads_buckets st)) st.

(** Update of the bucket object stored under [bucket_id]. *)
Definition update_grads_bucket (bucket_id : nat)
    (f : GradientBucket T → GradientBucket T) st : Optimizer T :=
  set_grads_buckets
    (<[bucket_id := f (grads_bucket_at bucket_id st)]> (_grads_buckets st)) st.

(** The owners of the fragments of a bucket that are not in the set
    [generated]. *)
Definition pending_params (sb : option (StateBucket T)) (generated : gset ParamKey)
  : list ParamKey :=
  filter (λ k, k ∉ generated) (fragment_key <$> default [] (fragments <$> sb)).

(** [bucket.status = s] *)
Definition write_status (bucket_id : nat) (s : GradientStatus) st : Optimizer T :=
  set_status_log
    (status_log st ++
       [{| sw_bucket := bucket_id;
           sw_old := status (grads_bucket_at bucket_id st); sw_new := s;
           sw_pending :=
             pending_params (state_buckets st !! bucket_id)
               (grads_generated (grads_bucket_at bucket_id st)) |}])
    (update_grads_bucket bucket_id (set_status s) st).

(** The keys of [sorted(self._grads_buckets.items())]. *)
Definition sorted_bucket_ids st : list nat :=
  merge_sort (≤)%nat (elements (dom (_grads_buckets st))).

(** Body of the loop of [_finish_bucket_grad_sync] (without the
    assignment [self._grad_norm = None], see the conventions). *)
Definition finish_bucket (bucket_id : nat) st : result (Optimizer T) :=
  let bucket := grads_bucket_at bucket_id st in
  if decide (status bucket = SYNCING) then
    shard ←
      match grads_shard bucket with
      | None => Ok (sync_grads_shard bucket)
      | Some sh =>
        match sync_grads_shard bucket with
        | None => Raise TypeError
        | Some sy => sh' ← tensor_add_ sh sy; Ok (Some sh')
        end
      end;
    let st :=
      update_grads_bucket bucket_id
        (λ b, set_sync_grads_shard None
                (set_grads_bucket None (set_grads_shard shard b))) st in
    Ok (write_status bucket_id READY st)
  else Ok st.

(** [_finish_bucket_grad_sync] *)
Definition _finish_bucket_grad_sync st : result (Optimizer T) :=
  for_each finish_bucket (sorted_bucket_ids st) st.

(** "Initialize grad state and buffers", one bucket. *)
Definition start_bucket (bucket_id : nat) st : result (Optimizer T) :=
  st ← (if decide (status (grads_bucket_at bucket_id st) = SYNCING)
        then _finish_bucket_grad_sync st else Ok st);
  let st := write_status bucket_id SYNCING st in
  let st := update_grads_bucket bucket_id (set_grads_generated ∅) st in
  let bucket := grads_bucket_at bucket_id st in
  let D := distributed_size (config st) in
  if D =? 1 then
    Ok (update_grads_bucket bucket_id
          (set_sync_grads_shard (grads_bucket bucket)) st)
  else
    match grads_bucket bucket with
    | None => Raise AttributeError
    | Some g =>
      if D =? 0 then Raise ZeroDivisionError
      else
        let shard_size := Z.of_nat (length g) / D in
        (* [torch.empty]: the values are those the collective writes *)
        z ← zeros shard_size;
        Ok (update_grads_bucket bucket_id (set_sync_grads_shard (Some z)) st)
    end.

(** "Reduce-scatter over distributed process group", one bucket. *)
Definition reduce_scatter_bucket (bucket_id : nat) st : result (Optimizer T) :=
  let bucket := grads_bucket_at bucket_id st in
  let c := config st in
  match grads_bucket bucket with
  | None => Raise TypeError
  | Some g =>
    Ok (update_grads_bucket bucket_id
          (set_sync_grads_shard
             (Some (reduce_scatter_tensor (average_grad_sync c)
                      (distributed_size c) g))) st)
  end.

(** "All-reduce over redundant process group", one bucket.  With a
    distributed group of one process the reduced buffer is the gradient
    bucket itself. *)
Definition all_reduce_bucket (bucket_id : nat) st : result (Optimizer T) :=
  let bucket := grads_bucket_at bucket_id st in
  let c := config st in
  match sync_grads_shard bucket with
  | None => Raise TypeError
  | Some s =>
    let r := Some (all_reduce (average_grad_sync c) s) in
    Ok (update_grads_bucket bucket_id
          (λ b, set_sync_grads_shard r
                  (if distributed_size c =? 1 then set_grads_bucket r b else b))
          st)
  end.

(** [_start_bucket_grad_sync(buckets)], the buckets given by their ids. *)
Definition _start_bucket_grad_sync (buckets : list nat) st
  : result (Optimizer T) :=
  st ← _finish_bucket_grad_sync st;
  st ← for_each start_bucket buckets st;
  st ← (if 1 <? distributed_size (config st)
        then for_each reduce_scatter_bucket buckets st else Ok st);
  if 1 <? redundant_size (config st)
  then for_each all_reduce_bucket buckets st else Ok st.

(** Body of the loop "Copy param grad to buckets". *)
Definition grad_copy_fragment (k : ParamKey) (fragment : ParameterFragment) st
  : result (Optimizer T) :=
  let bucket_id := bucket_id fragment in
  let st := touch_grads_bucket bucket_id st in
  match state_buckets st !! bucket_id with
  | None => Raise IndexError
  | Some sb =>
    let '(grad_start, grad_end) := param_range fragment in
    let '(bucket_start, bucket_end) := bucket_range fragment in
    st ← (if decide (status (grads_bucket_at bucket_id st) = SYNCING)
          then _finish_bucket_grad_sync st else Ok st);
    let st := write_status bucket_id PARTIALLY_FILLED st in
    st ← match grads_bucket (grads_bucket_at bucket_id st) with
         | Some _ => Ok st
         | None =>
           z ← zeros (bucket_size sb);
           Ok (update_grads_bucket bucket_id (set_grads_bucket (Some z)) st)
         end;
    match param_grad st !! k, grads_bucket (grads_bucket_at bucket_id st) with
    | Some grad, Some gb =>
      let grad_in := tensor_slice grad grad_start grad_end in
      gb' ← slice_add_ gb bucket_start bucket_end grad_in;
      Ok (update_grads_bucket bucket_id (set_grads_bucket (Some gb')) st)
    | Some _, None => Raise TypeError
    | None, _ => Ok st
    end
  end.

(** [_grad_copy(param)] *)
Definition _grad_copy (k : ParamKey) st : result (Optimizer T) :=
  st ← match state_fragments st !! k with
       | Some _ => Ok st
       | None =>
         st ← (if decide (is_Some (lookup_param st k))
               then _init_param_state k st else Ok st);
         match state_fragments st !! k with
         | Some _ => Ok st
         | None =>
           Raise (RuntimeError
                    "Could not initialize DistributedFusedAdam with parameter")
         end
       end;
  st ← for_each (grad_copy_fragment k) (default [] (state_fragments st !! k)) st;
  Ok (set_param_grad (delete k (param_grad st)) st).

(** Body of the loop "Register params that have generated grads". *)
Definition register_grad (k : ParamKey) (fragment : ParameterFragment) st
  : result (Optimizer T) :=
  let bucket_id := bucket_id fragment in
  let st := touch_grads_bucket bucket_id st in
  match state_buckets st !! bucket_id with
  | None => Raise IndexError
  | Some sb =>
    let st :=
      update_grads_bucket bucket_id
        (λ b, set_grads_generated ({[k]} ∪ grads_generated b) b) st in
    if decide (size (grads_generated (grads_bucket_at bucket_id st))
               = length (fragments sb)) then
      let st := write_status bucket_id FULLY_FILLED st in
      match grads_bucket (grads_bucket_at bucket_id st) with
      | Some _ => Ok st
      | None =>
        z ← zeros (bucket_size sb);
        Ok (update_grads_bucket bucket_id (set_grads_bucket (Some z)) st)
      end
    else Ok st
  end.

Definition register_grads (k : ParamKey) st : result (Optimizer T) :=
  match state_fragments st !! k with
  | None => Raise KeyError
  | Some frags => for_each (register_grad k) frags st
  end.

(** [_try_start_bucket_grad_sync(params, ignore_last_bucket)] *)
Definition _try_start_bucket_grad_sync (params : list ParamKey)
    (ignore_last_bucket : bool) st : result (Optimizer T) :=
  st ← for_each register_grads params st;
  let filled_buckets :=
    filter (λ bucket_id,
              ¬ (ignore_last_bucket = true
                 ∧ Z.of_nat bucket_id = Z.of_nat (length (state_buckets st)) - 1)
              ∧ status (grads_bucket_at bucket_id st) = FULLY_FILLED)
           (sorted_bucket_ids st) in
  match filled_buckets with
  | [] => Ok st
  | _ => _start_bucket_grad_sync filled_buckets st
  end.

(** Body of the loop "Synchronize all unsynchronized buckets". *)
Definition force_prepare_bucket (bucket_id : nat) st : result (Optimizer T) :=
  let bucket := grads_bucket_at bucket_id st in
  if decide (status bucket ≠ READY ∧ status bucket ≠ SYNCING) then
    match grads_bucket bucket with
    | Some _ => Ok st
    | None =>
      match state_buckets st !! bucket_id with
      | None => Raise IndexError
      | Some sb =>
        z ← zeros (bucket_size sb);
        Ok (update_grads_bucket bucket_id (set_grads_bucket (Some z)) st)
      end
    end
  else Ok st.

(** Body of the loop "Fill any unsynchronized gradients with zeros". *)
Definition force_fill_bucket (bucket_id : nat) st : result (Optimizer T) :=
  let st := touch_grads_bucket bucket_id st in
  match grads_shard (grads_bucket_at bucket_id st) with
  | Some _ => Ok st
  | None =>
    match state_buckets st !! bucket_id with
    | None => Raise IndexError
    | Some sb =>
      z ← zeros (shard_size sb);
      Ok (update_grads_bucket bucket_id (set_grads_shard (Some z)) st)
    end
  end.

(** [_force_bucket_grad_sync] *)
Definition _force_bucket_grad_sync st : result (Optimizer T) :=
  let ids := sorted_bucket_ids st in
  let buckets :=
    filter (λ bucket_id,
              status (grads_bucket_at bucket_id st) ≠ READY
              ∧ status (grads_bucket_at bucket_id st) ≠ SYNCING) ids in
  st ← for_each force_prepare_bucket ids st;
  st ← match buckets with
       | [] => Ok st
       | _ => _start_bucket_grad_sync buckets st
       end;
  st ← _finish_bucket_grad_sync st;
  for_each force_fill_bucket (seq 0 (length (state_buckets st))) st.

(** [grad_sync] *)
Definition grad_sync st : result (Optimizer T) :=
  let keys :=
    fragment_key <$> concat (fragments <$> state_buckets st) in
  st ← for_each
         (λ k st,
            match lookup_param st k with
            | None => Raise IndexError
            | Some _ =>
              match param_grad st !! k with
              | Some _ =>
                st ← _grad_copy k st;
                _try_start_bucket_grad_sync [k] false st
              | None => Ok st
              end
            end) keys st;
  _force_bucket_grad_sync st.

(** The keys of [self.parameters()]. *)
Definition parameters st : list ParamKey :=
  concat (imap (λ g grp, imap (λ i _, (g, i)) grp) (param_groups st)).

(** [zero_grad(set_to_none)] (without the block "Reset other state",
    see the conventions). *)
Definition zero_grad (set_to_none : bool) st : Optimizer T :=
  let st := set_grads_buckets ∅ st in
  if set_to_none then set_param_grad ∅ st
  else set_param_grad
         ((λ g, replicate (length g) tzero) <$> param_grad st) st.
End GradientSync.

(** ** Parameter buckets *)

Section ParamSync.
Context {T : Type} `{TensorElt T} `{Collectives T}.
Implicit Types (st : Optimizer T).

(** [self._params_buckets[bucket_id]] *)
Definition params_bucket_at (bucket_id : nat) st
  : option (ParameterBucket.t T) :=
  snd <$> head (filter (λ x, x.1 = bucket_id) (_params_buckets st)).

Definition update_params_bucket (bucket_id : nat)
    (f : ParameterBucket.t T → ParameterBucket.t T) st : Optimizer T :=
  set_params_buckets
    ((λ x, if decide (x.1 = bucket_id) then (x.1, f x.2) else x)
       <$> _params_buckets st) st.

(** [del self._params_buckets[bucket_id]] *)
Definition delete_params_bucket (bucket_id : nat) st : Optimizer T :=
  set_params_buckets (filter (λ x, x.1 ≠ bucket_id) (_params_buckets st)) st.

(** [_finish_bucket_param_sync] *)
Definition _finish_bucket_param_sync st : Optimizer T :=
  set_params_buckets
    ((λ x, if decide (ParameterBucket.status x.2 = ParameterStatus.SYNCING)
           then (x.1, {| ParameterBucket.params_shard := None;
                         ParameterBucket.params_bucket :=
                           ParameterBucket.params_bucket x.2;
                         ParameterBucket.status := ParameterStatus.READY;
                         ParameterBucket.params_updated :=
                           ParameterBucket.params_updated x.2 |})
           else x) <$> _params_buckets st) st.

(** "Initialize param state and buffers", one bucket. *)
Definition start_param_bucket (bucket_id : nat) st : result (Optimizer T) :=
  match params_bucket_at bucket_id st with
  | None => Raise KeyError
  | Some bucket =>
    let D := distributed_size (config st) in
    params_bucket ←
      (if D =? 1 then Ok (ParameterBucket.params_shard bucket)
       else match ParameterBucket.params_bucket bucket with
            | Some pb => Ok (Some pb)
            | None =>
              match ParameterBucket.params_shard bucket with
              | None => Raise AttributeError
              | Some sh =>
                (* [torch.empty]: the values are those the collective writes *)
                z ← zeros (Z.of_nat (length sh) * D); Ok (Some z)
              end
            end);
    Ok (update_params_bucket bucket_id
          (λ b, {| ParameterBucket.params_shard := ParameterBucket.params_shard b;
                   ParameterBucket.params_bucket := params_bucket;
                   ParameterBucket.status := ParameterStatus.SYNCING;
                   ParameterBucket.params_updated :=
                     ParameterBucket.params_updated b |}) st)
  end.

(** "All-gather over distributed process group", one bucket. *)
Definition all_gather_bucket (bucket_id : nat) st : result (Optimizer T) :=
  match params_bucket_at bucket_id st with
  | None => Raise KeyError
  | Some bucket =>
    match ParameterBucket.params_shard bucket with
    | None => Raise TypeError
    | Some sh =>
      Ok (update_params_bucket bucket_id
            (λ b, {| ParameterBucket.params_shard := ParameterBucket.params_shard b;
                     ParameterBucket.params_bucket :=
                       Some (all_gather_into_tensor
                               (distributed_size (config st)) sh);
                     ParameterBucket.status := ParameterBucket.status b;
                     ParameterBucket.params_updated :=
                       ParameterBucket.params_updated b |}) st)
    end
  end.

(** [_start_bucket_param_sync(buckets)], the buckets given by their ids. *)
Definition _start_bucket_param_sync (buckets : list nat) st
  : result (Optimizer T) :=
  let st := _finish_bucket_param_sync st in
  let buckets :=
    filter (λ bucket_id,
              ParameterBucket.status <$> params_bucket_at bucket_id st
              = Some ParameterStatus.SHARDED) buckets in
  st ← for_each start_param_bucket buckets st;
  if 1 <? distributed_size (config st)
  then for_each all_gather_bucket buckets st else Ok st.

(** [param.detach().view(-1)[start:stop].copy_(src)] *)
Definition param_slice_copy_ (k : ParamKey) (start stop : Z) (src : list T) st
  : result (Optimizer T) :=
  match param_groups st !! k.1 with
  | None => Raise IndexError
  | Some grp =>
    match grp !! k.2 with
    | None => Raise IndexError
    | Some param =>
      param' ← slice_copy_ param start stop src;
      Ok (set_param_groups
            (<[k.1 := <[k.2 := param']> grp]> (param_groups st)) st)
    end
  end.

(** "Copy values from bucket buffers to params", one fragment. *)
Definition param_copy_fragment (fragment : ParameterFragment) st
  : result (Optimizer T) :=
  let '(bucket_start, bucket_end) := bucket_range fragment in
  let '(param_start, param_end) := param_range fragment in
  if param_start <? param_end then
    match params_bucket_at (bucket_id fragment) st with
    | None => Raise KeyError
    | Some bucket =>
      match ParameterBucket.params_bucket bucket with
      | None => Raise TypeError
      | Some pb =>
        let src := tensor_slice pb bucket_start bucket_end in
        match src with
        | [] => Ok st
        | _ => param_slice_copy_ (fragment_key fragment) param_start param_end src st
        end
      end
    end
  else Ok st.

(** "Delete buckets if possible", one fragment. *)
Definition param_bucket_done (fragment : ParameterFragment) st
  : result (Optimizer T) :=
  let bucket_id := bucket_id fragment in
  match params_bucket_at bucket_id st with
  | None => Raise KeyError
  | Some _ =>
    match state_buckets st !! bucket_id with
    | None => Raise IndexError
    | Some sb =>
      let st :=
        update_params_bucket bucket_id
          (λ b, {| ParameterBucket.params_shard := ParameterBucket.params_shard b;
                   ParameterBucket.params_bucket := ParameterBucket.params_bucket b;
                   ParameterBucket.status := ParameterBucket.status b;
                   ParameterBucket.params_updated :=
                     {[fragment_key fragment]} ∪ ParameterBucket.params_updated b |})
          st in
      if decide ((size <$> (ParameterBucket.params_updated
                              <$> params_bucket_at bucket_id st))
                 = Some (length (fragments sb)))
      then Ok (delete_params_bucket bucket_id st)
      else Ok st
    end
  end.

(** [_param_copy(params)] *)
Definition _param_copy (params : list ParamKey) st : result (Optimizer T) :=
  let frags :=
    concat ((λ k,
               filter (λ f, is_Some (params_bucket_at (bucket_id f) st))
                      (default [] (state_fragments st !! k))) <$> params) in
  let bucket_ids := remove_dups (bucket_id <$> frags) in
  st ← (if decide (Exists (λ bucket_id,
                       ParameterBucket.status <$> params_bucket_at bucket_id st
                       ≠ Some ParameterStatus.READY) bucket_ids)
        then st ← _start_bucket_param_sync bucket_ids st;
             Ok (_finish_bucket_param_sync st)
        else Ok st);
  st ← for_each param_copy_fragment frags st;
  for_each param_bucket_done frags st.

(** [_try_start_bucket_param_sync(params)] *)
Definition _try_start_bucket_param_sync (params : option (list ParamKey)) st
  : result (Optimizer T) :=
  params ←
    match params with
    | Some ps => Ok (Some ps)
    | None =>
      if decide (Exists (λ x, ParameterBucket.status x.2 = ParameterStatus.SYNCING)
                        (_params_buckets st))
      then Ok None
      else
        match head (filter (λ x, ParameterBucket.status x.2 = ParameterStatus.SHARDED)
                           (_params_buckets st)) with
        | None => Ok (Some [])
        | Some x =>
          match state_buckets st !! x.1 with
          | None => Raise IndexError
          | Some sb =>
            match last (fragments sb) with
            | None => Raise IndexError
            | Some fragment => Ok (Some [fragment_key fragment])
            end
          end
        end
    end;
  match params with
  | None => Ok st
  | Some params =>
    frags ← for_each
              (λ k acc, match state_fragments st !! k with
                        | None => Raise KeyError
                        | Some fs => Ok (acc ++ fs)
                        end) params [];
    let bucket_ids : gset nat := list_to_set (bucket_id <$> frags) in
    let buckets :=
      filter (λ bucket_id,
                ParameterBucket.status <$> params_bucket_at bucket_id st
                = Some ParameterStatus.SHARDED)
             (merge_sort (≤)%nat (elements bucket_ids)) in
    match buckets with
    | [] => Ok st
    | _ => _start_bucket_param_sync buckets st
    end
  end.

(** The loop of [param_sync]; [fuel] bounds the number of iterations. *)
Fixpoint param_sync_loop (fuel : nat) st : result (Optimizer T) :=
  match _params_buckets st with
  | [] => Ok st
  | (bucket_id, _) :: _ =>
    match fuel with
    | O => OutOfFuel
    | S fuel' =>
      match state_buckets st !! bucket_id with
      | None => Raise IndexError
      | Some sb =>
        st ← for_each (λ f st, _param_copy [fragment_key f] st)
               (reverse (fragments sb)) st;
        param_sync_loop fuel' st
      end
    end
  end.

(** [param_sync]: every iteration of the loop is expected to discard at
    least the first bucket. *)
Definition param_sync st : result (Optimizer T) :=
  st ← param_sync_loop (length (_params_buckets st)) st;
  Ok (set_params_buckets [] st).
End ParamSync.

(** ** Hooks *)

Section Hooks.
Context {T : Type} `{TensorElt T} `{Collectives T}.
Implicit Types (st : Optimizer T).

(** [getattr(param, "_pre_forward_hook_is_enabled", False)] *)
Definition hook_is_enabled (k : ParamKey) st : bool :=
  default false (pre_forward_hook_is_enabled st !! k).

(** The callback made by [_make_post_backward_hook(param, param_group_id,
    param_id)]. *)
Definition post_backward_hook (k : ParamKey) st : result (Optimizer T) :=
  if hook_is_enabled k st then
    Raise (RuntimeError
      "A parameter called its post-backward hook before its pre-forward hook. Please manually interact with the parameter before the forward pass (e.g. by calling data_ptr) or run DistributedFusedAdam with overlap_param_sync=False.")
  else
    let need_to_initialize := bool_decide (state_fragments st !! k = None) in
    st ← (if need_to_initialize then _init_param_state k st else Ok st);
    if greedy_grad_copy (config st) then
      st ← _grad_copy k st;
      if overlap_grad_sync (config st)
      then _try_start_bucket_grad_sync [k] need_to_initialize st
      else Ok st
    else Ok st.

(** The callback made by [_make_pre_forward_hook(param, param_group_id,
    param_id)]. *)
Definition pre_forward_hook (k : ParamKey) st : result (Optimizer T) :=
  match state_fragments st !! k with
  | None => Ok st
  | Some _ =>
    st ← _param_copy [k] st;
    if overlap_param_sync (config st)
    then _try_start_bucket_param_sync None st
    else Ok st
  end.

(** [getattribute_with_pre_forward_hook(param, name)] for a [name] that is
    not one of the special attributes: the read of a parameter. *)
Definition getattribute_with_pre_forward_hook (k : ParamKey) st
  : result (Optimizer T) :=
  if hook_is_enabled k st then
    pre_forward_hook k
      (set_pre_forward_hook_is_enabled
         (<[k := false]> (pre_forward_hook_is_enabled st)) st)
  else Ok st.
End Hooks.

(** ** Checkpoints in the v2 format *)

(** The buffers that the state dictionary holds for one parameter. *)
Record ParamState {T : Type} := {
  sd_param : list T;
  sd_exp_avg : list T;
  sd_exp_avg_sq : list T;
}.
Arguments ParamState : clear implicits.

(** The keys ["param"], ["exp_avg"] and ["exp_avg_sq"]. *)
Inductive StateKey := KeyParam | KeyExpAvg | KeyExpAvgSq.

(** The state dictionary: [state_dict["state"]["step"]] and the entries
    [state_dict["state"][index]]. *)
Record StateDict {T : Type} := {
  sd_step : Z;
  sd_state : gmap nat (ParamState T);
}.
Arguments StateDict : clear implicits.

Section Checkpoint.
Context {T : Type} `{TensorElt T} `{Collectives T}.
Implicit Types (st : Optimizer T) (sd : StateDict T).

Definition get_state (key : StateKey) (ps : ParamState T) : list T :=
  match key with
  | KeyParam => sd_param ps
  | KeyExpAvg => sd_exp_avg ps
  | KeyExpAvgSq => sd_exp_avg_sq ps
  end.

Definition set_state (key : StateKey) (v : list T) (ps : ParamState T)
  : ParamState T :=
  match key with
  | KeyParam =>
    {| sd_param := v; sd_exp_avg := sd_exp_avg ps; sd_exp_avg_sq := sd_exp_avg_sq ps |}
  | KeyExpAvg =>
    {| sd_param := sd_param ps; sd_exp_avg := v; sd_exp_avg_sq := sd_exp_avg_sq ps |}
  | KeyExpAvgSq =>
    {| sd_param := sd_param ps; sd_exp_avg := sd_exp_avg ps; sd_exp_avg_sq := v |}
  end.

(** [state_dict["param_groups"][param_group_id]["params"][param_id]]: the
    base class numbers the parameters consecutively over the groups. *)
Definition param_index (pg : list (list (list T))) (k : ParamKey) : result nat :=
  match pg !! k.1 ≫= (λ grp, grp !! k.2) with
  | None => Raise IndexError
  | Some _ => Ok (foldr Nat.add 0%nat (length <$> take k.1 pg) + k.2)%nat
  end.

(** [l[i]] for a Python list. *)
Definition list_index {A} (l : list A) (i : Z) : result A :=
  let j := if i <? 0 then i + Z.of_nat (length l) else i in
  if j <? 0 then Raise IndexError
  else match l !! Z.to_nat j with
       | Some x => Ok x
       | None => Raise IndexError
       end.

(** [max(xs)] for a Python iterable of integers. *)
Definition py_max (xs : list Z) : result Z :=
  match xs with
  | [] => Raise ValueError
  | x :: xs' => Ok (foldl Z.max x xs')
  end.

(** [bucket_id % self.pipeline_size] *)
Definition stream_id_of (bucket_id : nat) st : result Z :=
  if pipeline_size (config st) =? 0 then Raise ZeroDivisionError
  else Ok (Z.of_nat bucket_id `mod` pipeline_size (config st)).

(** [init_params()] for all parameters. *)
Definition init_params st : result (Optimizer T) :=
  for_each (λ k st, match state_fragments st !! k with
                    | Some _ => Ok st
                    | None => _init_param_state k st
                    end) (parameters st) st.

(** "Make sure params are initialized" and "Finish any asynchronous
    communication". *)
Definition checkpoint_prepare st : result (Optimizer T) :=
  st ← init_params st;
  st ← grad_sync st;
  param_sync st.

(** "Initialize state dict with CPU buffers" *)
Definition init_state_dict st : result (StateDict T) :=
  entries ←
    for_each (λ k (entries : gmap nat (ParamState T)),
                match state_fragments st !! k with
                | None => Raise KeyError
                | Some [] => Raise IndexError
                | Some (fragment :: _) =>
                  index ← param_index (param_groups st) (fragment_key fragment);
                  match lookup_param st k with
                  | None => Raise IndexError
                  | Some param =>
                    let z := replicate (length param) tzero in
                    Ok (<[index := {| sd_param := z; sd_exp_avg := z;
                                      sd_exp_avg_sq := z |}]> entries)
                  end
                end) (parameters st) ∅;
  Ok {| sd_step := state_step st; sd_state := entries |}.

(** [pack_param_shard(bucket_id)], cases 1 and 3.  The workspace of case 3
    is [torch.empty] memory, taken as zeros. *)
Definition pack_param_shard (bucket_id : nat) st : result (list T) :=
  _ ← stream_id_of bucket_id st;
  match state_buckets st !! bucket_id with
  | None => Raise IndexError
  | Some bucket =>
    if store_params (config st) then
      match params_shard bucket with
      | Some shard => Ok shard
      | None => Raise TypeError
      end
    else
      shard ← zeros (shard_size bucket);
      for_each (λ fragment shard,
                  if in_local_shard fragment then
                    match shard_param_range fragment, shard_range fragment,
                          lookup_param st (fragment_key fragment) with
                    | Some (param_start, param_end), Some (shard_start, shard_end),
                      Some param =>
                      (* [_multi_tensor_copy] skips an empty input *)
                      match tensor_slice param param_start param_end with
                      | [] => Ok shard
                      | buf_in => slice_copy_ shard shard_start shard_end buf_in
                      end
                    | _, _, None => Raise IndexError
                    | _, _, _ => Raise TypeError
                    end
                  else Ok shard) (fragments bucket) shard
  end.

(** The shard of a bucket that a rank sends in the gather for [key]. *)
Definition checkpoint_shard (key : StateKey) (bucket_id : nat) st
  : result (list T) :=
  match key with
  | KeyParam => pack_param_shard bucket_id st
  | KeyExpAvg =>
    match state_buckets st !! bucket_id with
    | None => Raise IndexError
    | Some bucket => Ok (exp_avg_shard bucket)
    end
  | KeyExpAvgSq =>
    match state_buckets st !! bucket_id with
    | None => Raise IndexError
    | Some bucket => Ok (exp_avg_sq_shard bucket)
    end
  end.

(** [start_gather(bucket_id, shard)] on the root rank: the shard of rank
    [i] arrives in [bucket_buffers[stream_id][:bucket_size][i * shard_size :
    (i + 1) * shard_size]]. *)
Definition start_gather (root : Optimizer T) (bucket_id : nat)
    (shards : list (list T)) (bucket_buffers : list (list T))
  : result (list (list T)) :=
  stream_id ← stream_id_of bucket_id root;
  match state_buckets root !! bucket_id with
  | None => Raise IndexError
  | Some bucket =>
    buffer ← list_index bucket_buffers stream_id;
    let '(off, cnt) := slice_bounds (length buffer) 0 (bucket_size bucket) in
    buffer' ←
      for_each (λ '(i, shard) buffer,
                  let '(o, n) :=
                    slice_bounds cnt (Z.of_nat i * shard_size bucket)
                      ((Z.of_nat i + 1) * shard_size bucket) in
                  if decide (length shard = n)
                  then Ok (take (off + o) buffer ++ shard
                           ++ drop (off + o + n) buffer)
                  else Raise (RuntimeError "gather size mismatch"))
               (imap pair shards) buffer;
    Ok (<[Z.to_nat (if stream_id <? 0
                    then stream_id + Z.of_nat (length bucket_buffers)
                    else stream_id) := buffer']> bucket_buffers)
  end.

(** [finish_gather(bucket_id, state_dict_key)] on the root rank. *)
Definition finish_gather (root : Optimizer T) (bucket_id : nat) (key : StateKey)
    (bucket_buffers : list (list T)) sd : result (StateDict T) :=
  stream_id ← stream_id_of bucket_id root;
  match state_buckets root !! bucket_id with
  | None => Raise IndexError
  | Some bucket =>
    buffer ← list_index bucket_buffers stream_id;
    let bucket_buffer := tensor_slice buffer 0 (bucket_size bucket) in
    for_each (λ fragment sd,
                let '(param_start, param_end) := param_range fragment in
                let '(bucket_start, bucket_end) := bucket_range fragment in
                index ← param_index (param_groups root) (fragment_key fragment);
                match sd_state sd !! index with
                | None => Raise KeyError
                | Some entry =>
                  let bucket_fragment :=
                    tensor_slice bucket_buffer bucket_start bucket_end in
                  state_buffer ←
                    slice_copy_ (get_state key entry) param_start param_end
                      bucket_fragment;
                  Ok {| sd_step := sd_step sd;
                        sd_state :=
                          <[index := set_state key state_buffer entry]>
                            (sd_state sd) |}
                end) (fragments bucket) sd
  end.

(** One of the loops "Gather param state", "Gather exp_avg state" and
    "Gather exp_avg_sq state". *)
Definition gather_state (world : list (Optimizer T)) (root : Optimizer T)
    (key : StateKey) (acc : list (list T) * StateDict T)
  : result (list (list T) * StateDict T) :=
  let num_buckets := length (state_buckets root) in
  for_each (λ bucket_id '(bucket_buffers, sd),
              shards ← for_each (λ rank acc,
                                   shard ← checkpoint_shard key bucket_id rank;
                                   Ok (acc ++ [shard])) world [];
              bucket_buffers ← start_gather root bucket_id shards bucket_buffers;
              sd ← (if decide (0 < bucket_id)%nat
                    then finish_gather root (bucket_id - 1) key bucket_buffers sd
                    else Ok sd);
              sd ← (if decide (bucket_id = num_buckets - 1)%nat
                    then finish_gather root bucket_id key bucket_buffers sd
                    else Ok sd);
              Ok (bucket_buffers, sd))
           (seq 0 num_buckets) acc.

(** [_state_dict_v2()] as the root rank sees it: [world] holds the
    optimizers of the ranks [0 .. distributed_size - 1] of the process
    group, the root first.  The result is the optimizers after the call
    and the dictionary returned on the root rank. *)
Definition _state_dict_v2 (world : list (Optimizer T))
  : result (list (Optimizer T) * StateDict T) :=
  world ← for_each (λ rank acc, st ← checkpoint_prepare rank; Ok (acc ++ [st]))
            world [];
  match world with
  | [] => Raise (RuntimeError "empty process group")
  | root :: _ =>
    if decide (Z.of_nat (length world) = distributed_size (config root)) then
      sd ← init_state_dict root;
      max_bucket_size ← py_max (bucket_size <$> state_buckets root);
      _ ← py_max (shard_size <$> state_buckets root);
      (* torch.empty workspace, taken as zeros *)
      buffer ← zeros max_bucket_size;
      let bucket_buffers :=
        replicate (Z.to_nat (pipeline_size (config root))) buffer in
      acc ← gather_state world root KeyParam (bucket_buffers, sd);
      acc ← gather_state world root KeyExpAvg acc;
      acc ← gather_state world root KeyExpAvgSq acc;
      Ok (world, acc.2)
    else Raise (RuntimeError "process group size")
  end.

(** "Copy to local shard of state buckets", one fragment. *)
Definition load_fragment (entry : ParamState T) (fragment : ParameterFragment) st
  : result (Optimizer T) :=
  if in_local_shard fragment then
    match state_buckets st !! bucket_id fragment with
    | None => Raise IndexError
    | Some bucket =>
      match shard_param_range fragment, shard_range fragment with
      | Some (param_start, param_end), Some (shard_start, shard_end) =>
        ps ← match params_shard bucket with
             | Some ps =>
               ps' ← slice_copy_ ps shard_start shard_end
                       (tensor_slice (sd_param entry) param_start param_end);
               Ok (Some ps')
             | None => Ok None
             end;
        ea ← slice_copy_ (exp_avg_shard bucket) shard_start shard_end
               (tensor_slice (sd_exp_avg entry) param_start param_end);
        eas ← slice_copy_ (exp_avg_sq_shard bucket) shard_start shard_end
                (tensor_slice (sd_exp_avg_sq entry) param_start param_end);
        Ok (set_state_buckets
              (<[bucket_id fragment :=
                   set_exp_avg_sq_shard eas
                     (set_exp_avg_shard ea (set_params_shard ps bucket))]>
                 (state_buckets st)) st)
      | _, _ => Raise TypeError
      end
    end
  else Ok st.

(** [_load_state_dict_v2(state_dict)] *)
Definition _load_state_dict_v2 sd st : result (Optimizer T) :=
  st ← checkpoint_prepare st;
  let st := set_state_step (sd_step sd) st in
  for_each (λ k st,
              match state_fragments st !! k with
              | None => Raise KeyError
              | Some [] => Raise IndexError
              | Some (fragment :: frags) =>
                index ← param_index (param_groups st) (fragment_key fragment);
                match sd_state sd !! index with
                | None => Raise KeyError
                | Some entry => for_each (load_fragment entry) (fragment :: frags) st
                end
              end) (parameters st) st.

(** The values that an optimizer holds for the elements of its
    parameters: what [key] holds in the local shards in the order of the
    buckets. *)
Definition local_state (key : StateKey) st : list (option (list T)) :=
  (λ bucket,
     match key with
     | KeyParam => params_shard bucket
     | KeyExpAvg => Some (exp_avg_shard bucket)
     | KeyExpAvgSq => Some (exp_avg_sq_shard bucket)
     end) <$> state_buckets st.
End Checkpoint.

(** Two parameters of 32 elements for one process with buckets of 32
    elements: every parameter fills a bucket of its own. *)
Definition checkpoint_example (pipeline_size : Z) : result (Optimizer Z) :=
  __init__ [[replicate 32 1; replicate 32 2]] float32 32 1 0 1
    true true false true pipeline_size.

(** ** BF16 parameters with 16-bit remainders *)

(** The outcome of a function whose only failure is an [assert]. *)
Inductive checked (A : Type) : Type :=
  | Passed (a : A)
  | AssertionError (msg : string).

Arguments Passed {A} a.
Arguments AssertionError {A} msg.

(** The value of the low 16 bits of [x] as an [int16] (two's complement). *)
Definition int16 (x : Z) : Z := (x + 2 ^ 15) `mod` 2 ^ 16 - 2 ^ 15.

(** The 32-bit pattern of a little-endian [float32] whose [int16] halves
    are [lo] (bytes 0 and 1) and [hi] (bytes 2 and 3). *)
Definition of_int16_pair (lo hi : Z) : Z :=
  Z.lor (Z.land lo 0xFFFF) (Z.shiftl (Z.land hi 0xFFFF) 16).

(** [x.unsqueeze(-1).view(torch.int16)[..., j]] for a 32-bit pattern [x]. *)
Definition int16_view (x : Z) (j : Z) : Z := int16 (Z.shiftr x (16 * j)).

(** [_bf16_rem_to_fp32(bf16, rem, fp32)].  The tensor [bf16] is given by
    the [int16] values of [bf16.view(torch.int16)], [rem] by its [int16]
    values; the result is the contents of [fp32] after the call, as 32-bit
    patterns.  The subtraction of [torch.where(rem < 0, 1, 0)] is stored
    into an [int16] buffer, so it wraps around. *)
Definition _bf16_rem_to_fp32 (bf16 rem fp32 : list Z) : checked (list Z) :=
  if decide (length bf16 = length rem ∧ length rem = length fp32) then
    let bf16 := zip_with (λ b r, int16 (b - (if r <? 0 then 1 else 0))) bf16 rem in
    Passed (zip_with of_int16_pair rem bf16)
  else AssertionError "Tensor dimensions do not match".

(** ** Initialization of several parameters *)

Section InitParams.
Context {T : Type} `{TensorElt T}.
Implicit Types (st : Optimizer T).

(** [init_params(params)]; [None] is the default, all parameters.  A key
  outside [param_groups] stands for a tensor that is not a parameter of
  the optimizer.  The bucket utilization is computed for the warning
  only, but its division can fail. *)
Definition init_params_of (params : option (list ParamKey)) st
: result (Optimizer T) :=
let params := default (parameters st) params in
let params := filter (λ k, state_fragments st !! k = None) params in
match params with
| [] => Ok st
| _ =>
  st ← for_each (λ k st, if decide (is_Some (lookup_param st k))
                         then _init_param_state k st else Ok st) params st;
  let num_params := length (parameters st) in
  let num_initialized_params :=
    length (filter (λ k, is_Some (state_fragments st !! k)) (parameters st)) in
  if decide (num_initialized_params = num_params) then
    let bucket_size := foldr Z.add 0 (bucket_size <$> state_buckets st) in
    if bucket_size =? 0 then Raise ZeroDivisionError else Ok st
  else Ok st
end.



End InitParams.

(** ** Accumulation without synchronization ([no_sync]) *)

Definition set_greedy_grad_copy (b : bool) (c : Config) : Config :=
  {| alignment := alignment c; default_shard_size := default_shard_size c;
     distributed_size := distributed_size c;
     distributed_rank := distributed_rank c;
     redundant_size := redundant_size c; store_params := store_params c;
     greedy_grad_copy := b; overlap_grad_sync := overlap_grad_sync c;
     overlap_param_sync := overlap_param_sync c;
     average_grad_sync := average_grad_sync c;
     pipeline_size := pipeline_size c |}.

Definition set_overlap_grad_sync (b : bool) (c : Config) : Config :=
  {| alignment := alignment c; default_shard_size := default_shard_size c;
     distributed_size := distributed_size c;
     distributed_rank := distributed_rank c;
     redundant_size := redundant_size c; store_params := store_params c;
     greedy_grad_copy := greedy_grad_copy c; overlap_grad_sync := b;
     overlap_param_sync := overlap_param_sync c;
     average_grad_sync := average_grad_sync c;
     pipeline_size := pipeline_size c |}.

Definition set_config {T} (c : Config) (st : Optimizer T) : Optimizer T :=
  {| config := c; param_groups := param_groups st;
     state_buckets := state_buckets st; state_step := state_step st;
     state_fragments := state_fragments st; param_grad := param_grad st;
     pre_forward_hook_is_enabled := pre_forward_hook_is_enabled st;
     _grads_buckets := _grads_buckets st;
     _params_buckets := _params_buckets st; status_log := status_log st |}.

(** [with self.no_sync(greedy_grad_copy): body]: the flags are restored
    when the body returns; an exception of the body is passed on. *)
Definition no_sync {T} (greedy : bool)
    (body : Optimizer T → result (Optimizer T)) (st : Optimizer T)
  : result (Optimizer T) :=
  let old_greedy_grad_copy := greedy_grad_copy (config st) in
  let old_overlap_grad_sync := overlap_grad_sync (config st) in
  st ← body (set_config
               (set_overlap_grad_sync false
                  (set_greedy_grad_copy greedy (config st))) st);
  Ok (set_config
        (set_overlap_grad_sync old_overlap_grad_sync
           (set_greedy_grad_copy old_greedy_grad_copy (config st))) st).

(** ** Well-formed layouts *)

Definition in_range (i : Z) (r : Z * Z) : Prop := r.1 ≤ i < r.2.

(** [chain a rs b]: the ranges [rs] are consecutive, non-empty, and lead
    from [a] to [b]. *)
Fixpoint chain (a : Z) (rs : list (Z * Z)) (b : Z) : Prop :=
  match rs with
  | [] => a = b
  | r :: rs' => r.1 = a ∧ r.1 < r.2 ∧ chain r.2 rs' b
  end.

(** [ranges_sorted lo rs hi]: the ranges [rs] lie in increasing order
    between [lo] and [hi], possibly with gaps. *)
Fixpoint ranges_sorted (lo : Z) (rs : list (Z * Z)) (hi : Z) : Prop :=
  match rs with
  | [] => lo ≤ hi
  | r :: rs' => lo ≤ r.1 ∧ r.1 ≤ r.2 ∧ ranges_sorted r.2 rs' hi
  end.

Definition config_wf (c : Config) : Prop :=
  0 < alignment c ∧ 0 < default_shard_size c ∧ 0 < distributed_size c.

Section Layout.
Context {T : Type} `{TensorElt T}.

(** The fragment is what the mapper records for its ranges. *)
Definition fragment_shape_ok (c : Config) (b : StateBucket T)
    (f : ParameterFragment) : Prop :=
  f = make_fragment c (fragment_key f) (bucket_id f) (shard_size b)
        (param_range f).1 (param_range f).2
        (bucket_range f).1 (bucket_range f).2
  ∧ 0 ≤ (param_range f).1 < (param_range f).2
  ∧ (param_range f).2 - (param_range f).1 = (bucket_range f).2 - (bucket_range f).1.

Definition bucket_ok (c : Config)
    (fm : gmap ParamKey (list ParameterFragment))
    (i : nat) (b : StateBucket T) : Prop :=
  shard_size b = default_shard_size c
  ∧ bucket_size b = shard_size b * distributed_size c
  ∧ 0 ≤ filled_size b ≤ bucket_size b
  ∧ length (exp_avg_shard b) = Z.to_nat (shard_size b)
  ∧ length (exp_avg_sq_shard b) = Z.to_nat (shard_size b)
  ∧ match params_shard b with
    | Some t => store_params c = true ∧ length t = Z.to_nat (shard_size b)
    | None => store_params c = false
    end
  ∧ ranges_sorted 0 (bucket_range <$> fragments b) (filled_size b)
  ∧ NoDup (fragment_key <$> fragments b)
  ∧ Forall (λ f, bucket_id f = i
                 ∧ (∃ fs, fm !! fragment_key f = Some fs ∧ f ∈ fs)
                 ∧ fragment_shape_ok c b f) (fragments b).

(** The fragments [fs] recorded for parameter [k] cover its elements
    [0 .. e) and sit in the buckets they name. *)
Definition fragments_ok (pg : list (list (list T)))
    (buckets : list (StateBucket T)) (k : ParamKey)
    (fs : list ParameterFragment) (e : Z) : Prop :=
  (∃ p, pg !! k.1 ≫= (λ grp, grp !! k.2) = Some p ∧ e ≤ Z.of_nat (length p))
  ∧ chain 0 (param_range <$> fs) e
  ∧ Forall (λ f, fragment_key f = k
                 ∧ ∃ b, buckets !! bucket_id f = Some b ∧ f ∈ fragments b) fs.

Definition layout_ok (c : Config) (pg : list (list (list T)))
    (buckets : list (StateBucket T))
    (fm : gmap ParamKey (list ParameterFragment)) : Prop :=
  (∀ i b, buckets !! i = Some b → bucket_ok c fm i b)
  ∧ (∀ k fs, fm !! k = Some fs →
       ∃ p, pg !! k.1 ≫= (λ grp, grp !! k.2) = Some p
            ∧ fragments_ok pg buckets k fs (Z.of_nat (length p))).

Definition layout_wf (st : Optimizer T) : Prop :=
  config_wf (config st)
  ∧ layout_ok (config st) (param_groups st) (state_buckets st) (state_fragments st).
End Layout.

(** * Invariants, reference functions and examples

    The predicates and functions below are what the properties are stated
    with: the invariants of the bucket layout and of the gradient buckets,
    the effect of the synchronization routines on one bucket, the
    operations as sequences, and small concrete optimizers. *)

Section MapperInvDefs.
Context {T : Type} `{TensorElt T}.
Implicit Types (c : Config) (b : StateBucket T) (bs : list (StateBucket T)).
Implicit Types (fm : gmap ParamKey (list ParameterFragment)).

(** The last bucket has room for one more fragment. *)
Definition has_room c b : Prop :=
  able_to_fill b = true
  ∧ (filled_size b + alignment c - 1) / alignment c * alignment c < bucket_size b.

Definition mapper_inv c (pg : list (list (list T))) fm (k : ParamKey) (n : Z)
    (ps : Z) bs (fr : list ParameterFragment) : Prop :=
  0 ≤ ps ≤ n
  ∧ is_Some (last bs)
  ∧ (∀ i b, bs !! i = Some b → bucket_ok c (<[k := fr]> fm) i b)
  ∧ fragments_ok pg bs k fr ps
  ∧ (∀ k' fs, k' ≠ k → fm !! k' = Some fs →
       ∃ p, pg !! k'.1 ≫= (λ grp, grp !! k'.2) = Some p
            ∧ fragments_ok pg bs k' fs (Z.of_nat (length p)))
  ∧ (ps < n → ∀ b, last bs = Some b →
       k ∈ fragment_key <$> fragments b → ¬ has_room c b).
End MapperInvDefs.

Section MapperTerminationDefs.
Context {T : Type} `{TensorElt T}.
Implicit Types (c : Config) (b : StateBucket T) (bs : list (StateBucket T)).

Global Instance has_room_dec c b : Decision (has_room c b).
Proof. unfold has_room. apply _. Defined.

Definition split_measure c (n ps : Z) b : nat :=
  (2 * Z.to_nat (n - ps) + (if decide (has_room c b) then 0 else 1))%nat.
End MapperTerminationDefs.

Section MainParamsDefs.
Context {T : Type} `{TensorElt T}.
Implicit Types (c : Config) (b : StateBucket T) (bs : list (StateBucket T)).
Implicit Types (fm : gmap ParamKey (list ParameterFragment)).

(** Two buckets that differ at most in the values of [params_shard]. *)
Definition shard_equiv b b' : Prop :=
  b' = set_params_shard (params_shard b') b
  ∧ length <$> params_shard b' = length <$> params_shard b.

(** What a fragment needs for its copy into the parameter shard. *)
Definition copy_ready c (p : list T) bs (f : ParameterFragment) : Prop :=
  ∃ b, bs !! bucket_id f = Some b
    ∧ fragment_shape_ok c b f
    ∧ 0 ≤ shard_size b
    ∧ (param_range f).2 ≤ Z.of_nat (length p)
    ∧ ∃ t, params_shard b = Some t ∧ length t = Z.to_nat (shard_size b).
End MainParamsDefs.

Section InitParamStateDefs.
Context {T : Type} `{TensorElt T}.
Implicit Types (c : Config) (b : StateBucket T) (bs : list (StateBucket T)).
Implicit Types (fm : gmap ParamKey (list ParameterFragment)).
Implicit Types (st : Optimizer T).

(** Buckets are only appended, and an existing bucket keeps its sizes and
    its earlier fragments. *)
Definition buckets_extend bs bs' : Prop :=
  ∀ i b, bs !! i = Some b →
    ∃ b', bs' !! i = Some b'
      ∧ bucket_size b' = bucket_size b ∧ shard_size b' = shard_size b
      ∧ contiguous_buffer_offset b' = contiguous_buffer_offset b
      ∧ exp_avg_shard b' = exp_avg_shard b
      ∧ exp_avg_sq_shard b' = exp_avg_sq_shard b
      ∧ ∀ f, f ∈ fragments b → f ∈ fragments b'.
End InitParamStateDefs.

(** Example states (to go to the definitions part). *)
Definition example_config (A S D r : Z) : Config :=
  {| alignment := A; default_shard_size := S; distributed_size := D;
     distributed_rank := r; redundant_size := 1; store_params := true;
     greedy_grad_copy := true; overlap_grad_sync := true;
     overlap_param_sync := false; average_grad_sync := true;
     pipeline_size := 2 |}.

Definition example_optimizer (c : Config) (pg : list (list (list Z))) : Optimizer Z :=
  {| config := c; param_groups := pg; state_buckets := []; state_step := 0;
     state_fragments := ∅; param_grad := ∅; pre_forward_hook_is_enabled := ∅;
     _grads_buckets := ∅; _params_buckets := []; status_log := [] |}.

(** Every bucket before the last one is filled to its capacity. *)
Definition buckets_before_last_full {T} (st : Optimizer T) : bool :=
  forallb (λ b, filled_size b =? bucket_size b)
          (take (length (state_buckets st) - 1) (state_buckets st)).

Class CollectivesOk (T : Type) `{Collectives T} : Prop := {
  reduce_scatter_tensor_length avg D (t : list T) :
    1 < D →
    length (reduce_scatter_tensor avg D t) = Z.to_nat (Z.of_nat (length t) / D);
  all_reduce_length avg (t : list T) :
    length (all_reduce avg t) = length t;
}.

Section GradDefs.
Context {T : Type} `{TensorElt T} `{Collectives T}.
Implicit Types (st : Optimizer T) (gb : GradientBucket T) (sb : StateBucket T).
Implicit Types (G : gmap nat (GradientBucket T)) (L : list StatusWrite).

(** The state [st] with other gradient buckets and status history. *)
Definition with_grads G L st : Optimizer T :=
  set_status_log L (set_grads_buckets G st).

Definition gbucket_ok sb gb : Prop :=
  (∀ t, grads_bucket gb = Some t → length t = Z.to_nat (bucket_size sb))
  ∧ (∀ t, grads_shard gb = Some t → length t = Z.to_nat (shard_size sb))
  ∧ (status gb = SYNCING →
       ∃ t, sync_grads_shard gb = Some t ∧ length t = Z.to_nat (shard_size sb))
  ∧ (status gb = PARTIALLY_FILLED ∨ status gb = FULLY_FILLED →
       is_Some (grads_bucket gb))
  ∧ (∀ k, k ∈ grads_generated gb → k ∈ fragment_key <$> fragments sb)
  ∧ (status gb = READY → grads_bucket gb = None).

Definition grads_wf st : Prop :=
  (∀ bid gb, _grads_buckets st !! bid = Some gb →
     ∃ sb, state_buckets st !! bid = Some sb ∧ gbucket_ok sb gb)
  ∧ (∀ k g, param_grad st !! k = Some g →
       ∃ p, lookup_param st k = Some p ∧ length g = length p).

(** A bucket after [_finish_bucket_grad_sync]. *)
Definition finished gb : GradientBucket T :=
  if decide (status gb = SYNCING) then
    {| grads_shard :=
         match grads_shard gb with
         | None => sync_grads_shard gb
         | Some sh => Some (zip_with tadd sh (default [] (sync_grads_shard gb)))
         end;
       grads_bucket := None; sync_grads_shard := None; status := READY;
       grads_generated := grads_generated gb |}
  else gb.

Definition finish_writes st (bid : nat) gb : list StatusWrite :=
  if decide (status gb = SYNCING)
  then [{| sw_bucket := bid; sw_old := SYNCING; sw_new := READY;
           sw_pending := pending_params (state_buckets st !! bid)
                           (grads_generated gb) |}]
  else [].

(** What the collectives of [_start_bucket_grad_sync] leave in
    [sync_grads_shard] for the local bucket [g]. *)
Definition reduced (c : Config) (g : list T) : list T :=
  let s := if distributed_size c =? 1 then g
           else reduce_scatter_tensor (average_grad_sync c) (distributed_size c) g in
  if 1 <? redundant_size c then all_reduce (average_grad_sync c) s else s.

(** A bucket after [_start_bucket_grad_sync] was called for it. *)
Definition started (c : Config) gb : GradientBucket T :=
  {| grads_shard := grads_shard gb;
     grads_bucket :=
       if (distributed_size c =? 1) && (1 <? redundant_size c)
       then reduced c <$> grads_bucket gb else grads_bucket gb;
     sync_grads_shard := reduced c <$> grads_bucket gb;
     status := SYNCING; grads_generated := ∅ |}.

Definition apply_keys (f : nat → GradientBucket T → GradientBucket T)
    (l : list nat) G : gmap nat (GradientBucket T) :=
  foldl (λ G' bid, <[bid := f bid (default GradientBucket_init (G !! bid))]> G') G l.
End GradDefs.

Section FinishDefs.
Context {T : Type} `{TensorElt T} `{Collectives T}.
Implicit Types (st : Optimizer T) (gb : GradientBucket T) (sb : StateBucket T).
Implicit Types (G : gmap nat (GradientBucket T)) (L : list StatusWrite).

(** The shards of a bucket in flight can be added. *)
Definition finish_ok gb : Prop :=
  status gb = SYNCING → ∀ sh, grads_shard gb = Some sh →
    ∃ sy, sync_grads_shard gb = Some sy ∧ length sy = length sh.
End FinishDefs.

Section StartDefs.
Context {T : Type} `{TensorElt T} `{Collectives T}.
Implicit Types (st : Optimizer T) (gb : GradientBucket T) (sb : StateBucket T).
Implicit Types (G : gmap nat (GradientBucket T)) (L : list StatusWrite).

Definition start_writes st (bid : nat) gb : list StatusWrite :=
  [{| sw_bucket := bid; sw_old := status gb; sw_new := SYNCING;
      sw_pending := pending_params (state_buckets st !! bid)
                      (grads_generated gb) |}].

(** The three passes of [_start_bucket_grad_sync] on one bucket. *)
Definition start_pass (c : Config) gb : GradientBucket T :=
  set_sync_grads_shard
    (if distributed_size c =? 1 then grads_bucket gb
     else (λ g : list T,
             replicate (Z.to_nat (Z.of_nat (length g) / distributed_size c)) tzero)
            <$> grads_bucket gb)
    (set_grads_generated ∅ (set_status SYNCING gb)).

Definition reduce_scatter_pass (c : Config) gb : GradientBucket T :=
  set_sync_grads_shard
    (reduce_scatter_tensor (average_grad_sync c) (distributed_size c)
       <$> grads_bucket gb) gb.

Definition all_reduce_pass (c : Config) gb : GradientBucket T :=
  let r := all_reduce (average_grad_sync c) <$> sync_grads_shard gb in
  set_sync_grads_shard r (if distributed_size c =? 1 then set_grads_bucket r gb else gb).
End StartDefs.

Section StartSpecDefs.
Context {T : Type} `{TensorElt T} `{Collectives T}.
Implicit Types (st : Optimizer T) (gb : GradientBucket T) (sb : StateBucket T).
Implicit Types (G : gmap nat (GradientBucket T)) (L : list StatusWrite).

Definition finish_log st G (ids : list nat) : list StatusWrite :=
  concat ((λ bid, finish_writes st bid (default GradientBucket_init (G !! bid)))
            <$> ids).

Definition start_log st G (ids : list nat) : list StatusWrite :=
  concat ((λ bid, start_writes st bid (default GradientBucket_init (G !! bid)))
            <$> ids).
End StartSpecDefs.

Section ForceSpecDefs.
Context {T : Type} `{TensorElt T} `{Collectives T} `{!CollectivesOk T}.
Implicit Types (st : Optimizer T) (gb : GradientBucket T) (sb : StateBucket T).
Implicit Types (G : gmap nat (GradientBucket T)) (L : list StatusWrite).

(** "Fill any unsynchronized gradients with zeros", one bucket. *)
Definition filled sb gb : GradientBucket T :=
  match grads_shard gb with
  | Some _ => gb
  | None => set_grads_shard (Some (replicate (Z.to_nat (shard_size sb)) tzero)) gb
  end.

(** A bucket after [_force_bucket_grad_sync]. *)
Definition forced (c : Config) sb gb : GradientBucket T :=
  filled sb
    (if decide (status gb ≠ READY ∧ status gb ≠ SYNCING)
     then finished (started c gb) else finished gb).

(** The status assignments made by [_force_bucket_grad_sync]. *)
Definition force_edge (w : StatusWrite) : Prop :=
  (sw_old w = SYNCING ∧ sw_new w = READY)
  ∨ ((sw_old w = PARTIALLY_FILLED ∨ sw_old w = FULLY_FILLED) ∧ sw_new w = SYNCING).
End ForceSpecDefs.

(** Collectives of a process whose peers contribute nothing. *)
Global Instance local_collectives : Collectives Z := {|
  reduce_scatter_tensor _ D t := take (Z.to_nat (Z.of_nat (length t) / D)) t;
  all_reduce _ t := t;
  all_gather_into_tensor D t := concat (replicate (Z.to_nat D) t);
|}.

(** The optimizer after its first parameter was mapped. *)
Definition example_mapped (c : Config) (pg : list (list (list Z))) : Optimizer Z :=
  match _init_param_state (0%nat, 0%nat) (example_optimizer c pg) with
  | Ok st => st
  | _ => example_optimizer c pg
  end.

Section GradCopyFragmentDefs.
Context {T : Type} `{TensorElt T} `{Collectives T} `{!CollectivesOk T}.
Implicit Types (st : Optimizer T) (gb : GradientBucket T) (sb : StateBucket T).
Implicit Types (G : gmap nat (GradientBucket T)) (L : list StatusWrite).

(** The bucket buffer after the gradient slice of a fragment was added. *)
Definition accumulated (f : ParameterFragment) (grad : option (list T))
    (buf : list T) : list T :=
  match grad with
  | Some g =>
    tensor_slice_set buf (bucket_range f).1 (bucket_range f).2
      (zip_with tadd (tensor_slice buf (bucket_range f).1 (bucket_range f).2)
         (tensor_slice g (param_range f).1 (param_range f).2))
  | None => buf
  end.

(** A bucket (not in flight) after one iteration of the loop of
    [_grad_copy]. *)
Definition copied sb (f : ParameterFragment) (grad : option (list T)) gb
  : GradientBucket T :=
  set_grads_bucket
    (Some (accumulated f grad
             (default (replicate (Z.to_nat (bucket_size sb)) tzero)
                      (grads_bucket gb))))
    (set_status PARTIALLY_FILLED gb).

(** The status assignments made by [_grad_copy]. *)
Definition copy_edge (w : StatusWrite) : Prop :=
  (sw_old w = SYNCING ∧ sw_new w = READY)
  ∨ (sw_old w ≠ SYNCING ∧ sw_new w = PARTIALLY_FILLED).

(** The fragment and the gradient fit the bucket. *)
Definition fragment_fits sb (f : ParameterFragment) (grad : option (list T)) : Prop :=
  0 ≤ (bucket_range f).1 ∧ (bucket_range f).1 ≤ (bucket_range f).2
  ∧ (bucket_range f).2 ≤ bucket_size sb
  ∧ ∀ g, grad = Some g →
      0 ≤ (param_range f).1 ∧ (param_range f).1 ≤ (param_range f).2
      ∧ (param_range f).2 ≤ Z.of_nat (length g)
      ∧ (param_range f).2 - (param_range f).1
        = (bucket_range f).2 - (bucket_range f).1.
End GradCopyFragmentDefs.

Section GradCopyLoopDefs.
Context {T : Type} `{TensorElt T} `{Collectives T} `{!CollectivesOk T}.
Implicit Types (st : Optimizer T) (gb : GradientBucket T) (sb : StateBucket T).
Implicit Types (G : gmap nat (GradientBucket T)) (L : list StatusWrite).

(** The gradient buckets [G] fit the state buckets of [st]. *)
Definition buckets_wf st G : Prop :=
  ∀ bid gb, G !! bid = Some gb →
    ∃ sb, state_buckets st !! bid = Some sb ∧ gbucket_ok sb gb.
End GradCopyLoopDefs.

Section GradCopyDefs.
Context {T : Type} `{TensorElt T} `{Collectives T} `{!CollectivesOk T}.
Implicit Types (st : Optimizer T) (gb : GradientBucket T) (sb : StateBucket T).
Implicit Types (G : gmap nat (GradientBucket T)) (L : list StatusWrite).

(** The state after [_grad_copy(param)]. *)
Definition after_grad_copy (k : ParamKey) G L st : Optimizer T :=
  set_param_grad (delete k (param_grad st)) (with_grads G L st).
End GradCopyDefs.

Section RegisterDefs.
Context {T : Type} `{TensorElt T} `{Collectives T} `{!CollectivesOk T}.
Implicit Types (st : Optimizer T) (gb : GradientBucket T) (sb : StateBucket T).
Implicit Types (G : gmap nat (GradientBucket T)) (L : list StatusWrite).

(** A bucket with an allocated buffer after [k] was registered in the
    first loop of [_try_start_bucket_grad_sync]. *)
Definition registered sb (k : ParamKey) gb : GradientBucket T :=
  let gg := {[k]} ∪ grads_generated gb in
  if decide (size gg = length (fragments sb))
  then set_status FULLY_FILLED (set_grads_generated gg gb)
  else set_grads_generated gg gb.

Definition register_writes (bid : nat) sb (k : ParamKey) gb : list StatusWrite :=
  let gg := {[k]} ∪ grads_generated gb in
  if decide (size gg = length (fragments sb))
  then [{| sw_bucket := bid; sw_old := status gb; sw_new := FULLY_FILLED;
           sw_pending := pending_params (Some sb) gg |}]
  else [].

(** What the gradient synchronization does to one bucket, apart from the
    accumulation of gradients. *)
Inductive bucket_move (c : Config) sb : GradientBucket T → GradientBucket T → Prop :=
| move_refl gb : bucket_move c sb gb gb
| move_finished gb : bucket_move c sb gb (finished gb)
| move_started gb :
    status gb ≠ SYNCING → is_Some (grads_bucket gb) →
    bucket_move c sb gb (started c gb)
| move_registered k gb :
    status gb ≠ SYNCING → is_Some (grads_bucket gb) →
    k ∈ fragment_key <$> fragments sb →
    bucket_move c sb gb (registered sb k gb)
| move_filled gb : bucket_move c sb gb (filled sb gb)
| move_trans gb1 gb2 gb3 :
    bucket_move c sb gb1 gb2 → bucket_move c sb gb2 gb3 → bucket_move c sb gb1 gb3.

(** The status assignments of [_try_start_bucket_grad_sync] after
    [_grad_copy]. *)
Definition try_edge (w : StatusWrite) : Prop :=
  (sw_old w = PARTIALLY_FILLED ∧ sw_new w = FULLY_FILLED ∧ sw_pending w = [])
  ∨ (sw_old w = SYNCING ∧ sw_new w = READY)
  ∨ (sw_old w = FULLY_FILLED ∧ sw_new w = SYNCING).
End RegisterDefs.

(** The operations of the gradient synchronization as the optimizer, the
    hooks and the training loop call them. *)
Inductive Op (T : Type) : Type :=
| OpSetGrad (k : ParamKey) (g : list T)
| OpInitParamState (k : ParamKey)
| OpGradCopy (k : ParamKey)
| OpAccumulate (k : ParamKey) (ignore_last_bucket : bool)
| OpPostBackwardHook (k : ParamKey)
| OpGradSync
| OpForce
| OpFinish
| OpZeroGrad (set_to_none : bool).

Arguments OpSetGrad {T} k g.

Arguments OpInitParamState {T} k.

Arguments OpGradCopy {T} k.

Arguments OpAccumulate {T} k ignore_last_bucket.

Arguments OpPostBackwardHook {T} k.

Arguments OpGradSync {T}.

Arguments OpForce {T}.

Arguments OpFinish {T}.

Arguments OpZeroGrad {T} set_to_none.

(** The allowed assignments of a bucket status. *)
Definition edge_ok (w : StatusWrite) : Prop :=
  match sw_new w with
  | PARTIALLY_FILLED => sw_old w ≠ SYNCING
  | FULLY_FILLED => sw_old w = PARTIALLY_FILLED ∧ sw_pending w = []
  | SYNCING => sw_old w = PARTIALLY_FILLED ∨ sw_old w = FULLY_FILLED
  | READY => sw_old w = SYNCING
  end.

Section OpsDefs.
Context {T : Type} `{TensorElt T} `{Collectives T}.
Implicit Types (st : Optimizer T).

Definition run_op (op : Op T) st : result (Optimizer T) :=
  match op with
  | OpSetGrad k g => Ok (set_param_grad (<[k := g]> (param_grad st)) st)
  | OpInitParamState k => _init_param_state k st
  | OpGradCopy k => _grad_copy k st
  | OpAccumulate k ignore_last_bucket =>
    st ← _grad_copy k st;
    _try_start_bucket_grad_sync [k] ignore_last_bucket st
  | OpPostBackwardHook k => post_backward_hook k st
  | OpGradSync => grad_sync st
  | OpForce => _force_bucket_grad_sync st
  | OpFinish => _finish_bucket_grad_sync st
  | OpZeroGrad set_to_none => Ok (zero_grad set_to_none st)
  end.

Definition run (ops : list (Op T)) st : result (Optimizer T) :=
  for_each run_op ops st.

(** The operation names a parameter of the optimizer, a gradient has the
    shape of its parameter, and the pre-forward hook of a parameter that
    the operation reads is not enabled. *)
Definition op_ok st (op : Op T) : Prop :=
  match op with
  | OpSetGrad k g => ∃ p, lookup_param st k = Some p ∧ length g = length p
  | OpInitParamState k | OpGradCopy k | OpAccumulate k _
  | OpPostBackwardHook k =>
    is_Some (lookup_param st k) ∧ hook_is_enabled k st = false
  | OpGradSync => ∀ k, hook_is_enabled k st = false
  | OpForce | OpFinish | OpZeroGrad _ => True
  end.

(** What every operation keeps. *)
Definition step_ok st st' : Prop :=
  layout_wf st' ∧ grads_wf st'
  ∧ config st' = config st ∧ param_groups st' = param_groups st
  ∧ pre_forward_hook_is_enabled st' = pre_forward_hook_is_enabled st
  ∧ buckets_extend (state_buckets st) (state_buckets st')
  ∧ (∀ k fs, state_fragments st !! k = Some fs → state_fragments st' !! k = Some fs)
  ∧ ∃ Lnew, status_log st' = status_log st ++ Lnew ∧ Forall edge_ok Lnew.
End OpsDefs.

Section ValueDefs.
Context {T : Type} `{TensorElt T} `{Collectives T}.











End ValueDefs.







(** An optimizer that synchronizes parameters with overlap, with the
    pre-forward hook of its first parameter enabled or not. *)
Definition example_overlap (enabled : bool) (pg : list (list (list Z))) : Optimizer Z :=
  {| config :=
       {| alignment := 32; default_shard_size := 64; distributed_size := 1;
          distributed_rank := 0; redundant_size := 1; store_params := true;
          greedy_grad_copy := true; overlap_grad_sync := true;
          overlap_param_sync := true; average_grad_sync := true;
          pipeline_size := 2 |};
     param_groups := pg; state_buckets := []; state_step := 0;
     state_fragments := ∅; param_grad := ∅;
     pre_forward_hook_is_enabled := {[ (0%nat, 0%nat) := enabled ]};
     _grads_buckets := ∅; _params_buckets := []; status_log := [] |}.

(** The configuration of the process with rank [r] in the distributed
    process group. *)
Definition set_distributed_rank (r : Z) (c : Config) : Config :=
  {| alignment := alignment c; default_shard_size := default_shard_size c;
     distributed_size := distributed_size c;
     distributed_rank := r;
     redundant_size := redundant_size c; store_params := store_params c;
     greedy_grad_copy := greedy_grad_copy c;
     overlap_grad_sync := overlap_grad_sync c;
     overlap_param_sync := overlap_param_sync c;
     average_grad_sync := average_grad_sync c;
     pipeline_size := pipeline_size c |}.

(** The fragment that the mapper of rank [r] records for the ranges of
    [f], in a bucket with shards of [S] elements. *)
Definition fragment_at_rank (c : Config) (r S : Z) (f : ParameterFragment)
  : ParameterFragment :=
  make_fragment (set_distributed_rank r c) (fragment_key f) (bucket_id f) S
    (param_range f).1 (param_range f).2 (bucket_range f).1 (bucket_range f).2.

(** Element [i] of the parameter lies in the part of [f] that the shard of
    rank [r] holds. *)
Definition owns (c : Config) (r S : Z) (f : ParameterFragment) (i : Z) : Prop :=
  ∃ rg, shard_param_range (fragment_at_rank c r S f) = Some rg ∧ in_range i rg.

(** What a fragment says about the position of its values in the
    parameter and in the bucket. *)
Definition fragment_geometry (f : ParameterFragment)
  : ParamKey * nat * (Z * Z) * (Z * Z) :=
  (fragment_key f, bucket_id f, param_range f, bucket_range f).

(** The positions of the fragments of every parameter. *)
Definition fragments_geometry (fm : gmap ParamKey (list ParameterFragment))
  : gmap ParamKey (list (ParamKey * nat * (Z * Z) * (Z * Z))) :=
  (λ fs : list ParameterFragment, fragment_geometry <$> fs) <$> fm.

Section SameLayoutDefs.
Context {T : Type}.

(** The sizes, the fill state and the fragment positions of a bucket. *)
Definition bucket_layout (b : StateBucket T)
: Z * Z * Z * bool * Z * list (ParamKey * nat * (Z * Z) * (Z * Z)) :=
(bucket_size b, shard_size b, filled_size b, able_to_fill b,
 contiguous_buffer_offset b, fragment_geometry <$> fragments b).

(** The numbers of elements of the parameters. *)
Definition param_shapes (pg : list (list (list T))) : list (list nat) :=
(λ grp : list (list T), length <$> grp) <$> pg.

(** Two optimizers with the same sizes, parameter shapes, buckets and
  fragment positions; rank, values and shard ranges may differ. *)
Definition same_layout (st1 st2 : Optimizer T) : Prop :=
alignment (config st1) = alignment (config st2)
∧ default_shard_size (config st1) = default_shard_size (config st2)
∧ distributed_size (config st1) = distributed_size (config st2)
∧ param_shapes (param_groups st1) = param_shapes (param_groups st2)
∧ bucket_layout <$> state_buckets st1 = bucket_layout <$> state_buckets st2
∧ fragments_geometry (state_fragments st1)
  = fragments_geometry (state_fragments st2).
End SameLayoutDefs.

Section MainParamsMirrorDefs.
Context {T : Type} `{TensorElt T}.

(** The parameter shard of the bucket of [f] holds, at the shard range of
  [f], the values that [v] has at the shard parameter range of [f]. *)
Definition shard_holds (bs : list (StateBucket T)) (f : ParameterFragment)
  (v : list T) : Prop :=
∀ b sh ps pe ss se,
  bs !! bucket_id f = Some b → params_shard b = Some sh →
  shard_param_range f = Some (ps, pe) → shard_range f = Some (ss, se) →
  tensor_slice sh ss se = tensor_slice v ps pe.

(** Every fragment in the local shard has a copy of its part of the
  parameter in [params_shard]. *)
Definition main_params_ok (st : Optimizer T) : Prop :=
∀ k fs f p,
  state_fragments st !! k = Some fs → f ∈ fs → lookup_param st k = Some p →
  shard_holds (state_buckets st) f p.

(** What the copy of fragment [g] of parameter [p] needs. *)
Definition shard_ready (c : Config) (p : list T) (bs : list (StateBucket T))
  (g : ParameterFragment) : Prop :=
∃ b t, bs !! bucket_id g = Some b
  ∧ shard_size b = default_shard_size c
  ∧ fragment_shape_ok c b g
  ∧ 0 ≤ shard_size b
  ∧ (param_range g).2 ≤ Z.of_nat (length p)
  ∧ params_shard b = Some t ∧ length t = Z.to_nat (shard_size b).

(** The shard ranges of [g] and [h] do not meet. *)
Definition shard_separate (c : Config) (g h : ParameterFragment) : Prop :=
bucket_id h ≠ bucket_id g
∨ ∀ a b x y, shard_range g = Some (a, b) → shard_range h = Some (x, y) →
    0 ≤ x ∧ x ≤ y ∧ y ≤ default_shard_size c ∧ (y ≤ a ∨ b ≤ x).
End MainParamsMirrorDefs.

Section GradFrameDefs.
Context {T : Type}.

(** The part of the optimizer outside the gradient buckets, their status
  history and the parameter gradients. *)
Definition non_grad_state (st : Optimizer T)
: Config * list (list (list T)) * list (StateBucket T) * Z
  * gmap ParamKey (list ParameterFragment) * gmap ParamKey bool
  * list (nat * ParameterBucket.t T) :=
(config st, param_groups st, state_buckets st, state_step st,
 state_fragments st, pre_forward_hook_is_enabled st, _params_buckets st).
End GradFrameDefs.

Section ParamViewDefs.
Context {T : Type} `{Collectives T}.

(** The part of the optimizer outside the parameter values and the
  parameter buckets. *)
Definition non_param_state (st : Optimizer T)
: Config * list (StateBucket T) * Z * gmap ParamKey (list ParameterFragment)
  * gmap ParamKey (list T) * gmap ParamKey bool
  * gmap nat (GradientBucket T) * list StatusWrite :=
(config st, state_buckets st, state_step st, state_fragments st,
 param_grad st, pre_forward_hook_is_enabled st, _grads_buckets st,
 status_log st).

(** The keys of [self._params_buckets], in their order. *)
Definition pending (st : Optimizer T) : list nat := (_params_buckets st).*1.

(** The values that the buffer of a parameter bucket holds once the
  bucket is [READY]: the gathered shards of a bucket that is still
  [SHARDED], the buffer of a bucket that was gathered. *)
Definition bucket_values (c : Config) (pb : ParameterBucket.t T)
: option (list T) :=
match ParameterBucket.status pb with
| ParameterStatus.SHARDED =>
  (λ sh : list T,
     if distributed_size c =? 1 then sh
     else all_gather_into_tensor (distributed_size c) sh)
    <$> ParameterBucket.params_shard pb
| _ => ParameterBucket.params_bucket pb
end.

(** A parameter bucket that waits for its parameters: its values have the
  size of the bucket, and the parameters it counts as updated are some,
  not all, of the parameters of the bucket. *)
Definition pbucket_ok (c : Config) (sb : StateBucket T)
  (pb : ParameterBucket.t T) : Prop :=
(∃ v, bucket_values c pb = Some v ∧ length v = Z.to_nat (bucket_size sb))
∧ (∀ k, k ∈ ParameterBucket.params_updated pb →
        k ∈ fragment_key <$> fragments sb)
∧ (size (ParameterBucket.params_updated pb) < length (fragments sb))%nat.

Definition params_wf (st : Optimizer T) : Prop :=
∀ bid pb, params_bucket_at bid st = Some pb →
  ∃ sb, state_buckets st !! bid = Some sb ∧ pbucket_ok (config st) sb pb.

(** The elements of the parameter that the fragment [f] names are those
  of [v] at the bucket range of [f]. *)
Definition fragment_copied (st : Optimizer T) (f : ParameterFragment)
  (v : list T) : Prop :=
∃ p, lookup_param st (fragment_key f) = Some p
  ∧ tensor_slice p (param_range f).1 (param_range f).2
    = tensor_slice v (bucket_range f).1 (bucket_range f).2.

(** [_finish_bucket_param_sync] on one bucket. *)
Definition finished_param (pb : ParameterBucket.t T) : ParameterBucket.t T :=
if decide (ParameterBucket.status pb = ParameterStatus.SYNCING)
then {| ParameterBucket.params_shard := None;
        ParameterBucket.params_bucket := ParameterBucket.params_bucket pb;
        ParameterBucket.status := ParameterStatus.READY;
        ParameterBucket.params_updated := ParameterBucket.params_updated pb |}
else pb.
End ParamViewDefs.

Section ParamStartDefs.
Context {T : Type} `{TensorElt T} `{Collectives T}.
Implicit Types (st : Optimizer T) (pb : ParameterBucket.t T).

(** The parameter buckets [ids] are changed by [g], nothing else is. *)
Definition bucket_step (g : ParameterBucket.t T → ParameterBucket.t T)
  (ids : list nat) st st' : Prop :=
non_param_state st' = non_param_state st
∧ param_groups st' = param_groups st
∧ pending st' = pending st
∧ ∀ b, params_bucket_at b st'
       = if decide (b ∈ ids) then g <$> params_bucket_at b st
         else params_bucket_at b st.

(** "Initialize param state and buffers" on one bucket. *)
Definition started_param (c : Config) pb : ParameterBucket.t T :=
{| ParameterBucket.params_shard := ParameterBucket.params_shard pb;
   ParameterBucket.params_bucket :=
     if distributed_size c =? 1 then ParameterBucket.params_shard pb
     else match ParameterBucket.params_bucket pb with
          | Some x => Some x
          | None =>
            (λ sh : list T,
               replicate (Z.to_nat (Z.of_nat (length sh) * distributed_size c))
                 tzero) <$> ParameterBucket.params_shard pb
          end;
   ParameterBucket.status := ParameterStatus.SYNCING;
   ParameterBucket.params_updated := ParameterBucket.params_updated pb |}.

(** The all-gather on one bucket. *)
Definition gathered_param (c : Config) pb : ParameterBucket.t T :=
match ParameterBucket.params_shard pb with
| Some sh =>
  {| ParameterBucket.params_shard := ParameterBucket.params_shard pb;
     ParameterBucket.params_bucket :=
       Some (all_gather_into_tensor (distributed_size c) sh);
     ParameterBucket.status := ParameterBucket.status pb;
     ParameterBucket.params_updated := ParameterBucket.params_updated pb |}
| None => pb
end.

(** [_start_bucket_param_sync(buckets)] on the bucket [b]. *)
Definition start_sync (c : Config) (ids : list nat) (b : nat) pb
: ParameterBucket.t T :=
if decide (b ∈ ids ∧ ParameterBucket.status pb = ParameterStatus.SHARDED)
then if 1 <? distributed_size c
     then gathered_param c (started_param c pb)
     else started_param c pb
else finished_param pb.

(** The buckets [ids] are [READY]; every bucket keeps its values and the
  parameters it counts as updated. *)
Definition settled (ids : list nat) st st' : Prop :=
non_param_state st' = non_param_state st
∧ param_groups st' = param_groups st
∧ pending st' = pending st
∧ ∀ b, match params_bucket_at b st with
       | None => params_bucket_at b st' = None
       | Some pb =>
         ∃ pb', params_bucket_at b st' = Some pb'
           ∧ bucket_values (config st) pb' = bucket_values (config st) pb
           ∧ ParameterBucket.params_updated pb' = ParameterBucket.params_updated pb
           ∧ (b ∈ ids → ParameterBucket.status pb' = ParameterStatus.READY)
       end.
End ParamStartDefs.

Section ParamCopyDefs.
Context {T : Type} `{TensorElt T} `{Collectives T}.
Implicit Types (st : Optimizer T) (pb : ParameterBucket.t T).

(** "Delete buckets if possible" on the bucket of a fragment of the
  parameter [k]: [None] when the bucket is deleted. *)
Definition marked (bs : list (StateBucket T)) (k : ParamKey) (b : nat) pb
: option (ParameterBucket.t T) :=
sb ← bs !! b;
let pb' :=
  {| ParameterBucket.params_shard := ParameterBucket.params_shard pb;
     ParameterBucket.params_bucket := ParameterBucket.params_bucket pb;
     ParameterBucket.status := ParameterBucket.status pb;
     ParameterBucket.params_updated :=
       {[k]} ∪ ParameterBucket.params_updated pb |} in
if decide (size (ParameterBucket.params_updated pb') = length (fragments sb))
then None else Some pb'.
End ParamCopyDefs.

Section ParamSyncDefs.
Context {T : Type} `{TensorElt T} `{Collectives T}.
Implicit Types (st : Optimizer T) (pb : ParameterBucket.t T).

(** The parameter [k] needs nothing more from the bucket [b]. *)
Definition done_for st (b : nat) (k : ParamKey) : Prop :=
params_bucket_at b st = None
∨ ∃ pb, params_bucket_at b st = Some pb ∧ k ∈ ParameterBucket.params_updated pb.

(** What the calls of [_param_copy] keep and achieve, from the state
  [st0] on. *)
Definition sync_inv (st0 st : Optimizer T) : Prop :=
layout_wf st ∧ params_wf st
∧ non_param_state st = non_param_state st0
∧ (∀ k, length <$> lookup_param st k = length <$> lookup_param st0 k)
∧ (∀ b pb, params_bucket_at b st = Some pb →
     ∃ pb0, params_bucket_at b st0 = Some pb0
       ∧ bucket_values (config st0) pb = bucket_values (config st0) pb0
       ∧ ParameterBucket.params_updated pb0 ⊆ ParameterBucket.params_updated pb)
∧ (∀ b pb0 sb f v,
     params_bucket_at b st0 = Some pb0 → state_buckets st0 !! b = Some sb →
     f ∈ fragments sb → bucket_values (config st0) pb0 = Some v →
     fragment_key f ∉ ParameterBucket.params_updated pb0 →
     done_for st b (fragment_key f) → fragment_copied st f v)
∧ (∀ k (i : nat),
     (∀ b pb0 sb f,
        params_bucket_at b st0 = Some pb0 → state_buckets st0 !! b = Some sb →
        f ∈ fragments sb → fragment_key f = k →
        ¬ in_range (Z.of_nat i) (param_range f)) →
     lookup_param st k ≫= (λ p, p !! i) = lookup_param st0 k ≫= (λ p, p !! i)).
End ParamSyncDefs.

Section TryStartParamDefs.
Context {T : Type} `{TensorElt T} `{Collectives T}.

(** A [SHARDED] bucket after its all-gather was launched. *)
Definition sync_started (c : Config) (pb : ParameterBucket.t T)
: ParameterBucket.t T :=
if 1 <? distributed_size c then gathered_param c (started_param c pb)
else started_param c pb.
End TryStartParamDefs.

Section LoadDefs.
Context {T : Type} `{TensorElt T}.
Implicit Types (b : StateBucket T) (bs : list (StateBucket T)).

(** The shard of a state bucket that holds the values for [key]. *)
Definition bucket_state (key : StateKey) b : option (list T) :=
match key with
| KeyParam => params_shard b
| KeyExpAvg => Some (exp_avg_shard b)
| KeyExpAvgSq => Some (exp_avg_sq_shard b)
end.

(** The shard for [key] of the bucket of [f] holds, at the shard range of
  [f], the values that [v] has at the shard parameter range of [f]. *)
Definition state_loaded (key : StateKey) bs (f : ParameterFragment)
  (v : list T) : Prop :=
∀ b sh ps pe ss se,
  bs !! bucket_id f = Some b → bucket_state key b = Some sh →
  shard_param_range f = Some (ps, pe) → shard_range f = Some (ss, se) →
  tensor_slice sh ss se = tensor_slice v ps pe.

(** Two buckets that differ at most in the values of their shards. *)
Definition state_equiv b b' : Prop :=
bucket_size b' = bucket_size b ∧ shard_size b' = shard_size b
∧ filled_size b' = filled_size b ∧ fragments b' = fragments b
∧ length (exp_avg_shard b') = length (exp_avg_shard b)
∧ length (exp_avg_sq_shard b') = length (exp_avg_sq_shard b)
∧ length <$> params_shard b' = length <$> params_shard b.

(** What the load of the fragment [g] from [entry] needs. *)
Definition load_ready (c : Config) (entry : ParamState T) bs
  (g : ParameterFragment) : Prop :=
∃ b, bs !! bucket_id g = Some b
  ∧ shard_size b = default_shard_size c
  ∧ fragment_shape_ok c b g
  ∧ 0 ≤ shard_size b
  ∧ (∀ key, (param_range g).2 ≤ Z.of_nat (length (get_state key entry)))
  ∧ length (exp_avg_shard b) = Z.to_nat (shard_size b)
  ∧ length (exp_avg_sq_shard b) = Z.to_nat (shard_size b)
  ∧ (∀ t, params_shard b = Some t → length t = Z.to_nat (shard_size b)).
End LoadDefs.

Section LoadLoopDefs.
Context {T : Type} `{TensorElt T} `{Collectives T}.
Implicit Types (c : Config) (b : StateBucket T) (bs : list (StateBucket T)).
Implicit Types (st : Optimizer T) (sd : StateDict T).

(** The state dictionary has the buffers of the parameter [k]. *)
Definition entry_ready sd st (k : ParamKey) : Prop :=
∃ p idx entry,
  lookup_param st k = Some p ∧ (0 < length p)%nat
  ∧ param_index (param_groups st) k = Ok idx
  ∧ sd_state sd !! idx = Some entry
  ∧ ∀ key, length (get_state key entry) = length p.

(** The shards hold the loaded values of the parameter [k]. *)
Definition param_loaded sd st (k : ParamKey) bs : Prop :=
∀ fs f idx entry key,
  state_fragments st !! k = Some fs → f ∈ fs →
  param_index (param_groups st) k = Ok idx → sd_state sd !! idx = Some entry →
  state_loaded key bs f (get_state key entry).

(** The body of the loop "Load state for each param". *)
Definition load_param sd (k : ParamKey) st : result (Optimizer T) :=
match state_fragments st !! k with
| None => Raise KeyError
| Some [] => Raise IndexError
| Some (fragment :: frags) =>
  index ← param_index (param_groups st) (fragment_key fragment);
  match sd_state sd !! index with
  | None => Raise KeyError
  | Some entry => for_each (load_fragment entry) (fragment :: frags) st
  end
end.
End LoadLoopDefs.

Section ClosedBucketsDefs.
Context {T : Type} `{TensorElt T}.
Implicit Types (st : Optimizer T) (bs : list (StateBucket T)).

End ClosedBucketsDefs.

Section EffectiveBucketDefs.
Context {T : Type} `{TensorElt T}.




End EffectiveBucketDefs.

(** * Properties *)

(** ** Results *)
Lemma bind_Ok {A B} (m : result A) (f : A → result B) (b : B) :
  m ≫= f = Ok b ↔ ∃ a, m = Ok a ∧ f a = Ok b.
Proof.
  split.
  - destruct m as [a| |]; simpl; intros Hb; try discriminate. by exists a.
  - intros (a & -> & Hf). exact Hf.
Qed.

Ltac inv_bind H :=
  repeat match type of H with
  | _ ≫= _ = Ok _ =>
      let x := fresh "x" in let Hx := fresh "Hx" in
      apply bind_Ok in H as (x & Hx & H)
  end.

(** ** Rounding *)
Lemma round_to_multiple_up (n m : Z) :
  0 < m →
  ∃ r, _round_to_multiple n m true = Ok r ∧ n ≤ r < n + m ∧ (m | r).
Proof.
  intros Hm. unfold _round_to_multiple.
  destruct (m =? 0) eqn:E; [lia|].
  eexists; split; [reflexivity|]. split.
  - pose proof (Z.div_mod (n + m - 1) m ltac:(lia)) as Hd.
    pose proof (Z.mod_pos_bound (n + m - 1) m Hm). lia.
  - apply Z.divide_factor_r.
Qed.

Lemma round_to_multiple_down (n m : Z) :
  0 < m →
  ∃ r, _round_to_multiple n m false = Ok r ∧ n - m < r ≤ n ∧ (m | r).
Proof.
  intros Hm. unfold _round_to_multiple.
  destruct (m =? 0) eqn:E; [lia|].
  eexists; split; [reflexivity|]. split.
  - pose proof (Z.div_mod n m ltac:(lia)) as Hd.
    pose proof (Z.mod_pos_bound n m Hm). lia.
  - apply Z.divide_factor_r.
Qed.

Lemma zeros_Ok {T} `{TensorElt T} (n : Z) :
  0 ≤ n → zeros (T:=T) n = Ok (replicate (Z.to_nat n) tzero).
Proof. intros Hn. unfold zeros. destruct (n <? 0) eqn:E; [lia|done]. Qed.

Section MapperFacts.
Context {T : Type} `{TensorElt T}.
Implicit Types (c : Config) (b : StateBucket T) (bs : list (StateBucket T)).

Lemma new_bucket_Ok c off :
  config_wf c →
  ∃ nb, new_bucket (T:=T) c off = Ok nb
    ∧ shard_size nb = default_shard_size c
    ∧ bucket_size nb = default_shard_size c * distributed_size c
    ∧ filled_size nb = 0 ∧ able_to_fill nb = true ∧ fragments nb = []
    ∧ contiguous_buffer_offset nb = off
    ∧ length (exp_avg_shard nb) = Z.to_nat (shard_size nb)
    ∧ length (exp_avg_sq_shard nb) = Z.to_nat (shard_size nb)
    ∧ params_shard nb =
        (if store_params c
         then Some (replicate (Z.to_nat (default_shard_size c)) tzero) else None).
Proof.
  intros (HA & HS & HD). unfold new_bucket, StateBucket_init.
  rewrite zeros_Ok by lia. simpl. eexists; split; [reflexivity|]. simpl.
  rewrite length_replicate. repeat split; done.
Qed.

(** What one iteration of the mapper does. *)
Lemma split_iter_cases c k n ps bs fr b :
  0 < alignment c →
  last bs = Some b →
  ∃ start, _round_to_multiple (filled_size b) (alignment c) true = Ok start
    ∧ filled_size b ≤ start < filled_size b + alignment c
    ∧ (alignment c | start)
    ∧ let size := Z.min (n - ps) (bucket_size b - start) in
      if (size <=? 0) || negb (able_to_fill b) then
        split_iter c k n ps bs fr =
          (nb ← new_bucket c (contiguous_buffer_offset b + bucket_size b);
           Ok (ps, bs ++ [nb], fr))
      else
        let f := make_fragment c k (length bs - 1)%nat (shard_size b)
                   ps (ps + size) start (start + size) in
        split_iter c k n ps bs fr =
          Ok (ps + size,
              <[(length bs - 1)%nat :=
                  set_filled_size (start + size)
                    (set_fragments (fragments b ++ [f]) b)]> bs,
              fr ++ [f]).
Proof.
  intros HA Hl.
  destruct (round_to_multiple_up (filled_size b) (alignment c) HA)
    as (start & Hr & Hb & Hd).
  exists start. repeat split; try done; try lia.
  unfold split_iter. rewrite Hl, Hr. simpl.
  destruct (_ || _); reflexivity.
Qed.

(** Loop invariants: what [split_iter] preserves holds when the loop
    returns. *)
Lemma split_param_invariant
    (I : Z → list (StateBucket T) → list ParameterFragment → Prop)
    c k n fuel :
  (∀ ps bs fr ps' bs' fr',
     I ps bs fr → ps < n →
     split_iter c k n ps bs fr = Ok (ps', bs', fr') → I ps' bs' fr') →
  ∀ ps bs fr bs' fr',
    I ps bs fr →
    split_param fuel c k n ps bs fr = Ok (bs', fr') →
    ∃ ps', n ≤ ps' ∧ I ps' bs' fr'.
Proof.
  intros Hstep. induction fuel as [|fuel IH]; intros ps bs fr bs' fr' HI; simpl.
  - destruct (ps <? n) eqn:E; simpl; [discriminate|].
    intros [= <- <-]. exists ps. split; [lia|done].
  - destruct (ps <? n) eqn:E; simpl.
    + intros Hrun. apply bind_Ok in Hrun as ([[ps1 bs1] fr1] & Hit & Hrun).
      eapply IH; [|exact Hrun]. eapply Hstep; eauto. lia.
    + intros [= <- <-]. exists ps. split; [lia|done].
Qed.
End MapperFacts.

Lemma chain_app a rs1 b rs2 c :
  chain a rs1 b → chain b rs2 c → chain a (rs1 ++ rs2) c.
Proof.
  revert a. induction rs1 as [|r rs1 IH]; simpl; intros a.
  - by intros ->.
  - intros (-> & Hlt & Hc) H2. repeat split; try done. by apply IH.
Qed.

Lemma chain_le a rs b : chain a rs b → a ≤ b.
Proof.
  revert a. induction rs as [|r rs IH]; simpl; intros a; [lia|].
  intros (<- & Hlt & Hc). apply IH in Hc. lia.
Qed.

Lemma ranges_sorted_snoc lo rs hi r hi' :
  ranges_sorted lo rs hi → hi ≤ r.1 → r.1 ≤ r.2 → r.2 ≤ hi' →
  ranges_sorted lo (rs ++ [r]) hi'.
Proof.
  revert lo. induction rs as [|r0 rs IH]; simpl; intros lo.
  - intros; lia.
  - intros (? & ? & Hs) ? ? ?. repeat split; try done. by apply IH.
Qed.

Section Slices.
Context {T : Type} `{TensorElt T}.

Lemma slice_bounds_in (len : nat) (a b : Z) :
  0 ≤ a → a ≤ b → b ≤ Z.of_nat len →
  slice_bounds len a b = (Z.to_nat a, Z.to_nat (b - a)).
Proof.
  intros. unfold slice_bounds, slice_index.
  destruct (a <? 0) eqn:E1; [lia|]. destruct (b <? 0) eqn:E2; [lia|].
  f_equal; lia.
Qed.

Lemma tensor_slice_length (t : list T) (a b : Z) :
  0 ≤ a → a ≤ b → b ≤ Z.of_nat (length t) →
  length (tensor_slice t a b) = Z.to_nat (b - a).
Proof.
  intros. unfold tensor_slice. rewrite slice_bounds_in by done.
  rewrite length_take, length_drop. lia.
Qed.

Lemma tensor_slice_set_length (t v : list T) (a b : Z) :
  0 ≤ a → a ≤ b → b ≤ Z.of_nat (length t) →
  length v = Z.to_nat (b - a) →
  length (tensor_slice_set t a b v) = length t.
Proof.
  intros ? ? ? Hv. unfold tensor_slice_set. rewrite slice_bounds_in by done.
  rewrite !length_app, length_take, length_drop, Hv. lia.
Qed.

Lemma broadcast_to_same (n : nat) (src : list T) :
  length src = n → broadcast_to n src = Ok src.
Proof. intros Hn. unfold broadcast_to. by rewrite decide_True. Qed.

Lemma slice_copy_Ok (t src : list T) (a b : Z) :
  0 ≤ a → a ≤ b → b ≤ Z.of_nat (length t) →
  length src = Z.to_nat (b - a) →
  slice_copy_ t a b src = Ok (tensor_slice_set t a b src).
Proof.
  intros. unfold slice_copy_.
  rewrite broadcast_to_same; [done|]. by rewrite tensor_slice_length.
Qed.

Lemma slice_add_Ok (t src : list T) (a b : Z) :
  0 ≤ a → a ≤ b → b ≤ Z.of_nat (length t) →
  length src = Z.to_nat (b - a) →
  slice_add_ t a b src =
    Ok (tensor_slice_set t a b (zip_with tadd (tensor_slice t a b) src)).
Proof.
  intros. unfold slice_add_.
  rewrite broadcast_to_same; [done|]. by rewrite tensor_slice_length.
Qed.
End Slices.

(** Shard ranges of a fragment: clamping facts. *)
Lemma make_fragment_fields c k i S ps pe bs be :
  let f := make_fragment c k i S ps pe bs be in
  fragment_key f = k ∧ bucket_id f = i
  ∧ param_range f = (ps, pe) ∧ bucket_range f = (bs, be).
Proof. destruct k. done. Qed.

Lemma make_fragment_local c k i S ps pe bs be :
  0 ≤ S → 0 ≤ ps → pe - ps = be - bs →
  let f := make_fragment c k i S ps pe bs be in
  in_local_shard f = true →
  ∃ s e, shard_range f = Some (s, e)
    ∧ shard_bucket_range f = Some (s + S * distributed_rank c, e + S * distributed_rank c)
    ∧ shard_param_range f =
        Some (s + S * distributed_rank c - bs + ps, e + S * distributed_rank c - bs + ps)
    ∧ 0 ≤ s < e ∧ e ≤ S
    ∧ bs ≤ s + S * distributed_rank c ∧ e + S * distributed_rank c ≤ be
    ∧ s = Z.max (bs - S * distributed_rank c) 0
    ∧ e = Z.min (be - S * distributed_rank c) S.
Proof.
  intros HS Hps Hlen f. unfold f, make_fragment. simpl.
  set (r := S * distributed_rank c).
  destruct (_ <? _) eqn:E; [|discriminate]. intros _.
  apply Z.ltb_lt in E.
  eexists _, _. split; [reflexivity|].
  split; [f_equal; f_equal; lia|].
  split; [f_equal; f_equal; lia|]. lia.
Qed.

Section MapperInv.
Context {T : Type} `{TensorElt T}.
Implicit Types (c : Config) (b : StateBucket T) (bs : list (StateBucket T)).
Implicit Types (fm : gmap ParamKey (list ParameterFragment)).

Lemma bucket_ok_mono c fm fm' i b :
  (∀ f fs, fm !! fragment_key f = Some fs → f ∈ fs →
     ∃ fs', fm' !! fragment_key f = Some fs' ∧ f ∈ fs') →
  bucket_ok c fm i b → bucket_ok c fm' i b.
Proof.
  intros Hm (H1 & H2 & H3 & H4 & H5 & H6 & H7 & H8 & H9).
  split_and!; try done; try lia.
  eapply Forall_impl; [exact H9|]. simpl.
  intros f (Hi & (fs & Hfs & Hin) & Hsh). split_and!; try done.
  by eapply Hm.
Qed.

Lemma fragments_ok_mono pg bs bs' k fs e :
  (∀ i b, bs !! i = Some b →
     ∃ b', bs' !! i = Some b' ∧ ∀ f, f ∈ fragments b → f ∈ fragments b') →
  fragments_ok pg bs k fs e → fragments_ok pg bs' k fs e.
Proof.
  intros Hm (Hp & Hc & Hf). split_and!; try done.
  eapply Forall_impl; [exact Hf|]. simpl.
  intros f (Hk & b & Hb & Hin). split; [done|].
  destruct (Hm _ _ Hb) as (b' & Hb' & Hsub). exists b'. split; [done|]. by apply Hsub.
Qed.

Lemma fragments_ok_snoc pg bs k fs e f e' b :
  fragments_ok pg bs k fs e →
  fragment_key f = k → param_range f = (e, e') → e < e' →
  (∃ p, pg !! k.1 ≫= (λ grp, grp !! k.2) = Some p ∧ e' ≤ Z.of_nat (length p)) →
  bs !! bucket_id f = Some b → f ∈ fragments b →
  fragments_ok pg bs k (fs ++ [f]) e'.
Proof.
  intros (Hp & Hc & Hf) Hk Hr Hlt Hp' Hb Hin. split_and!; try done.
  - rewrite fmap_app. eapply chain_app; [exact Hc|]. simpl. rewrite Hr. simpl. done.
  - apply Forall_app. split; [done|]. apply Forall_singleton. split; [done|].
    by exists b.
Qed.

Lemma last_is_Some_lookup bs b :
  last bs = Some b → bs !! (length bs - 1)%nat = Some b ∧ (0 < length bs)%nat.
Proof.
  rewrite last_lookup. intros Hl.
  assert (pred (length bs) = (length bs - 1)%nat) as <- by lia.
  split; [done|]. apply lookup_lt_Some in Hl. lia.
Qed.

Lemma mapper_inv_step c pg fm k n ps bs fr ps' bs' fr' p :
  config_wf c →
  pg !! k.1 ≫= (λ grp, grp !! k.2) = Some p → n = Z.of_nat (length p) →
  mapper_inv c pg fm k n ps bs fr → ps < n →
  split_iter c k n ps bs fr = Ok (ps', bs', fr') →
  mapper_inv c pg fm k n ps' bs' fr'.
Proof.
  intros Hc Hp Hn (Hps & [b Hl] & Hbs & Hfr & Hoth & Hroom) Hlt Hit.
  pose proof Hc as (HA & HS & HD).
  destruct (split_iter_cases c k n ps bs fr b HA Hl)
    as (start & Hr & Hstart & Hdiv & Hcase).
  simpl in Hcase.
  destruct (last_is_Some_lookup _ _ Hl) as (Hlb & Hlen).
  pose proof (Hbs _ _ Hlb) as Hbok.
  pose proof Hbok as (B1 & B2 & B3 & B4 & B5 & B6 & B7 & B8 & B9).
  set (size := Z.min (n - ps) (bucket_size b - start)) in *.
  destruct ((size <=? 0) || negb (able_to_fill b)) eqn:Eb.
  - (* a new bucket is opened *)
    rewrite Hcase in Hit.
    destruct (new_bucket_Ok c (contiguous_buffer_offset b + bucket_size b) Hc)
      as (nb & Hnb & N1 & N2 & N3 & N4 & N5 & N6 & N7 & N8 & N9).
    rewrite Hnb in Hit. simpl in Hit. injection Hit as <- <- <-.
    split; [done|]. split; [rewrite last_snoc; eauto|].
    split; [|split; [|split]].
    + intros i b0 Hi. apply lookup_app_Some in Hi as [Hi|(Hge & Hi)]; [by apply Hbs|].
      apply list_lookup_singleton_Some in Hi as (Hi0 & <-).
      unfold bucket_ok. rewrite N5, N3, N1, N2, N7, N8, N9. simpl.
      split_and!; try done; try lia; try nia.
      * destruct (store_params c); [|done]. split; [done|]. by rewrite length_replicate.
      * constructor.
    + eapply fragments_ok_mono; [|exact Hfr].
      intros i b0 Hi. exists b0. split; [|done]. by apply lookup_app_l_Some.
    + intros k' fs Hne Hk'. destruct (Hoth _ _ Hne Hk') as (p' & Hp' & Hok).
      exists p'. split; [done|]. eapply fragments_ok_mono; [|exact Hok].
      intros i b0 Hi. exists b0. split; [|done]. by apply lookup_app_l_Some.
    + intros _ b0. rewrite last_snoc. intros [= <-]. rewrite N5. simpl.
      intros Hin. by apply elem_of_nil in Hin.
  - (* a fragment is placed in the last bucket *)
    rewrite Hcase in Hit. injection Hit as <- <- <-.
    apply orb_false_iff in Eb as (Esz & Eab).
    apply Z.leb_gt in Esz. apply negb_false_iff in Eab.
    set (f := make_fragment c k (length bs - 1) (shard_size b) ps (ps + size)
                start (start + size)) in *.
    set (b' := set_filled_size (start + size)
                 (set_fragments (fragments b ++ [f]) b)) in *.
    destruct (make_fragment_fields c k (length bs - 1) (shard_size b) ps (ps + size)
                start (start + size)) as (Fk & Fi & Fp & Fb). fold f in Fk, Fi, Fp, Fb.
    assert (Hroom_now : has_room c b).
    { split; [done|]. unfold _round_to_multiple in Hr.
      destruct (alignment c =? 0); [discriminate|]. injection Hr as Hr. lia. }
    assert (Hknot : k ∉ fragment_key <$> fragments b).
    { intros Hin. by eapply (Hroom Hlt b Hl Hin). }
    assert (Hupd : ∀ i b0, bs !! i = Some b0 →
              ∃ b1, <[(length bs - 1)%nat := b']> bs !! i = Some b1
                    ∧ ∀ g, g ∈ fragments b0 → g ∈ fragments b1).
    { intros i b0 Hi. destruct (decide (i = (length bs - 1)%nat)) as [->|Hne].
      - rewrite Hlb in Hi. injection Hi as <-. exists b'.
        split; [apply list_lookup_insert_eq; lia|].
        intros g Hg. simpl. apply elem_of_app. by left.
      - exists b0. split; [|done]. by rewrite list_lookup_insert_ne. }
    assert (Hmono : ∀ g fs, <[k:=fr]> fm !! fragment_key g = Some fs → g ∈ fs →
              ∃ fs', <[k:=fr ++ [f]]> fm !! fragment_key g = Some fs' ∧ g ∈ fs').
    { intros g fs Hg Hin. destruct (decide (fragment_key g = k)) as [Hk|Hk].
      - rewrite Hk in *. rewrite lookup_insert_eq in Hg. injection Hg as <-.
        exists (fr ++ [f]). rewrite lookup_insert_eq. split; [done|].
        apply elem_of_app. by left.
      - rewrite lookup_insert_ne in Hg by done. exists fs.
        by rewrite lookup_insert_ne. }
    split; [lia|]. split.
    { rewrite last_lookup, length_insert.
      assert (pred (length bs) = (length bs - 1)%nat) as -> by lia.
      rewrite list_lookup_insert_eq by lia. eauto. }
    split; [|split; [|split]].
    + intros i b0 Hi. destruct (decide (i = (length bs - 1)%nat)) as [->|Hne].
      * rewrite list_lookup_insert_eq in Hi by lia. injection Hi as <-.
        unfold bucket_ok. simpl. split_and!; try done; try lia.
        -- rewrite fmap_app. simpl. eapply ranges_sorted_snoc; [exact B7|..];
             try rewrite Fb; simpl; lia.
        -- rewrite fmap_app. simpl. apply NoDup_app. split; [done|].
           split; [|apply NoDup_singleton].
           intros x Hx Hx'. apply list_elem_of_singleton in Hx'. subst x.
           rewrite Fk in Hx. done.
        -- apply Forall_app. split.
           ++ eapply Forall_impl; [exact B9|]. simpl.
              intros g (Gi & (fs & Gfs & Gin) & Gsh). split_and!; try done.
              by eapply Hmono.
           ++ apply Forall_singleton. split; [done|]. split.
              ** exists (fr ++ [f]). rewrite Fk, lookup_insert_eq. split; [done|].
                 apply elem_of_app. right. by apply list_elem_of_singleton.
              ** unfold fragment_shape_ok. rewrite Fk, Fi, Fp, Fb.
                 split_and!; [reflexivity|simpl; lia..].
      * rewrite list_lookup_insert_ne in Hi by done.
        eapply bucket_ok_mono; [exact Hmono|]. by apply Hbs.
    + eapply fragments_ok_snoc with (b := b').
      * eapply fragments_ok_mono; [exact Hupd|exact Hfr].
      * done.
      * done.
      * lia.
      * exists p. split; [done|]. lia.
      * rewrite Fi. apply list_lookup_insert_eq. lia.
      * simpl. apply elem_of_app. right. by apply list_elem_of_singleton.
    + intros k' fs Hne Hk'. destruct (Hoth _ _ Hne Hk') as (p' & Hp' & Hok).
      exists p'. split; [done|]. eapply fragments_ok_mono; [exact Hupd|exact Hok].
    + intros Hlt' b0 Hl0 _ (Hab & Hrm).
      rewrite last_lookup, length_insert in Hl0.
      assert (pred (length bs) = (length bs - 1)%nat) as Hpred by lia.
      rewrite Hpred in Hl0.
      rewrite list_lookup_insert_eq in Hl0 by lia. injection Hl0 as <-.
      simpl in Hrm.
      assert (size = bucket_size b - start) as Hsz by lia.
      pose proof (Z.div_mod (start + size + alignment c - 1) (alignment c) ltac:(lia)).
      pose proof (Z.mod_pos_bound (start + size + alignment c - 1) (alignment c) HA).
      lia.
Qed.
End MapperInv.

Section MapperTermination.
Context {T : Type} `{TensorElt T}.
Implicit Types (c : Config) (b : StateBucket T) (bs : list (StateBucket T)).

Lemma split_param_terminates c k n fuel :
  config_wf c →
  ∀ ps bs fr b,
    last bs = Some b →
    (split_measure c n ps b ≤ fuel)%nat →
    is_Ok (split_param fuel c k n ps bs fr).
Proof.
  intros Hc. pose proof Hc as (HA & HS & HD).
  induction fuel as [|fuel IH]; intros ps bs fr b Hl Hm; simpl.
  - destruct (ps <? n) eqn:E; simpl; [|by eexists].
    apply Z.ltb_lt in E. unfold split_measure in Hm. lia.
  - destruct (ps <? n) eqn:E; simpl; [|by eexists].
    apply Z.ltb_lt in E.
    destruct (split_iter_cases c k n ps bs fr b HA Hl)
      as (start & Hr & Hstart & Hdiv & Hcase).
    simpl in Hcase.
    destruct (last_is_Some_lookup _ _ Hl) as (Hlb & Hlen).
    assert (Hst : start = (filled_size b + alignment c - 1) / alignment c * alignment c).
    { unfold _round_to_multiple in Hr.
      destruct (alignment c =? 0); [discriminate|]. by injection Hr as <-. }
    set (size := Z.min (n - ps) (bucket_size b - start)) in *.
    destruct ((size <=? 0) || negb (able_to_fill b)) eqn:Eb.
    + rewrite Hcase.
      destruct (new_bucket_Ok c (contiguous_buffer_offset b + bucket_size b) Hc)
        as (nb & Hnb & N1 & N2 & N3 & N4 & N5 & _).
      rewrite Hnb. simpl. eapply (IH _ _ _ nb); [by rewrite last_snoc|].
      unfold split_measure in *.
      assert (¬ has_room c b) as Hno.
      { intros (Hab & Hrm). apply orb_true_iff in Eb as [Eb|Eb].
        - apply Z.leb_le in Eb. lia.
        - by rewrite Hab in Eb. }
      rewrite decide_False in Hm by done.
      assert (has_room c nb) as Hyes.
      { split; [done|]. rewrite N3, N2.
        assert ((0 + alignment c - 1) / alignment c = 0) as ->
          by (apply Z.div_small; lia).
        nia. }
      rewrite decide_True by done. lia.
    + rewrite Hcase. simpl.
      apply orb_false_iff in Eb as (Esz & Eab). apply Z.leb_gt in Esz.
      eapply IH.
      * rewrite last_lookup, length_insert.
        assert (pred (length bs) = (length bs - 1)%nat) as -> by lia.
        apply list_lookup_insert_eq. lia.
      * unfold split_measure in *.
        assert (has_room c b) as Hyes.
        { split; [by apply negb_false_iff in Eab|]. lia. }
        rewrite decide_True in Hm by done.
        destruct (decide _); lia.
Qed.

Lemma split_param_fuel_Ok c k n bs fr b :
  config_wf c → last bs = Some b → 0 ≤ n →
  is_Ok (split_param (split_fuel n) c k n 0 bs fr).
Proof.
  intros Hc Hl Hn. eapply split_param_terminates; [done..|].
  unfold split_measure, split_fuel. rewrite Z.sub_0_r. destruct (decide _); lia.
Qed.
End MapperTermination.

Section MainParams.
Context {T : Type} `{TensorElt T}.
Implicit Types (c : Config) (b : StateBucket T) (bs : list (StateBucket T)).
Implicit Types (fm : gmap ParamKey (list ParameterFragment)).

Lemma shard_equiv_refl b : shard_equiv b b.
Proof. split; [by destruct b|done]. Qed.

Lemma shard_equiv_trans b1 b2 b3 :
  shard_equiv b1 b2 → shard_equiv b2 b3 → shard_equiv b1 b3.
Proof.
  intros (E1 & L1) (E2 & L2). split; [|congruence].
  rewrite E2. rewrite E1. done.
Qed.

Lemma shard_equiv_fields b b' :
  shard_equiv b b' →
  bucket_size b' = bucket_size b ∧ shard_size b' = shard_size b
  ∧ filled_size b' = filled_size b ∧ able_to_fill b' = able_to_fill b
  ∧ contiguous_buffer_offset b' = contiguous_buffer_offset b
  ∧ fragments b' = fragments b
  ∧ exp_avg_shard b' = exp_avg_shard b
  ∧ exp_avg_sq_shard b' = exp_avg_sq_shard b.
Proof. intros (-> & _). done. Qed.

Lemma bucket_ok_shard_equiv c fm i b b' :
  shard_equiv b b' → bucket_ok c fm i b → bucket_ok c fm i b'.
Proof.
  intros He (H1 & H2 & H3 & H4 & H5 & H6 & H7 & H8 & H9).
  destruct (shard_equiv_fields _ _ He) as (F1 & F2 & F3 & F4 & F5 & F6 & F7 & F8).
  destruct He as (_ & Hlen).
  unfold bucket_ok. rewrite F1, F2, F3, F6, F7, F8.
  split_and!; try done; try lia.
  - destruct (params_shard b') as [t'|], (params_shard b) as [t|];
      simpl in Hlen; try discriminate; [|done].
    injection Hlen as Hlen. destruct H6. split; [done|]. lia.
  - eapply Forall_impl; [exact H9|]. simpl.
    intros f (? & ? & Hs). split_and!; try done.
    unfold fragment_shape_ok in *. by rewrite F2.
Qed.

Lemma layout_ok_shard_equiv c pg bs bs' fm :
  Forall2 shard_equiv bs bs' → layout_ok c pg bs fm → layout_ok c pg bs' fm.
Proof.
  intros He (Hb & Hf). split.
  - intros i b' Hi.
    destruct (Forall2_lookup_r _ _ _ _ _ He Hi) as (b & Hb0 & Heq).
    eapply bucket_ok_shard_equiv; [exact Heq|]. by apply Hb.
  - intros k fs Hk. destruct (Hf _ _ Hk) as (p & Hp & Hok).
    exists p. split; [done|]. eapply fragments_ok_mono; [|exact Hok].
    intros i b Hi.
    destruct (Forall2_lookup_l _ _ _ _ _ He Hi) as (b' & Hb' & Heq).
    exists b'. split; [done|].
    destruct (shard_equiv_fields _ _ Heq) as (_ & _ & _ & _ & _ & -> & _). done.
Qed.

Lemma copy_ready_shard_equiv c p bs bs' f :
  Forall2 shard_equiv bs bs' → copy_ready c p bs f → copy_ready c p bs' f.
Proof.
  intros He (b & Hb & Hs & H0 & Hp & t & Ht & Hl).
  destruct (Forall2_lookup_l _ _ _ _ _ He Hb) as (b' & Hb' & Heq).
  destruct (shard_equiv_fields _ _ Heq) as (_ & F2 & _).
  destruct Heq as (_ & Hlen). rewrite Ht in Hlen. simpl in Hlen.
  exists b'. split; [done|]. unfold fragment_shape_ok in *. rewrite F2.
  destruct Hs as (Hs1 & Hs2 & Hs3).
  split_and!; try done; try lia.
  destruct (params_shard b') as [t'|]; simpl in Hlen; [|discriminate].
  injection Hlen as Hlen. exists t'. split; [done|]. lia.
Qed.

Lemma init_main_param_Ok c p bs f :
  copy_ready c p bs f →
  ∃ bs', init_main_param p bs f = Ok bs' ∧ Forall2 shard_equiv bs bs'.
Proof.
  intros (b & Hb & (Hf & Hps & Hlen) & H0 & Hp & t & Ht & Hl).
  unfold init_main_param. destruct (in_local_shard f) eqn:Eloc.
  - rewrite Hb.
    rewrite Hf in Eloc.
    destruct (make_fragment_local c (fragment_key f) (bucket_id f) (shard_size b)
                (param_range f).1 (param_range f).2
                (bucket_range f).1 (bucket_range f).2 H0 ltac:(lia) Hlen Eloc)
      as (s & e & Hs1 & Hs2 & Hs3 & Hse & HeS & Hlo & Hhi & _).
    rewrite <- Hf in Hs1, Hs3. rewrite Hs3, Hs1, Ht.
    rewrite slice_copy_Ok.
    + simpl. eexists. split; [reflexivity|].
      apply Forall2_same_length_lookup. split; [by rewrite length_insert|].
      intros i x y Hx Hy.
      destruct (decide (i = bucket_id f)) as [->|Hne].
      * rewrite list_lookup_insert_eq in Hy by (by eapply lookup_lt_Some).
        rewrite Hb in Hx. injection Hx as <-. injection Hy as <-.
        split; [done|]. simpl. rewrite Ht. simpl. f_equal.
        rewrite tensor_slice_set_length; [done|lia..|].
        rewrite tensor_slice_length; lia.
      * rewrite list_lookup_insert_ne in Hy by done.
        rewrite Hx in Hy. injection Hy as <-. apply shard_equiv_refl.
    + lia.
    + lia.
    + lia.
    + rewrite tensor_slice_length; lia.
  - exists bs. split; [done|]. apply Forall2_same_length_lookup. split; [done|].
    intros i x y Hx Hy. rewrite Hx in Hy. injection Hy as <-. apply shard_equiv_refl.
Qed.

Lemma init_main_params_Ok c p frags :
  ∀ bs, Forall (copy_ready c p bs) frags →
    ∃ bs', init_main_params p bs frags = Ok bs' ∧ Forall2 shard_equiv bs bs'.
Proof.
  induction frags as [|f frags IH]; intros bs Hall; simpl.
  - exists bs. split; [done|]. apply Forall2_same_length_lookup. split; [done|].
    intros i x y Hx Hy. rewrite Hx in Hy. injection Hy as <-. apply shard_equiv_refl.
  - apply Forall_cons in Hall as (Hf & Hall).
    destruct (init_main_param_Ok c p bs f Hf) as (bs1 & -> & He1). simpl.
    destruct (IH bs1) as (bs2 & Hbs2 & He2).
    { eapply Forall_impl; [exact Hall|]. intros g. by apply copy_ready_shard_equiv. }
    exists bs2. split; [done|].
    apply Forall2_same_length_lookup. split.
    { apply Forall2_length in He1, He2. congruence. }
    intros i x z Hx Hz.
    destruct (Forall2_lookup_l _ _ _ _ _ He1 Hx) as (y & Hy & Hxy).
    destruct (Forall2_lookup_l _ _ _ _ _ He2 Hy) as (z' & Hz' & Hyz).
    rewrite Hz in Hz'. injection Hz' as <-. by eapply shard_equiv_trans.
Qed.
End MainParams.

Lemma chain_bounds a rs b r :
  chain a rs b → r ∈ rs → a ≤ r.1 ∧ r.1 < r.2 ∧ r.2 ≤ b.
Proof.
  revert a. induction rs as [|r0 rs IH]; simpl; intros a Hc Hin.
  - by apply elem_of_nil in Hin.
  - destruct Hc as (<- & Hlt & Hc). apply elem_of_cons in Hin as [->|Hin].
    + apply chain_le in Hc. lia.
    + destruct (IH _ Hc Hin). lia.
Qed.

Section InitParamState.
Context {T : Type} `{TensorElt T}.
Implicit Types (c : Config) (b : StateBucket T) (bs : list (StateBucket T)).
Implicit Types (fm : gmap ParamKey (list ParameterFragment)).
Implicit Types (st : Optimizer T).

Lemma buckets_extend_refl bs : buckets_extend bs bs.
Proof. intros i b Hi. exists b. done. Qed.

Lemma buckets_extend_trans bs1 bs2 bs3 :
  buckets_extend bs1 bs2 → buckets_extend bs2 bs3 → buckets_extend bs1 bs3.
Proof.
  intros H1 H2 i b Hi.
  destruct (H1 _ _ Hi) as (b' & Hi' & A1 & A2 & A3 & A4 & A5 & A6).
  destruct (H2 _ _ Hi') as (b'' & Hi'' & B1 & B2 & B3 & B4 & B5 & B6).
  exists b''. split_and!; try done; try congruence. intros f Hf. by apply B6, A6.
Qed.

Lemma split_iter_extend c k n ps bs fr ps' bs' fr' :
  0 < alignment c →
  split_iter c k n ps bs fr = Ok (ps', bs', fr') → buckets_extend bs bs'.
Proof.
  intros HA Hit. destruct (last bs) as [b|] eqn:Hl;
    [|unfold split_iter in Hit; rewrite Hl in Hit; discriminate].
  destruct (split_iter_cases c k n ps bs fr b HA Hl)
    as (start & Hr & Hstart & Hdiv & Hcase). simpl in Hcase.
  destruct (last_is_Some_lookup _ _ Hl) as (Hlb & Hlen).
  destruct (_ || _).
  - rewrite Hcase in Hit. apply bind_Ok in Hit as (nb & _ & Hit).
    injection Hit as <- <- <-. intros i b0 Hi. exists b0. split; [|done].
    by apply lookup_app_l_Some.
  - rewrite Hcase in Hit. injection Hit as <- <- <-. intros i b0 Hi.
    destruct (decide (i = (length bs - 1)%nat)) as [->|Hne].
    + rewrite Hlb in Hi. injection Hi as <-. eexists.
      split; [apply list_lookup_insert_eq; lia|]. simpl. split_and!; try done.
      intros f Hf. apply elem_of_app. by left.
    + exists b0. split; [|done]. by rewrite list_lookup_insert_ne.
Qed.

Lemma split_param_extend c k n fuel ps bs fr bs' fr' :
  0 < alignment c →
  split_param fuel c k n ps bs fr = Ok (bs', fr') → buckets_extend bs bs'.
Proof.
  intros HA Hrun.
  destruct (split_param_invariant (λ _ bs1 _, buckets_extend bs bs1)
              c k n fuel) with (ps := ps) (bs := bs) (fr := fr)
              (bs' := bs') (fr' := fr') as (? & _ & Hext); try done.
  - intros ps0 bs0 fr0 ps1 bs1 fr1 Hext _ Hit.
    eapply buckets_extend_trans; [exact Hext|]. by eapply split_iter_extend.
  - apply buckets_extend_refl.
Qed.

Lemma shard_equiv_extend bs bs' :
  Forall2 shard_equiv bs bs' → buckets_extend bs bs'.
Proof.
  intros He i b Hi.
  destruct (Forall2_lookup_l _ _ _ _ _ He Hi) as (b' & Hb' & Heq).
  destruct (shard_equiv_fields _ _ Heq) as (F1 & F2 & F3 & F4 & F5 & F6 & F7 & F8).
  exists b'. split_and!; try done. by rewrite F6.
Qed.

(** [_init_param_state] on a parameter that has no fragments yet. *)
Lemma init_param_state_fresh k st p :
  layout_wf st →
  state_fragments st !! k = None →
  lookup_param st k = Some p →
  ∃ bs' fs,
    _init_param_state k st =
      Ok (set_state_buckets bs'
            (set_state_fragments (<[k := fs]> (state_fragments st)) st))
    ∧ layout_wf (set_state_buckets bs'
            (set_state_fragments (<[k := fs]> (state_fragments st)) st))
    ∧ buckets_extend (state_buckets st) bs'
    ∧ chain 0 (param_range <$> fs) (Z.of_nat (length p)).
Proof.
  intros (Hc & Hbs & Hfm) Hnone Hp.
  pose proof Hc as (HA & HS & HD).
  unfold _init_param_state. rewrite Hnone, Hp.
  set (c := config st) in *. set (fm := state_fragments st) in *.
  set (pg := param_groups st) in *. set (n := Z.of_nat (length p)).
  (* the bucket list the loop starts from *)
  assert (∃ bs0,
    ensure_bucket c (state_buckets st) = Ok bs0
    ∧ buckets_extend (state_buckets st) bs0
    ∧ is_Some (last bs0)
    ∧ ∀ i b, bs0 !! i = Some b → bucket_ok c fm i b) as (bs0 & -> & Hext0 & Hl0 & Hbs0).
  { unfold ensure_bucket. destruct (state_buckets st) as [|b0 bs1] eqn:Ebs.
    - destruct (new_bucket_Ok c 0 Hc)
        as (nb & -> & N1 & N2 & N3 & N4 & N5 & N6 & N7 & N8 & N9).
      simpl. exists [nb]. split; [done|]. split; [by intros i b Hi|].
      split; [eauto|]. intros i b Hi.
      apply list_lookup_singleton_Some in Hi as (-> & <-).
      unfold bucket_ok. rewrite N5, N3, N1, N2, N7, N8, N9. simpl.
      split_and!; try done; try lia; try nia.
      + destruct (store_params c); [|done]. split; [done|]. by rewrite length_replicate.
      + constructor.
    - exists (b0 :: bs1). split; [done|]. split; [apply buckets_extend_refl|].
      split; [|done]. rewrite last_lookup. simpl.
      apply lookup_lt_is_Some. simpl. lia. }
  simpl.
  (* the loop returns *)
  destruct Hl0 as (bl & Hl0).
  destruct (split_param_fuel_Ok c k n bs0 [] bl Hc Hl0 ltac:(lia))
    as ([bs1 fr1] & Hrun).
  rewrite Hrun. simpl.
  (* the loop invariant *)
  assert (Hfresh : ∀ i b f, bs0 !! i = Some b → f ∈ fragments b → fragment_key f ≠ k).
  { intros i b f Hi Hf Hk. destruct (Hbs0 _ _ Hi) as (_ & _ & _ & _ & _ & _ & _ & _ & B9).
    rewrite Forall_forall in B9. destruct (B9 _ Hf) as (_ & (fs & Hfs & _) & _).
    rewrite Hk in Hfs. congruence. }
  assert (Hinv0 : mapper_inv c pg fm k n 0 bs0 []).
  { split; [lia|]. split; [eauto|]. split; [|split; [|split]].
    - intros i b Hi. eapply bucket_ok_mono; [|by apply Hbs0].
      intros f fs Hf Hin. destruct (decide (fragment_key f = k)) as [Hk|Hk].
      + rewrite Hk in Hf. congruence.
      + exists fs. by rewrite lookup_insert_ne.
    - split; [|split; [done|constructor]]. exists p. split; [exact Hp|lia].
    - intros k' fs Hne Hk'. destruct (Hfm _ _ Hk') as (p' & Hp' & Hok).
      exists p'. split; [done|]. eapply fragments_ok_mono; [|exact Hok].
      intros i b Hi. destruct (Hext0 _ _ Hi) as (b' & Hb' & _ & _ & _ & _ & _ & Hsub).
      by exists b'.
    - intros _ b Hl Hin. apply list_elem_of_fmap in Hin as (f & Hk & Hf).
      destruct (last_is_Some_lookup _ _ Hl) as (Hlb & _).
      by destruct (Hfresh _ _ _ Hlb Hf). }
  destruct (split_param_invariant (mapper_inv c pg fm k n) c k n (split_fuel n))
    with (ps := 0) (bs := bs0) (fr := @nil ParameterFragment)
         (bs' := bs1) (fr' := fr1)
    as (ps' & Hge & (Hps & Hl1 & Hbs1 & Hfr1 & Hoth1 & _)); try done.
  { intros. eapply mapper_inv_step; eauto. }
  assert (ps' = n) as -> by lia.
  assert (Hlay1 : layout_ok c pg bs1 (<[k:=fr1]> fm)).
  { split; [done|]. intros k' fs Hk'.
    destruct (decide (k' = k)) as [->|Hne].
    - rewrite lookup_insert_eq in Hk'. injection Hk' as <-. exists p. split; [exact Hp|done].
    - rewrite lookup_insert_ne in Hk' by done. by apply Hoth1. }
  assert (Hext1 : buckets_extend (state_buckets st) bs1).
  { eapply buckets_extend_trans; [exact Hext0|]. by eapply split_param_extend. }
  assert (Hchain : chain 0 (param_range <$> fr1) n) by apply Hfr1.
  destruct (store_params c) eqn:Esp.
  - (* the main parameter shards are filled *)
    destruct (init_main_params_Ok c p fr1 bs1) as (bs2 & -> & He2).
    { destruct Hfr1 as (_ & Hch & Hall). rewrite Forall_forall in Hall |- *.
      intros f Hf. destruct (Hall _ Hf) as (Hk & b & Hb & Hin).
      destruct (Hbs1 _ _ Hb) as (B1 & B2 & B3 & B4 & B5 & B6 & B7 & B8 & B9).
      rewrite Forall_forall in B9. destruct (B9 _ Hin) as (_ & _ & Hsh).
      exists b. split_and!; try done.
      - lia.
      - assert (param_range f ∈ param_range <$> fr1) as Hr
          by (apply list_elem_of_fmap; eauto).
        destruct (chain_bounds _ _ _ _ Hch Hr). lia.
      - destruct (params_shard b) as [t|]; [|congruence].
        exists t. split; [done|]. apply B6. }
    simpl. exists bs2, fr1. split; [done|]. split; [|split; [|done]].
    + split; [done|]. simpl. by eapply layout_ok_shard_equiv.
    + eapply buckets_extend_trans; [exact Hext1|]. by apply shard_equiv_extend.
  - simpl. exists bs1, fr1. split; [done|]. split; [|split; [done|done]].
    split; [done|]. done.
Qed.
End InitParamState.

Lemma chain_cover a rs b i :
  chain a rs b → (a ≤ i < b ↔ ∃ r, r ∈ rs ∧ in_range i r).
Proof.
  revert a. induction rs as [|r0 rs IH]; simpl; intros a Hc.
  - subst. split; [lia|]. intros (r & Hr & _). by apply elem_of_nil in Hr.
  - destruct Hc as (<- & Hlt & Hc). pose proof (chain_le _ _ _ Hc).
    split.
    + intros Hi. destruct (decide (i < r0.2)) as [Hlo|Hhi].
      * exists r0. split; [by left|]. unfold in_range. lia.
      * destruct (proj1 (IH _ Hc)) as (r & Hr & Hin); [lia|].
        exists r. split; [by right|done].
    + intros (r & Hr & Hin). apply elem_of_cons in Hr as [->|Hr].
      * unfold in_range in Hin. lia.
      * assert (r0.2 ≤ i < b) by (apply (IH _ Hc); eauto). lia.
Qed.

Lemma chain_disjoint a rs b j1 j2 r1 r2 i :
  chain a rs b →
  rs !! j1 = Some r1 → rs !! j2 = Some r2 →
  in_range i r1 → in_range i r2 → j1 = j2.
Proof.
  revert a j1 j2. induction rs as [|r0 rs IH]; simpl; intros a j1 j2 Hc H1 H2 I1 I2.
  - done.
  - destruct Hc as (<- & Hlt & Hc).
    destruct j1 as [|j1], j2 as [|j2]; simpl in *.
    + done.
    + injection H1 as <-. apply list_elem_of_lookup_2 in H2.
      destruct (chain_bounds _ _ _ _ Hc H2). unfold in_range in *. lia.
    + injection H2 as <-. apply list_elem_of_lookup_2 in H1.
      destruct (chain_bounds _ _ _ _ Hc H1). unfold in_range in *. lia.
    + f_equal. eapply IH; eauto.
Qed.

Section InitParamStateWf.
Context {T : Type} `{TensorElt T}.
Implicit Types (c : Config) (b : StateBucket T) (bs : list (StateBucket T)).
Implicit Types (st : Optimizer T).

(** [_init_param_state] returns and keeps the layout well formed. *)
Lemma init_param_state_wf k st p :
  layout_wf st → lookup_param st k = Some p →
  ∃ st', _init_param_state k st = Ok st' ∧ layout_wf st'
    ∧ is_Some (state_fragments st' !! k)
    ∧ config st' = config st ∧ param_groups st' = param_groups st
    ∧ param_grad st' = param_grad st
    ∧ pre_forward_hook_is_enabled st' = pre_forward_hook_is_enabled st
    ∧ _grads_buckets st' = _grads_buckets st
    ∧ status_log st' = status_log st
    ∧ state_step st' = state_step st
    ∧ _params_buckets st' = _params_buckets st
    ∧ buckets_extend (state_buckets st) (state_buckets st')
    ∧ (∀ k' fs, state_fragments st !! k' = Some fs →
         state_fragments st' !! k' = Some fs).
Proof.
  intros Hwf Hp. destruct (state_fragments st !! k) as [fs|] eqn:Hk.
  - exists st. unfold _init_param_state. rewrite Hk.
    split_and!; try done. apply buckets_extend_refl.
  - destruct (init_param_state_fresh k st p Hwf Hk Hp)
      as (bs' & fs & Hrun & Hwf' & Hext & Hch).
    eexists. split; [exact Hrun|]. split; [exact Hwf'|]. simpl.
    split_and!; try done.
    + rewrite lookup_insert_eq. eauto.
    + intros k' fs' Hk'. rewrite lookup_insert_ne; [done|]. congruence.
Qed.
End InitParamStateWf.

Section Constructor.
Context {T : Type} `{TensorElt T}.
Implicit Types (c : Config) (b : StateBucket T) (bs : list (StateBucket T)).
Implicit Types (st : Optimizer T).

Lemma init_alignment_cases d : init_alignment d = 32 ∨ init_alignment d = 64.
Proof. destruct d; [left|right|right]; reflexivity. Qed.

Lemma init_default_shard_size_spec d raw :
  ∃ s, init_default_shard_size d raw = Ok s
    ∧ s = Z.max (raw / init_alignment d * init_alignment d) (init_alignment d)
    ∧ (init_alignment d | s) ∧ init_alignment d ≤ s.
Proof.
  unfold init_default_shard_size.
  assert (0 < init_alignment d) as HA by (destruct (init_alignment_cases d); lia).
  destruct (round_to_multiple_down raw _ HA) as (r & Hr & Hb & Hd).
  rewrite Hr. simpl. eexists. split; [reflexivity|].
  assert (r = raw / init_alignment d * init_alignment d) as Hrv.
  { unfold _round_to_multiple in Hr. destruct (_ =? 0); [discriminate|]. congruence. }
  split; [by rewrite Hrv|]. split; [|lia].
  destruct (Z.max_spec r (init_alignment d)) as [(_ & ->)|(_ & ->)]; [done|done].
Qed.

Lemma init_wf pg d raw D r R avg ogs ops sp pl st :
  0 < D →
  __init__ (T:=T) pg d raw D r R avg ogs ops sp pl = Ok st →
  layout_wf st ∧ state_buckets st = [] ∧ state_fragments st = ∅
  ∧ param_groups st = pg ∧ _grads_buckets st = ∅ ∧ status_log st = []
  ∧ param_grad st = ∅
  ∧ alignment (config st) = init_alignment d
  ∧ default_shard_size (config st)
    = Z.max (raw / init_alignment d * init_alignment d) (init_alignment d)
  ∧ distributed_size (config st) = D ∧ distributed_rank (config st) = r.
Proof.
  intros HD. unfold __init__.
  destruct (init_default_shard_size_spec d raw) as (s & -> & Hs & Hdiv & Hle).
  simpl. intros [= <-]. simpl.
  assert (0 < init_alignment d) as HA by (destruct (init_alignment_cases d); lia).
  split_and!; try done.
  split; [split_and!; simpl; lia|]. split.
  - intros i b Hi. simpl in Hi. by rewrite lookup_nil in Hi.
  - intros k fs Hk. simpl in Hk. by rewrite lookup_empty in Hk.
Qed.

Lemma split_param_done fuel c k n ps bs fr :
  n ≤ ps → split_param (T:=T) fuel c k n ps bs fr = Ok (bs, fr).
Proof.
  intros Hle. destruct fuel; simpl;
    (destruct (ps <? n) eqn:E; [apply Z.ltb_lt in E; lia|done]).
Qed.

Local Arguments init_main_params : simpl never.

(** A parameter that fits in the first bucket. *)
Lemma init_first_param k st p :
  config_wf (config st) →
  state_buckets st = [] → state_fragments st = ∅ →
  lookup_param st k = Some p →
  0 < Z.of_nat (length p)
    ≤ default_shard_size (config st) * distributed_size (config st) →
  ∃ st' bkt,
    _init_param_state k st = Ok st'
    ∧ config st' = config st
    ∧ state_buckets st' = [bkt]
    ∧ bucket_size bkt = default_shard_size (config st) * distributed_size (config st)
    ∧ shard_size bkt = default_shard_size (config st)
    ∧ filled_size bkt = Z.of_nat (length p)
    ∧ fragments bkt =
        [make_fragment (config st) k 0 (default_shard_size (config st))
           0 (Z.of_nat (length p)) 0 (Z.of_nat (length p))]
    ∧ state_fragments st' !! k = Some (fragments bkt).
Proof.
  intros Hc Hbs Hfm Hp Hn. pose proof Hc as (HA & HS & HD).
  unfold _init_param_state. rewrite Hfm, lookup_empty, Hp, Hbs. simpl.
  destruct (new_bucket_Ok (T:=T) (config st) 0 Hc)
    as (nb & -> & N1 & N2 & N3 & N4 & N5 & N6 & N7 & N8 & N9).
  simpl. set (n := Z.of_nat (length p)) in *.
  assert (split_fuel n = S (2 * Z.to_nat n)) as -> by (unfold split_fuel; lia).
  simpl. destruct (0 <? n) eqn:E; [|apply Z.ltb_ge in E; lia]. simpl.
  destruct (split_iter_cases (config st) k n 0 [nb] [] nb HA eq_refl)
    as (start & Hr & Hstart & Hdiv & Hcase).
  assert (start = 0) as ->.
  { rewrite N3 in Hstart. apply Z.mod_divide in Hdiv; [|lia].
    rewrite Z.mod_small in Hdiv by lia. done. }
  simpl in Hcase. rewrite N2, N4, Z.sub_0_r, Z.sub_0_r in Hcase.
  rewrite Z.min_l in Hcase by lia. rewrite !Z.add_0_l in Hcase.
  destruct (n <=? 0) eqn:E2; [apply Z.leb_le in E2; lia|].
  simpl in Hcase. rewrite Hcase. simpl.
  rewrite split_param_done by lia. simpl.
  rewrite N1, N5. simpl.
  set (f := make_fragment (config st) k 0 (default_shard_size (config st)) 0 n 0 n).
  set (b1 := set_filled_size n (set_fragments [f] nb)).
  destruct (store_params (config st)) eqn:Esp.
  - destruct (init_main_params_Ok (config st) p [f] [b1]) as (bs2 & -> & He2).
    { apply Forall_singleton. exists b1.
      destruct (make_fragment_fields (config st) k 0 (default_shard_size (config st))
                  0 n 0 n) as (Fk & Fi & Fp & Fb). fold f in Fk, Fi, Fp, Fb.
      split; [by rewrite Fi|]. split.
      { unfold fragment_shape_ok. rewrite Fk, Fi, Fp, Fb. simpl. rewrite N1.
        split_and!; [reflexivity|lia..]. }
      split; [simpl; lia|]. split; [rewrite Fp; simpl; lia|].
      simpl. rewrite N9. eexists. split; [reflexivity|].
      rewrite length_replicate. by rewrite N1. }
    simpl. apply Forall2_cons_inv_l in He2 as (b2 & bs3 & Heq & He3 & ->).
    apply Forall2_nil_inv_l in He3 as ->.
    destruct (shard_equiv_fields _ _ Heq) as (F1 & F2 & F3 & F4 & F5 & F6 & F7 & F8).
    eexists _, b2. split; [reflexivity|]. simpl.
    rewrite F1, F2, F3, F6. simpl. rewrite lookup_insert_eq.
    split_and!; try done.
  - simpl. eexists _, b1. split; [reflexivity|]. simpl. rewrite lookup_insert_eq.
    split_and!; try done.
Qed.
End Constructor.

(** C1: [_init_param_state] returns for every parameter of a well-formed
    optimizer, and the fragments it records for the parameter partition
    it: their [param_range]s are consecutive non-empty intervals that lead
    from 0 to the number of elements, so every element lies in exactly one
    of them, and every fragment is listed by exactly one bucket, the one
    that its [bucket_id] names. *)
Theorem C1_fragments_partition_parameter
    {T : Type} `{TensorElt T} (k : ParamKey) (st : Optimizer T) (p : list T) :
  layout_wf st →
  lookup_param st k = Some p →
  ∃ st' fs,
    _init_param_state k st = Ok st'
    ∧ state_fragments st' !! k = Some fs
    ∧ chain 0 (param_range <$> fs) (Z.of_nat (length p))
    ∧ (∀ i, 0 ≤ i < Z.of_nat (length p)
            ↔ ∃ f, f ∈ fs ∧ in_range i (param_range f))
    ∧ (∀ j1 j2 f1 f2 i,
         fs !! j1 = Some f1 → fs !! j2 = Some f2 →
         in_range i (param_range f1) → in_range i (param_range f2) → j1 = j2)
    ∧ (∀ f, f ∈ fs →
         ∀ i, (∃ b, state_buckets st' !! i = Some b ∧ f ∈ fragments b)
              ↔ i = bucket_id f).
Proof.
  intros Hwf Hp.
  destruct (init_param_state_wf k st p Hwf Hp)
    as (st' & Hrun & Hwf' & (fs & Hfs) & Hcfg & Hpg & _).
  exists st', fs. split; [done|]. split; [done|].
  destruct Hwf' as (_ & Hbs & Hfm).
  destruct (Hfm _ _ Hfs) as (p' & Hp' & (_ & Hch & Hall)).
  assert (p' = p) as ->.
  { unfold lookup_param in Hp. rewrite Hpg in Hp'. congruence. }
  split; [done|]. split; [|split].
  - intros i. rewrite (chain_cover _ _ _ i Hch). split.
    + intros (r & Hr & Hi). apply list_elem_of_fmap in Hr as (f & -> & Hf). eauto.
    + intros (f & Hf & Hi). exists (param_range f). split; [|done].
      apply list_elem_of_fmap. eauto.
  - intros j1 j2 f1 f2 i H1 H2 I1 I2.
    apply (chain_disjoint _ _ _ j1 j2 (param_range f1) (param_range f2) i Hch);
      try done.
    + by rewrite list_lookup_fmap, H1.
    + by rewrite list_lookup_fmap, H2.
  - intros f Hf i. rewrite Forall_forall in Hall.
    destruct (Hall _ Hf) as (_ & b & Hb & Hin). split.
    + intros (b' & Hb' & Hin').
      destruct (Hbs _ _ Hb') as (_ & _ & _ & _ & _ & _ & _ & _ & B9).
      rewrite Forall_forall in B9. by destruct (B9 _ Hin') as (-> & _).
    + intros ->. eauto.
Qed.

Lemma example_layout_wf (A S D r : Z) (pg : list (list (list Z))) :
  0 < A → 0 < S → 0 < D →
  layout_wf (example_optimizer (example_config A S D r) pg).
Proof.
  intros. split; [done|]. split.
  - intros i b Hi. simpl in Hi. by rewrite lookup_nil in Hi.
  - intros k fs Hk. simpl in Hk. by rewrite lookup_empty in Hk.
Qed.

(** C1 at a parameter of 100 elements and buckets of 128 elements. *)
Lemma C1_witness :
  ∃ st' fs,
    _init_param_state (0%nat, 0%nat)
      (example_optimizer (example_config 32 64 2 0) [[replicate 100 7]]) = Ok st'
    ∧ state_fragments st' !! (0%nat, 0%nat) = Some fs
    ∧ chain 0 (param_range <$> fs) 100.
Proof.
  destruct (C1_fragments_partition_parameter (0%nat, 0%nat)
              (example_optimizer (example_config 32 64 2 0) [[replicate 100 7]])
              (replicate 100 7))
    as (st' & fs & H1 & H2 & H3 & _).
  - apply example_layout_wf; lia.
  - reflexivity.
  - exists st', fs. split; [exact H1|]. split; [exact H2|exact H3].
Defined.

(** C3, as stated: a bucket is filled to its capacity before a new one is
    opened.  With the constructor for float32 (alignment 32), buckets of 64
    elements and parameters of 33 and 10 elements, the second parameter
    would start at 33 rounded up to 64, the end of the bucket: a second
    bucket is opened while the first holds 33 of its 64 elements. *)
Lemma C3_counterexample :
  match
    st0 ← __init__ [[replicate 33 0; replicate 10 0]] float32 64 1 0 1
            true true false true 2;
    st1 ← _init_param_state (0%nat, 0%nat) st0;
    _init_param_state (0%nat, 1%nat) st1
  with
  | Ok st => buckets_before_last_full st
  | _ => true
  end = false.
Proof. vm_compute. reflexivity. Qed.

(** C3, amended: in every iteration of the mapper the start offset is the
    fill level of the last bucket rounded up to a multiple of the
    alignment.  If the bucket may be filled and the offset lies below its
    size, the fragment is placed at that offset in that bucket and ends
    within it; otherwise (the bucket is closed for filling, or the rounded
    offset reaches its end, whatever is left unfilled) a new empty bucket is
    opened.  Two parameters of 8 and 4 elements in a bucket of 16 elements
    with alignment 4 occupy [0,8) and [8,12), and 4 elements stay
    unfilled. *)
Theorem C3_fragment_placement :
  (∀ (T : Type) (HT : TensorElt T) (c : Config) (k : ParamKey) (n ps : Z)
     (bs : list (StateBucket T)) (fr : list ParameterFragment) (b : StateBucket T),
     config_wf c → last bs = Some b → ps < n →
     ∃ start,
       _round_to_multiple (filled_size b) (alignment c) true = Ok start
       ∧ filled_size b ≤ start < filled_size b + alignment c
       ∧ (alignment c | start)
       ∧ ((able_to_fill b = true ∧ start < bucket_size b
           ∧ ∃ f size,
               size = Z.min (n - ps) (bucket_size b - start) ∧ 0 < size
               ∧ split_iter c k n ps bs fr =
                   Ok (ps + size,
                       <[(length bs - 1)%nat :=
                           set_filled_size (start + size)
                             (set_fragments (fragments b ++ [f]) b)]> bs,
                       fr ++ [f])
               ∧ bucket_id f = (length bs - 1)%nat
               ∧ param_range f = (ps, ps + size)
               ∧ bucket_range f = (start, start + size)
               ∧ start + size ≤ bucket_size b)
          ∨ ((able_to_fill b = false ∨ bucket_size b ≤ start)
             ∧ ∃ nb, split_iter c k n ps bs fr = Ok (ps, bs ++ [nb], fr)
                 ∧ filled_size nb = 0 ∧ fragments nb = []
                 ∧ bucket_size nb = default_shard_size c * distributed_size c)))
  ∧ (∃ st b,
       (st1 ← _init_param_state (0%nat, 0%nat)
                (example_optimizer (example_config 4 16 1 0)
                   [[replicate 8 1; replicate 4 2]]);
        _init_param_state (0%nat, 1%nat) st1) = Ok st
       ∧ state_buckets st = [b]
       ∧ bucket_size b = 16
       ∧ fragment_key <$> fragments b = [(0%nat, 0%nat); (0%nat, 1%nat)]
       ∧ bucket_range <$> fragments b = [(0, 8); (8, 12)]
       ∧ filled_size b = 12
       ∧ bucket_size b - filled_size b = 4).
Proof.
  split.
  - intros T HT c k n ps bs fr b Hc Hl Hlt. pose proof Hc as (HA & HS & HD).
    destruct (split_iter_cases c k n ps bs fr b HA Hl)
      as (start & Hr & Hstart & Hdiv & Hcase).
    exists start. split; [done|]. split; [done|]. split; [done|].
    simpl in Hcase.
    set (size := Z.min (n - ps) (bucket_size b - start)) in *.
    destruct ((size <=? 0) || negb (able_to_fill b)) eqn:Eb.
    + right. split.
      * apply orb_true_iff in Eb as [Eb|Eb].
        -- apply Z.leb_le in Eb. right. lia.
        -- left. by apply negb_true_iff in Eb.
      * destruct (new_bucket_Ok (T:=T) c (contiguous_buffer_offset b + bucket_size b) Hc)
          as (nb & Hnb & N1 & N2 & N3 & N4 & N5 & _).
        exists nb. rewrite Hcase, Hnb. simpl. split_and!; done.
    + left. apply orb_false_iff in Eb as (Esz & Eab).
      apply Z.leb_gt in Esz. apply negb_false_iff in Eab.
      split; [done|]. split; [lia|].
      eexists _, size. split; [done|]. split; [done|]. split; [exact Hcase|].
      destruct (make_fragment_fields c k (length bs - 1) (shard_size b) ps (ps + size)
                  start (start + size)) as (Fk & Fi & Fp & Fb).
      split_and!; try done. lia.
  - eexists _, _. split; [vm_compute; reflexivity|].
    split; [reflexivity|]. split_and!; reflexivity.
Qed.

(** C3 at a bucket filled up to 33 with alignment 32: the next fragment
    would start at 64. *)
Lemma C3_witness :
  ∃ start,
    _round_to_multiple 33 32 true = Ok start ∧ (32 | start) ∧ 64 ≤ start.
Proof.
  destruct (proj1 C3_fragment_placement Z _ (example_config 32 64 1 0)
              (0%nat, 1%nat) 10 0
              [{| bucket_size := 64; shard_size := 64; filled_size := 33;
                  able_to_fill := true; contiguous_buffer_offset := 0;
                  fragments := []; params_shard := None;
                  exp_avg_shard := []; exp_avg_sq_shard := [] |}] []
              {| bucket_size := 64; shard_size := 64; filled_size := 33;
                 able_to_fill := true; contiguous_buffer_offset := 0;
                 fragments := []; params_shard := None;
                 exp_avg_shard := []; exp_avg_sq_shard := [] |})
    as (start & Hr & Hb & Hd & _).
  - unfold config_wf. simpl. lia.
  - reflexivity.
  - lia.
  - exists start. simpl in *. split; [exact Hr|]. split; [exact Hd|].
    unfold _round_to_multiple in Hr. simpl in Hr. injection Hr as <-. lia.
Defined.

Ltac simpl_minmax :=
  repeat match goal with
  | |- context [Z.max ?a ?b] =>
      first [rewrite (Z.max_l a b) by lia | rewrite (Z.max_r a b) by lia]
  | |- context [Z.min ?a ?b] =>
      first [rewrite (Z.min_l a b) by lia | rewrite (Z.min_r a b) by lia]
  end.

(** C7, as stated: one parameter of 10 elements at world size 2 gives a
    shard size of 5, rank 0 owning [0,5) and rank 1 owning [5,10).  The
    constructor never returns a shard size of 5: it is at least the
    alignment. *)
Lemma C7_counterexample :
  ¬ (∀ rank, rank = 0 ∨ rank = 1 →
       ∃ st0 st f,
         __init__ [[replicate 10 0]] float32 5 2 rank 1 true true false true 2
           = Ok st0
         ∧ _init_param_state (0%nat, 0%nat) st0 = Ok st
         ∧ default_shard_size (config st) = 5
         ∧ state_fragments st !! (0%nat, 0%nat) = Some [f]
         ∧ shard_param_range f = Some (5 * rank, 5 * rank + 5)).
Proof.
  intros Hall. destruct (Hall 0 (or_introl eq_refl)) as (st0 & st & f & H0 & H1 & H2 & _).
  vm_compute in H0. injection H0 as <-.
  vm_compute in H1. injection H1 as <-.
  vm_compute in H2. discriminate.
Qed.

(** C7, amended: for one parameter of 10 elements at world size 2 the
    constructor gives a shard size that is a multiple of the alignment (32
    or 64) and at least 32; a single bucket holds the parameter in one
    fragment [0,10), which lies wholly in the shard of rank 0 and not in
    the shard of rank 1.  The split of the scenario is what the mapper
    produces from a shard size of 5: rank [r] owns the elements
    [5r, 5r + 5). *)
Theorem C7_ten_elements_two_ranks :
  (∀ (T : Type) (HT : TensorElt T) (d : dtype) (raw rank R pl : Z)
     (avg ogs ops sp : bool) (p : list T),
     length p = 10%nat → rank = 0 ∨ rank = 1 →
     ∃ st0 st bkt f,
       __init__ [[p]] d raw 2 rank R avg ogs ops sp pl = Ok st0
       ∧ _init_param_state (0%nat, 0%nat) st0 = Ok st
       ∧ (alignment (config st) = 32 ∨ alignment (config st) = 64)
       ∧ (alignment (config st) | default_shard_size (config st))
       ∧ 32 ≤ default_shard_size (config st)
       ∧ state_buckets st = [bkt]
       ∧ shard_size bkt = default_shard_size (config st)
       ∧ state_fragments st !! (0%nat, 0%nat) = Some [f]
       ∧ param_range f = (0, 10) ∧ bucket_range f = (0, 10)
       ∧ (rank = 0 → in_local_shard f = true ∧ shard_param_range f = Some (0, 10))
       ∧ (rank = 1 → in_local_shard f = false ∧ shard_param_range f = None))
  ∧ (∀ (T : Type) (HT : TensorElt T) (st0 : Optimizer T) (p : list T),
       length p = 10%nat →
       config_wf (config st0) →
       default_shard_size (config st0) = 5 → distributed_size (config st0) = 2 →
       distributed_rank (config st0) = 0 ∨ distributed_rank (config st0) = 1 →
       param_groups st0 = [[p]] →
       state_buckets st0 = [] → state_fragments st0 = ∅ →
       ∃ st f,
         _init_param_state (0%nat, 0%nat) st0 = Ok st
         ∧ state_fragments st !! (0%nat, 0%nat) = Some [f]
         ∧ param_range f = (0, 10)
         ∧ shard_range f = Some (0, 5)
         ∧ shard_param_range f
           = Some (5 * distributed_rank (config st0),
                   5 * distributed_rank (config st0) + 5)).
Proof.
  split.
  - intros T HT d raw rank R pl avg ogs ops sp p Hlen Hrank.
    destruct (__init__ [[p]] d raw 2 rank R avg ogs ops sp pl) as [st0| |] eqn:Hinit.
    2,3: unfold __init__ in Hinit;
         destruct (init_default_shard_size_spec d raw) as (s & Hs & _);
         rewrite Hs in Hinit; discriminate.
    destruct (init_wf [[p]] d raw 2 rank R avg ogs ops sp pl st0 ltac:(lia) Hinit)
      as (Hwf & Hbs & Hfm & Hpg & _ & _ & _ & HA & HS & HD & Hr).
    destruct (init_default_shard_size_spec d raw) as (s & _ & Hs & Hdiv & Hle).
    rewrite <- HS in Hs. subst s. rewrite <- HA in Hdiv, Hle.
    assert (alignment (config st0) = 32 ∨ alignment (config st0) = 64) as HA'
      by (rewrite HA; apply init_alignment_cases).
    destruct (init_first_param (0%nat, 0%nat) st0 p (proj1 Hwf) Hbs Hfm)
      as (st & bkt & Hrun & Hcfg & Hb & B1 & B2 & B3 & B4 & B5).
    { unfold lookup_param. by rewrite Hpg. }
    { rewrite Hlen, HD. lia. }
    rewrite Hlen in B4. rewrite B4 in B5.
    eexists st0, st, bkt, _. rewrite Hcfg.
    split; [done|]. split; [done|]. split; [done|]. split; [done|].
    split; [lia|]. split; [done|]. split; [done|]. split; [exact B5|].
    split; [reflexivity|]. split; [reflexivity|].
    unfold make_fragment. simpl. rewrite Hr.
    set (S := default_shard_size (config st0)) in *.
    split.
    + intros ->. rewrite ?Z.mul_0_r, ?Z.sub_0_r, ?Z.add_0_r.
      simpl_minmax. done.
    + intros ->. rewrite ?Z.mul_1_r.
      simpl_minmax. done.
  - intros T HT st0 p Hlen Hc HS HD Hr Hpg Hbs Hfm.
    destruct (init_first_param (0%nat, 0%nat) st0 p Hc Hbs Hfm)
      as (st & bkt & Hrun & Hcfg & Hb & B1 & B2 & B3 & B4 & B5).
    { unfold lookup_param. by rewrite Hpg. }
    { rewrite Hlen, HS, HD. lia. }
    rewrite Hlen in B4. rewrite B4 in B5. rewrite HS in B5.
    eexists st, _. split; [done|]. split; [exact B5|].
    split; [reflexivity|].
    unfold make_fragment. simpl.
    destruct Hr as [-> | ->]; simpl; done.
Qed.

(** C7 at rank 1 with the constructor, and at a shard size of 5. *)
Lemma C7_witness :
  (∃ st0 st f,
     __init__ [[replicate 10 0]] float32 5 2 1 1 true true false true 2 = Ok st0
     ∧ _init_param_state (0%nat, 0%nat) st0 = Ok st
     ∧ 32 ≤ default_shard_size (config st)
     ∧ state_fragments st !! (0%nat, 0%nat) = Some [f]
     ∧ in_local_shard f = false)
  ∧ (∃ st f,
       _init_param_state (0%nat, 0%nat)
         (example_optimizer (example_config 1 5 2 1) [[replicate 10 0]]) = Ok st
       ∧ state_fragments st !! (0%nat, 0%nat) = Some [f]
       ∧ shard_param_range f = Some (5, 10)).
Proof.
  split.
  - destruct (proj1 C7_ten_elements_two_ranks Z _ float32 5 1 1 2
                true true false true (replicate 10 0))
      as (st0 & st & bkt & f & H1 & H2 & _ & _ & H3 & _ & _ & H4 & _ & _ & _ & H5).
    + reflexivity.
    + right. reflexivity.
    + exists st0, st, f. split; [exact H1|]. split; [exact H2|]. split; [exact H3|].
      split; [exact H4|]. exact (proj1 (H5 eq_refl)).
  - destruct (proj2 C7_ten_elements_two_ranks Z _
                (example_optimizer (example_config 1 5 2 1) [[replicate 10 0]])
                (replicate 10 0)) as (st & f & H1 & H2 & _ & _ & H3).
    + reflexivity.
    + unfold config_wf. simpl. lia.
    + reflexivity.
    + reflexivity.
    + right. reflexivity.
    + reflexivity.
    + reflexivity.
    + reflexivity.
    + exists st, f. split; [exact H1|]. split; [exact H2|exact H3].
Defined.

Section GradBasics.
Context {T : Type} `{TensorElt T} `{Collectives T}.
Implicit Types (st : Optimizer T) (gb : GradientBucket T) (sb : StateBucket T).
Implicit Types (G : gmap nat (GradientBucket T)) (L : list StatusWrite).

Lemma with_grads_eta st : st = with_grads (_grads_buckets st) (status_log st) st.
Proof. by destruct st. Qed.

Lemma for_each_app {A S} (body : A → S → result S) l1 l2 s :
  for_each body (l1 ++ l2) s = (s' ← for_each body l1 s; for_each body l2 s').
Proof.
  revert s. induction l1 as [|x l1 IH]; intros s; simpl; [done|].
  destruct (body x s); simpl; [apply IH|done..].
Qed.

Lemma for_each_inv {A S} (P : S → Prop) (body : A → S → result S) l s s' :
  (∀ x s s', x ∈ l → P s → body x s = Ok s' → P s') →
  P s → for_each body l s = Ok s' → P s'.
Proof.
  revert s. induction l as [|x l IH]; intros s Hb HP; simpl.
  - by intros [= <-].
  - intros Hrun. apply bind_Ok in Hrun as (s1 & H1 & Hrun).
    eapply IH; [|eapply Hb; [left|exact HP|exact H1]|exact Hrun].
    intros y t t' Hy. apply Hb. by right.
Qed.

Lemma for_each_Ok {A S} (P : S → Prop) (body : A → S → result S) l s :
  (∀ x s, x ∈ l → P s → ∃ s', body x s = Ok s' ∧ P s') →
  P s → ∃ s', for_each body l s = Ok s' ∧ P s'.
Proof.
  revert s. induction l as [|x l IH]; intros s Hb HP; simpl.
  - eauto.
  - destruct (Hb x s) as (s1 & -> & HP1); [by left|done|]. simpl.
    apply IH; [|done]. intros y t Hy. apply Hb. by right.
Qed.

Lemma apply_keys_lookup f l G bid :
  apply_keys f l G !! bid =
    if decide (bid ∈ l) then Some (f bid (default GradientBucket_init (G !! bid)))
    else G !! bid.
Proof.
  unfold apply_keys.
  assert (∀ G', foldl (λ G' b, <[b := f b (default GradientBucket_init (G !! b))]> G')
                  G' l !! bid =
                if decide (bid ∈ l)
                then Some (f bid (default GradientBucket_init (G !! bid)))
                else G' !! bid) as Hgen.
  { induction l as [|x l IH]; intros G'; cbn [foldl].
    - case_decide as Hin; [by apply elem_of_nil in Hin|done].
    - rewrite IH. destruct (decide (bid ∈ l)) as [Hin|Hnin].
      + rewrite decide_True by (by right). done.
      + destruct (decide (bid = x)) as [->|Hne].
        * rewrite decide_True by (by left). by rewrite lookup_insert_eq.
        * rewrite decide_False by (intros [?|?]%elem_of_cons; done).
          by rewrite lookup_insert_ne. }
  apply Hgen.
Qed.

(** A loop whose body only changes the bucket it is called for. *)
Lemma for_each_local (body : nat → Optimizer T → result (Optimizer T))
    (f : nat → GradientBucket T → GradientBucket T)
    (w : nat → GradientBucket T → list StatusWrite) l G st :
  NoDup l →
  (∀ bid G' L', bid ∈ l → G' !! bid = G !! bid →
     body bid (with_grads G' L' st) =
       Ok (with_grads (<[bid := f bid (default GradientBucket_init (G !! bid))]> G')
             (L' ++ w bid (default GradientBucket_init (G !! bid))) st)) →
  ∀ L, for_each body l (with_grads G L st) =
    Ok (with_grads (apply_keys f l G)
          (L ++ concat ((λ bid, w bid (default GradientBucket_init (G !! bid))) <$> l))
          st).
Proof.
  intros Hnd Hbody. unfold apply_keys.
  assert (∀ G' L, (∀ bid, bid ∈ l → G' !! bid = G !! bid) →
    for_each body l (with_grads G' L st) =
    Ok (with_grads
          (foldl (λ G' b, <[b := f b (default GradientBucket_init (G !! b))]> G') G' l)
          (L ++ concat ((λ bid, w bid (default GradientBucket_init (G !! bid))) <$> l))
          st)) as Hgen.
  { induction l as [|x l IH]; intros G' L Hsame; simpl.
    - by rewrite app_nil_r.
    - apply NoDup_cons in Hnd as (Hx & Hnd).
      rewrite Hbody; [|by left|apply Hsame; by left]. simpl.
      rewrite IH.
      + by rewrite <- app_assoc.
      + done.
      + intros bid G'' L'' Hin. apply Hbody. by right.
      + intros bid Hin. rewrite lookup_insert_ne; [apply Hsame; by right|].
        intros ->. done. }
  intros L. by apply Hgen.
Qed.

Lemma sorted_bucket_ids_spec G L st :
  NoDup (sorted_bucket_ids (with_grads G L st))
  ∧ ∀ bid, bid ∈ sorted_bucket_ids (with_grads G L st) ↔ is_Some (G !! bid).
Proof.
  unfold sorted_bucket_ids. simpl. split.
  - rewrite merge_sort_Permutation. apply NoDup_elements.
  - intros bid. rewrite merge_sort_Permutation, elem_of_elements.
    apply elem_of_dom.
Qed.
End GradBasics.

Section Finish.
Context {T : Type} `{TensorElt T} `{Collectives T}.
Implicit Types (st : Optimizer T) (gb : GradientBucket T) (sb : StateBucket T).
Implicit Types (G : gmap nat (GradientBucket T)) (L : list StatusWrite).

Lemma tensor_add_Ok (t src : list T) :
  length src = length t → tensor_add_ t src = Ok (zip_with tadd t src).
Proof. intros Hl. unfold tensor_add_. by rewrite broadcast_to_same. Qed.

Lemma finish_bucket_local bid gb G' L' st :
  G' !! bid = Some gb → finish_ok gb →
  finish_bucket bid (with_grads G' L' st) =
    Ok (with_grads (<[bid := finished gb]> G') (L' ++ finish_writes st bid gb) st).
Proof.
  intros Hb Hok. unfold finish_bucket, finished, finish_writes.
  unfold grads_bucket_at. simpl. rewrite Hb. simpl.
  destruct (decide (status gb = SYNCING)) as [Hs|Hs].
  - assert (∃ shard,
      match grads_shard gb with
      | Some sh =>
          match sync_grads_shard gb with
          | Some sy => tensor_add_ sh sy ≫= λ sh', Ok (Some sh')
          | None => Raise TypeError
          end
      | None => Ok (sync_grads_shard gb)
      end = Ok shard
      ∧ shard = match grads_shard gb with
                | Some sh => Some (zip_with tadd sh (default [] (sync_grads_shard gb)))
                | None => sync_grads_shard gb
                end) as (shard & -> & ->).
    { destruct (grads_shard gb) as [sh|] eqn:Esh; [|eauto].
      destruct (Hok Hs sh Esh) as (sy & -> & Hl).
      rewrite tensor_add_Ok by done. simpl. eauto. }
    simpl. unfold write_status, update_grads_bucket, grads_bucket_at, with_grads.
    simpl. rewrite Hb. simpl. rewrite lookup_insert_eq. simpl.
    rewrite insert_insert_eq. rewrite Hs. done.
  - rewrite app_nil_r. by rewrite insert_id.
Qed.

Lemma finish_spec G L st :
  (∀ bid gb, G !! bid = Some gb → finish_ok gb) →
  _finish_bucket_grad_sync (with_grads G L st) =
    Ok (with_grads (finished <$> G)
          (L ++ concat ((λ bid, finish_writes st bid
                                  (default GradientBucket_init (G !! bid)))
                          <$> sorted_bucket_ids (with_grads G L st)))
          st).
Proof.
  intros Hok. unfold _finish_bucket_grad_sync.
  destruct (sorted_bucket_ids_spec G L st) as (Hnd & Hin).
  rewrite (for_each_local finish_bucket (λ _, finished) (finish_writes st)).
  - f_equal. f_equal. apply map_eq. intros bid.
    rewrite apply_keys_lookup, lookup_fmap. case_decide as Hb.
    + apply Hin in Hb as (gb & ->). done.
    + destruct (G !! bid) eqn:E; [|done]. exfalso. apply Hb, Hin. eauto.
  - done.
  - intros bid G' L' Hb Hsame. apply Hin in Hb as (gb & Hgb).
    rewrite Hgb in Hsame |- *. simpl. apply finish_bucket_local; [done|].
    by eapply Hok.
Qed.

Lemma finished_status gb : status (finished gb) ≠ SYNCING.
Proof. unfold finished. case_decide; done. Qed.

Lemma finished_not_syncing gb : status gb ≠ SYNCING → finished gb = gb.
Proof. intros. unfold finished. by rewrite decide_False. Qed.
End Finish.

Section Start.
Context {T : Type} `{TensorElt T} `{Collectives T}.
Implicit Types (st : Optimizer T) (gb : GradientBucket T) (sb : StateBucket T).
Implicit Types (G : gmap nat (GradientBucket T)) (L : list StatusWrite).

Lemma start_bucket_local bid gb g G' L' st :
  G' !! bid = Some gb → status gb ≠ SYNCING → grads_bucket gb = Some g →
  0 < distributed_size (config st) →
  start_bucket bid (with_grads G' L' st) =
    Ok (with_grads (<[bid := start_pass (config st) gb]> G')
          (L' ++ start_writes st bid gb) st).
Proof.
  intros Hb Hs Hg HD. unfold start_bucket, grads_bucket_at. simpl. rewrite Hb. simpl.
  rewrite decide_False by done. simpl.
  unfold write_status, update_grads_bucket, grads_bucket_at, with_grads. simpl.
  rewrite Hb. simpl. repeat (rewrite lookup_insert_eq; simpl). rewrite Hg.
  unfold start_pass, start_writes. rewrite Hg. simpl.
  destruct (distributed_size (config st) =? 1) eqn:ED.
  - simpl. repeat (rewrite lookup_insert_eq; simpl). rewrite !insert_insert_eq. done.
  - destruct (distributed_size (config st) =? 0) eqn:E0; [lia|].
    rewrite zeros_Ok by (apply Z.div_pos; lia). simpl.
    repeat (rewrite lookup_insert_eq; simpl). rewrite !insert_insert_eq. done.
Qed.

Lemma reduce_scatter_bucket_local bid gb g G' L' st :
  G' !! bid = Some gb → grads_bucket gb = Some g →
  reduce_scatter_bucket bid (with_grads G' L' st) =
    Ok (with_grads (<[bid := reduce_scatter_pass (config st) gb]> G') (L' ++ []) st).
Proof.
  intros Hb Hg. unfold reduce_scatter_bucket, grads_bucket_at. simpl.
  rewrite Hb. simpl. rewrite Hg.
  unfold update_grads_bucket, grads_bucket_at, with_grads, reduce_scatter_pass.
  simpl. rewrite Hb, Hg, app_nil_r. done.
Qed.

Lemma all_reduce_bucket_local bid gb s G' L' st :
  G' !! bid = Some gb → sync_grads_shard gb = Some s →
  all_reduce_bucket bid (with_grads G' L' st) =
    Ok (with_grads (<[bid := all_reduce_pass (config st) gb]> G') (L' ++ []) st).
Proof.
  intros Hb Hg. unfold all_reduce_bucket, grads_bucket_at. simpl.
  rewrite Hb. simpl. rewrite Hg.
  unfold update_grads_bucket, grads_bucket_at, with_grads, all_reduce_pass.
  simpl. rewrite Hb, Hg, app_nil_r. done.
Qed.

Lemma passes_started c gb g :
  grads_bucket gb = Some g → 0 < distributed_size c →
  (if 1 <? redundant_size c then all_reduce_pass c else id)
    ((if 1 <? distributed_size c then reduce_scatter_pass c else id)
       (start_pass c gb)) = started c gb.
Proof.
  intros Hg HD. unfold started, reduced, all_reduce_pass, reduce_scatter_pass, start_pass.
  destruct (1 <? redundant_size c) eqn:ER;
    destruct (Z.ltb_spec 1 (distributed_size c));
    destruct (Z.eqb_spec (distributed_size c) 1);
    simpl; rewrite ?Hg; simpl;
    repeat match goal with
    | |- context [?a =? 1] => destruct (Z.eqb_spec a 1)
    end; simpl; try done; try lia;
    unfold set_sync_grads_shard, set_grads_generated, set_status, set_grads_bucket;
    simpl; rewrite ?Hg; done.
Qed.
End Start.

Section StartSpec.
Context {T : Type} `{TensorElt T} `{Collectives T}.
Implicit Types (st : Optimizer T) (gb : GradientBucket T) (sb : StateBucket T).
Implicit Types (G : gmap nat (GradientBucket T)) (L : list StatusWrite).

Lemma concat_fmap_nil {A B} (l : list A) :
  concat ((λ _, @nil B) <$> l) = [].
Proof. induction l; simpl; done. Qed.

Lemma start_spec (l : list nat) G L st :
  0 < distributed_size (config st) →
  NoDup l →
  (∀ bid gb, G !! bid = Some gb → finish_ok gb) →
  (∀ bid, bid ∈ l →
     ∃ gb g, G !! bid = Some gb ∧ status gb ≠ SYNCING ∧ grads_bucket gb = Some g) →
  ∃ G2,
    _start_bucket_grad_sync l (with_grads G L st) =
      Ok (with_grads G2
            (L ++ finish_log st G (sorted_bucket_ids (with_grads G L st))
               ++ start_log st G l) st)
    ∧ ∀ bid, G2 !! bid =
        if decide (bid ∈ l) then started (config st) <$> G !! bid
        else finished <$> G !! bid.
Proof.
  intros HD Hnd Hok Hl. unfold _start_bucket_grad_sync.
  rewrite finish_spec by done. simpl.
  set (G1 := finished <$> G).
  set (L1 := L ++ _).
  assert (HG1 : ∀ bid, bid ∈ l →
            ∃ gb g, G !! bid = Some gb ∧ G1 !! bid = Some gb
              ∧ status gb ≠ SYNCING ∧ grads_bucket gb = Some g).
  { intros bid Hin. destruct (Hl _ Hin) as (gb & g & Hb & Hs & Hg).
    exists gb, g. split_and!; try done. unfold G1.
    rewrite lookup_fmap, Hb. simpl. by rewrite finished_not_syncing. }
  (* first pass *)
  rewrite (for_each_local start_bucket (λ _, start_pass (config st)) (start_writes st));
    [|done|].
  2:{ intros bid G' L' Hin Hsame.
      destruct (HG1 _ Hin) as (gb & g & Hb & Hb1 & Hs & Hg).
      rewrite Hb1 in Hsame |- *. simpl. by eapply start_bucket_local. }
  simpl.
  set (G2 := apply_keys _ l G1).
  assert (HG2 : ∀ bid, G2 !! bid =
            if decide (bid ∈ l) then start_pass (config st) <$> G !! bid
            else finished <$> G !! bid).
  { intros bid. unfold G2. rewrite apply_keys_lookup. case_decide as Hin.
    - destruct (HG1 _ Hin) as (gb & g & Hb & Hb1 & Hs & Hg). by rewrite Hb1, Hb.
    - unfold G1. by rewrite lookup_fmap. }
  assert (HL2 : L1 ++ concat ((λ bid, start_writes st bid
                                 (default GradientBucket_init (G1 !! bid))) <$> l)
                = L ++ finish_log st G (sorted_bucket_ids (with_grads G L st))
                    ++ start_log st G l).
  { unfold L1, start_log, finish_log. rewrite <- app_assoc. f_equal. f_equal. f_equal.
    apply list_fmap_ext. intros i bid Hi.
    destruct (HG1 bid) as (gb & g & Hb & Hb1 & _); [by eapply list_elem_of_lookup_2|].
    by rewrite Hb, Hb1. }
  rewrite HL2. clear HL2. set (L2 := L ++ _).
  (* second pass *)
  assert (∃ G3,
    (if 1 <? distributed_size (config st)
     then for_each reduce_scatter_bucket l (with_grads G2 L2 st)
     else Ok (with_grads G2 L2 st)) = Ok (with_grads G3 L2 st)
    ∧ ∀ bid, G3 !! bid =
        if decide (bid ∈ l)
        then (if 1 <? distributed_size (config st)
              then reduce_scatter_pass (config st) else id)
             <$> (start_pass (config st) <$> G !! bid)
        else finished <$> G !! bid) as (G3 & -> & HG3).
  { destruct (1 <? distributed_size (config st)) eqn:ED.
    - rewrite (for_each_local reduce_scatter_bucket
                 (λ _, reduce_scatter_pass (config st)) (λ _ _, [])); [|done|].
      2:{ intros bid G' L' Hin Hsame.
          destruct (HG1 _ Hin) as (gb & g & Hb & Hb1 & Hs & Hg).
          rewrite HG2, decide_True, Hb in Hsame |- * by done. simpl in *.
          eapply reduce_scatter_bucket_local; [done|].
          unfold start_pass. simpl. exact Hg. }
      rewrite concat_fmap_nil, app_nil_r. eexists. split; [done|].
      intros bid. rewrite apply_keys_lookup, HG2. case_decide as Hin; [|done].
      destruct (HG1 _ Hin) as (gb & g & Hb & _). by rewrite Hb.
    - exists G2. split; [done|]. intros bid. rewrite HG2. case_decide; [|done].
      by destruct (G !! bid). }
  simpl.
  (* third pass *)
  destruct (1 <? redundant_size (config st)) eqn:ER.
  - rewrite (for_each_local all_reduce_bucket
               (λ _, all_reduce_pass (config st)) (λ _ _, [])); [|done|].
    2:{ intros bid G' L' Hin Hsame.
        destruct (HG1 _ Hin) as (gb & g & Hb & Hb1 & Hs & Hg).
        rewrite HG3, decide_True, Hb in Hsame |- * by done. simpl in *.
        assert (is_Some (sync_grads_shard
                  ((if 1 <? distributed_size (config st)
                    then reduce_scatter_pass (config st) else id)
                     (start_pass (config st) gb)))) as (s & Hs').
        { destruct (1 <? distributed_size (config st)); simpl.
          - rewrite Hg. simpl. eauto.
          - rewrite Hg. destruct (_ =? 1); simpl; eauto. }
        eapply all_reduce_bucket_local; [done|exact Hs']. }
    rewrite concat_fmap_nil, app_nil_r. eexists. split; [reflexivity|].
    intros bid. rewrite apply_keys_lookup, HG3. case_decide as Hin; [|done].
    destruct (HG1 _ Hin) as (gb & g & Hb & _ & _ & Hg). rewrite Hb. simpl.
    f_equal. rewrite <- (passes_started (config st) gb g) by done.
    by rewrite ER.
  - exists G3. split; [reflexivity|]. intros bid. rewrite HG3.
    case_decide as Hin; [|done].
    destruct (HG1 _ Hin) as (gb & g & Hb & _ & _ & Hg). rewrite Hb. simpl.
    f_equal. rewrite <- (passes_started (config st) gb g) by done.
    by rewrite ER.
Qed.
End StartSpec.

Section ForceSpec.
Context {T : Type} `{TensorElt T} `{Collectives T} `{!CollectivesOk T}.
Implicit Types (st : Optimizer T) (gb : GradientBucket T) (sb : StateBucket T).
Implicit Types (G : gmap nat (GradientBucket T)) (L : list StatusWrite).

Lemma for_each_id {A S} (body : A → S → result S) l s :
  (∀ x, x ∈ l → body x s = Ok s) → for_each body l s = Ok s.
Proof.
  induction l as [|x l IH]; intros Hb; simpl; [done|].
  rewrite Hb by (by left). simpl. apply IH. intros y Hy. apply Hb. by right.
Qed.

Lemma reduced_length c (g : list T) (S : Z) :
  0 < distributed_size c → 0 ≤ S →
  length g = Z.to_nat (S * distributed_size c) →
  length (reduced c g) = Z.to_nat S.
Proof.
  intros HD HS Hg. unfold reduced.
  assert (length (if distributed_size c =? 1 then g
                  else reduce_scatter_tensor (average_grad_sync c)
                         (distributed_size c) g) = Z.to_nat S) as Hs.
  { destruct (Z.eqb_spec (distributed_size c) 1) as [E|E].
    - rewrite Hg, E. f_equal. lia.
    - rewrite reduce_scatter_tensor_length by lia. rewrite Hg.
      rewrite Z2Nat.id by nia. rewrite Z.div_mul by lia. done. }
  destruct (1 <? redundant_size c); [|done]. by rewrite all_reduce_length.
Qed.

Lemma finish_writes_edge st bid gb : Forall force_edge (finish_writes st bid gb).
Proof.
  unfold finish_writes. case_decide; [|constructor].
  apply Forall_singleton. left. done.
Qed.

Lemma finish_log_edge st G ids : Forall force_edge (finish_log st G ids).
Proof.
  unfold finish_log. apply Forall_concat, Forall_fmap, Forall_forall.
  intros bid _. apply finish_writes_edge.
Qed.

Lemma grads_wf_finish_ok st bid gb :
  grads_wf st → _grads_buckets st !! bid = Some gb → finish_ok gb.
Proof.
  intros (Hg & _) Hb Hs sh Hsh.
  destruct (Hg _ _ Hb) as (sb & _ & _ & G3 & G4 & _).
  destruct (G4 Hs) as (sy & Hsy & Hl). exists sy. split; [done|].
  rewrite Hl. symmetry. by apply G3.
Qed.

Lemma zip_with_tadd_length (a b : list T) :
  length b = length a → length (zip_with tadd a b) = length a.
Proof. intros Hl. rewrite length_zip_with. lia. Qed.

(** The buckets after [_finish_bucket_grad_sync] are well formed. *)
Lemma gbucket_ok_finished sb gb :
  gbucket_ok sb gb → gbucket_ok sb (finished gb).
Proof.
  intros (G2 & G3 & G4 & G5 & G6 & G7). unfold finished.
  case_decide as Hs; [|done]. unfold gbucket_ok. simpl.
  split_and!; try done.
  - destruct (G4 Hs) as (sy & Hsy & Hl). rewrite Hsy. simpl.
    destruct (grads_shard gb) as [sh|] eqn:Esh.
    + intros t [= <-]. rewrite zip_with_tadd_length; [by apply G3|].
      rewrite Hl. symmetry. by apply G3.
    + by intros t [= <-].
  - intros [?|?]; done.
Qed.

Lemma gbucket_ok_started c sb gb g :
  0 < distributed_size c → 0 ≤ shard_size sb →
  bucket_size sb = shard_size sb * distributed_size c →
  grads_bucket gb = Some g →
  gbucket_ok sb gb → gbucket_ok sb (started c gb).
Proof.
  intros HD HS Hsz Hg (G2 & G3 & G4 & G5 & G6 & G7). unfold started, gbucket_ok. simpl.
  rewrite Hg. simpl.
  assert (length (reduced c g) = Z.to_nat (shard_size sb)) as Hr.
  { apply reduced_length; [done..|]. rewrite <- Hsz. by apply G2. }
  split_and!.
  - destruct (_ && _) eqn:E.
    + intros t [= <-]. rewrite Hr. apply andb_true_iff in E as (E & _).
      apply Z.eqb_eq in E. rewrite Hsz, E. f_equal. lia.
    + intros t [= <-]. by apply G2.
  - done.
  - intros _. eauto.
  - intros _. destruct (_ && _); eauto.
  - intros k Hk. by apply elem_of_empty in Hk.
  - done.
Qed.

Lemma gbucket_ok_filled sb gb :
  gbucket_ok sb gb → gbucket_ok sb (filled sb gb).
Proof.
  intros Hok. unfold filled.
  destruct (grads_shard gb) eqn:E; [done|].
  destruct Hok as (G2 & G3 & G4 & G5 & G6 & G7). unfold gbucket_ok. simpl.
  split_and!; try done. intros t [= <-]. by rewrite length_replicate.
Qed.

Lemma gbucket_ok_init sb : gbucket_ok sb (GradientBucket_init (T:=T)).
Proof.
  unfold gbucket_ok. simpl. split_and!; try done.
  intros [?|?]; done.
Qed.
End ForceSpec.

Section ForceRun.
Context {T : Type} `{TensorElt T} `{Collectives T} `{!CollectivesOk T}.
Implicit Types (st : Optimizer T) (gb : GradientBucket T) (sb : StateBucket T).
Implicit Types (G : gmap nat (GradientBucket T)) (L : list StatusWrite).

Lemma finished_idemp gb : finished (finished gb) = finished gb.
Proof. apply finished_not_syncing, finished_status. Qed.

Lemma force_fill_bucket_local bid sb G0 G' L' st :
  state_buckets st !! bid = Some sb → 0 ≤ shard_size sb →
  G' !! bid = G0 !! bid →
  force_fill_bucket bid (with_grads G' L' st) =
    Ok (with_grads
          (<[bid := filled sb (default GradientBucket_init (G0 !! bid))]> G')
          (L' ++ []) st).
Proof.
  intros Hsb HS Hsame. unfold force_fill_bucket, touch_grads_bucket, grads_bucket_at.
  simpl. rewrite lookup_insert_eq. simpl. rewrite Hsame, Hsb, app_nil_r.
  unfold filled.
  destruct (grads_shard (default GradientBucket_init (G0 !! bid))) eqn:E.
  - done.
  - rewrite zeros_Ok by done. simpl.
    unfold update_grads_bucket, grads_bucket_at, with_grads. simpl.
    rewrite lookup_insert_eq, insert_insert_eq. done.
Qed.

Lemma force_spec st :
  layout_wf st → grads_wf st →
  ∃ G' Lnew,
    _force_bucket_grad_sync st = Ok (with_grads G' (status_log st ++ Lnew) st)
    ∧ Forall force_edge Lnew
    ∧ (∀ bid sb, state_buckets st !! bid = Some sb →
         G' !! bid = Some (forced (config st) sb (grads_bucket_at bid st)))
    ∧ (∀ bid, state_buckets st !! bid = None → G' !! bid = None).
Proof.
  intros Hlay Hgr. pose proof Hlay as ((HA & HS & HD) & Hbs & _).
  pose proof Hgr as (Hg & _).
  set (G := _grads_buckets st). set (L := status_log st).
  unfold _force_bucket_grad_sync.
  rewrite (with_grads_eta st). fold G L.
  destruct (sorted_bucket_ids_spec G L st) as (Hnd & Hin).
  set (ids := sorted_bucket_ids (with_grads G L st)) in *.
  set (buckets := filter _ ids).
  (* the first loop changes nothing *)
  rewrite for_each_id.
  2:{ intros bid Hb. apply Hin in Hb as (gb & Hb).
      unfold force_prepare_bucket, grads_bucket_at. simpl. rewrite Hb. simpl.
      case_decide as Hs; [|done].
      destruct (Hg _ _ Hb) as (sb & _ & _ & _ & _ & G5 & _).
      destruct G5 as (g & ->); [|done].
      destruct (status gb); try tauto; destruct Hs; done. }
  simpl.
  assert (Hbk : ∀ bid, bid ∈ buckets ↔
            ∃ gb, G !! bid = Some gb ∧ status gb ≠ READY ∧ status gb ≠ SYNCING).
  { intros bid. unfold buckets. rewrite list_elem_of_filter, Hin.
    unfold grads_bucket_at. simpl. split.
    - intros (Hs & gb & Hb). rewrite Hb in Hs. eauto.
    - intros (gb & Hb & Hs). rewrite Hb. eauto. }
  assert (Hbk' : ∀ bid, bid ∈ buckets →
            ∃ gb g sb, G !! bid = Some gb ∧ status gb ≠ SYNCING
              ∧ (status gb = PARTIALLY_FILLED ∨ status gb = FULLY_FILLED)
              ∧ grads_bucket gb = Some g
              ∧ state_buckets st !! bid = Some sb ∧ gbucket_ok sb gb).
  { intros bid Hb. apply Hbk in Hb as (gb & Hb & Hs1 & Hs2).
    destruct (Hg _ _ Hb) as (sb & Hsb & Hok).
    pose proof Hok as (_ & _ & _ & G5 & _).
    assert (status gb = PARTIALLY_FILLED ∨ status gb = FULLY_FILLED) as Hs
      by (destruct (status gb); tauto).
    destruct (G5 Hs) as (g & Hgb). exists gb, g, sb. split_and!; done. }
  (* the launch *)
  assert (∃ G3 La,
    match buckets with
    | [] => Ok (with_grads G L st)
    | _ :: _ => _start_bucket_grad_sync buckets (with_grads G L st)
    end = Ok (with_grads G3 (L ++ La) st)
    ∧ Forall force_edge La
    ∧ ∀ bid, finished <$> G3 !! bid =
        if decide (bid ∈ buckets)
        then (λ gb, finished (started (config st) gb)) <$> G !! bid
        else finished <$> G !! bid) as (G3 & La & Hst & HLa & HG3).
  { destruct buckets as [|b0 bk] eqn:Ebk.
    - exists G, []. rewrite app_nil_r. split; [done|]. split; [constructor|].
      intros bid. rewrite decide_False; [done|]. apply not_elem_of_nil.
    - rewrite <- Ebk in *.
      destruct (start_spec buckets G L st) as (G3 & Hrun & HG3); try done.
      + apply NoDup_filter, Hnd.
      + intros bid gb Hb. by eapply (grads_wf_finish_ok st).
      + intros bid Hb. destruct (Hbk' _ Hb) as (gb & g & sb & ? & ? & ? & ? & _).
        eauto.
      + exists G3, (finish_log st G ids ++ start_log st G buckets).
        split; [exact Hrun|]. split.
        * apply Forall_app. split; [apply finish_log_edge|].
          unfold start_log. apply Forall_concat, Forall_fmap, Forall_forall.
          intros bid Hb. destruct (Hbk' _ Hb) as (gb & g & sb & Hgb & _ & Hs & _).
          simpl. rewrite Hgb. simpl. apply Forall_singleton. right. done.
        * intros bid. rewrite HG3. case_decide.
          -- by rewrite <- option_fmap_compose.
          -- rewrite <- option_fmap_compose. destruct (G !! bid); simpl; [|done].
             by rewrite finished_idemp. }
  rewrite Hst. simpl.
  (* the wait *)
  assert (HG3' : ∀ bid gb3, G3 !! bid = Some gb3 → finish_ok gb3 ∧
            ∃ sb, state_buckets st !! bid = Some sb).
  { destruct buckets as [|b0 bk] eqn:Ebk.
    - assert (G3 = G) as ->.
      { apply (f_equal (λ r, match r with Ok s => _grads_buckets s | _ => G end))
          in Hst. simpl in Hst. done. }
      intros bid gb Hb. split; [by eapply (grads_wf_finish_ok st)|].
      destruct (Hg _ _ Hb) as (sb & ? & _). eauto.
    - rewrite <- Ebk in *.
      destruct (start_spec buckets G L st) as (G3' & Hrun & HG3l); try done.
      + apply NoDup_filter, Hnd.
      + intros bid gb Hb. by eapply (grads_wf_finish_ok st).
      + intros bid Hb. destruct (Hbk' _ Hb) as (gb & g & sb & ? & ? & ? & ? & _).
        eauto.
      + rewrite Hrun in Hst.
        assert (G3' = G3) as ->.
        { apply (f_equal (λ r, match r with Ok s => _grads_buckets s | _ => G end))
            in Hst. simpl in Hst. done. }
        intros bid gb3 Hb3. rewrite HG3l in Hb3. case_decide as Hb.
        * destruct (Hbk' _ Hb) as (gb & g & sb & Hgb & _ & _ & Hgg & Hsb & Hok).
          rewrite Hgb in Hb3. simpl in Hb3. injection Hb3 as <-.
          split; [|eauto].
          destruct (Hbs _ _ Hsb) as (B1 & B2 & _).
          pose proof (gbucket_ok_started (config st) sb gb g HD ltac:(lia) B2 Hgg Hok)
            as (_ & G3s & G4s & _).
          intros Hs sh Hsh. destruct (G4s Hs) as (sy & Hsy & Hl).
          exists sy. split; [done|]. rewrite Hl. symmetry. by apply G3s.
        * destruct (G !! bid) as [gb|] eqn:Hgb; simpl in Hb3; [|done].
          injection Hb3 as <-. split.
          -- intros Hs. by destruct (finished_status gb).
          -- destruct (Hg _ _ Hgb) as (sb & ? & _). eauto. }
  rewrite finish_spec by (intros bid gb3 Hb3; by apply (HG3' bid)).
  simpl.
  set (G4 := finished <$> G3).
  set (L4 := (L ++ La) ++ _).
  (* the last loop *)
  rewrite (for_each_local force_fill_bucket
             (λ bid gb, match state_buckets st !! bid with
                        | Some sb => filled sb gb
                        | None => gb
                        end) (λ _ _, [])).
  2:{ apply NoDup_seq. }
  2:{ intros bid G' L' Hb Hsame. apply elem_of_seq in Hb.
      destruct (lookup_lt_is_Some_2 (state_buckets st) bid) as (sb & Hsb); [lia|].
      rewrite Hsb. apply force_fill_bucket_local; [done| |done].
      destruct (Hbs _ _ Hsb) as (B1 & _). lia. }
  rewrite concat_fmap_nil, app_nil_r.
  eexists _, (La ++ finish_log st G3 (sorted_bucket_ids (with_grads G3 (L ++ La) st))).
  split; [unfold L4, finish_log; by rewrite <- app_assoc|].
  split; [apply Forall_app; split; [done|apply finish_log_edge]|].
  split.
  - intros bid sb Hsb. rewrite apply_keys_lookup, decide_True, Hsb.
    2:{ apply elem_of_seq. apply lookup_lt_Some in Hsb. lia. }
    f_equal. unfold forced, G4. rewrite lookup_fmap, HG3.
    unfold grads_bucket_at. simpl. fold G.
    destruct (G !! bid) as [gb|] eqn:Hgb; simpl.
    + destruct (decide (bid ∈ buckets)) as [Hb|Hb];
        destruct (decide (status gb ≠ READY ∧ status gb ≠ SYNCING)) as [Hs|Hs];
        simpl; try done.
      * apply Hbk in Hb as (gb' & Hgb' & ? & ?). rewrite Hgb in Hgb'.
        injection Hgb' as <-. tauto.
      * exfalso. apply Hb, Hbk. exists gb. tauto.
    + destruct (decide (bid ∈ buckets)) as [Hb|Hb]; simpl; done.
  - intros bid Hsb. rewrite apply_keys_lookup, decide_False.
    2:{ rewrite elem_of_seq. apply lookup_ge_None in Hsb. lia. }
    unfold G4. rewrite lookup_fmap.
    destruct (G3 !! bid) as [gb3|] eqn:Hb3; [|done].
    destruct (HG3' _ _ Hb3) as (_ & sb & Hsb'). congruence.
Qed.
End ForceRun.

Global Instance local_collectives_ok : CollectivesOk Z.
Proof.
  split.
  - intros avg D t HD. simpl. rewrite length_take.
    assert (Z.of_nat (length t) / D ≤ Z.of_nat (length t)).
    { apply Z.div_le_upper_bound; [lia|]. nia. }
    assert (0 ≤ Z.of_nat (length t) / D) by (apply Z.div_pos; lia). lia.
  - done.
Qed.

Lemma example_mapped_wf A S D r pg p :
  0 < A → 0 < S → 0 < D →
  lookup_param (example_optimizer (example_config A S D r) pg) (0%nat, 0%nat) = Some p →
  layout_wf (example_mapped (example_config A S D r) pg)
  ∧ _grads_buckets (example_mapped (example_config A S D r) pg) = ∅
  ∧ param_grad (example_mapped (example_config A S D r) pg) = ∅.
Proof.
  intros HA HS HD Hp.
  destruct (init_param_state_wf (0%nat, 0%nat) _ p
              (example_layout_wf A S D r pg HA HS HD) Hp)
    as (st' & Hrun & Hwf & _ & _ & _ & Hgr & _ & Hgb & _).
  unfold example_mapped. rewrite Hrun. done.
Qed.

Section ForceWf.
Context {T : Type} `{TensorElt T} `{Collectives T} `{!CollectivesOk T}.
Implicit Types (st : Optimizer T) (gb : GradientBucket T) (sb : StateBucket T).
Implicit Types (G : gmap nat (GradientBucket T)) (L : list StatusWrite).

Lemma grads_bucket_at_ok st bid sb :
  grads_wf st → state_buckets st !! bid = Some sb →
  gbucket_ok sb (grads_bucket_at bid st).
Proof.
  intros (Hg & _) Hsb. unfold grads_bucket_at.
  destruct (_grads_buckets st !! bid) as [gb|] eqn:Hb; simpl.
  - destruct (Hg _ _ Hb) as (sb' & Hsb' & Hok). congruence.
  - apply gbucket_ok_init.
Qed.

Lemma gbucket_ok_forced c sb gb :
  0 < distributed_size c → 0 ≤ shard_size sb →
  bucket_size sb = shard_size sb * distributed_size c →
  gbucket_ok sb gb → gbucket_ok sb (forced c sb gb).
Proof.
  intros HD HS Hsz Hok. unfold forced. apply gbucket_ok_filled.
  case_decide as Hs.
  - pose proof Hok as (_ & _ & _ & G5 & _).
    destruct G5 as (g & Hg); [destruct (status gb); tauto|].
    apply gbucket_ok_finished. by eapply gbucket_ok_started.
  - by apply gbucket_ok_finished.
Qed.

(** The shard of a bucket after [_force_bucket_grad_sync]. *)
Lemma forced_value c sb gb :
  gbucket_ok sb gb →
  status (forced c sb gb) = READY
  ∧ grads_bucket (forced c sb gb) = None
  ∧ ∃ shard, grads_shard (forced c sb gb) = Some shard
      ∧ (status gb = PARTIALLY_FILLED ∨ status gb = FULLY_FILLED →
           ∃ g, grads_bucket gb = Some g
             ∧ shard = match grads_shard gb with
                       | None => reduced c g
                       | Some sh => zip_with tadd sh (reduced c g)
                       end)
      ∧ (status gb = SYNCING →
           ∃ sy, sync_grads_shard gb = Some sy
             ∧ shard = match grads_shard gb with
                       | None => sy
                       | Some sh => zip_with tadd sh sy
                       end)
      ∧ (status gb = READY →
           shard = default (replicate (Z.to_nat (shard_size sb)) tzero)
                     (grads_shard gb)).
Proof.
  intros (G2 & G3 & G4 & G5 & G6 & G7). unfold forced, filled, finished, started.
  destruct (status gb) eqn:Es; simpl.
  - (* READY *)
    pose proof (G7 eq_refl) as Hnone.
    destruct (grads_shard gb) as [sh|] eqn:Esh; simpl; rewrite ?Esh; simpl;
      (split; [done|]; split; [done|]);
      eexists; (split; [reflexivity|]);
      (split; [intros [?|?]; done|]); (split; [done|]); done.
  - (* PARTIALLY_FILLED *)
    destruct G5 as (g & Hg); [by left|]. rewrite Hg. simpl.
    destruct (grads_shard gb) as [sh|] eqn:Esh; simpl;
      (split; [done|]; split; [done|]);
      eexists; (split; [reflexivity|]);
      (split; [intros _; exists g; done|]); (split; [done|]); done.
  - (* FULLY_FILLED *)
    destruct G5 as (g & Hg); [by right|]. rewrite Hg. simpl.
    destruct (grads_shard gb) as [sh|] eqn:Esh; simpl;
      (split; [done|]; split; [done|]);
      eexists; (split; [reflexivity|]);
      (split; [intros _; exists g; done|]); (split; [done|]); done.
  - (* SYNCING *)
    destruct (G4 eq_refl) as (sy & Hsy & Hl). rewrite Hsy. simpl.
    destruct (grads_shard gb) as [sh|] eqn:Esh; simpl;
      (split; [done|]; split; [done|]);
      eexists; (split; [reflexivity|]);
      (split; [intros [?|?]; done|]); (split; [intros _; exists sy; done|]); done.
Qed.

Lemma force_wf st :
  layout_wf st → grads_wf st →
  ∃ st', _force_bucket_grad_sync st = Ok st'
    ∧ layout_wf st' ∧ grads_wf st'
    ∧ config st' = config st ∧ param_groups st' = param_groups st
    ∧ state_buckets st' = state_buckets st
    ∧ state_fragments st' = state_fragments st
    ∧ param_grad st' = param_grad st
    ∧ pre_forward_hook_is_enabled st' = pre_forward_hook_is_enabled st
    ∧ (∃ Lnew, status_log st' = status_log st ++ Lnew ∧ Forall force_edge Lnew)
    ∧ (∀ bid sb, state_buckets st !! bid = Some sb →
         _grads_buckets st' !! bid
         = Some (forced (config st) sb (grads_bucket_at bid st)))
    ∧ (∀ bid, state_buckets st !! bid = None → _grads_buckets st' !! bid = None).
Proof.
  intros Hlay Hgr. destruct (force_spec st Hlay Hgr) as (G' & Lnew & Hrun & Hedge & HG' & Hnone).
  eexists. split; [exact Hrun|]. simpl. split; [done|].
  split; [|split_and!; try done; eauto].
  destruct Hlay as ((HA & HS & HD) & Hbs & _). split; [|apply Hgr].
  intros bid gb Hb. simpl in Hb.
  destruct (state_buckets st !! bid) as [sb|] eqn:Hsb.
  - exists sb. split; [done|]. rewrite (HG' _ _ Hsb) in Hb. injection Hb as <-.
    destruct (Hbs _ _ Hsb) as (B1 & B2 & _).
    apply gbucket_ok_forced; [done|lia|done|]. by apply grads_bucket_at_ok.
  - rewrite (Hnone _ Hsb) in Hb. done.
Qed.
End ForceWf.

(** C5: [_force_bucket_grad_sync] returns on every well-formed state, and
    then every bucket id of the state buckets has a gradient bucket with
    status READY and a gradient shard of the shard size.  A bucket that was
    partially or fully filled is synchronized with the data it has: its
    shard is the reduction of its buffer, added to the shard it had; a
    bucket that was never filled keeps its shard or gets one of zeros. *)
Theorem C5_force_leaves_every_bucket_ready
    {T : Type} `{TensorElt T} `{Collectives T} `{!CollectivesOk T}
    (st : Optimizer T) :
  layout_wf st → grads_wf st →
  ∃ st',
    _force_bucket_grad_sync st = Ok st'
    ∧ state_buckets st' = state_buckets st
    ∧ ∀ bid sb, state_buckets st !! bid = Some sb →
        ∃ gb shard,
          _grads_buckets st' !! bid = Some gb
          ∧ status gb = READY
          ∧ grads_shard gb = Some shard
          ∧ length shard = Z.to_nat (shard_size sb)
          ∧ (status (grads_bucket_at bid st) = PARTIALLY_FILLED
             ∨ status (grads_bucket_at bid st) = FULLY_FILLED →
               ∃ g, grads_bucket (grads_bucket_at bid st) = Some g
                 ∧ shard = match grads_shard (grads_bucket_at bid st) with
                           | None => reduced (config st) g
                           | Some sh => zip_with tadd sh (reduced (config st) g)
                           end)
          ∧ (status (grads_bucket_at bid st) = READY →
               shard = default (replicate (Z.to_nat (shard_size sb)) tzero)
                         (grads_shard (grads_bucket_at bid st))).
Proof.
  intros Hlay Hgr.
  destruct (force_wf st Hlay Hgr)
    as (st' & Hrun & Hlay' & Hgr' & _ & _ & Hbs & _ & _ & _ & _ & HG' & _).
  exists st'. split; [done|]. split; [done|].
  intros bid sb Hsb. rewrite (HG' _ _ Hsb).
  pose proof (grads_bucket_at_ok st bid sb Hgr Hsb) as Hok.
  destruct (forced_value (config st) sb _ Hok) as (S1 & S2 & shard & S3 & S4 & S5 & S6).
  eexists _, shard. split; [reflexivity|]. split; [done|]. split; [done|].
  split; [|split; done].
  destruct Hgr' as (Hg' & _).
  destruct (Hg' bid (forced (config st) sb (grads_bucket_at bid st))) as (sb' & Hsb' & Hok').
  { by rewrite (HG' _ _ Hsb). }
  rewrite Hbs, Hsb in Hsb'. injection Hsb' as <-.
  destruct Hok' as (_ & G3 & _). by apply G3.
Qed.

(** C5 at an optimizer whose only bucket was never filled. *)
Lemma C5_witness :
  ∃ st', _force_bucket_grad_sync
           (example_mapped (example_config 32 64 2 0) [[replicate 100 7]]) = Ok st'
    ∧ ∃ gb, _grads_buckets st' !! 0%nat = Some gb ∧ status gb = READY
        ∧ grads_shard gb = Some (replicate 64 0).
Proof.
  destruct (example_mapped_wf 32 64 2 0 [[replicate 100 7]] (replicate 100 7))
    as (Hwf & Hgb & Hgr); [lia..|reflexivity|].
  destruct (C5_force_leaves_every_bucket_ready
              (example_mapped (example_config 32 64 2 0) [[replicate 100 7]]))
    as (st' & Hrun & Hbs & Hall).
  - exact Hwf.
  - split.
    + intros bid gb Hb. rewrite Hgb in Hb. by rewrite lookup_empty in Hb.
    + intros k g Hk. rewrite Hgr in Hk. by rewrite lookup_empty in Hk.
  - exists st'. split; [exact Hrun|].
    assert (∃ sb, state_buckets (example_mapped (example_config 32 64 2 0)
                                   [[replicate 100 7]]) !! 0%nat = Some sb
                  ∧ shard_size sb = 64) as (sb & Hsb & Hss).
    { eexists. split; [vm_compute; reflexivity|reflexivity]. }
    destruct (Hall 0%nat sb Hsb) as (gb & shard & H1 & H2 & H3 & _ & _ & H6).
    exists gb. split; [exact H1|]. split; [exact H2|]. rewrite H3. f_equal.
    rewrite H6.
    + unfold grads_bucket_at. rewrite Hgb, lookup_empty. simpl. by rewrite Hss.
    + unfold grads_bucket_at. rewrite Hgb, lookup_empty. reflexivity.
Defined.

Section GradCopyFragment.
Context {T : Type} `{TensorElt T} `{Collectives T} `{!CollectivesOk T}.
Implicit Types (st : Optimizer T) (gb : GradientBucket T) (sb : StateBucket T).
Implicit Types (G : gmap nat (GradientBucket T)) (L : list StatusWrite).

Lemma accumulated_length sb f grad (buf : list T) :
  fragment_fits sb f grad → length buf = Z.to_nat (bucket_size sb) →
  length (accumulated f grad buf) = length buf.
Proof.
  intros (F1 & F2 & F3 & F4) Hl. unfold accumulated.
  destruct grad as [g|]; [|done]. destruct (F4 g eq_refl) as (P1 & P2 & P3 & P4).
  apply tensor_slice_set_length; [lia..|].
  rewrite length_zip_with, !tensor_slice_length by lia. lia.
Qed.

Lemma gbucket_ok_copied sb f grad gb :
  0 ≤ bucket_size sb →
  fragment_fits sb f grad → gbucket_ok sb gb → status gb ≠ SYNCING →
  gbucket_ok sb (copied sb f grad gb).
Proof.
  intros HB Hfit (G2 & G3 & G4 & G5 & G6 & G7) Hs. unfold copied, gbucket_ok. simpl.
  assert (Hl : length (default (replicate (Z.to_nat (bucket_size sb)) tzero)
                         (grads_bucket gb)) = Z.to_nat (bucket_size sb)).
  { destruct (grads_bucket gb) as [t|] eqn:E; simpl;
      [by apply G2|by rewrite length_replicate]. }
  split_and!; try done.
  intros t [= <-]. by rewrite (accumulated_length sb).
Qed.

Lemma touch_with_grads bid G L st :
  touch_grads_bucket bid (with_grads G L st)
  = with_grads (<[bid := default GradientBucket_init (G !! bid)]> G) L st.
Proof. reflexivity. Qed.

Lemma grads_bucket_at_with_grads bid G L st :
  grads_bucket_at bid (with_grads G L st) = default GradientBucket_init (G !! bid).
Proof. reflexivity. Qed.

Lemma update_with_grads bid f G L st :
  update_grads_bucket bid f (with_grads G L st)
  = with_grads (<[bid := f (default GradientBucket_init (G !! bid))]> G) L st.
Proof. reflexivity. Qed.

Lemma write_status_with_grads bid s G L st :
  write_status bid s (with_grads G L st)
  = with_grads
      (<[bid := set_status s (default GradientBucket_init (G !! bid))]> G)
      (L ++ [{| sw_bucket := bid;
                sw_old := status (default GradientBucket_init (G !! bid));
                sw_new := s;
                sw_pending :=
                  pending_params (state_buckets st !! bid)
                    (grads_generated (default GradientBucket_init (G !! bid))) |}])
      st.
Proof. reflexivity. Qed.

Lemma grad_copy_fragment_spec k f G L st sb :
  state_buckets st !! bucket_id f = Some sb →
  0 ≤ bucket_size sb →
  (∀ bid gb, G !! bid = Some gb → finish_ok gb) →
  gbucket_ok sb (default GradientBucket_init (G !! bucket_id f)) →
  fragment_fits sb f (param_grad st !! k) →
  ∃ G' Lnew,
    grad_copy_fragment k f (with_grads G L st) = Ok (with_grads G' (L ++ Lnew) st)
    ∧ Forall copy_edge Lnew
    ∧ G' !! bucket_id f
      = Some (copied sb f (param_grad st !! k)
                (finished (default GradientBucket_init (G !! bucket_id f))))
    ∧ (∀ bid, bid ≠ bucket_id f →
         G' !! bid = G !! bid ∨ G' !! bid = finished <$> G !! bid).
Proof.
  intros Hsb HB Hok Hgb Hfit.
  set (bid := bucket_id f) in *.
  set (b := default GradientBucket_init (G !! bid)) in *.
  unfold grad_copy_fragment. fold bid.
  rewrite touch_with_grads. fold b.
  change (state_buckets (with_grads (<[bid:=b]> G) L st)) with (state_buckets st).
  rewrite Hsb.
  destruct (param_range f) as [grad_start grad_end] eqn:Epr.
  destruct (bucket_range f) as [bucket_start bucket_end] eqn:Ebr.
  rewrite grads_bucket_at_with_grads, lookup_insert_eq. simpl default.
  set (G1 := <[bid := b]> G).
  assert (HG1 : ∀ i gb, G1 !! i = Some gb → finish_ok gb).
  { intros i gb Hi. unfold G1 in Hi. destruct (decide (i = bid)) as [->|Hne].
    - rewrite lookup_insert_eq in Hi. injection Hi as <-.
      intros Hs sh Hsh. destruct Hgb as (_ & G3 & G4 & _).
      destruct (G4 Hs) as (sy & Hsy & Hl). exists sy. split; [done|].
      rewrite Hl. symmetry. by apply G3.
    - rewrite lookup_insert_ne in Hi by done. by eapply Hok. }
  (* the wait for a bucket in flight *)
  assert (∃ G2 La,
    (if decide (status b = SYNCING)
     then _finish_bucket_grad_sync (with_grads G1 L st)
     else Ok (with_grads G1 L st)) = Ok (with_grads G2 (L ++ La) st)
    ∧ Forall copy_edge La
    ∧ G2 !! bid = Some (finished b)
    ∧ ∀ i, i ≠ bid → G2 !! i = G !! i ∨ G2 !! i = finished <$> G !! i)
    as (G2 & La & -> & HLa & HG2 & HG2').
  { destruct (decide (status b = SYNCING)) as [Hs|Hs].
    - rewrite finish_spec by done. eexists _, _. split; [reflexivity|]. split.
      + apply Forall_concat, Forall_fmap, Forall_forall. intros i _. simpl.
        unfold finish_writes. case_decide; [|constructor].
        apply Forall_singleton. by left.
      + split.
        * unfold G1. by rewrite lookup_fmap, lookup_insert_eq.
        * intros i Hi. right. unfold G1. by rewrite lookup_fmap, lookup_insert_ne.
    - exists G1, []. rewrite app_nil_r. split; [done|]. split; [constructor|]. split.
      + unfold G1. rewrite lookup_insert_eq. by rewrite finished_not_syncing.
      + intros i Hi. left. unfold G1. by rewrite lookup_insert_ne. }
  cbn [mbind result_bind].
  rewrite write_status_with_grads, HG2. simpl default.
  set (b2 := finished b) in *.
  assert (Hb2 : gbucket_ok sb b2) by (by apply gbucket_ok_finished).
  assert (Hs2 : status b2 ≠ SYNCING) by apply finished_status.
  rewrite grads_bucket_at_with_grads, lookup_insert_eq. simpl default.
  change (grads_bucket (set_status PARTIALLY_FILLED b2)) with (grads_bucket b2).
  set (w := {| sw_bucket := bid |}).
  assert (Hw : Forall copy_edge (La ++ [w])).
  { apply Forall_app; split; [done|]. apply Forall_singleton. by right. }
  rewrite <- app_assoc.
  set (b3 := set_status PARTIALLY_FILLED b2).
  (* allocation of the buffer *)
  assert (∃ G3,
    match grads_bucket b2 with
    | Some _ => Ok (with_grads (<[bid:=b3]> G2) (L ++ La ++ [w]) st)
    | None =>
      z ← zeros (bucket_size sb);
      Ok (update_grads_bucket bid (set_grads_bucket (Some z))
            (with_grads (<[bid:=b3]> G2) (L ++ La ++ [w]) st))
    end = Ok (with_grads G3 (L ++ La ++ [w]) st)
    ∧ G3 !! bid
      = Some (set_grads_bucket
                (Some (default (replicate (Z.to_nat (bucket_size sb)) tzero)
                         (grads_bucket b2))) b3)
    ∧ ∀ i, i ≠ bid → G3 !! i = G2 !! i) as (G3 & -> & HG3 & HG3').
  { destruct (grads_bucket b2) as [t|] eqn:Egb.
    - eexists. split; [reflexivity|]. rewrite lookup_insert_eq. split.
      + simpl. f_equal. unfold b3. destruct b2; simpl in *. by rewrite Egb.
      + intros i Hi. by rewrite lookup_insert_ne.
    - rewrite zeros_Ok by done. cbn [mbind result_bind].
      rewrite update_with_grads, lookup_insert_eq, insert_insert_eq. simpl default.
      eexists. split; [reflexivity|]. rewrite lookup_insert_eq. split; [done|].
      intros i Hi. by rewrite lookup_insert_ne. }
  cbn [mbind result_bind].
  change (param_grad (with_grads G3 (L ++ La ++ [w]) st)) with (param_grad st).
  rewrite grads_bucket_at_with_grads, HG3. simpl default.
  set (buf := default (replicate (Z.to_nat (bucket_size sb)) tzero) (grads_bucket b2)).
  change (grads_bucket (set_grads_bucket (Some buf) b3)) with (Some buf).
  assert (Hlen : length buf = Z.to_nat (bucket_size sb)).
  { unfold buf. destruct Hb2 as (G2' & _).
    destruct (grads_bucket b2) as [t|] eqn:E; simpl;
      [by apply G2'|by rewrite length_replicate]. }
  destruct Hfit as (F1 & F2 & F3 & F4). rewrite Ebr in F1, F2, F3. simpl in F1, F2, F3.
  exists (<[bid := copied sb f (param_grad st !! k) b2]> G3), (La ++ [w]).
  split.
  - destruct (param_grad st !! k) as [g|] eqn:Egr.
    + destruct (F4 g eq_refl) as (P1 & P2 & P3 & P4). rewrite Epr, Ebr in *.
      simpl in P1, P2, P3, P4.
      rewrite slice_add_Ok; [|lia..|rewrite tensor_slice_length; lia].
      cbn [mbind result_bind]. rewrite update_with_grads, HG3. simpl default.
      do 2 f_equal. unfold copied, accumulated. rewrite Ebr, Epr. done.
    + f_equal. unfold copied, accumulated. fold buf. fold b3.
      rewrite <- (insert_id G3 bid _ HG3) at 1. done.
  - split; [done|]. split.
    + by rewrite lookup_insert_eq.
    + intros i Hi. rewrite lookup_insert_ne, HG3' by done. by apply HG2'.
Qed.
End GradCopyFragment.

Section GradCopyLoop.
Context {T : Type} `{TensorElt T} `{Collectives T} `{!CollectivesOk T}.
Implicit Types (st : Optimizer T) (gb : GradientBucket T) (sb : StateBucket T).
Implicit Types (G : gmap nat (GradientBucket T)) (L : list StatusWrite).

Lemma gbucket_ok_finish_ok sb gb : gbucket_ok sb gb → finish_ok gb.
Proof.
  intros (_ & G3 & G4 & _) Hs sh Hsh.
  destruct (G4 Hs) as (sy & Hsy & Hl). exists sy. split; [done|].
  rewrite Hl. symmetry. by apply G3.
Qed.

Lemma buckets_wf_default st G bid sb :
  buckets_wf st G → state_buckets st !! bid = Some sb →
  gbucket_ok sb (default GradientBucket_init (G !! bid)).
Proof.
  intros HG Hsb. destruct (G !! bid) as [gb|] eqn:E; simpl.
  - destruct (HG _ _ E) as (sb' & Hsb' & Hok). congruence.
  - apply gbucket_ok_init.
Qed.

(** One iteration of the loop of [_grad_copy] on well-formed buckets. *)
Lemma grad_copy_fragment_wf k f G L st sb :
  state_buckets st !! bucket_id f = Some sb →
  0 ≤ bucket_size sb →
  buckets_wf st G →
  fragment_fits sb f (param_grad st !! k) →
  ∃ G' Lnew,
    grad_copy_fragment k f (with_grads G L st) = Ok (with_grads G' (L ++ Lnew) st)
    ∧ Forall copy_edge Lnew
    ∧ buckets_wf st G'
    ∧ G' !! bucket_id f
      = Some (copied sb f (param_grad st !! k)
                (finished (default GradientBucket_init (G !! bucket_id f))))
    ∧ (∀ bid, bid ≠ bucket_id f →
         G' !! bid = G !! bid ∨ G' !! bid = finished <$> G !! bid).
Proof.
  intros Hsb HB HG Hfit.
  destruct (grad_copy_fragment_spec k f G L st sb) as (G' & Lnew & Hrun & HL & Hb & Ho);
    try done.
  { intros bid gb Hgb. destruct (HG _ _ Hgb) as (sb' & _ & Hok).
    by eapply gbucket_ok_finish_ok. }
  { by apply (buckets_wf_default st). }
  exists G', Lnew. split_and!; try done.
  intros bid gb Hgb. destruct (decide (bid = bucket_id f)) as [->|Hne].
  - exists sb. split; [done|]. rewrite Hb in Hgb. injection Hgb as <-.
    apply gbucket_ok_copied; try done.
    + apply gbucket_ok_finished. by apply (buckets_wf_default st).
    + apply finished_status.
  - destruct (Ho bid Hne) as [E|E]; rewrite E in Hgb.
    + by apply HG.
    + destruct (G !! bid) as [gb0|] eqn:E0; [|done]. injection Hgb as <-.
      destruct (HG _ _ E0) as (sb' & Hsb' & Hok). exists sb'. split; [done|].
      by apply gbucket_ok_finished.
Qed.

(** The loop of [_grad_copy], with an invariant [I] on the buckets that is
    indexed by the fragments already copied. *)
Lemma grad_copy_loop (I : list ParameterFragment → gmap nat (GradientBucket T) → Prop)
    k st fs :
  (∀ f, f ∈ fs →
     ∃ sb, state_buckets st !! bucket_id f = Some sb ∧ 0 ≤ bucket_size sb
           ∧ fragment_fits sb f (param_grad st !! k)) →
  (∀ pre f suf G G' sb,
     fs = pre ++ f :: suf → buckets_wf st G → I pre G →
     state_buckets st !! bucket_id f = Some sb →
     G' !! bucket_id f
     = Some (copied sb f (param_grad st !! k)
               (finished (default GradientBucket_init (G !! bucket_id f)))) →
     (∀ i, i ≠ bucket_id f → G' !! i = G !! i ∨ G' !! i = finished <$> G !! i) →
     I (pre ++ [f]) G') →
  ∀ G L, buckets_wf st G → I [] G →
  ∃ G' Lnew,
    for_each (grad_copy_fragment k) fs (with_grads G L st)
    = Ok (with_grads G' (L ++ Lnew) st)
    ∧ Forall copy_edge Lnew ∧ buckets_wf st G' ∧ I fs G'.
Proof.
  intros Hfs Hstep.
  assert (∀ suf pre G L, fs = pre ++ suf → buckets_wf st G → I pre G →
    ∃ G' Lnew,
      for_each (grad_copy_fragment k) suf (with_grads G L st)
      = Ok (with_grads G' (L ++ Lnew) st)
      ∧ Forall copy_edge Lnew ∧ buckets_wf st G' ∧ I fs G') as Hgen.
  { induction suf as [|f suf IH]; intros pre G L Heq HG HI.
    - exists G, []. rewrite app_nil_r in *. subst pre. simpl.
      split_and!; try done.
    - destruct (Hfs f) as (sb & Hsb & HB & Hfit).
      { rewrite Heq. apply elem_of_app. right. by left. }
      destruct (grad_copy_fragment_wf k f G L st sb)
        as (G1 & L1 & Hrun & HL1 & HG1 & Hb & Ho); try done.
      destruct (IH (pre ++ [f]) G1 (L ++ L1)) as (G' & L2 & Hrun2 & HL2 & HG' & HI').
      { rewrite Heq, cons_middle, app_assoc. done. }
      { done. }
      { by apply (Hstep pre f suf G G1 sb). }
      exists G', (L1 ++ L2). simpl. rewrite Hrun. simpl. rewrite Hrun2, app_assoc.
      split_and!; try done. by apply Forall_app. }
  intros G L HG HI. by apply (Hgen fs []).
Qed.
End GradCopyLoop.

Lemma ranges_sorted_le lo rs hi : ranges_sorted lo rs hi → lo ≤ hi.
Proof.
  revert lo. induction rs as [|r rs IH]; simpl; intros lo; [lia|].
  intros (? & ? & Hs). apply IH in Hs. lia.
Qed.

Lemma ranges_sorted_bounds lo rs hi r :
  ranges_sorted lo rs hi → r ∈ rs → lo ≤ r.1 ∧ r.1 ≤ r.2 ∧ r.2 ≤ hi.
Proof.
  revert lo. induction rs as [|r0 rs IH]; simpl; intros lo Hs Hin.
  - by apply elem_of_nil in Hin.
  - destruct Hs as (? & ? & Hs). apply elem_of_cons in Hin as [->|Hin].
    + apply ranges_sorted_le in Hs. lia.
    + destruct (IH _ Hs Hin). lia.
Qed.

Lemma chain_NoDup a rs b : chain a rs b → NoDup rs.
Proof.
  revert a. induction rs as [|r rs IH]; simpl; intros a Hc; [constructor|].
  destruct Hc as (<- & Hlt & Hc). constructor; [|by eapply IH].
  intros Hin. destruct (chain_bounds _ _ _ _ Hc Hin). lia.
Qed.

Section GradCopy.
Context {T : Type} `{TensorElt T} `{Collectives T} `{!CollectivesOk T}.
Implicit Types (st : Optimizer T) (gb : GradientBucket T) (sb : StateBucket T).
Implicit Types (G : gmap nat (GradientBucket T)) (L : list StatusWrite).

Lemma layout_wf_frame st st' :
  config st' = config st → param_groups st' = param_groups st →
  state_buckets st' = state_buckets st → state_fragments st' = state_fragments st →
  layout_wf st → layout_wf st'.
Proof. unfold layout_wf. by intros -> -> -> ->. Qed.

Lemma layout_fragment st k fs f :
  layout_wf st → state_fragments st !! k = Some fs → f ∈ fs →
  ∃ sb p, state_buckets st !! bucket_id f = Some sb
    ∧ lookup_param st k = Some p
    ∧ f ∈ fragments sb ∧ fragment_key f = k
    ∧ bucket_ok (config st) (state_fragments st) (bucket_id f) sb
    ∧ 0 ≤ (param_range f).1 ∧ (param_range f).1 < (param_range f).2
    ∧ (param_range f).2 ≤ Z.of_nat (length p)
    ∧ 0 ≤ (bucket_range f).1 ∧ (bucket_range f).1 ≤ (bucket_range f).2
    ∧ (bucket_range f).2 ≤ bucket_size sb
    ∧ (param_range f).2 - (param_range f).1
      = (bucket_range f).2 - (bucket_range f).1.
Proof.
  intros (Hc & Hbs & Hfm) Hk Hf.
  destruct (Hfm _ _ Hk) as (p & Hp & (_ & Hch & Hall)).
  rewrite Forall_forall in Hall. destruct (Hall _ Hf) as (Hkey & sb & Hsb & Hin).
  pose proof (Hbs _ _ Hsb) as Hbok.
  destruct (Hbs _ _ Hsb) as (B1 & B2 & B3 & B4 & B5 & B6 & B7 & B8 & B9).
  rewrite Forall_forall in B9. destruct (B9 _ Hin) as (_ & _ & (_ & Hpr & Hsz)).
  destruct (chain_bounds _ _ _ (param_range f) Hch) as (C1 & C2 & C3).
  { apply list_elem_of_fmap. by exists f. }
  destruct (ranges_sorted_bounds _ _ _ (bucket_range f) B7) as (R1 & R2 & R3).
  { apply list_elem_of_fmap. by exists f. }
  exists sb, p. repeat (split; [done || lia|]). lia.
Qed.

Lemma layout_fragment_fits st k fs f :
  layout_wf st → grads_wf st → state_fragments st !! k = Some fs → f ∈ fs →
  ∃ sb, state_buckets st !! bucket_id f = Some sb ∧ 0 ≤ bucket_size sb
        ∧ fragment_fits sb f (param_grad st !! k).
Proof.
  intros Hlay (_ & Hgr) Hk Hf.
  destruct (layout_fragment st k fs f Hlay Hk Hf)
    as (sb & p & Hsb & Hp & Hin & Hkey & Hbok & P1 & P2 & P3 & R1 & R2 & R3 & Hsz).
  exists sb. split; [done|]. split; [lia|].
  unfold fragment_fits. split_and!; try done.
  intros g Hg. destruct (Hgr _ _ Hg) as (p' & Hp' & Hl).
  assert (p' = p) as -> by congruence. rewrite Hl. lia.
Qed.

(** The fragments of a parameter lie in different buckets. *)
Lemma layout_bucket_ids_NoDup st k fs :
  layout_wf st → state_fragments st !! k = Some fs → NoDup (bucket_id <$> fs).
Proof.
  intros Hlay Hk. pose proof Hlay as (Hc & Hbs & Hfm).
  destruct (Hfm _ _ Hk) as (p & Hp & (_ & Hch & Hall)).
  apply chain_NoDup in Hch. apply NoDup_fmap_1 in Hch.
  apply NoDup_fmap_2_strong; [|done].
  intros f1 f2 H1 H2 Hbid.
  destruct (layout_fragment st k fs f1 Hlay Hk H1)
    as (sb1 & _ & Hsb1 & _ & Hin1 & Hk1 & Hbok & _).
  destruct (layout_fragment st k fs f2 Hlay Hk H2)
    as (sb2 & _ & Hsb2 & _ & Hin2 & Hk2 & _).
  rewrite Hbid in Hsb1. assert (sb2 = sb1) as -> by congruence.
  destruct Hbok as (_ & _ & _ & _ & _ & _ & _ & Hnd & _).
  apply list_elem_of_lookup in Hin1 as (i1 & Hi1).
  apply list_elem_of_lookup in Hin2 as (i2 & Hi2).
  assert (i1 = i2) as ->.
  { eapply NoDup_lookup; [exact Hnd| |].
    - rewrite list_lookup_fmap, Hi1. done.
    - rewrite list_lookup_fmap, Hi2. simpl. by rewrite Hk2, Hk1. }
  congruence.
Qed.

Lemma grad_copy_run k st p :
  layout_wf st → grads_wf st → lookup_param st k = Some p →
  ∃ st1 fs,
    layout_wf st1 ∧ state_fragments st1 !! k = Some fs
    ∧ config st1 = config st ∧ param_groups st1 = param_groups st
    ∧ param_grad st1 = param_grad st
    ∧ pre_forward_hook_is_enabled st1 = pre_forward_hook_is_enabled st
    ∧ _grads_buckets st1 = _grads_buckets st
    ∧ status_log st1 = status_log st
    ∧ state_step st1 = state_step st
    ∧ _params_buckets st1 = _params_buckets st
    ∧ buckets_extend (state_buckets st) (state_buckets st1)
    ∧ (∀ k' fs', state_fragments st !! k' = Some fs' →
         state_fragments st1 !! k' = Some fs')
    ∧ buckets_wf st1 (_grads_buckets st)
    ∧ ∀ I : list ParameterFragment → gmap nat (GradientBucket T) → Prop,
        (∀ pre f suf G G' sb,
           fs = pre ++ f :: suf → buckets_wf st1 G → I pre G →
           state_buckets st1 !! bucket_id f = Some sb →
           G' !! bucket_id f
           = Some (copied sb f (param_grad st !! k)
                     (finished (default GradientBucket_init (G !! bucket_id f)))) →
           (∀ i, i ≠ bucket_id f → G' !! i = G !! i ∨ G' !! i = finished <$> G !! i) →
           I (pre ++ [f]) G') →
        I [] (_grads_buckets st) →
        ∃ G' Lnew,
          _grad_copy k st = Ok (after_grad_copy k G' (status_log st ++ Lnew) st1)
          ∧ Forall copy_edge Lnew ∧ buckets_wf st1 G' ∧ I fs G'.
Proof.
  intros Hlay Hgr Hp.
  destruct (init_param_state_wf k st p Hlay Hp)
    as (st1 & Hrun & Hlay1 & (fs & Hfs) & Ec & Epg & Egrad & Eflag & EG & EL & Estep
        & Epb & Hext & Hmono).
  exists st1, fs. split_and!; try done.
  - intros bid gb Hgb. destruct Hgr as (Hg & _).
    destruct (Hg _ _ Hgb) as (sb & Hsb & Hok).
    destruct (Hext _ _ Hsb) as (sb' & Hsb' & Ebs & Ess & _ & _ & _ & Hfr).
    exists sb'. split; [done|].
    destruct Hok as (G2 & G3 & G4 & G5 & G6 & G7). unfold gbucket_ok.
    rewrite Ebs, Ess. split_and!; try done.
    intros k' Hk'. apply G6 in Hk'. apply list_elem_of_fmap in Hk' as (f & -> & Hf).
    apply list_elem_of_fmap. exists f. split; [done|]. by apply Hfr.
  - intros I Hstep HI.
    assert (Hgr1 : grads_wf st1).
    { destruct Hgr as (Hg & Hpg). split.
      - intros bid gb Hgb. rewrite EG in Hgb.
        destruct (Hg _ _ Hgb) as (sb & Hsb & Hok).
        destruct (Hext _ _ Hsb) as (sb' & Hsb' & Ebs & Ess & _ & _ & _ & Hfr).
        exists sb'. split; [done|].
        destruct Hok as (G2 & G3 & G4 & G5 & G6 & G7). unfold gbucket_ok.
        rewrite Ebs, Ess. split_and!; try done.
        intros k' Hk'. apply G6 in Hk'. apply list_elem_of_fmap in Hk' as (f & -> & Hf).
        apply list_elem_of_fmap. exists f. split; [done|]. by apply Hfr.
      - intros k' g Hg'. rewrite Egrad in Hg'. unfold lookup_param. rewrite Epg.
        by apply Hpg. }
    destruct (grad_copy_loop I k st1 fs) with (G := _grads_buckets st1)
      (L := status_log st1) as (G' & Lnew & Hloop & HL & HG' & HI').
    { intros f Hf. by eapply layout_fragment_fits. }
    { rewrite Egrad. exact Hstep. }
    { destruct Hgr1 as (Hg & _). exact Hg. }
    { by rewrite EG. }
    exists G', Lnew. split_and!; try done.
    unfold _grad_copy.
    assert (Hfirst :
      match state_fragments st !! k with
      | Some _ => Ok st
      | None =>
        st ← (if decide (is_Some (lookup_param st k))
              then _init_param_state k st else Ok st);
        match state_fragments st !! k with
        | Some _ => Ok st
        | None =>
          Raise (RuntimeError
                   "Could not initialize DistributedFusedAdam with parameter")
        end
      end = Ok st1).
    { destruct (state_fragments st !! k) as [fs0|] eqn:E.
      - unfold _init_param_state in Hrun. rewrite E in Hrun. done.
      - rewrite decide_True by (by rewrite Hp). rewrite Hrun. simpl.
        by rewrite Hfs. }
    rewrite Hfirst. simpl. rewrite Hfs. simpl.
    rewrite (with_grads_eta st1), Hloop. simpl. rewrite EL. done.
Qed.
End GradCopy.

Section Register.
Context {T : Type} `{TensorElt T} `{Collectives T} `{!CollectivesOk T}.
Implicit Types (st : Optimizer T) (gb : GradientBucket T) (sb : StateBucket T).
Implicit Types (G : gmap nat (GradientBucket T)) (L : list StatusWrite).

Lemma for_each_local_key {A} (key : A → nat)
    (body : A → Optimizer T → result (Optimizer T))
    (f : nat → GradientBucket T → GradientBucket T)
    (w : nat → GradientBucket T → list StatusWrite) (l : list A) G st :
  NoDup (key <$> l) →
  (∀ x G' L', x ∈ l → G' !! key x = G !! key x →
     body x (with_grads G' L' st) =
       Ok (with_grads
             (<[key x := f (key x) (default GradientBucket_init (G !! key x))]> G')
             (L' ++ w (key x) (default GradientBucket_init (G !! key x))) st)) →
  ∀ L, for_each body l (with_grads G L st) =
    Ok (with_grads (apply_keys f (key <$> l) G)
          (L ++ concat ((λ bid, w bid (default GradientBucket_init (G !! bid)))
                          <$> (key <$> l)))
          st).
Proof.
  intros Hnd Hbody. unfold apply_keys.
  assert (∀ G' L, (∀ x, x ∈ l → G' !! key x = G !! key x) →
    for_each body l (with_grads G' L st) =
    Ok (with_grads
          (foldl (λ G' b, <[b := f b (default GradientBucket_init (G !! b))]> G') G'
             (key <$> l))
          (L ++ concat ((λ bid, w bid (default GradientBucket_init (G !! bid)))
                          <$> (key <$> l)))
          st)) as Hgen.
  { induction l as [|x l IH]; intros G' L Hsame; simpl.
    - by rewrite app_nil_r.
    - rewrite fmap_cons in Hnd. apply NoDup_cons in Hnd as (Hx & Hnd).
      rewrite Hbody; [|by left|apply Hsame; by left]. simpl.
      rewrite IH.
      + by rewrite <- app_assoc.
      + done.
      + intros y G'' L'' Hin. apply Hbody. by right.
      + intros y Hin. rewrite lookup_insert_ne; [apply Hsame; by right|].
        intros Heq. apply Hx. apply list_elem_of_fmap. exists y. done. }
  intros L. by apply Hgen.
Qed.

Lemma register_grad_local k f sb G0 G' L' st :
  state_buckets st !! bucket_id f = Some sb →
  G' !! bucket_id f = G0 !! bucket_id f →
  is_Some (grads_bucket (default GradientBucket_init (G0 !! bucket_id f))) →
  register_grad k f (with_grads G' L' st) =
    Ok (with_grads
          (<[bucket_id f :=
               registered sb k (default GradientBucket_init (G0 !! bucket_id f))]> G')
          (L' ++ register_writes (bucket_id f) sb k
                   (default GradientBucket_init (G0 !! bucket_id f))) st).
Proof.
  intros Hsb Hsame (g & Hg). unfold register_grad.
  rewrite touch_with_grads.
  set (bid := bucket_id f) in *. rewrite Hsame.
  set (b := default GradientBucket_init (G0 !! bid)) in *.
  change (state_buckets (with_grads (<[bid:=b]> G') L' st)) with (state_buckets st).
  rewrite Hsb. rewrite update_with_grads, lookup_insert_eq, insert_insert_eq.
  simpl default. rewrite grads_bucket_at_with_grads, lookup_insert_eq. simpl default.
  unfold registered, register_writes.
  change (grads_generated
            (set_grads_generated ({[k]} ∪ grads_generated b) b))
    with ({[k]} ∪ grads_generated b).
  destruct (decide (size ({[k]} ∪ grads_generated b) = length (fragments sb))) as [E|E].
  - rewrite write_status_with_grads, lookup_insert_eq, insert_insert_eq. simpl default.
    rewrite grads_bucket_at_with_grads, lookup_insert_eq. simpl default.
    change (grads_bucket
              (set_status FULLY_FILLED
                 (set_grads_generated ({[k]} ∪ grads_generated b) b)))
      with (grads_bucket b).
    rewrite Hg.
    change (state_buckets (with_grads _ L' st)) with (state_buckets st).
    rewrite Hsb. done.
  - by rewrite app_nil_r.
Qed.

Lemma filter_none {A} (P : A → Prop) `{∀ x, Decision (P x)} (l : list A) :
  (∀ x, x ∈ l → ¬ P x) → filter P l = [].
Proof.
  induction l as [|x l IH]; intros Hl; [done|].
  rewrite filter_cons_False by (apply Hl; by left).
  apply IH. intros y Hy. apply Hl. by right.
Qed.

Lemma pending_params_nil sb (gg : gset ParamKey) :
  NoDup (fragment_key <$> fragments sb) →
  (∀ k, k ∈ gg → k ∈ fragment_key <$> fragments sb) →
  size gg = length (fragments sb) →
  pending_params (Some sb) gg = [].
Proof.
  intros Hnd Hsub Hsz. unfold pending_params.
  assert (Heq : gg ≡ list_to_set (fragment_key <$> fragments sb)).
  { apply set_subseteq_size_equiv.
    - intros k Hk. apply elem_of_list_to_set. by apply Hsub.
    - rewrite size_list_to_set by done. rewrite length_fmap. lia. }
  apply filter_none. simpl. intros k Hk Hn. apply Hn. apply Heq.
  by apply elem_of_list_to_set.
Qed.

Lemma gbucket_ok_registered sb k gb :
  k ∈ fragment_key <$> fragments sb →
  is_Some (grads_bucket gb) → status gb ≠ SYNCING →
  gbucket_ok sb gb → gbucket_ok sb (registered sb k gb).
Proof.
  intros Hk Hg Hs (G2 & G3 & G4 & G5 & G6 & G7). unfold registered.
  assert (Hgg : ∀ k', k' ∈ {[k]} ∪ grads_generated gb →
                      k' ∈ fragment_key <$> fragments sb).
  { intros k' [->%elem_of_singleton|Hk']%elem_of_union; [done|by apply G6]. }
  case_decide; unfold gbucket_ok; simpl; split_and!; done.
Qed.

(** The first loop of [_try_start_bucket_grad_sync([param])] after
    [_grad_copy(param)]. *)
Lemma register_grads_spec k fs G L st :
  layout_wf st → buckets_wf st G → state_fragments st !! k = Some fs →
  (∀ f, f ∈ fs →
     ∃ gb, G !! bucket_id f = Some gb ∧ status gb = PARTIALLY_FILLED) →
  ∃ G' Lnew,
    register_grads k (with_grads G L st) = Ok (with_grads G' (L ++ Lnew) st)
    ∧ Forall try_edge Lnew ∧ buckets_wf st G'
    ∧ (∀ bid, is_Some (G' !! bid) ↔ is_Some (G !! bid))
    ∧ (∀ bid sb, state_buckets st !! bid = Some sb →
         G' !! bid = G !! bid
         ∨ ∃ gb, G !! bid = Some gb ∧ status gb = PARTIALLY_FILLED
                 ∧ is_Some (grads_bucket gb)
                 ∧ k ∈ fragment_key <$> fragments sb
                 ∧ G' !! bid = Some (registered sb k gb)).
Proof.
  intros Hlay HG Hfs Hpart. unfold register_grads.
  change (state_fragments (with_grads G L st)) with (state_fragments st).
  rewrite Hfs.
  set (reg := λ (bid : nat) gb,
         match state_buckets st !! bid with
         | Some sb => registered sb k gb
         | None => gb
         end).
  set (w := λ (bid : nat) (gb : GradientBucket T),
         match state_buckets st !! bid with
         | Some sb => register_writes bid sb k gb
         | None => []
         end).
  assert (Hf : ∀ f, f ∈ fs →
    ∃ sb gb, state_buckets st !! bucket_id f = Some sb
      ∧ G !! bucket_id f = Some gb ∧ status gb = PARTIALLY_FILLED
      ∧ is_Some (grads_bucket gb) ∧ gbucket_ok sb gb
      ∧ k ∈ fragment_key <$> fragments sb
      ∧ NoDup (fragment_key <$> fragments sb)).
  { intros f Hin. destruct (Hpart f Hin) as (gb & Hgb & Hs).
    destruct (layout_fragment st k fs f Hlay Hfs Hin)
      as (sb & p & Hsb & _ & Hfin & Hkey & Hbok & _).
    destruct (HG _ _ Hgb) as (sb' & Hsb' & Hok).
    assert (sb' = sb) as -> by congruence.
    exists sb, gb. split_and!; try done.
    - destruct Hok as (_ & _ & _ & G5 & _). apply G5. by left.
    - apply list_elem_of_fmap. by exists f.
    - by destruct Hbok as (_ & _ & _ & _ & _ & _ & _ & Hnd & _). }
  rewrite (for_each_local_key bucket_id (register_grad k) reg w fs G st).
  2:{ by eapply layout_bucket_ids_NoDup. }
  2:{ intros f G' L' Hin Hsame.
      destruct (Hf f Hin) as (sb & gb & Hsb & Hgb & Hs & Hg & _).
      rewrite (register_grad_local k f sb G G' L' st); try done.
      - unfold reg, w. by rewrite Hsb.
      - by rewrite Hgb. }
  eexists _, _. split; [reflexivity|].
  split.
  { apply Forall_concat, Forall_fmap, Forall_forall. intros bid Hbid. simpl.
    apply list_elem_of_fmap in Hbid as (f & -> & Hin).
    destruct (Hf f Hin) as (sb & gb & Hsb & Hgb & Hs & Hg & Hok & Hk & Hnd).
    unfold w. rewrite Hsb, Hgb. simpl. unfold register_writes.
    case_decide as Hsz; [|constructor]. apply Forall_singleton. left.
    simpl. split_and!; try done. apply pending_params_nil; try done.
    destruct Hok as (_ & _ & _ & _ & G6 & _).
    intros k' [->%elem_of_singleton|Hk']%elem_of_union; [done|by apply G6]. }
  split.
  { intros bid gb' Hgb'. rewrite apply_keys_lookup in Hgb'.
    case_decide as Hbid; [|by apply HG].
    apply list_elem_of_fmap in Hbid as (f & -> & Hin).
    destruct (Hf f Hin) as (sb & gb & Hsb & Hgb & Hs & Hg & Hok & Hk & Hnd).
    exists sb. split; [done|]. injection Hgb' as <-. unfold reg.
    rewrite Hsb, Hgb. simpl. apply gbucket_ok_registered; try done. by rewrite Hs. }
  split.
  { intros bid. rewrite apply_keys_lookup. case_decide as Hbid; [|done].
    apply list_elem_of_fmap in Hbid as (f & -> & Hin).
    destruct (Hf f Hin) as (sb & gb & Hsb & Hgb & _). rewrite Hgb. split; eauto. }
  intros bid sb Hsb. rewrite apply_keys_lookup. case_decide as Hbid; [|by left].
  right. apply list_elem_of_fmap in Hbid as (f & -> & Hin).
  destruct (Hf f Hin) as (sb' & gb & Hsb' & Hgb & Hs & Hg & Hok & Hk & Hnd).
  assert (sb' = sb) as -> by congruence.
  exists gb. split_and!; try done. unfold reg. by rewrite Hsb, Hgb.
Qed.
End Register.

Section TryStart.
Context {T : Type} `{TensorElt T} `{Collectives T} `{!CollectivesOk T}.
Implicit Types (st : Optimizer T) (gb : GradientBucket T) (sb : StateBucket T).
Implicit Types (G : gmap nat (GradientBucket T)) (L : list StatusWrite).

Lemma buckets_wf_finish_ok st G bid gb :
  buckets_wf st G → G !! bid = Some gb → finish_ok gb.
Proof.
  intros HG Hgb. destruct (HG _ _ Hgb) as (sb & _ & Hok).
  by eapply gbucket_ok_finish_ok.
Qed.

Lemma try_start_spec k ilb fs G L st :
  layout_wf st → buckets_wf st G → state_fragments st !! k = Some fs →
  (∀ f, f ∈ fs →
     ∃ gb, G !! bucket_id f = Some gb ∧ status gb = PARTIALLY_FILLED) →
  ∃ G' Lnew,
    _try_start_bucket_grad_sync [k] ilb (with_grads G L st)
    = Ok (with_grads G' (L ++ Lnew) st)
    ∧ Forall try_edge Lnew ∧ buckets_wf st G'
    ∧ (∀ bid, is_Some (G' !! bid) ↔ is_Some (G !! bid))
    ∧ (∀ bid sb, state_buckets st !! bid = Some sb →
         bucket_move (config st) sb
           (default GradientBucket_init (G !! bid))
           (default GradientBucket_init (G' !! bid))).
Proof.
  intros Hlay HG Hfs Hpart. pose proof Hlay as ((HA & HS & HD) & Hbs & _).
  destruct (register_grads_spec k fs G L st Hlay HG Hfs Hpart)
    as (G1 & L1 & Hreg & HL1 & HG1 & Hdom1 & Hmove1).
  unfold _try_start_bucket_grad_sync. cbn [for_each].
  rewrite Hreg. cbn [mbind result_bind].
  set (filled_buckets := filter _ _).
  assert (Hm1 : ∀ bid sb, state_buckets st !! bid = Some sb →
            bucket_move (config st) sb
              (default GradientBucket_init (G !! bid))
              (default GradientBucket_init (G1 !! bid))).
  { intros bid sb Hsb.
    destruct (Hmove1 bid sb Hsb) as [->|(gb & Hgb & Hs & Hg & Hk & ->)].
    - apply move_refl.
    - rewrite Hgb. simpl. apply move_registered; [by rewrite Hs|done..]. }
  destruct filled_buckets as [|b0 bl] eqn:Efilled.
  { exists G1, L1. split_and!; try done. }
  rewrite <- Efilled. clear b0 bl Efilled.
  destruct (sorted_bucket_ids_spec G1 (L ++ L1) st) as (Hnd & Hin).
  assert (Hfl : ∀ bid, bid ∈ filled_buckets →
            ∃ gb, G1 !! bid = Some gb ∧ status gb = FULLY_FILLED).
  { intros bid Hb. apply list_elem_of_filter in Hb as ((_ & Hs) & Hb).
    apply Hin in Hb as (gb & Hgb). exists gb. split; [done|].
    unfold grads_bucket_at in Hs. simpl in Hs. by rewrite Hgb in Hs. }
  destruct (start_spec filled_buckets G1 (L ++ L1) st) as (G2 & Hstart & HG2); try done.
  { by apply NoDup_filter. }
  { intros bid gb. by apply (buckets_wf_finish_ok st). }
  { intros bid Hb. destruct (Hfl _ Hb) as (gb & Hgb & Hs).
    destruct (HG1 _ _ Hgb) as (sb & Hsb & Hok).
    destruct Hok as (_ & _ & _ & G5 & _). destruct G5 as (g & Hg); [by right|].
    exists gb, g. split_and!; try done. by rewrite Hs. }
  rewrite Hstart. eexists G2, _. rewrite <- app_assoc. split; [reflexivity|].
  split.
  { apply Forall_app. split; [done|]. apply Forall_app. split.
    - apply Forall_concat, Forall_fmap, Forall_forall. intros bid _. simpl.
      unfold finish_writes. case_decide; [|constructor].
      apply Forall_singleton. right. by left.
    - apply Forall_concat, Forall_fmap, Forall_forall. intros bid Hb. simpl.
      destruct (Hfl _ Hb) as (gb & Hgb & Hs). rewrite Hgb. simpl.
      apply Forall_singleton. right. right. done. }
  split.
  { intros bid gb' Hgb'. rewrite HG2 in Hgb'.
    destruct (G1 !! bid) as [gb|] eqn:Hgb; [|by case_decide].
    destruct (HG1 _ _ Hgb) as (sb & Hsb & Hok). exists sb. split; [done|].
    case_decide as Hb; simpl in Hgb'; injection Hgb' as <-.
    - destruct (Hfl _ Hb) as (gb0 & Hgb0 & Hs).
      assert (gb0 = gb) as -> by congruence.
      pose proof Hok as (_ & _ & _ & G5 & _). destruct G5 as (g & Hg); [by right|].
      destruct (Hbs _ _ Hsb) as (B1 & B2 & _).
      eapply gbucket_ok_started; try done. lia.
    - by apply gbucket_ok_finished. }
  split.
  { intros bid. rewrite HG2, <- Hdom1. case_decide; by rewrite fmap_is_Some. }
  intros bid sb Hsb. eapply move_trans; [by apply Hm1|].
  rewrite HG2. destruct (G1 !! bid) as [gb|] eqn:Hgb.
  - case_decide as Hb; simpl.
    + destruct (Hfl _ Hb) as (gb0 & Hgb0 & Hs).
      assert (gb0 = gb) as -> by congruence.
      destruct (HG1 _ _ Hgb) as (sb' & Hsb' & Hok).
      destruct Hok as (_ & _ & _ & G5 & _).
      apply move_started; [by rewrite Hs|]. apply G5. by right.
    + apply move_finished.
  - case_decide; simpl; apply move_refl.
Qed.
End TryStart.

Section OpLemmas.
Context {T : Type} `{TensorElt T} `{Collectives T} `{!CollectivesOk T}.
Implicit Types (st : Optimizer T) (gb : GradientBucket T) (sb : StateBucket T).
Implicit Types (G : gmap nat (GradientBucket T)) (L : list StatusWrite).

Lemma copy_edge_ok w : copy_edge w → edge_ok w.
Proof. unfold edge_ok. intros [(Ho & ->)|(Ho & ->)]; done. Qed.

Lemma try_edge_ok w : try_edge w → edge_ok w.
Proof.
  unfold edge_ok. intros [(Ho & -> & Hp)|[(Ho & ->)|(Ho & ->)]]; try done. by right.
Qed.

Lemma force_edge_ok w : force_edge w → edge_ok w.
Proof. unfold edge_ok. intros [(Ho & ->)|(Ho & ->)]; done. Qed.

Lemma step_ok_refl st : layout_wf st → grads_wf st → step_ok st st.
Proof.
  intros Hlay Hgr. unfold step_ok. split_and!; try done.
  - apply buckets_extend_refl.
  - exists []. by rewrite app_nil_r.
Qed.

Lemma step_ok_trans st1 st2 st3 :
  step_ok st1 st2 → step_ok st2 st3 → step_ok st1 st3.
Proof.
  intros (_ & _ & Ec & Ep & Ef & Hext & Hm & L1 & EL1 & HL1)
         (Hlay & Hgr & Ec' & Ep' & Ef' & Hext' & Hm' & L2 & EL2 & HL2).
  unfold step_ok. split_and!; try done; try congruence.
  - by eapply buckets_extend_trans.
  - eauto.
  - exists (L1 ++ L2). rewrite EL2, EL1, app_assoc. split; [done|].
    by apply Forall_app.
Qed.

Lemma op_ok_step st st' op : step_ok st st' → op_ok st op → op_ok st' op.
Proof.
  intros (_ & _ & Ec & Ep & Ef & _). unfold op_ok, lookup_param, hook_is_enabled.
  rewrite Ep, Ef. done.
Qed.

Lemma grads_wf_extend st st' :
  grads_wf st →
  buckets_extend (state_buckets st) (state_buckets st') →
  param_groups st' = param_groups st → param_grad st' = param_grad st →
  _grads_buckets st' = _grads_buckets st →
  grads_wf st'.
Proof.
  intros (Hg & Hpg) Hext Epg Egrad EG. split.
  - intros bid gb Hgb. rewrite EG in Hgb.
    destruct (Hg _ _ Hgb) as (sb & Hsb & Hok).
    destruct (Hext _ _ Hsb) as (sb' & Hsb' & Ebs & Ess & _ & _ & _ & Hfr).
    exists sb'. split; [done|].
    destruct Hok as (G2 & G3 & G4 & G5 & G6 & G7). unfold gbucket_ok.
    rewrite Ebs, Ess. split_and!; try done.
    intros k' Hk'. apply G6 in Hk'. apply list_elem_of_fmap in Hk' as (f & -> & Hf).
    apply list_elem_of_fmap. exists f. split; [done|]. by apply Hfr.
  - intros k' g Hg'. rewrite Egrad in Hg'. unfold lookup_param. rewrite Epg.
    by apply Hpg.
Qed.

Lemma set_grad_step k g st :
  layout_wf st → grads_wf st → op_ok st (OpSetGrad k g) →
  step_ok st (set_param_grad (<[k := g]> (param_grad st)) st).
Proof.
  intros Hlay (Hg & Hpg) (p & Hp & Hl). unfold step_ok. simpl.
  split_and!; try done.
  - split; [done|]. simpl. intros k' g'.
    destruct (decide (k' = k)) as [->|Hne].
    + rewrite lookup_insert_eq. intros [= <-]. eauto.
    + rewrite lookup_insert_ne by done. apply Hpg.
  - apply buckets_extend_refl.
  - exists []. by rewrite app_nil_r.
Qed.

Lemma init_param_state_step k st :
  layout_wf st → grads_wf st → is_Some (lookup_param st k) →
  ∃ st', _init_param_state k st = Ok st' ∧ step_ok st st'
    ∧ is_Some (state_fragments st' !! k)
    ∧ param_grad st' = param_grad st
    ∧ _grads_buckets st' = _grads_buckets st.
Proof.
  intros Hlay Hgr (p & Hp).
  destruct (init_param_state_wf k st p Hlay Hp)
    as (st1 & Hrun & Hlay1 & Hfs & Ec & Epg & Egrad & Eflag & EG & EL & Estep
        & Epb & Hext & Hmono).
  exists st1. split; [done|]. split; [|done].
  unfold step_ok. split_and!; try done.
  - by eapply grads_wf_extend.
  - exists []. by rewrite app_nil_r.
Qed.

(** [_grad_copy(param)] *)
Lemma grad_copy_step k st :
  layout_wf st → grads_wf st → is_Some (lookup_param st k) →
  ∃ st' fs, _grad_copy k st = Ok st' ∧ step_ok st st'
    ∧ param_grad st' = delete k (param_grad st)
    ∧ state_fragments st' !! k = Some fs
    ∧ ∀ f, f ∈ fs →
        ∃ gb, _grads_buckets st' !! bucket_id f = Some gb
              ∧ status gb = PARTIALLY_FILLED.
Proof.
  intros Hlay Hgr (p & Hp).
  destruct (grad_copy_run k st p Hlay Hgr Hp)
    as (st1 & fs & Hlay1 & Hfs & Ec & Epg & Egrad & Eflag & EG & EL & Estep & Epb
        & Hext & Hmono & HG0 & Hrun).
  destruct (Hrun (λ pre G, ∀ f, f ∈ pre →
                    ∃ gb, G !! bucket_id f = Some gb ∧ status gb = PARTIALLY_FILLED))
    as (G' & Lnew & Hcopy & HL & HG' & HI).
  { intros pre f suf G G1 sb Heq HG HI Hsb Hb Ho f' Hf'.
    destruct (decide (bucket_id f' = bucket_id f)) as [Eb|Hne].
    - rewrite Eb, Hb. eexists. split; [done|]. done.
    - apply elem_of_app in Hf' as [Hf'|Hf'].
      + destruct (HI _ Hf') as (gb & Hgb & Hs).
        destruct (Ho _ Hne) as [E|E]; rewrite E, Hgb; simpl.
        * eauto.
        * rewrite finished_not_syncing by (by rewrite Hs). eauto.
      + apply list_elem_of_singleton in Hf' as ->. done. }
  { intros f Hf. by apply elem_of_nil in Hf. }
  exists (after_grad_copy k G' (status_log st ++ Lnew) st1), fs.
  split; [done|]. split; [|split_and!; try done].
  - unfold step_ok. simpl. split_and!; try done.
    + split; [exact HG'|]. simpl. intros k' g Hg.
      apply lookup_delete_Some in Hg as (_ & Hg).
      destruct Hgr as (_ & Hpg). rewrite Egrad in Hg. unfold lookup_param.
      simpl. rewrite Epg. by apply Hpg.
    + exists Lnew. split; [done|]. eapply Forall_impl; [exact HL|].
      apply copy_edge_ok.
  - simpl. by rewrite Egrad.
Qed.

(** [_try_start_bucket_grad_sync([param], ignore_last_bucket)] after
    [_grad_copy(param)]. *)
Lemma try_start_step k ilb fs st :
  layout_wf st → grads_wf st → state_fragments st !! k = Some fs →
  (∀ f, f ∈ fs →
     ∃ gb, _grads_buckets st !! bucket_id f = Some gb
           ∧ status gb = PARTIALLY_FILLED) →
  ∃ st', _try_start_bucket_grad_sync [k] ilb st = Ok st' ∧ step_ok st st'
    ∧ param_grad st' = param_grad st.
Proof.
  intros Hlay Hgr Hfs Hpart.
  destruct (try_start_spec k ilb fs (_grads_buckets st) (status_log st) st)
    as (G' & Lnew & Hrun & HL & HG' & _); try done.
  { exact (proj1 Hgr). }
  rewrite <- with_grads_eta in Hrun. eexists. split; [exact Hrun|].
  split; [|done]. unfold step_ok. simpl. split_and!; try done.
  - split; [exact HG'|]. exact (proj2 Hgr).
  - apply buckets_extend_refl.
  - exists Lnew. split; [done|]. eapply Forall_impl; [exact HL|]. apply try_edge_ok.
Qed.

Lemma accumulate_step k ilb st :
  layout_wf st → grads_wf st → is_Some (lookup_param st k) →
  ∃ st', run_op (OpAccumulate k ilb) st = Ok st' ∧ step_ok st st'
    ∧ param_grad st' = delete k (param_grad st).
Proof.
  intros Hlay Hgr Hp.
  destruct (grad_copy_step k st Hlay Hgr Hp)
    as (st1 & fs & Hcopy & Hstep1 & Egrad & Hfs & Hpart).
  pose proof Hstep1 as (Hlay1 & Hgr1 & _).
  destruct (try_start_step k ilb fs st1 Hlay1 Hgr1 Hfs Hpart)
    as (st2 & Hrun & Hstep2 & Egrad2).
  exists st2. simpl. rewrite Hcopy. simpl. split; [done|].
  split; [by eapply step_ok_trans|congruence].
Qed.

Lemma post_backward_hook_step k st :
  layout_wf st → grads_wf st → op_ok st (OpPostBackwardHook k) →
  ∃ st', post_backward_hook k st = Ok st' ∧ step_ok st st'
    ∧ (greedy_grad_copy (config st) = true →
         param_grad st' = delete k (param_grad st)).
Proof.
  intros Hlay Hgr (Hp & Hflag). unfold post_backward_hook. rewrite Hflag.
  set (need := bool_decide (state_fragments st !! k = None)).
  assert (∃ st1, (if need then _init_param_state k st else Ok st) = Ok st1
            ∧ step_ok st st1 ∧ param_grad st1 = param_grad st
            ∧ is_Some (state_fragments st1 !! k))
    as (st1 & -> & Hstep1 & Egrad1 & Hfs1).
  { unfold need. case_bool_decide as Hn.
    - destruct (init_param_state_step k st Hlay Hgr Hp)
        as (st1 & Hrun & Hstep & Hfs & Egrad & _). eauto.
    - exists st. split; [done|]. split; [by apply step_ok_refl|]. split; [done|].
      destruct (state_fragments st !! k); [eauto|done]. }
  simpl. pose proof Hstep1 as (Hlay1 & Hgr1 & Ec1 & Ep1 & _).
  destruct (greedy_grad_copy (config st1)) eqn:Egreedy.
  - assert (Hp1 : is_Some (lookup_param st1 k)).
    { unfold lookup_param. by rewrite Ep1. }
    destruct (grad_copy_step k st1 Hlay1 Hgr1 Hp1)
      as (st2 & fs & Hcopy & Hstep2 & Egrad2 & Hfs & Hpart).
    rewrite Hcopy. simpl. pose proof Hstep2 as (Hlay2 & Hgr2 & Ec2 & _).
    destruct (overlap_grad_sync (config st2)).
    + destruct (try_start_step k need fs st2 Hlay2 Hgr2 Hfs Hpart)
        as (st3 & Hrun & Hstep3 & Egrad3).
      exists st3. split; [done|]. split.
      * eapply step_ok_trans; [exact Hstep1|]. by eapply step_ok_trans.
      * intros _. congruence.
    + exists st2. split; [done|]. split; [by eapply step_ok_trans|].
      intros _. congruence.
  - exists st1. split; [done|]. split; [done|]. rewrite <- Ec1. congruence.
Qed.

Lemma finish_step st :
  layout_wf st → grads_wf st →
  ∃ st', _finish_bucket_grad_sync st = Ok st' ∧ step_ok st st'
    ∧ param_grad st' = param_grad st
    ∧ state_buckets st' = state_buckets st
    ∧ state_fragments st' = state_fragments st
    ∧ _grads_buckets st' = finished <$> _grads_buckets st.
Proof.
  intros Hlay Hgr.
  pose proof (finish_spec (_grads_buckets st) (status_log st) st) as Hrun.
  rewrite <- with_grads_eta in Hrun.
  eexists. split; [apply Hrun; intros bid gb; by apply grads_wf_finish_ok|].
  simpl. split; [|done].
  unfold step_ok. simpl. split_and!; try done.
  - split; [|exact (proj2 Hgr)]. simpl. intros bid gb Hgb.
    rewrite lookup_fmap in Hgb.
    destruct (_grads_buckets st !! bid) as [gb0|] eqn:E; [|done].
    injection Hgb as <-. destruct Hgr as (Hg & _).
    destruct (Hg _ _ E) as (sb & Hsb & Hok). exists sb. split; [done|].
    by apply gbucket_ok_finished.
  - apply buckets_extend_refl.
  - eexists. split; [reflexivity|].
    apply Forall_concat, Forall_fmap, Forall_forall. intros bid _. simpl.
    eapply Forall_impl; [apply finish_writes_edge|]. apply force_edge_ok.
Qed.

Lemma force_step st :
  layout_wf st → grads_wf st →
  ∃ st', _force_bucket_grad_sync st = Ok st' ∧ step_ok st st'
    ∧ param_grad st' = param_grad st
    ∧ state_buckets st' = state_buckets st
    ∧ state_fragments st' = state_fragments st
    ∧ (∀ bid sb, state_buckets st !! bid = Some sb →
         _grads_buckets st' !! bid
         = Some (forced (config st) sb (grads_bucket_at bid st)))
    ∧ (∀ bid, state_buckets st !! bid = None → _grads_buckets st' !! bid = None).
Proof.
  intros Hlay Hgr.
  destruct (force_wf st Hlay Hgr)
    as (st' & Hrun & Hlay' & Hgr' & Ec & Ep & Ebs & Efs & Egrad & Eflag
        & (Lnew & EL & HL) & HG' & Hnone).
  exists st'. split; [done|]. split; [|done].
  unfold step_ok. split_and!; try done.
  - rewrite Ebs. apply buckets_extend_refl.
  - by rewrite Efs.
  - exists Lnew. split; [done|]. eapply Forall_impl; [exact HL|]. apply force_edge_ok.
Qed.

Lemma zero_grad_step b st :
  layout_wf st → grads_wf st → step_ok st (zero_grad b st).
Proof.
  intros Hlay (Hg & Hpg).
  assert (Hgr' : grads_wf (zero_grad b st)).
  { unfold zero_grad. destruct b; split; simpl; try (intros ? ?; by rewrite lookup_empty).
    intros k g. rewrite lookup_fmap.
    destruct (param_grad st !! k) as [g0|] eqn:E; [|done]. simpl. intros [= <-].
    destruct (Hpg _ _ E) as (p & Hp & Hl). exists p. split; [done|].
    by rewrite length_replicate. }
  unfold step_ok. split; [by destruct b|]. split; [done|].
  split; [by destruct b|]. split; [by destruct b|]. split; [by destruct b|].
  split; [destruct b; apply buckets_extend_refl|]. split; [by destruct b|].
  exists []. rewrite app_nil_r. by destruct b.
Qed.

Lemma elem_of_concat {A} (x : A) (ls : list (list A)) :
  x ∈ concat ls → ∃ l, x ∈ l ∧ l ∈ ls.
Proof.
  induction ls as [|l ls IH]; simpl; intros Hx.
  - by apply elem_of_nil in Hx.
  - apply elem_of_app in Hx as [Hx|Hx].
    + exists l. split; [done|by left].
    + destruct (IH Hx) as (l' & ? & ?). exists l'. split; [done|by right].
Qed.

Lemma layout_key_param st bid sb f :
  layout_wf st → state_buckets st !! bid = Some sb → f ∈ fragments sb →
  is_Some (lookup_param st (fragment_key f)).
Proof.
  intros (_ & Hbs & Hfm) Hsb Hf.
  destruct (Hbs _ _ Hsb) as (_ & _ & _ & _ & _ & _ & _ & _ & Hall).
  rewrite Forall_forall in Hall. destruct (Hall _ Hf) as (_ & (fs & Hfs & _) & _).
  destruct (Hfm _ _ Hfs) as (p & Hp & _). by exists p.
Qed.

Lemma grad_sync_step st :
  layout_wf st → grads_wf st →
  ∃ st', grad_sync st = Ok st' ∧ step_ok st st'.
Proof.
  intros Hlay Hgr. unfold grad_sync.
  set (keys := fragment_key <$> concat (fragments <$> state_buckets st)).
  set (body := λ k st, match lookup_param st k with
                       | Some _ => _ | None => _ end).
  destruct (for_each_Ok (step_ok st) body keys st) as (st1 & -> & Hstep1).
  { intros k s Hk Hs. pose proof Hs as (Hlay1 & Hgr1 & _ & Ep & _).
    assert (Hp : is_Some (lookup_param s k)).
    { unfold lookup_param. rewrite Ep. unfold keys in Hk.
      apply list_elem_of_fmap in Hk as (f & -> & Hf).
      apply elem_of_concat in Hf as (fl & Hf & Hl).
      apply list_elem_of_fmap in Hl as (sb & -> & Hsb).
      apply list_elem_of_lookup in Hsb as (bid & Hsb).
      by eapply layout_key_param. }
    unfold body. destruct Hp as (p & Hp). rewrite Hp.
    destruct (param_grad s !! k) eqn:E.
    - destruct (accumulate_step k false s Hlay1 Hgr1) as (s' & Hrun & Hstep & _).
      { by exists p. }
      exists s'. split; [exact Hrun|]. by eapply step_ok_trans.
    - eauto. }
  { by apply step_ok_refl. }
  simpl. pose proof Hstep1 as (Hlay1 & Hgr1 & _).
  destruct (force_step st1 Hlay1 Hgr1) as (st2 & Hrun & Hstep2 & _).
  exists st2. split; [done|]. by eapply step_ok_trans.
Qed.

Lemma run_op_step op st :
  layout_wf st → grads_wf st → op_ok st op →
  ∃ st', run_op op st = Ok st' ∧ step_ok st st'.
Proof.
  intros Hlay Hgr Hop. destruct op as [k g|k|k|k ilb|k| | | |b]; simpl.
  - eexists. split; [done|]. by apply set_grad_step.
  - destruct (init_param_state_step k st Hlay Hgr (proj1 Hop))
      as (st' & ? & ? & _). eauto.
  - destruct (grad_copy_step k st Hlay Hgr (proj1 Hop)) as (st' & fs & ? & ? & _).
    eauto.
  - destruct (accumulate_step k ilb st Hlay Hgr (proj1 Hop)) as (st' & ? & ? & _).
    eauto.
  - destruct (post_backward_hook_step k st Hlay Hgr Hop) as (st' & ? & ? & _). eauto.
  - by apply grad_sync_step.
  - destruct (force_step st Hlay Hgr) as (st' & ? & ? & _). eauto.
  - destruct (finish_step st Hlay Hgr) as (st' & ? & ? & _). eauto.
  - eexists. split; [done|]. by apply zero_grad_step.
Qed.

(** Every sequence of operations runs to the end and keeps the
    invariants. *)
Lemma run_step ops st :
  layout_wf st → grads_wf st → Forall (op_ok st) ops →
  ∃ st', run ops st = Ok st' ∧ step_ok st st'.
Proof.
  intros Hlay Hgr Hops. unfold run.
  destruct (for_each_Ok (λ s, step_ok st s) run_op ops st) as (st' & Hrun & Hstep).
  - intros op s Hop Hs. pose proof Hs as (Hlay1 & Hgr1 & _).
    rewrite Forall_forall in Hops.
    destruct (run_op_step op s Hlay1 Hgr1) as (s' & Hrun & Hstep).
    { eapply op_ok_step; [exact Hs|]. by apply Hops. }
    exists s'. split; [done|]. by eapply step_ok_trans.
  - by apply step_ok_refl.
  - eauto.
Qed.
End OpLemmas.

Section Value.
Context {T : Type} `{TensorElt T} `{Collectives T} `{!CollectivesOk T}.
Implicit Types (st : Optimizer T) (gb : GradientBucket T) (sb : StateBucket T).
Implicit Types (fm : gmap ParamKey (list ParameterFragment)).
Implicit Types (events : list (ParamKey * list T)).
Local Arguments accumulated : simpl never.






End Value.

Section Accumulation.
Context {T : Type} `{TensorElt T} `{Collectives T} `{!CollectivesOk T}.
Implicit Types (st : Optimizer T) (gb : GradientBucket T) (sb : StateBucket T).
Implicit Types (G : gmap nat (GradientBucket T)) (L : list StatusWrite).
Implicit Types (events : list (ParamKey * list T)).
Local Arguments accumulated : simpl never.






End Accumulation.

Section Rounds.
Context {T : Type} `{TensorElt T} `{Collectives T} `{!CollectivesOk T}.
Implicit Types (st : Optimizer T) (gb : GradientBucket T) (sb : StateBucket T).
Implicit Types (events r : list (ParamKey * list T)).




End Rounds.


Lemma init_grads_wf {T} `{TensorElt T} pg d raw D r R avg ogs ops sp pl
    (st : Optimizer T) :
  __init__ pg d raw D r R avg ogs ops sp pl = Ok st → grads_wf st.
Proof.
  unfold __init__. destruct (init_default_shard_size d raw); simpl; try done.
  intros [= <-]. split; simpl; intros ? ?; by rewrite lookup_empty.
Qed.

Lemma init_Ok {T} `{TensorElt T} pg d raw D r R avg ogs ops sp pl :
  ∃ st : Optimizer T, __init__ pg d raw D r R avg ogs ops sp pl = Ok st.
Proof.
  unfold __init__. destruct (init_default_shard_size_spec d raw) as (s & -> & _).
  simpl. eauto.
Qed.

(** The states that the operations reach from the constructor are well
    formed. *)
Lemma init_run_wf {T} `{TensorElt T} `{Collectives T} `{!CollectivesOk T}
    pg d raw D r R avg ogs ovp sp pl (st0 : Optimizer T) (ops : list (Op T)) :
  0 < D → __init__ pg d raw D r R avg ogs ovp sp pl = Ok st0 →
  Forall (op_ok st0) ops →
  ∃ st', run ops st0 = Ok st' ∧ step_ok st0 st'.
Proof.
  intros HD Hinit Hops.
  destruct (init_wf _ _ _ _ _ _ _ _ _ _ _ _ HD Hinit) as (Hlay & _).
  exact (run_step ops st0 Hlay (init_grads_wf _ _ _ _ _ _ _ _ _ _ _ _ Hinit) Hops).
Qed.

(** C10: [_grad_copy(param)] returns with [param.grad] set to [None] and
    leaves the gradients of the other parameters alone: under the layout
    invariants the call returns for every parameter of the optimizer whose
    pre-forward hook is not enabled, and every call that returns (also the
    one made by the post-backward hook, which copies when
    [greedy_grad_copy] is set) has released the gradient. *)
Theorem C10_grad_copy_releases_param_grad
    {T : Type} `{TensorElt T} `{Collectives T} `{!CollectivesOk T}
    (st : Optimizer T) (k : ParamKey) :
  layout_wf st → grads_wf st → is_Some (lookup_param st k) →
  hook_is_enabled k st = false →
  (∃ st', _grad_copy k st = Ok st'
     ∧ param_grad st' !! k = None
     ∧ ∀ k', k' ≠ k → param_grad st' !! k' = param_grad st !! k')
  ∧ (∀ st0 st', _grad_copy k st0 = Ok st' → param_grad st' !! k = None)
  ∧ (greedy_grad_copy (config st) = true →
     ∃ st', post_backward_hook k st = Ok st' ∧ param_grad st' !! k = None).
Proof.
  intros Hlay Hgr Hp Hflag. split_and!.
  - destruct (grad_copy_step k st Hlay Hgr Hp) as (st' & fs & Hrun & _ & Egrad & _).
    exists st'. split; [done|]. rewrite Egrad. split.
    + apply lookup_delete_eq.
    + intros k' Hne. by apply lookup_delete_ne.
  - intros st0 st' Hrun. unfold _grad_copy in Hrun.
    apply bind_Ok in Hrun as (s1 & _ & Hrun).
    apply bind_Ok in Hrun as (s2 & _ & Hrun).
    injection Hrun as <-. simpl. apply lookup_delete_eq.
  - intros Hgreedy.
    destruct (post_backward_hook_step k st Hlay Hgr (conj Hp Hflag))
      as (st' & Hrun & _ & Egrad).
    exists st'. split; [done|]. rewrite (Egrad Hgreedy). apply lookup_delete_eq.
Qed.

(** C10 at an optimizer with a gradient of ten elements. *)
Lemma C10_witness :
  ∃ st', _grad_copy (0%nat, 0%nat)
           (set_param_grad {[ (0%nat, 0%nat) := replicate 10 5 ]}
              (example_optimizer (example_config 32 64 2 0) [[replicate 10 7]]))
         = Ok st'
    ∧ param_grad st' !! (0%nat, 0%nat) = None.
Proof.
  destruct (C10_grad_copy_releases_param_grad
              (set_param_grad {[ (0%nat, 0%nat) := replicate 10 5 ]}
                 (example_optimizer (example_config 32 64 2 0) [[replicate 10 7]]))
              (0%nat, 0%nat)) as ((st' & Hrun & Hnone & _) & _).
  - apply (example_layout_wf 32 64 2 0); lia.
  - split; simpl.
    + intros bid gb Hb. by rewrite lookup_empty in Hb.
    + intros k g Hk. apply lookup_singleton_Some in Hk as (<- & <-).
      exists (replicate 10 7). split; reflexivity.
  - exists (replicate 10 7). reflexivity.
  - reflexivity.
  - exists st'. split; [exact Hrun|exact Hnone].
Defined.




(** C6: the constructor returns for every positive world size, and in
    every state reached from it by the operations, every bucket has the
    shard size [max(raw // A * A, A)], where [A = 128 // dtype_size] is the
    alignment and [raw] the integer [int(bucket_size / distributed_size)];
    this shard size is a multiple of [A], at least [A], and the bucket size
    is the shard size times the world size. *)
Theorem C6_shard_and_bucket_sizes
    {T : Type} `{TensorElt T} `{Collectives T} `{!CollectivesOk T}
    (pg : list (list (list T))) (d : dtype) (raw D r R pl : Z)
    (avg ogs ovp sp : bool) :
  0 < D →
  ∃ st0 : Optimizer T,
    __init__ pg d raw D r R avg ogs ovp sp pl = Ok st0
    ∧ alignment (config st0) = 128 / dtype_size d
    ∧ ∀ ops, Forall (op_ok st0) ops →
        ∃ st', run ops st0 = Ok st'
          ∧ config st' = config st0
          ∧ ∀ bid sb, state_buckets st' !! bid = Some sb →
              shard_size sb
              = Z.max (raw / alignment (config st0) * alignment (config st0))
                      (alignment (config st0))
              ∧ (alignment (config st0) | shard_size sb)
              ∧ alignment (config st0) ≤ shard_size sb
              ∧ bucket_size sb = shard_size sb * D
              ∧ shard_size sb = bucket_size sb / D.
Proof.
  intros HD. destruct (init_Ok (T:=T) pg d raw D r R avg ogs ovp sp pl) as (st0 & Hinit).
  exists st0. split; [done|].
  destruct (init_wf _ _ _ _ _ _ _ _ _ _ _ _ HD Hinit)
    as (Hlay & _ & _ & _ & _ & _ & _ & EA & ES & ED & _).
  split; [exact EA|]. intros ops Hops.
  destruct (init_run_wf _ _ _ _ _ _ _ _ _ _ _ st0 ops HD Hinit Hops)
    as (st' & Hrun & Hlay' & _ & Ec & _).
  exists st'. split; [done|]. split; [done|]. intros bid sb Hsb.
  destruct Hlay' as (_ & Hbs & _). destruct (Hbs _ _ Hsb) as (B1 & B2 & _).
  rewrite Ec in B1, B2. rewrite ED in B2. rewrite ES in B1.
  destruct (init_default_shard_size_spec d raw) as (s & _ & Hs & Hdiv & Hle).
  rewrite EA. fold (init_alignment d). rewrite <- Hs. rewrite <- Hs in B1.
  rewrite B2, B1. split; [done|]. split; [done|]. split; [done|].
  split; [done|]. rewrite Z.div_mul by lia. done.
Qed.

(** C6 for 16-bit gradients and two processes: shards of 960 elements. *)
Lemma C6_witness :
  ∃ st0 : Optimizer Z,
    __init__ [[replicate 100 0]] float16 1000 2 0 1 true true false true 2 = Ok st0
    ∧ ∃ st', run [OpInitParamState (0%nat, 0%nat)] st0 = Ok st'
        ∧ ∀ bid sb, state_buckets st' !! bid = Some sb →
            shard_size sb = 960 ∧ bucket_size sb = 1920.
Proof.
  destruct (C6_shard_and_bucket_sizes (T:=Z) [[replicate 100 0]] float16 1000 2 0 1 2
              true true false true) as (st0 & Hinit & EA & Hall); [lia|].
  exists st0. split; [exact Hinit|].
  destruct (Hall [OpInitParamState (0%nat, 0%nat)]) as (st' & Hrun & _ & Hb).
  - constructor; [|constructor]. simpl.
    vm_compute in Hinit. injection Hinit as <-. by eexists.
  - exists st'. split; [exact Hrun|]. intros bid sb Hsb.
    destruct (Hb bid sb Hsb) as (H1 & _ & _ & H4 & _).
    rewrite EA in H1. change (128 / dtype_size float16) with 64 in H1.
    change (Z.max (1000 / 64 * 64) 64) with 960 in H1. rewrite H4, H1. done.
Defined.

(** C9, as stated: with overlapped parameter synchronization, the
    pre-forward hook of a parameter that was never seen (it has no
    fragments) raises an error.  It returns silently. *)
Lemma C9_counterexample :
  ¬ (∀ (st : Optimizer Z) (k : ParamKey),
       overlap_param_sync (config st) = true →
       state_fragments st !! k = None →
       ∃ e, getattribute_with_pre_forward_hook k st = Raise e).
Proof.
  intros Hall.
  destruct (Hall (example_overlap true [[replicate 10 0]]) (0%nat, 0%nat))
    as (e & He); [reflexivity..|].
  vm_compute in He. discriminate.
Qed.

(** C9, amended: the read of a parameter that has no fragments yet runs the
    pre-forward hook, which returns without an error and only disables
    itself; the usage error is raised by the post-backward hook, when it is
    called for a parameter whose pre-forward hook is still enabled, that is
    before the parameter was read in the forward pass. *)
Theorem C9_hook_order_error
    {T : Type} `{TensorElt T} `{Collectives T} (st : Optimizer T) (k : ParamKey) :
  hook_is_enabled k st = true →
  post_backward_hook k st
  = Raise (RuntimeError
      "A parameter called its post-backward hook before its pre-forward hook. Please manually interact with the parameter before the forward pass (e.g. by calling data_ptr) or run DistributedFusedAdam with overlap_param_sync=False.")
  ∧ (state_fragments st !! k = None →
     pre_forward_hook k st = Ok st
     ∧ ∃ st', getattribute_with_pre_forward_hook k st = Ok st'
         ∧ hook_is_enabled k st' = false
         ∧ state_fragments st' = state_fragments st).
Proof.
  intros Hflag. split.
  - unfold post_backward_hook. by rewrite Hflag.
  - intros Hnone. split.
    + unfold pre_forward_hook. by rewrite Hnone.
    + unfold getattribute_with_pre_forward_hook. rewrite Hflag.
      unfold pre_forward_hook. simpl. rewrite Hnone.
      eexists. split; [reflexivity|]. split; [|done].
      unfold hook_is_enabled. simpl. by rewrite lookup_insert_eq.
Qed.

(** C9 at a parameter without fragments whose hook is enabled. *)
Lemma C9_witness :
  post_backward_hook (0%nat, 0%nat) (example_overlap true [[replicate 10 0]])
  = Raise (RuntimeError
      "A parameter called its post-backward hook before its pre-forward hook. Please manually interact with the parameter before the forward pass (e.g. by calling data_ptr) or run DistributedFusedAdam with overlap_param_sync=False.")
  ∧ pre_forward_hook (0%nat, 0%nat) (example_overlap true [[replicate 10 0]])
    = Ok (example_overlap true [[replicate 10 0]]).
Proof.
  destruct (C9_hook_order_error (example_overlap true [[replicate 10 0]])
              (0%nat, 0%nat)) as (Hraise & Hsilent).
  - reflexivity.
  - split; [exact Hraise|]. apply Hsilent. reflexivity.
Defined.




(** C8: with [pipeline_size = 1] and two buckets the saved dictionary is
    wrong.  All buckets share [bucket_buffers[0]], and the loops call
    [start_gather(bucket_id)] before [finish_gather(bucket_id - 1)], so the
    gather of bucket 1 overwrites the workspace before the values of bucket
    0 are copied out of it (in the stream order as well: the copy is queued
    on stream 0 after [stream.wait_stream(main_stream)]).  The dictionary
    then holds the values of parameter 1 for parameter 0, and loading it
    gives parameter 0 the values of parameter 1.  With [pipeline_size = 2]
    the same optimizer is saved and restored exactly. *)
Theorem C8_state_dict_pipeline_size_one :
  (∃ st world sd st2 st3,
     checkpoint_example 1 = Ok st
     ∧ _state_dict_v2 [st] = Ok (world, sd)
     ∧ local_state KeyParam <$> world
       = [[Some (replicate 32 1); Some (replicate 32 2)]]
     ∧ sd_param <$> sd_state sd !! 0%nat = Some (replicate 32 2)
     ∧ sd_param <$> sd_state sd !! 1%nat = Some (replicate 32 2)
     ∧ checkpoint_example 2 = Ok st2
     ∧ _load_state_dict_v2 sd st2 = Ok st3
     ∧ local_state KeyParam st3 = [Some (replicate 32 2); Some (replicate 32 2)])
  ∧ (∃ st world sd st3,
       checkpoint_example 2 = Ok st
       ∧ _state_dict_v2 [st] = Ok (world, sd)
       ∧ sd_param <$> sd_state sd !! 0%nat = Some (replicate 32 1)
       ∧ sd_param <$> sd_state sd !! 1%nat = Some (replicate 32 2)
       ∧ _load_state_dict_v2 sd st = Ok st3
       ∧ local_state KeyParam st3 = [Some (replicate 32 1); Some (replicate 32 2)]).
Proof.
  split.
  - eexists _, _, _, _, _.
    split; [vm_compute; reflexivity|].
    split; [vm_compute; reflexivity|].
    split; [vm_compute; reflexivity|].
    split; [vm_compute; reflexivity|].
    split; [vm_compute; reflexivity|].
    split; [vm_compute; reflexivity|].
    split; [vm_compute; reflexivity|].
    vm_compute; reflexivity.
  - eexists _, _, _, _.
    split; [vm_compute; reflexivity|].
    split; [vm_compute; reflexivity|].
    split; [vm_compute; reflexivity|].
    split; [vm_compute; reflexivity|].
    split; [vm_compute; reflexivity|].
    vm_compute; reflexivity.
Qed.

(** [_round_to_multiple]: for a positive [multiple] the result is the
    least multiple that is not below [number] when rounding up, and the
    greatest multiple that is not above [number] when rounding down; a
    multiple is returned as it is.  A zero [multiple] is a division by
    zero. *)
Theorem round_to_multiple_nearest (number multiple : Z) (round_up : bool) :
  (0 < multiple →
   ∃ r, _round_to_multiple number multiple round_up = Ok r
     ∧ (multiple | r)
     ∧ (if round_up then number ≤ r < number + multiple
        else r ≤ number < r + multiple)
     ∧ (∀ m, (multiple | m) →
          if round_up then number ≤ m → r ≤ m else m ≤ number → m ≤ r)
     ∧ ((multiple | number) → r = number))
  ∧ _round_to_multiple number 0 round_up = Raise ZeroDivisionError.
Proof.
  split; [|done].
  intros Hm. unfold _round_to_multiple.
  destruct (Z.eqb_spec multiple 0) as [->|_]; [lia|].
  eexists; split; [done|].
  assert (Hdiv : ∀ x, (multiple | x / multiple * multiple))
    by (intros x; by exists (x / multiple)).
  assert (Hlo : ∀ x, x - multiple < x / multiple * multiple ≤ x).
  { intros x. pose proof (Z.mod_pos_bound x multiple Hm).
    pose proof (Z.div_mod x multiple). lia. }
  split; [apply Hdiv|].
  assert (Hleast : ∀ x m, (multiple | m) → m ≤ x → m ≤ x / multiple * multiple).
  { intros x m [q ->] Hle.
    assert (q ≤ x / multiple) by (apply Z.div_le_lower_bound; lia). nia. }
  destruct round_up; simpl.
  - pose proof (Hlo (number + multiple - 1)) as Hb.
    destruct (Hdiv (number + multiple - 1)) as [q' Hq'].
    split; [|split].
    + revert Hb. generalize ((number + multiple - 1) `div` multiple * multiple). lia.
    + intros m [q ->] Hle. rewrite Hq' in *.
      assert (q' < q + 1) by (apply (Z.mul_lt_mono_pos_r multiple); lia).
      apply Z.mul_le_mono_nonneg_r; lia.
    + intros [q ->].
      replace (q * multiple + multiple - 1) with ((multiple - 1) + q * multiple) by lia.
      rewrite Z.div_add by lia. rewrite Z.div_small by lia. lia.
  - pose proof (Hlo number) as Hb.
    split; [|split].
    + revert Hb. generalize (number `div` multiple * multiple). lia.
    + intros m Hd Hle. by apply Hleast.
    + intros [q ->]. by rewrite Z.div_mul by lia.
Qed.

(** The rounding at alignment 32: 33 goes up to 64 and down to 32. *)
Lemma round_to_multiple_nearest_witness :
  ∃ r, _round_to_multiple 33 32 true = Ok r ∧ (32 | r) ∧ 33 ≤ r < 33 + 32.
Proof.
  destruct (round_to_multiple_nearest 33 32 true) as [Hr _].
  destruct Hr as (r & Hr & Hd & Hb & _); [lia|].
  exists r. by repeat split; try apply Hb.
Defined.

(** ** Packing of BF16 values and remainders *)
Lemma land_ones_16 x : Z.land x 0xFFFF = x `mod` 2 ^ 16.
Proof. change 0xFFFF with (Z.ones 16). by rewrite Z.land_ones. Qed.

Lemma of_int16_pair_add lo hi :
  of_int16_pair lo hi = lo `mod` 2 ^ 16 + hi `mod` 2 ^ 16 * 2 ^ 16.
Proof.
  unfold of_int16_pair. rewrite !land_ones_16, Z.shiftl_mul_pow2 by lia.
  pose proof (Z.mod_pos_bound lo (2 ^ 16) ltac:(lia)).
  pose proof (Z.mod_pos_bound hi (2 ^ 16) ltac:(lia)).
  rewrite <- Z.lxor_lor, <- Z.add_nocarry_lxor; [done| |].
  all: apply Z.bits_inj'; intros n Hn; rewrite Z.land_spec, Z.bits_0.
  all: destruct (decide (n < 16)).
  all: try (rewrite Z.mul_pow2_bits_low by lia; apply andb_false_r).
  all: rewrite (Z.bits_above_log2 (lo `mod` 2 ^ 16) n); [done|lia|].
  all: destruct (decide (lo `mod` 2 ^ 16 = 0)) as [->|]; [simpl; lia|].
  all: apply Z.log2_lt_pow2; [lia|].
  all: eapply Z.lt_le_trans; [apply H|apply Z.pow_le_mono_r; lia].
Qed.

Lemma int16_range x : - 2 ^ 15 ≤ int16 x < 2 ^ 15.
Proof.
  unfold int16. pose proof (Z.mod_pos_bound (x + 2 ^ 15) (2 ^ 16) ltac:(lia)). lia.
Qed.

Lemma int16_id x : - 2 ^ 15 ≤ x < 2 ^ 15 → int16 x = x.
Proof. intros Hx. unfold int16. rewrite Z.mod_small by lia. lia. Qed.

Lemma int16_mod x : int16 x `mod` 2 ^ 16 = x `mod` 2 ^ 16.
Proof.
  unfold int16.
  rewrite <- Zminus_mod_idemp_l.
  rewrite Z.mod_mod by lia.
  rewrite Zminus_mod_idemp_l. f_equal. lia.
Qed.

Lemma int16_of_mod x y : x `mod` 2 ^ 16 = y `mod` 2 ^ 16 → int16 x = int16 y.
Proof.
  intros E. unfold int16.
  rewrite <- (Zplus_mod_idemp_l x), <- (Zplus_mod_idemp_l y). by rewrite E.
Qed.

(** One element of the packed tensor. *)
Lemma bf16_rem_pack b r :
  - 2 ^ 15 ≤ b < 2 ^ 15 → - 2 ^ 15 ≤ r < 2 ^ 15 →
  let x := of_int16_pair r (int16 (b - (if r <? 0 then 1 else 0))) in
  0 ≤ x < 2 ^ 32
  ∧ x = (b * 2 ^ 16 + r) `mod` 2 ^ 32
  ∧ int16_view x 0 = r
  ∧ int16 (int16_view x 1 + (if r <? 0 then 1 else 0)) = b.
Proof.
  intros Hb Hr x. subst x. rewrite of_int16_pair_add, int16_mod.
  set (d := if r <? 0 then 1 else 0).
  assert (Hd : r `mod` 2 ^ 16 = r + d * 2 ^ 16).
  { subst d. destruct (Z.ltb_spec r 0).
    - symmetry. apply (Z.mod_unique_pos _ _ (-1)); lia.
    - rewrite Z.mod_small; lia. }
  pose proof (Z.mod_pos_bound (b - d) (2 ^ 16) ltac:(lia)) as Hh.
  assert (0 ≤ r + d * 2 ^ 16 < 2 ^ 16).
  { rewrite <- Hd. apply Z.mod_pos_bound. lia. }
  rewrite Hd.
  set (h := (b - d) `mod` 2 ^ 16) in *.
  assert (Hx : (b * 2 ^ 16 + r) `mod` 2 ^ 32 = r + d * 2 ^ 16 + h * 2 ^ 16).
  { symmetry. apply (Z.mod_unique_pos _ _ ((b - d) / 2 ^ 16)); [lia|].
    pose proof (Z.div_mod (b - d) (2 ^ 16) ltac:(lia)). fold h in H0. lia. }
  split; [lia|]. split; [done|]. unfold int16_view. split.
  - rewrite Z.mul_0_r, Z.shiftr_0_r.
    transitivity (int16 r); [|by apply int16_id]. apply int16_of_mod.
    replace (r + d * 2 ^ 16 + h * 2 ^ 16) with (r + (d + h) * 2 ^ 16) by lia.
    by rewrite Z.mod_add by lia.
  - rewrite Z.mul_1_r, Z.shiftr_div_pow2 by lia.
    replace (r + d * 2 ^ 16 + h * 2 ^ 16) with ((r + d * 2 ^ 16) + h * 2 ^ 16) by lia.
    rewrite Z.div_add, Z.div_small, Z.add_0_l by lia.
    transitivity (int16 b); [|by apply int16_id]. apply int16_of_mod.
    rewrite <- Zplus_mod_idemp_l, int16_mod. subst h.
    rewrite Z.mod_mod, Zplus_mod_idemp_l by lia. f_equal. lia.
Qed.

(** [_bf16_rem_to_fp32]: for tensors of equal sizes every element of the
    result is the 32-bit pattern of [bf16 * 2^16 + rem] (two's
    complement), so its low half is the remainder, and its high half is
    the BF16 pattern, less one when the remainder is negative: the BF16
    value and the remainder can both be read back.  Tensors of different
    sizes fail the assertion. *)
Theorem bf16_rem_to_fp32_packs (bf16 rem fp32 : list Z) :
  (length bf16 = length rem → length rem = length fp32 →
   Forall (λ b, - 2 ^ 15 ≤ b < 2 ^ 15) bf16 →
   Forall (λ r, - 2 ^ 15 ≤ r < 2 ^ 15) rem →
   ∃ out, _bf16_rem_to_fp32 bf16 rem fp32 = Passed out
     ∧ length out = length fp32
     ∧ ∀ i b r, bf16 !! i = Some b → rem !! i = Some r →
         ∃ x, out !! i = Some x
           ∧ 0 ≤ x < 2 ^ 32
           ∧ x = (b * 2 ^ 16 + r) `mod` 2 ^ 32
           ∧ int16_view x 0 = r
           ∧ int16 (int16_view x 1 + (if r <? 0 then 1 else 0)) = b)
  ∧ (¬ (length bf16 = length rem ∧ length rem = length fp32) →
     ∃ msg, _bf16_rem_to_fp32 bf16 rem fp32 = AssertionError msg).
Proof.
  split.
  - intros H1 H2 Hb Hr. unfold _bf16_rem_to_fp32.
    rewrite decide_True by done. eexists; split; [done|]. split.
    + rewrite !length_zip_with. lia.
    + intros i b r Hbi Hri.
      rewrite lookup_zip_with, Hri. simpl.
      rewrite lookup_zip_with, Hbi. simpl. rewrite Hri. simpl.
      eexists; split; [done|].
      apply bf16_rem_pack.
      * by eapply (Forall_lookup_1 _ _ _ _ Hb).
      * by eapply (Forall_lookup_1 _ _ _ _ Hr).
  - intros Hn. unfold _bf16_rem_to_fp32. rewrite decide_False by done. by eexists.
Qed.

(** The halves of -1.0 (BF16 pattern 0xBF80 = -16512) with remainder -1. *)
Lemma bf16_rem_to_fp32_packs_witness :
  ∃ out, _bf16_rem_to_fp32 [-16512] [-1] [0] = Passed out
    ∧ out = [0xBF7FFFFF].
Proof.
  destruct (bf16_rem_to_fp32_packs [-16512] [-1] [0]) as [Hp _].
  destruct Hp as (out & Hout & Hlen & Hel); [done|done| |  |].
  - repeat constructor; lia.
  - repeat constructor; lia.
  - exists out. split; [done|].
    destruct (Hel 0%nat (-16512) (-1) eq_refl eq_refl) as (x & Hx & _ & -> & _).
    destruct out as [|y [|]]; simpl in Hlen; try done.
    simpl in Hx. by injection Hx as ->.
Defined.

Lemma owner_exists c k id S ps pe bs be i :
  0 < S → 0 ≤ bs → be ≤ S * distributed_size c → pe - ps = be - bs →
  ps ≤ i < pe →
  let r := (i - ps + bs) / S in
  0 ≤ r < distributed_size c
  ∧ ∃ rg, shard_param_range
            (make_fragment (set_distributed_rank r c) k id S ps pe bs be) = Some rg
          ∧ in_range i rg.
Proof.
  intros HS Hbs Hbe Hlen Hi r.
  set (j := i - ps + bs) in *.
  pose proof (Z.div_mod j S ltac:(lia)) as Hj.
  pose proof (Z.mod_pos_bound j S HS) as Hm.
  fold r in Hj. set (m := j `mod` S) in *.
  assert (Hr : 0 ≤ r < distributed_size c).
  { split.
    - apply Z.div_pos; lia.
    - apply Z.div_lt_upper_bound; lia. }
  split; [done|].
  unfold make_fragment. simpl.
  set (sr := S * r) in *.
  destruct (_ <? _) eqn:E.
  - eexists. split; [reflexivity|]. unfold in_range. simpl.
    apply Z.ltb_lt in E. lia.
  - apply Z.ltb_ge in E. lia.
Qed.

Lemma owner_unique c k id S ps pe bs be i r rg :
  0 < S → 0 ≤ ps → pe - ps = be - bs →
  shard_param_range
    (make_fragment (set_distributed_rank r c) k id S ps pe bs be) = Some rg →
  in_range i rg →
  r = (i - ps + bs) / S ∧ ps ≤ i < pe.
Proof.
  intros HS Hps Hlen Hrg Hi.
  assert (Hloc : in_local_shard
                   (make_fragment (set_distributed_rank r c) k id S ps pe bs be) = true).
  { revert Hrg. unfold make_fragment. simpl. by case_match. }
  destruct (make_fragment_local (set_distributed_rank r c) k id S ps pe bs be
              ltac:(lia) Hps Hlen Hloc)
    as (s & e & _ & _ & Hsp & Hse & HeS & Hlo & Hhi & _).
  rewrite Hsp in Hrg. injection Hrg as <-. simpl in Hlo, Hhi, Hi.
  unfold in_range in Hi. simpl in Hi.
  set (sr := S * r) in *.
  split; [|lia].
  apply (Z.div_unique _ _ _ (i - ps + bs - sr)); [lia|]. subst sr. lia.
Qed.

Section Ownership.
Context {T : Type} `{TensorElt T}.
Implicit Types (st : Optimizer T).

Lemma fragment_at_own_rank st k fs f sb :
layout_wf st → state_fragments st !! k = Some fs → f ∈ fs →
state_buckets st !! bucket_id f = Some sb →
fragment_at_rank (config st) (distributed_rank (config st)) (shard_size sb) f = f.
Proof.
intros Hlay Hk Hf Hsb.
destruct (layout_fragment st k fs f Hlay Hk Hf)
  as (sb' & p & Hsb' & Hp & Hin & Hkey & Hbok & _).
assert (sb' = sb) as -> by congruence.
destruct Hbok as (_ & _ & _ & _ & _ & _ & _ & _ & B9).
rewrite Forall_forall in B9. destruct (B9 _ Hin) as (_ & _ & (Hshape & _)).
unfold fragment_at_rank.
replace (set_distributed_rank (distributed_rank (config st)) (config st))
  with (config st) by (by destruct (config st)).
by rewrite <- Hshape.
Qed.
End Ownership.

(** Every element of an initialized parameter is held by the shard of
    exactly one rank of the distributed process group: the element lies
    in one fragment of the parameter, and the shard ranges that the ranks
    [0 .. distributed_size - 1] compute for this fragment contain it for
    one rank only.  The fragment recorded by the optimizer is the one of
    its own rank. *)
Theorem every_element_has_one_owner
    {T : Type} `{TensorElt T} (st : Optimizer T) (k : ParamKey)
    (fs : list ParameterFragment) (p : list T) (i : Z) :
  layout_wf st → state_fragments st !! k = Some fs → lookup_param st k = Some p →
  0 ≤ i < Z.of_nat (length p) →
  (∃ f sb r,
     f ∈ fs ∧ state_buckets st !! bucket_id f = Some sb
     ∧ 0 ≤ r < distributed_size (config st)
     ∧ owns (config st) r (shard_size sb) f i
     ∧ ∀ f' sb' r',
         f' ∈ fs → state_buckets st !! bucket_id f' = Some sb' →
         owns (config st) r' (shard_size sb') f' i → f' = f ∧ r' = r)
  ∧ (∀ f sb, f ∈ fs → state_buckets st !! bucket_id f = Some sb →
       fragment_at_rank (config st) (distributed_rank (config st))
         (shard_size sb) f = f).
Proof.
  intros Hlay Hk Hp Hi. split.
  - pose proof Hlay as (Hc & Hbs & Hfm).
    destruct (Hfm _ _ Hk) as (p' & Hp' & (_ & Hch & _)).
    assert (p' = p) as -> by (unfold lookup_param in Hp; congruence).
    destruct (proj1 (chain_cover _ _ _ i Hch) Hi) as (rg & Hrg & Hin).
    apply list_elem_of_fmap in Hrg as (f & -> & Hf).
    destruct (layout_fragment st k fs f Hlay Hk Hf)
      as (sb & p' & Hsb & Hp'' & Hfin & Hkey & Hbok & P1 & P2 & P3 & R1 & R2 & R3 & Hsz).
    pose proof Hbok as (B1 & B2 & _).
    destruct Hc as (HA & HS & HD).
    unfold in_range in Hin.
    destruct (owner_exists (config st) (fragment_key f) (bucket_id f) (shard_size sb)
                (param_range f).1 (param_range f).2
                (bucket_range f).1 (bucket_range f).2 i)
      as (Hr & Hown); try lia.
    set (r := (i - (param_range f).1 + (bucket_range f).1) / shard_size sb) in *.
    exists f, sb, r. split; [done|]. split; [done|]. split; [done|].
    split; [exact Hown|].
    intros f' sb' r' Hf' Hsb' (rg' & Hrg' & Hin').
    destruct (layout_fragment st k fs f' Hlay Hk Hf')
      as (sb'' & p'' & Hsb'' & _ & _ & _ & Hbok' & P1' & P2' & P3' & R1' & R2' & R3' & Hsz').
    assert (sb'' = sb') as -> by congruence.
    pose proof Hbok' as (B1' & _).
    assert (HS' : 0 < shard_size sb') by lia.
    destruct (owner_unique _ _ _ _ _ _ _ _ _ _ _ HS' P1' Hsz' Hrg' Hin')
      as (Hr' & Hi').
    assert (f' = f) as ->.
    { apply list_elem_of_lookup in Hf as (j1 & Hj1).
      apply list_elem_of_lookup in Hf' as (j2 & Hj2).
      assert (j2 = j1) as ->; [|congruence].
      apply (chain_disjoint _ _ _ j2 j1 (param_range f') (param_range f) i Hch).
      - by rewrite list_lookup_fmap, Hj2.
      - by rewrite list_lookup_fmap, Hj1.
      - done.
      - done. }
    split; [done|]. assert (sb' = sb) as -> by congruence. done.
  - intros f sb Hf Hsb. by eapply fragment_at_own_rank.
Qed.

(** Ten elements over two ranks with shards of five elements: element 7
    belongs to rank 1. *)
Lemma every_element_has_one_owner_witness :
  ∃ st f sb,
    _init_param_state (0%nat, 0%nat)
      (example_optimizer (example_config 1 5 2 0) [[replicate 10 0]]) = Ok st
    ∧ state_fragments st !! (0%nat, 0%nat) = Some [f]
    ∧ state_buckets st !! bucket_id f = Some sb
    ∧ owns (config st) 1 (shard_size sb) f 7.
Proof.
  destruct (init_param_state_wf (0%nat, 0%nat)
              (example_optimizer (example_config 1 5 2 0) [[replicate 10 0]])
              (replicate 10 0)) as (st & Hst & Hwf & _).
  { apply example_layout_wf; lia. }
  { done. }
  vm_compute in Hst. injection Hst as <-.
  eexists _, _, _. split; [vm_compute; reflexivity|].
  split; [reflexivity|]. split; [reflexivity|].
  destruct (every_element_has_one_owner _ (0%nat, 0%nat) _ (replicate 10 0) 7 Hwf
              eq_refl eq_refl ltac:(simpl; lia))
    as ((f & sb & r & Hf & Hsb & Hr & Hown & _) & _).
  apply list_elem_of_singleton in Hf as ->. simpl in Hsb. injection Hsb as <-.
  simpl in Hown, Hr.
  destruct Hown as (rg & Hrg & Hin).
  assert (r = 1) as ->.
  { destruct (decide (r = 0)) as [->|]; [|lia].
    vm_compute in Hrg. injection Hrg as <-. unfold in_range in Hin. simpl in Hin. lia. }
  by exists rg.
Defined.

Section SameLayout.
Context {T : Type} `{TensorElt T}.
Implicit Types (c : Config) (b : StateBucket T) (bs : list (StateBucket T)).
Implicit Types (st : Optimizer T).

Lemma make_fragment_geometry c k i S ps pe s e :
fragment_geometry (make_fragment c k i S ps pe s e) = (k, i, (ps, pe), (s, e)).
Proof. by destruct k. Qed.

Lemma new_bucket_layout c1 c2 off nb1 :
default_shard_size c1 = default_shard_size c2 →
distributed_size c1 = distributed_size c2 →
new_bucket (T:=T) c1 off = Ok nb1 →
∃ nb2, new_bucket (T:=T) c2 off = Ok nb2 ∧ bucket_layout nb2 = bucket_layout nb1.
Proof.
intros HS HD. unfold new_bucket, StateBucket_init, zeros. rewrite <- HS, <- HD.
destruct (_ <? 0); [done|]. simpl. intros [= <-]. by eexists.
Qed.

Lemma split_iter_layout c1 c2 k n ps bs1 bs2 fr1 fr2 ps' bs1' fr1' :
alignment c1 = alignment c2 →
default_shard_size c1 = default_shard_size c2 →
distributed_size c1 = distributed_size c2 →
bucket_layout <$> bs1 = bucket_layout <$> bs2 →
fragment_geometry <$> fr1 = fragment_geometry <$> fr2 →
split_iter c1 k n ps bs1 fr1 = Ok (ps', bs1', fr1') →
∃ bs2' fr2',
  split_iter c2 k n ps bs2 fr2 = Ok (ps', bs2', fr2')
  ∧ bucket_layout <$> bs1' = bucket_layout <$> bs2'
  ∧ fragment_geometry <$> fr1' = fragment_geometry <$> fr2'.
Proof.
intros HA HS HD Hbs Hfr. unfold split_iter.
assert (Hlen : length bs1 = length bs2).
{ by rewrite <- (length_fmap bucket_layout bs1), Hbs, length_fmap. }
assert (Hlast : bucket_layout <$> last bs1 = bucket_layout <$> last bs2).
{ by rewrite <- !fmap_last, Hbs. }
destruct (last bs1) as [b1|], (last bs2) as [b2|]; try done.
simpl in Hlast. injection Hlast as L1 L2 L3 L4 L5 L6.
rewrite <- HA, <- L1, <- L3, <- L4, <- L5, <- Hlen.
destruct (_round_to_multiple _ _ _) as [start| |]; simpl; try done.
destruct (_ || _).
- intros Hnb. apply bind_Ok in Hnb as (nb1 & Hnb1 & [= <- <- <-]).
  destruct (new_bucket_layout c1 c2 _ nb1 HS HD Hnb1) as (nb2 & -> & Hl).
  simpl. eexists _, _. split; [done|]. split; [|done].
  rewrite !fmap_app. simpl. by rewrite Hbs, Hl.
- intros [= <- <- <-]. eexists _, _. split; [done|]. split.
  + rewrite !list_fmap_insert, Hbs. f_equal.
    unfold bucket_layout. simpl. rewrite !fmap_app. simpl.
    rewrite !make_fragment_geometry. by rewrite L1, L2, L4, L5, L6.
  + rewrite !fmap_app. simpl. by rewrite !make_fragment_geometry, Hfr.
Qed.

Lemma split_param_layout c1 c2 k n fuel :
alignment c1 = alignment c2 →
default_shard_size c1 = default_shard_size c2 →
distributed_size c1 = distributed_size c2 →
∀ ps bs1 bs2 fr1 fr2 bs1' fr1',
  bucket_layout <$> bs1 = bucket_layout <$> bs2 →
  fragment_geometry <$> fr1 = fragment_geometry <$> fr2 →
  split_param fuel c1 k n ps bs1 fr1 = Ok (bs1', fr1') →
  ∃ bs2' fr2',
    split_param fuel c2 k n ps bs2 fr2 = Ok (bs2', fr2')
    ∧ bucket_layout <$> bs1' = bucket_layout <$> bs2'
    ∧ fragment_geometry <$> fr1' = fragment_geometry <$> fr2'.
Proof.
intros HA HS HD. induction fuel as [|fuel IH]; intros ps bs1 bs2 fr1 fr2 bs1' fr1' Hbs Hfr;
  simpl; destruct (negb (ps <? n)).
- intros [= <- <-]. by eexists _, _.
- done.
- intros [= <- <-]. by eexists _, _.
- intros Hrun. apply bind_Ok in Hrun as ([[ps1 bsa] fra] & Hit & Hrun).
  destruct (split_iter_layout c1 c2 k n ps bs1 bs2 fr1 fr2 ps1 bsa fra
              HA HS HD Hbs Hfr Hit) as (bsb & frb & -> & Hbs' & Hfr').
  simpl. by eapply IH.
Qed.

Lemma init_main_params_layout (p : list T) frags :
∀ bs bs', init_main_params p bs frags = Ok bs' →
  bucket_layout <$> bs' = bucket_layout <$> bs.
Proof.
induction frags as [|f frags IH]; intros bs bs'; simpl.
- by intros [= <-].
- intros Hrun. apply bind_Ok in Hrun as (bs1 & Hone & Hrun).
  rewrite (IH _ _ Hrun). clear IH Hrun. unfold init_main_param in Hone.
  destruct (in_local_shard f); [|by injection Hone as <-].
  destruct (bs !! bucket_id f) as [b|] eqn:Hb; [|done].
  destruct (shard_param_range f) as [[]|]; [|done].
  destruct (shard_range f) as [[]|]; [|done].
  destruct (params_shard b); [|done].
  apply bind_Ok in Hone as (ps' & _ & [= <-]).
  rewrite list_fmap_insert. apply list_insert_id.
  by rewrite list_lookup_fmap, Hb.
Qed.

Lemma ensure_bucket_layout c1 c2 bs1 bs2 bs1' :
default_shard_size c1 = default_shard_size c2 →
distributed_size c1 = distributed_size c2 →
bucket_layout <$> bs1 = bucket_layout <$> bs2 →
ensure_bucket c1 bs1 = Ok bs1' →
∃ bs2', ensure_bucket c2 bs2 = Ok bs2'
  ∧ bucket_layout <$> bs1' = bucket_layout <$> bs2'.
Proof.
intros HS HD Hbs. unfold ensure_bucket.
destruct bs1 as [|b1 bs1], bs2 as [|b2 bs2]; try done.
- intros Hnb. apply bind_Ok in Hnb as (nb1 & Hnb1 & [= <-]).
  destruct (new_bucket_layout c1 c2 _ nb1 HS HD Hnb1) as (nb2 & -> & Hl).
  simpl. eexists. split; [done|]. simpl. by rewrite Hl.
- intros [= <-]. by eexists.
Qed.

Lemma same_layout_lookup_param st1 st2 k :
same_layout st1 st2 →
length <$> lookup_param st1 k = length <$> lookup_param st2 k.
Proof.
intros (_ & _ & _ & Hpg & _). unfold lookup_param.
assert (E : ∀ pg : list (list (list T)),
          length <$> (pg !! k.1 ≫= λ grp, grp !! k.2)
          = param_shapes pg !! k.1 ≫= λ grp, grp !! k.2).
{ intros pg. unfold param_shapes. rewrite list_lookup_fmap.
  destruct (pg !! k.1) as [grp|]; simpl; [|done].
  by rewrite list_lookup_fmap. }
by rewrite !E, Hpg.
Qed.

Lemma init_param_state_layout k st1 st2 st1' st2' :
same_layout st1 st2 →
_init_param_state k st1 = Ok st1' → _init_param_state k st2 = Ok st2' →
same_layout st1' st2'.
Proof.
intros Hsame Hrun1 Hrun2.
pose proof (same_layout_lookup_param st1 st2 k Hsame) as Hlen.
destruct Hsame as (HA & HS & HD & Hpg & Hbs & Hfm).
assert (Hk : fragments_geometry (state_fragments st1) !! k
             = fragments_geometry (state_fragments st2) !! k) by (by rewrite Hfm).
unfold fragments_geometry in Hk. rewrite !lookup_fmap in Hk.
unfold _init_param_state in Hrun1, Hrun2.
destruct (state_fragments st1 !! k) as [fs1|] eqn:E1,
         (state_fragments st2 !! k) as [fs2|] eqn:E2; try done.
{ injection Hrun1 as <-. injection Hrun2 as <-. done. }
destruct (lookup_param st1 k) as [p1|], (lookup_param st2 k) as [p2|]; try done.
simpl in Hlen. injection Hlen as Hlen.
apply bind_Ok in Hrun1 as (bsa & Hens & Hrun1).
apply bind_Ok in Hrun1 as ([bsb fra] & Hsplit & Hrun1).
apply bind_Ok in Hrun1 as (bsc & Hmain & [= <-]).
destruct (ensure_bucket_layout _ _ _ _ _ HS HD Hbs Hens) as (bsa2 & Hens2 & Hla).
rewrite Hens2 in Hrun2. simpl in Hrun2.
assert (Hnil : fragment_geometry <$> @nil ParameterFragment
               = fragment_geometry <$> @nil ParameterFragment) by done.
destruct (split_param_layout _ _ k _ _ HA HS HD _ _ _ _ _ _ _ Hla Hnil Hsplit)
  as (bsb2 & fra2 & Hsplit2 & Hlb & Hfr).
rewrite <- Hlen, Hsplit2 in Hrun2. simpl in Hrun2.
apply bind_Ok in Hrun2 as (bsc2 & Hmain2 & [= <-]).
assert (Hlc : bucket_layout <$> bsc = bucket_layout <$> bsc2).
{ transitivity (bucket_layout <$> bsb).
  - destruct (store_params (config st1)); [|by injection Hmain as <-].
    by eapply init_main_params_layout.
  - rewrite Hlb. symmetry.
    destruct (store_params (config st2)); [|by injection Hmain2 as <-].
    by eapply init_main_params_layout. }
split_and!; try done. simpl. unfold fragments_geometry in *.
by rewrite !fmap_insert, Hfm, Hfr.
Qed.
End SameLayout.

(** The ranks of a process group compute the same bucket layout.
    Optimizers that are constructed with the same arguments except for the
    rank (and the option [store_params]) have the same layout, and
    [_init_param_state] for the same parameter keeps the layouts of two
    optimizers the same: on every rank the parameter gets fragments with
    the same [param_range], [bucket_range] and [bucket_id], in buckets of
    the same sizes.  Only the shard ranges depend on the rank. *)
Theorem layout_is_rank_independent {T : Type} `{TensorElt T} :
  (∀ (pg : list (list (list T))) d raw D r1 r2 R avg ogs ops sp1 sp2 pl st1 st2,
     __init__ pg d raw D r1 R avg ogs ops sp1 pl = Ok st1 →
     __init__ pg d raw D r2 R avg ogs ops sp2 pl = Ok st2 →
     same_layout st1 st2)
  ∧ (∀ (st1 st2 : Optimizer T) (k : ParamKey),
       same_layout st1 st2 → layout_wf st1 → layout_wf st2 →
       is_Some (lookup_param st1 k) →
       hook_is_enabled k st1 = false → hook_is_enabled k st2 = false →
       ∃ st1' st2',
         _init_param_state k st1 = Ok st1'
         ∧ _init_param_state k st2 = Ok st2'
         ∧ same_layout st1' st2'
         ∧ fragments_geometry (state_fragments st1') !! k
           = fragments_geometry (state_fragments st2') !! k).
Proof.
  split.
  - intros pg d raw D r1 r2 R avg ogs ops sp1 sp2 pl st1 st2 H1 H2.
    unfold __init__ in H1, H2.
    destruct (init_default_shard_size d raw) as [S| |]; try done.
    simpl in H1, H2. injection H1 as <-. injection H2 as <-. by split_and!.
  - intros st1 st2 k Hsame Hwf1 Hwf2 (p1 & Hp1) _ _.
    pose proof (same_layout_lookup_param st1 st2 k Hsame) as Hlen.
    rewrite Hp1 in Hlen. destruct (lookup_param st2 k) as [p2|] eqn:Hp2; [|done].
    destruct (init_param_state_wf k st1 p1 Hwf1 Hp1) as (st1' & Hrun1 & _).
    destruct (init_param_state_wf k st2 p2 Hwf2 Hp2) as (st2' & Hrun2 & _).
    exists st1', st2'. split; [done|]. split; [done|].
    pose proof (init_param_state_layout k st1 st2 st1' st2' Hsame Hrun1 Hrun2) as Hs.
    split; [done|].
    destruct Hs as (_ & _ & _ & _ & _ & Hfm). by rewrite Hfm.
Qed.

(** Ranks 0 and 1 of two processes place a parameter of 40 elements in
    the same way. *)
Lemma layout_is_rank_independent_witness :
  ∃ st1 st2 st1' st2' : Optimizer Z,
    __init__ [[replicate 40 1]] float32 32 2 0 1 true true false true 2 = Ok st1
    ∧ __init__ [[replicate 40 1]] float32 32 2 1 1 true true false true 2 = Ok st2
    ∧ _init_param_state (0%nat, 0%nat) st1 = Ok st1'
    ∧ _init_param_state (0%nat, 0%nat) st2 = Ok st2'
    ∧ same_layout st1' st2'.
Proof.
  destruct (init_Ok (T:=Z) [[replicate 40 1]] float32 32 2 0 1 true true false true 2)
    as (st1 & H1).
  destruct (init_Ok (T:=Z) [[replicate 40 1]] float32 32 2 1 1 true true false true 2)
    as (st2 & H2).
  destruct (layout_is_rank_independent (T:=Z)) as (Hinit & Hstep).
  pose proof (Hinit _ _ _ _ _ _ _ _ _ _ _ _ _ _ _ H1 H2) as Hsame.
  assert (HD : 0 < 2) by lia.
  destruct (init_wf _ _ _ _ _ _ _ _ _ _ _ _ HD H1) as (Hwf1 & _ & _ & Hpg1 & _).
  destruct (init_wf _ _ _ _ _ _ _ _ _ _ _ _ HD H2) as (Hwf2 & _).
  destruct (Hstep st1 st2 (0%nat, 0%nat) Hsame Hwf1 Hwf2)
    as (st1' & st2' & R1 & R2 & Hs & _).
  { unfold lookup_param. rewrite Hpg1. by eexists. }
  { unfold __init__ in H1. simpl in H1. by injection H1 as <-. }
  { unfold __init__ in H2. simpl in H2. by injection H2 as <-. }
  by exists st1, st2, st1', st2'.
Defined.

(** [_init_param_state] returns for every parameter of the optimizer and
    only adds to the layout: the fragments recorded for other parameters
    stay as they are, every bucket keeps its sizes, its moment shards and
    its earlier fragments, buckets are only appended, and the gradient
    state, the parameter buckets and the step counter are not touched.  A
    second call for the same parameter changes nothing.  (The pre-forward
    hook of the parameter is not enabled.) *)
Theorem init_param_state_appends
    {T : Type} `{TensorElt T} (k : ParamKey) (st : Optimizer T) :
  layout_wf st → is_Some (lookup_param st k) → hook_is_enabled k st = false →
  ∃ st', _init_param_state k st = Ok st'
    ∧ layout_wf st'
    ∧ is_Some (state_fragments st' !! k)
    ∧ (∀ k' fs, state_fragments st !! k' = Some fs →
         state_fragments st' !! k' = Some fs)
    ∧ buckets_extend (state_buckets st) (state_buckets st')
    ∧ (length (state_buckets st) ≤ length (state_buckets st'))%nat
    ∧ config st' = config st ∧ param_groups st' = param_groups st
    ∧ param_grad st' = param_grad st
    ∧ _grads_buckets st' = _grads_buckets st
    ∧ _params_buckets st' = _params_buckets st
    ∧ state_step st' = state_step st
    ∧ _init_param_state k st' = Ok st'.
Proof.
  intros Hwf (p & Hp) _.
  destruct (init_param_state_wf k st p Hwf Hp)
    as (st' & Hrun & Hwf' & Hk & Hc & Hpg & Hg & Hh & Hgb & Hl & Hs & Hpb & Hext & Hfr).
  exists st'. split_and!; try done.
  - destruct (decide (length (state_buckets st) ≤ length (state_buckets st'))%nat)
      as [|Hn]; [done|].
    destruct (lookup_lt_is_Some_2 (state_buckets st) (length (state_buckets st')))
      as (b & Hb); [lia|].
    destruct (Hext _ _ Hb) as (b' & Hb' & _).
    apply lookup_lt_Some in Hb'. lia.
  - destruct Hk as (fs & Hfs). unfold _init_param_state. by rewrite Hfs.
Qed.

(** A second parameter after a first one in buckets of 64 elements. *)
Lemma init_param_state_appends_witness :
  ∃ st1 st2,
    _init_param_state (0%nat, 0%nat)
      (example_optimizer (example_config 32 64 1 0)
         [[replicate 40 1; replicate 40 2]]) = Ok st1
    ∧ _init_param_state (0%nat, 1%nat) st1 = Ok st2
    ∧ state_fragments st2 !! (0%nat, 0%nat) = state_fragments st1 !! (0%nat, 0%nat)
    ∧ (length (state_buckets st1) ≤ length (state_buckets st2))%nat.
Proof.
  destruct (init_param_state_wf (0%nat, 0%nat)
              (example_optimizer (example_config 32 64 1 0)
                 [[replicate 40 1; replicate 40 2]]) (replicate 40 1))
    as (st1 & H1 & Hwf1 & (fs & Hfs) & _ & Hpg & _ & Hfl & _).
  { apply example_layout_wf; lia. }
  { done. }
  destruct (init_param_state_appends (0%nat, 1%nat) st1 Hwf1)
    as (st2 & H2 & _ & _ & Hkeep & _ & Hlen & _).
  { unfold lookup_param. rewrite Hpg. by eexists. }
  { unfold hook_is_enabled. by rewrite Hfl. }
  exists st1, st2. split; [done|]. split; [done|]. split; [|done].
  transitivity (Some fs); [by apply Hkeep|done].
Defined.

Section SliceFacts.
Context {T : Type} `{TensorElt T}.

Lemma tensor_slice_lookup (t : list T) (a b : Z) (i : nat) :
0 ≤ a → a ≤ b → b ≤ Z.of_nat (length t) →
tensor_slice t a b !! i
= if decide (Z.of_nat i < b - a) then t !! (Z.to_nat a + i)%nat else None.
Proof.
intros. unfold tensor_slice. rewrite slice_bounds_in by done.
destruct (decide _).
- rewrite lookup_take_lt by lia. by rewrite lookup_drop.
- by rewrite lookup_take_ge by lia.
Qed.

Lemma tensor_slice_set_lookup (t v : list T) (a b : Z) (j : nat) :
0 ≤ a → a ≤ b → b ≤ Z.of_nat (length t) → length v = Z.to_nat (b - a) →
tensor_slice_set t a b v !! j
= if decide (Z.of_nat j < a) then t !! j
  else if decide (Z.of_nat j < b) then v !! (j - Z.to_nat a)%nat
  else t !! j.
Proof.
intros Ha Hab Hb Hv. unfold tensor_slice_set. rewrite slice_bounds_in by done.
assert (Hlt : length (take (Z.to_nat a) t) = Z.to_nat a)
  by (rewrite length_take; lia).
destruct (decide (Z.of_nat j < a)).
- rewrite lookup_app_l by lia. by rewrite lookup_take_lt by lia.
- rewrite lookup_app_r by lia. rewrite Hlt.
  destruct (decide (Z.of_nat j < b)).
  + by rewrite lookup_app_l by lia.
  + rewrite lookup_app_r by lia. rewrite lookup_drop, Hv. f_equal. lia.
Qed.

Lemma tensor_slice_set_same (t v : list T) (a b : Z) :
0 ≤ a → a ≤ b → b ≤ Z.of_nat (length t) → length v = Z.to_nat (b - a) →
tensor_slice (tensor_slice_set t a b v) a b = v.
Proof.
intros Ha Hab Hb Hv. apply list_eq. intros i.
rewrite tensor_slice_lookup; try done;
  [|by rewrite tensor_slice_set_length].
destruct (decide _).
- rewrite tensor_slice_set_lookup by done.
  rewrite decide_False by lia. rewrite decide_True by lia. f_equal. lia.
- symmetry. apply lookup_ge_None. lia.
Qed.

Lemma tensor_slice_set_other (t v : list T) (a b c d : Z) :
0 ≤ a → a ≤ b → b ≤ Z.of_nat (length t) → length v = Z.to_nat (b - a) →
0 ≤ c → c ≤ d → d ≤ Z.of_nat (length t) →
d ≤ a ∨ b ≤ c →
tensor_slice (tensor_slice_set t a b v) c d = tensor_slice t c d.
Proof.
intros Ha Hab Hb Hv Hc Hcd Hd Hsep. apply list_eq. intros i.
rewrite !tensor_slice_lookup; try done;
  [|by rewrite tensor_slice_set_length].
destruct (decide _); [|done].
rewrite tensor_slice_set_lookup by done.
destruct Hsep.
- by rewrite decide_True by lia.
- rewrite decide_False by lia. by rewrite decide_False by lia.
Qed.

(** The length of a tensor does not change when a slice is written. *)
Lemma slice_copy_length (t src t' : list T) (a b : Z) :
slice_copy_ t a b src = Ok t' → length t' = length t.
Proof.
unfold slice_copy_. intros Hrun. apply bind_Ok in Hrun as (v & Hv & [= <-]).
assert (Hlen : length v = length (tensor_slice t a b)).
{ unfold broadcast_to in Hv. destruct (decide _) as [E|_].
  - by injection Hv as <-.
  - destruct src as [|x [|]]; try done. injection Hv as <-.
    by rewrite length_replicate. }
unfold tensor_slice in Hlen. unfold tensor_slice_set.
destruct (slice_bounds (length t) a b) as [off cnt] eqn:Hsb.
assert (off + cnt ≤ length t)%nat.
{ unfold slice_bounds, slice_index in Hsb. injection Hsb as <- <-.
  destruct (Z.ltb_spec a 0), (Z.ltb_spec b 0); lia. }
rewrite length_take, length_drop in Hlen.
rewrite !length_app, length_take, length_drop, Hlen. lia.
Qed.
End SliceFacts.

Lemma ranges_sorted_lookup_le lo rs hi j1 j2 r1 r2 :
  ranges_sorted lo rs hi → rs !! j1 = Some r1 → rs !! j2 = Some r2 →
  (j1 < j2)%nat → r1.2 ≤ r2.1.
Proof.
  revert lo j1 j2. induction rs as [|r rs IH]; intros lo j1 j2 Hs H1 H2 Hlt; [done|].
  destruct Hs as (? & ? & Hs).
  destruct j2 as [|j2]; [lia|]. simpl in H2.
  destruct j1 as [|j1]; simpl in H1.
  - injection H1 as <-. apply list_elem_of_lookup_2 in H2.
    destruct (ranges_sorted_bounds _ _ _ _ Hs H2). lia.
  - eapply IH; eauto. lia.
Qed.

Section MainParamsMirror.
Context {T : Type} `{TensorElt T}.
Implicit Types (c : Config) (b : StateBucket T) (bs : list (StateBucket T)).
Implicit Types (st : Optimizer T).

Lemma shard_ready_copy_ready c p bs g : shard_ready c p bs g → copy_ready c p bs g.
Proof. intros (b & t & ? & ? & ? & ? & ? & ? & ?). exists b. split_and!; eauto. Qed.

Lemma shard_ready_equiv c p bs bs' g :
Forall2 shard_equiv bs bs' → shard_ready c p bs g → shard_ready c p bs' g.
Proof.
intros He (b & t & Hb & HS & Hs & H0 & Hp & Ht & Hl).
destruct (Forall2_lookup_l _ _ _ _ _ He Hb) as (b' & Hb' & Heq).
destruct (shard_equiv_fields _ _ Heq) as (_ & F2 & _).
destruct Heq as (_ & Hlen). rewrite Ht in Hlen. simpl in Hlen.
destruct (params_shard b') as [t'|] eqn:Ht'; simpl in Hlen; [|discriminate].
injection Hlen as Hlen.
exists b', t'. unfold fragment_shape_ok in *. rewrite F2.
destruct Hs as (Hs1 & Hs2 & Hs3).
split_and!; try done; lia.
Qed.

(** One copy into the parameter shard. *)
Lemma init_main_param_copy c p bs g :
shard_ready c p bs g → in_local_shard g = true →
∃ b t s e ps pe,
  bs !! bucket_id g = Some b ∧ params_shard b = Some t
  ∧ length t = Z.to_nat (default_shard_size c)
  ∧ shard_range g = Some (s, e) ∧ shard_param_range g = Some (ps, pe)
  ∧ 0 ≤ s ∧ s < e ∧ e ≤ default_shard_size c
  ∧ 0 ≤ ps ∧ pe ≤ Z.of_nat (length p) ∧ pe - ps = e - s
  ∧ init_main_param p bs g
    = Ok (<[bucket_id g :=
              set_params_shard
                (Some (tensor_slice_set t s e (tensor_slice p ps pe))) b]> bs).
Proof.
intros (b & t & Hb & HS & (Hf & Hps & Hlen) & H0 & Hp & Ht & Hl) Eloc.
unfold init_main_param. rewrite Eloc, Hb.
rewrite Hf in Eloc.
destruct (make_fragment_local c (fragment_key g) (bucket_id g) (shard_size b)
            (param_range g).1 (param_range g).2
            (bucket_range g).1 (bucket_range g).2 H0 ltac:(lia) Hlen Eloc)
  as (s & e & Hs1 & Hs2 & Hs3 & Hse & HeS & Hlo & Hhi & _).
rewrite <- Hf in Hs1, Hs3. rewrite Hs3, Hs1, Ht.
rewrite slice_copy_Ok; try lia.
- simpl. eexists b, t, s, e, _, _. rewrite <- HS.
  split_and!; try done; try lia.
- rewrite tensor_slice_length; lia.
Qed.

Lemma init_main_param_holds c p bs g bs' :
shard_ready c p bs g → init_main_param p bs g = Ok bs' →
shard_holds bs' g p
∧ ∀ h v, shard_holds bs h v → shard_separate c g h → shard_holds bs' h v.
Proof.
intros Hr Hrun. destruct (in_local_shard g) eqn:Eloc.
- destruct (init_main_param_copy c p bs g Hr Eloc)
    as (b & t & s & e & ps & pe & Hb & Ht & Hl & Hs & Hp & B1 & B2 & B3
        & P1 & P2 & P3 & Hres).
  rewrite Hres in Hrun. injection Hrun as <-.
  assert (Hlt : (bucket_id g < length bs)%nat) by (by eapply lookup_lt_Some).
  assert (Hsl : length (tensor_slice p ps pe) = Z.to_nat (e - s)).
  { rewrite tensor_slice_length; lia. }
  split.
  + intros b' sh ps' pe' ss se Hb' Hsh Hp' Hs'.
    rewrite list_lookup_insert_eq in Hb' by done. injection Hb' as <-.
    simpl in Hsh. injection Hsh as <-.
    rewrite Hp in Hp'. rewrite Hs in Hs'. injection Hp' as <- <-.
    injection Hs' as <- <-.
    apply tensor_slice_set_same; lia.
  + intros h v Hh Hsep b' sh ps' pe' ss se Hb' Hsh Hp' Hs'.
    destruct (decide (bucket_id h = bucket_id g)) as [E|E].
    * destruct Hsep as [|Hsep]; [done|].
      destruct (Hsep _ _ _ _ Hs Hs') as (X1 & X2 & X3 & X4).
      rewrite E, list_lookup_insert_eq in Hb' by done. injection Hb' as <-.
      simpl in Hsh. injection Hsh as <-.
      rewrite tensor_slice_set_other; try lia.
      eapply Hh; eauto. by rewrite E.
    * rewrite list_lookup_insert_ne in Hb' by done. by eapply Hh.
- unfold init_main_param in Hrun. rewrite Eloc in Hrun. injection Hrun as <-.
  split; [|done].
  intros b sh ps pe ss se Hb Hsh Hp Hs.
  destruct Hr as (b0 & t & _ & _ & (Hf & _) & _).
  rewrite Hf in Eloc, Hs. unfold make_fragment in Eloc, Hs. simpl in Eloc, Hs.
  by rewrite Eloc in Hs.
Qed.

Lemma init_main_params_holds c p frags :
∀ bs bs',
  Forall (shard_ready c p bs) frags → NoDup (bucket_id <$> frags) →
  init_main_params p bs frags = Ok bs' →
  (∀ g, g ∈ frags → shard_holds bs' g p)
  ∧ (∀ h v, shard_holds bs h v → (∀ g, g ∈ frags → shard_separate c g h) →
       shard_holds bs' h v).
Proof.
induction frags as [|g frags IH]; intros bs bs' Hall Hnd Hrun; simpl in Hrun.
- injection Hrun as <-. split; [|done]. intros g Hg. by apply elem_of_nil in Hg.
- apply Forall_cons in Hall as (Hg & Hall).
  rewrite fmap_cons in Hnd. apply NoDup_cons in Hnd as (Hnin & Hnd).
  apply bind_Ok in Hrun as (bs1 & Hone & Hrun).
  destruct (init_main_param_Ok c p bs g (shard_ready_copy_ready _ _ _ _ Hg))
    as (bs1' & Hone' & Heq).
  assert (bs1' = bs1) as -> by congruence.
  destruct (init_main_param_holds c p bs g bs1 Hg Hone) as (Hnew & Hold).
  destruct (IH bs1 bs') as (IH1 & IH2); try done.
  { eapply Forall_impl; [exact Hall|]. intros g'. by apply shard_ready_equiv. }
  split.
  + intros g' Hg'. apply elem_of_cons in Hg' as [->|Hg']; [|by apply IH1].
    apply IH2; [done|]. intros g' Hg'. left. intros E. apply Hnin.
    rewrite E. apply list_elem_of_fmap. by exists g'.
  + intros h v Hh Hsep. apply IH2.
    * apply Hold; [done|]. apply Hsep. by left.
    * intros g' Hg'. apply Hsep. by right.
Qed.

(** The lengths of the parameter shards do not change. *)
Lemma init_main_params_sized (p : list T) frags :
∀ bs bs', init_main_params p bs frags = Ok bs' →
  (λ b, length <$> params_shard b) <$> bs'
  = (λ b, length <$> params_shard b) <$> bs.
Proof.
induction frags as [|f frags IH]; intros bs bs'; simpl.
- by intros [= <-].
- intros Hrun. apply bind_Ok in Hrun as (bs1 & Hone & Hrun).
  rewrite (IH _ _ Hrun). clear IH Hrun. unfold init_main_param in Hone.
  destruct (in_local_shard f); [|by injection Hone as <-].
  destruct (bs !! bucket_id f) as [b|] eqn:Hb; [|done].
  destruct (shard_param_range f) as [[]|]; [|done].
  destruct (shard_range f) as [[]|]; [|done].
  destruct (params_shard b) as [t|] eqn:Ht; [|done].
  apply bind_Ok in Hone as (ps' & Hcp & [= <-]).
  rewrite list_fmap_insert. apply list_insert_id.
  rewrite list_lookup_fmap, Hb. simpl. rewrite Ht. simpl.
  by rewrite (slice_copy_length _ _ _ _ _ Hcp).
Qed.

(** The loop of the mapper leaves the parameter shards of the buckets as
  they are. *)
Lemma split_param_shards_kept c k n fuel ps bs fr bs' fr' :
0 < alignment c →
split_param fuel c k n ps bs fr = Ok (bs', fr') →
∀ i b, bs !! i = Some b →
  ∃ b', bs' !! i = Some b' ∧ params_shard b' = params_shard b.
Proof.
intros HA Hrun.
destruct (split_param_invariant
            (λ _ bs1 _, ∀ i b, bs !! i = Some b →
               ∃ b', bs1 !! i = Some b' ∧ params_shard b' = params_shard b)
            c k n fuel) with (ps := ps) (bs := bs) (fr := fr)
            (bs' := bs') (fr' := fr') as (? & _ & Hk); try done.
- intros ps0 bs0 fr0 ps1 bs1 fr1 Hinv _ Hit i b Hi.
  destruct (Hinv _ _ Hi) as (b0 & Hb0 & Hsh).
  destruct (last bs0) as [bl|] eqn:Hl;
    [|unfold split_iter in Hit; rewrite Hl in Hit; discriminate].
  destruct (split_iter_cases c k n ps0 bs0 fr0 bl HA Hl)
    as (start & Hr & Hstart & Hdiv & Hcase). simpl in Hcase.
  destruct (last_is_Some_lookup _ _ Hl) as (Hlb & Hlen).
  destruct (_ || _).
  + rewrite Hcase in Hit. apply bind_Ok in Hit as (nb & _ & Hit).
    injection Hit as <- <- <-. exists b0. split; [|done].
    by apply lookup_app_l_Some.
  + rewrite Hcase in Hit. injection Hit as <- <- <-.
    destruct (decide (i = (length bs0 - 1)%nat)) as [->|Hne].
    * rewrite Hlb in Hb0. injection Hb0 as <-. eexists.
      split; [apply list_lookup_insert_eq; lia|]. done.
    * exists b0. split; [|done]. by rewrite list_lookup_insert_ne.
- intros i b Hi. by exists b.
Qed.

(** In a bucket the shard ranges of different fragments do not meet. *)
Lemma shard_ranges_disjoint c fm i b f g :
0 ≤ default_shard_size c →
bucket_ok c fm i b → f ∈ fragments b → g ∈ fragments b → f ≠ g →
∀ a e x y, shard_range g = Some (a, e) → shard_range f = Some (x, y) →
  0 ≤ x ∧ x ≤ y ∧ y ≤ default_shard_size c ∧ (y ≤ a ∨ e ≤ x).
Proof.
intros HS (B1 & B2 & B3 & B4 & B5 & B6 & B7 & B8 & B9) Hf Hg Hne a e x y Hsg Hsf.
rewrite Forall_forall in B9.
destruct (B9 _ Hf) as (_ & _ & (Ff & Fp & Fl)).
destruct (B9 _ Hg) as (_ & _ & (Gf & Gp & Gl)).
assert (Lf : in_local_shard f = true).
{ destruct (in_local_shard f) eqn:E; [done|]. exfalso.
  rewrite Ff in Hsf, E. unfold make_fragment in Hsf, E. simpl in Hsf, E.
  by rewrite E in Hsf. }
assert (Lg : in_local_shard g = true).
{ destruct (in_local_shard g) eqn:E; [done|]. exfalso.
  rewrite Gf in Hsg, E. unfold make_fragment in Hsg, E. simpl in Hsg, E.
  by rewrite E in Hsg. }
rewrite Ff in Lf. rewrite Gf in Lg.
assert (HSb : 0 ≤ shard_size b) by lia.
destruct (make_fragment_local _ _ _ _ _ _ _ _ HSb (proj1 Fp) Fl Lf)
  as (sf & ef & Hf1 & _ & _ & F1 & F2 & F3 & F4 & F5 & F6).
destruct (make_fragment_local _ _ _ _ _ _ _ _ HSb (proj1 Gp) Gl Lg)
  as (sg & eg & Hg1 & _ & _ & G1 & G2 & G3 & G4 & G5 & G6).
rewrite <- Ff in Hf1. rewrite <- Gf in Hg1.
rewrite Hf1 in Hsf. rewrite Hg1 in Hsg.
injection Hsf as <- <-. injection Hsg as <- <-.
split; [lia|]. split; [lia|]. split; [lia|].
apply list_elem_of_lookup in Hf as (jf & Hjf).
apply list_elem_of_lookup in Hg as (jg & Hjg).
assert (jf ≠ jg) by (intros ->; congruence).
destruct (decide (jf < jg)%nat).
- left. assert ((bucket_range f).2 ≤ (bucket_range g).1).
  { eapply (ranges_sorted_lookup_le _ _ _ jf jg); eauto.
    - by rewrite list_lookup_fmap, Hjf.
    - by rewrite list_lookup_fmap, Hjg. }
  lia.
- right. assert ((bucket_range g).2 ≤ (bucket_range f).1).
  { eapply (ranges_sorted_lookup_le _ _ _ jg jf); eauto.
    - by rewrite list_lookup_fmap, Hjg.
    - by rewrite list_lookup_fmap, Hjf.
    - lia. }
  lia.
Qed.
End MainParamsMirror.

Section MainParamsTheorem.
Context {T : Type} `{TensorElt T}.
Implicit Types (c : Config) (b : StateBucket T) (bs : list (StateBucket T)).
Implicit Types (st : Optimizer T).

(** The stages of [_init_param_state] for a parameter without fragments. *)
Lemma init_param_state_stages k st p :
layout_wf st → state_fragments st !! k = None → lookup_param st k = Some p →
∃ bs0 bs1 fr1 bs2,
  ensure_bucket (config st) (state_buckets st) = Ok bs0
  ∧ split_param (split_fuel (Z.of_nat (length p))) (config st) k
      (Z.of_nat (length p)) 0 bs0 [] = Ok (bs1, fr1)
  ∧ (if store_params (config st) then init_main_params p bs1 fr1 else Ok bs1)
    = Ok bs2
  ∧ _init_param_state k st
    = Ok (set_state_buckets bs2
            (set_state_fragments (<[k := fr1]> (state_fragments st)) st))
  ∧ layout_wf (set_state_buckets bs2
                 (set_state_fragments (<[k := fr1]> (state_fragments st)) st)).
Proof.
intros Hwf Hnone Hp.
destruct (init_param_state_fresh k st p Hwf Hnone Hp)
  as (bs' & fs & Hrun & Hwf' & _).
pose proof Hrun as Hrun0.
unfold _init_param_state in Hrun. rewrite Hnone, Hp in Hrun.
apply bind_Ok in Hrun as (bs0 & Hens & Hrun).
apply bind_Ok in Hrun as ([bs1 fr1] & Hsplit & Hrun).
apply bind_Ok in Hrun as (bs2 & Hmain & Hfin).
injection Hfin as Hb Hf.
exists bs0, bs1, fr1, bs2. split; [done|]. split; [done|]. split; [done|].
assert (set_state_buckets bs2
          (set_state_fragments (<[k:=fr1]> (state_fragments st)) st)
        = set_state_buckets bs'
            (set_state_fragments (<[k:=fs]> (state_fragments st)) st)) as ->.
{ unfold set_state_buckets, set_state_fragments. simpl. by rewrite Hb, Hf. }
done.
Qed.

Lemma ensure_bucket_kept c bs bs0 :
ensure_bucket (T:=T) c bs = Ok bs0 → ∀ i b, bs !! i = Some b → bs0 !! i = Some b.
Proof.
unfold ensure_bucket. destruct bs; [done|]. by intros [= <-].
Qed.

Lemma init_param_state_mirror k st :
layout_wf st → main_params_ok st → is_Some (lookup_param st k) →
∃ st', _init_param_state k st = Ok st' ∧ layout_wf st' ∧ main_params_ok st'
  ∧ param_groups st' = param_groups st.
Proof.
intros Hwf Hok (p & Hp).
destruct (state_fragments st !! k) as [fs0|] eqn:Hk0.
{ exists st. unfold _init_param_state. by rewrite Hk0. }
destruct (init_param_state_stages k st p Hwf Hk0 Hp)
  as (bs0 & bs1 & fr1 & bs2 & Hens & Hsplit & Hmain & Hrun & Hwf').
eexists. split; [exact Hrun|]. split; [exact Hwf'|]. split; [|done].
set (st' := set_state_buckets bs2
              (set_state_fragments (<[k := fr1]> (state_fragments st)) st)) in *.
set (c := config st) in *.
pose proof Hwf as ((HA & HS & HD) & _).
(* old fragments keep their values up to the copy loop *)
assert (Hold : ∀ k' fs' f p', k' ≠ k →
          state_fragments st !! k' = Some fs' → f ∈ fs' →
          lookup_param st k' = Some p' → shard_holds bs1 f p').
{ intros k' fs' f p' Hne Hk' Hf Hp' b sh ps pe ss se Hb Hsh Hpr Hsr.
  destruct (layout_fragment st k' fs' f Hwf Hk' Hf) as (sb & _ & Hsb & _).
  pose proof (ensure_bucket_kept _ _ _ Hens _ _ Hsb) as Hsb0.
  destruct (split_param_shards_kept _ _ _ _ _ _ _ _ _ HA Hsplit _ _ Hsb0)
    as (b' & Hb' & Hkept).
  assert (b' = b) as -> by congruence.
  eapply (Hok k' fs' f p'); eauto. congruence. }
intros k' fs' f p' Hk' Hf Hp'.
assert (Hp'0 : lookup_param st k' = Some p') by done.
destruct (store_params c) eqn:Esp.
- (* the copy loop *)
  assert (Hlay : bucket_layout <$> bs2 = bucket_layout <$> bs1)
    by (by eapply init_main_params_layout).
  assert (Hsz : (λ b, length <$> params_shard b) <$> bs2
                = (λ b, length <$> params_shard b) <$> bs1)
    by (by eapply init_main_params_sized).
  assert (Hk1 : state_fragments st' !! k = Some fr1)
    by (simpl; by rewrite lookup_insert_eq).
  assert (Hready : Forall (shard_ready c p bs1) fr1).
  { apply Forall_forall. intros g Hg.
    destruct (layout_fragment st' k fr1 g Hwf' Hk1 Hg)
      as (sb2 & p2 & Hsb2 & Hp2 & Hin & Hkey & Hbok & P1 & P2 & P3 & _).
    assert (p2 = p) as -> by (unfold lookup_param in *; simpl in Hp2; congruence).
    simpl in Hsb2.
    assert (Hl1 : bucket_layout <$> bs1 !! bucket_id g = Some (bucket_layout sb2)).
    { by rewrite <- list_lookup_fmap, <- Hlay, list_lookup_fmap, Hsb2. }
    assert (Hs1 : (λ b, length <$> params_shard b) <$> bs1 !! bucket_id g
                  = Some (length <$> params_shard sb2)).
    { by rewrite <- list_lookup_fmap, <- Hsz, list_lookup_fmap, Hsb2. }
    destruct (bs1 !! bucket_id g) as [b1|] eqn:Hb1; [|done].
    simpl in Hl1, Hs1. injection Hl1 as L1 L2 _. injection Hs1 as Hs1.
    destruct Hbok as (B1 & B2 & B3 & B4 & B5 & B6 & B7 & B8 & B9).
    rewrite Forall_forall in B9. destruct (B9 _ Hin) as (_ & _ & Hshape).
    destruct (params_shard sb2) as [t2|]; [|simpl in B6; fold c in B6; congruence].
    destruct (params_shard b1) as [t1|] eqn:Ht1; [|done].
    simpl in Hs1. injection Hs1 as Hs1. destruct B6 as (_ & B6).
    exists b1, t1. unfold fragment_shape_ok in *. rewrite L2.
    destruct Hshape as (Sh1 & Sh2 & Sh3). simpl in B1. fold c in B1.
    unfold c in *. split_and!; try done; try lia. }
  assert (Hnd : NoDup (bucket_id <$> fr1))
    by (by eapply (layout_bucket_ids_NoDup st' k)).
  destruct (init_main_params_holds c p fr1 bs1 bs2 Hready Hnd Hmain) as (Hnew & Hkeep).
  destruct (decide (k' = k)) as [->|Hne].
  + rewrite Hk1 in Hk'. injection Hk' as <-.
    assert (p' = p) as -> by congruence. by apply Hnew.
  + simpl in Hk'. rewrite lookup_insert_ne in Hk' by done.
    apply Hkeep; [by eapply Hold|].
    intros g Hg.
    destruct (decide (bucket_id f = bucket_id g)) as [E|E]; [right|by left].
    assert (Hk'1 : state_fragments st' !! k' = Some fs')
      by (simpl; by rewrite lookup_insert_ne).
    destruct (layout_fragment st' k fr1 g Hwf' Hk1 Hg)
      as (sbg & _ & Hsbg & _ & Hing & Hkg & Hbok & _).
    destruct (layout_fragment st' k' fs' f Hwf' Hk'1 Hf)
      as (sbf & _ & Hsbf & _ & Hinf & Hkf & _).
    rewrite E in Hsbf. assert (sbf = sbg) as -> by congruence.
    eapply shard_ranges_disjoint; eauto; [simpl; unfold c; lia|].
    intros ->. congruence.
- (* no parameter shards *)
  injection Hmain as <-.
  destruct (decide (k' = k)) as [->|Hne].
  + intros b sh ps pe ss se Hb Hsh Hpr Hsr.
    destruct Hwf' as (_ & Hbs & _).
    destruct (Hbs _ _ Hb) as (_ & _ & _ & _ & _ & B6 & _).
    rewrite Hsh in B6. simpl in B6. fold c in B6. destruct B6. congruence.
  + simpl in Hk'. rewrite lookup_insert_ne in Hk' by done. by eapply Hold.
Qed.
End MainParamsTheorem.

(** With [store_params] the optimizer keeps a copy of the parameter
    values in the parameter shards of its buckets.  An optimizer fresh
    from the constructor holds no fragments, and every
    [_init_param_state] keeps the property that for every fragment of
    every initialized parameter the parameter shard of the fragment's
    bucket holds, at the fragment's [shard_range], the values of the
    parameter at its [shard_param_range]: the new fragments are copied,
    and the copies of the other fragments are not overwritten.  (The
    pre-forward hook of the parameter is not enabled.) *)
Theorem main_params_mirror_parameters {T : Type} `{TensorElt T} :
  (∀ (pg : list (list (list T))) d raw D r R avg ogs ops sp pl st,
     __init__ pg d raw D r R avg ogs ops sp pl = Ok st → main_params_ok st)
  ∧ (∀ (st : Optimizer T) (k : ParamKey),
       layout_wf st → main_params_ok st → is_Some (lookup_param st k) →
       hook_is_enabled k st = false →
       ∃ st', _init_param_state k st = Ok st'
         ∧ layout_wf st' ∧ main_params_ok st'
         ∧ param_groups st' = param_groups st
         ∧ pre_forward_hook_is_enabled st' = pre_forward_hook_is_enabled st).
Proof.
  split.
  - intros pg d raw D r R avg ogs ops sp pl st Hinit.
    unfold __init__ in Hinit.
    destruct (init_default_shard_size d raw); try done.
    simpl in Hinit. injection Hinit as <-.
    intros k fs f p Hk. simpl in Hk. by rewrite lookup_empty in Hk.
  - intros st k Hwf Hok Hp _.
    destruct (init_param_state_mirror k st Hwf Hok Hp) as (st' & Hrun & ? & ? & ?).
    exists st'. split_and!; try done.
    destruct Hp as (p & Hp).
    destruct (init_param_state_wf k st p Hwf Hp) as (st'' & Hrun' & _ & _ & _ & _ & _ & Hfl & _).
    congruence.
Qed.

(** Two parameters in one bucket of 64 elements at rank 0 of one
    process: the shard holds the values of both. *)
Lemma main_params_mirror_parameters_witness :
  ∃ st1 st2 b,
    _init_param_state (0%nat, 0%nat)
      (example_optimizer (example_config 32 64 1 0)
         [[replicate 3 7; replicate 2 9]]) = Ok st1
    ∧ _init_param_state (0%nat, 1%nat) st1 = Ok st2
    ∧ main_params_ok st2
    ∧ state_buckets st2 = [b]
    ∧ (take 34 <$> params_shard b)
      = Some ([7; 7; 7] ++ replicate 29 0 ++ [9; 9]).
Proof.
  destruct (main_params_mirror_parameters (T:=Z)) as (_ & Hstep).
  assert (Hwf0 : layout_wf (example_optimizer (example_config 32 64 1 0)
                              [[replicate 3 7; replicate 2 9]]))
    by (apply example_layout_wf; lia).
  destruct (Hstep _ (0%nat, 0%nat) Hwf0) as (st1 & H1 & Hwf1 & Hok1 & Hpg1 & Hfl1).
  { intros k fs f p Hk. simpl in Hk. by rewrite lookup_empty in Hk. }
  { by eexists. }
  { done. }
  destruct (Hstep st1 (0%nat, 1%nat) Hwf1 Hok1) as (st2 & H2 & Hwf2 & Hok2 & Hpg2 & _).
  { unfold lookup_param. rewrite Hpg1. by eexists. }
  { unfold hook_is_enabled. by rewrite Hfl1. }
  exists st1, st2.
  vm_compute in H1. injection H1 as <-.
  vm_compute in H2. injection H2 as <-.
  eexists. split; [vm_compute; reflexivity|]. split; [vm_compute; reflexivity|].
  split; [exact Hok2|]. split; reflexivity.
Defined.

(** ** Initialization of several parameters *)
Lemma foldr_add_pos (l : list Z) :
  Forall (λ x, 0 < x) l → l ≠ [] → 0 < foldr Z.add 0 l.
Proof.
  intros Hall Hne.
  assert (0 ≤ foldr Z.add 0 l ∧ (l ≠ [] → 0 < foldr Z.add 0 l)) as (_ & Hp);
    [|by apply Hp].
  clear Hne. induction Hall as [|x l Hx Hall IH]; [done|].
  destruct IH as (IH & _). cbn [foldr]. split; [lia|]. intros _. lia.
Qed.

Section InitParamsFacts.
Context {T : Type} `{TensorElt T}.
Implicit Types (c : Config) (b : StateBucket T) (bs : list (StateBucket T)).
Implicit Types (st : Optimizer T).

Lemma elem_of_parameters st k :
k ∈ parameters st ↔ is_Some (lookup_param st k).
Proof.
unfold parameters, lookup_param. split.
- intros Hk. apply elem_of_concat in Hk as (l & Hk & Hl).
  apply elem_of_lookup_imap in Hl as (g & grp & -> & Hg).
  apply elem_of_lookup_imap in Hk as (i & x & -> & Hi).
  simpl. rewrite Hg. simpl. by rewrite Hi.
- destruct k as [g i]. simpl. intros (x & Hx).
  destruct (param_groups st !! g) as [grp|] eqn:Hg; [|done]. simpl in Hx.
  assert (Hin : imap (λ i (_ : list T), (g, i)) grp
                ∈ imap (λ g grp, imap (λ i (_ : list T), (g, i)) grp) (param_groups st)).
  { apply elem_of_lookup_imap. by exists g, grp. }
  assert (Hk : (g, i) ∈ imap (λ i (_ : list T), (g, i)) grp).
  { apply elem_of_lookup_imap. by exists i, x. }
  clear Hg Hx. revert Hin Hk.
  generalize (imap (λ i (_ : list T), (g, i)) grp).
  generalize (imap (λ g grp, imap (λ i (_ : list T), (g, i)) grp) (param_groups st)).
  intros ls l Hin Hk. induction ls as [|l0 ls IH]; [by apply elem_of_nil in Hin|].
  simpl. apply elem_of_app. apply elem_of_cons in Hin as [->|Hin]; [by left|].
  right. by apply IH.
Qed.

Lemma ensure_bucket_nonempty c bs bs0 : ensure_bucket (T:=T) c bs = Ok bs0 → bs0 ≠ [].
Proof.
unfold ensure_bucket. destruct bs.
- intros Hnb. apply bind_Ok in Hnb as (nb & _ & [= <-]). done.
- by intros [= <-].
Qed.

(** [_init_param_state] with the facts that the loops over parameters
  need. *)
Lemma init_param_state_only k st p :
layout_wf st → lookup_param st k = Some p →
∃ st', _init_param_state k st = Ok st' ∧ layout_wf st'
  ∧ is_Some (state_fragments st' !! k)
  ∧ config st' = config st ∧ param_groups st' = param_groups st
  ∧ param_grad st' = param_grad st
  ∧ pre_forward_hook_is_enabled st' = pre_forward_hook_is_enabled st
  ∧ _grads_buckets st' = _grads_buckets st
  ∧ status_log st' = status_log st
  ∧ state_step st' = state_step st
  ∧ _params_buckets st' = _params_buckets st
  ∧ buckets_extend (state_buckets st) (state_buckets st')
  ∧ (∀ k' fs, state_fragments st !! k' = Some fs →
       state_fragments st' !! k' = Some fs)
  ∧ (∀ k', k' ≠ k → state_fragments st' !! k' = state_fragments st !! k')
  ∧ (state_fragments st !! k = None → state_buckets st' ≠ []).
Proof.
intros Hwf Hp.
destruct (init_param_state_wf k st p Hwf Hp)
  as (st' & Hrun & Hwf' & Hk & Hc & Hpg & Hg & Hh & Hgb & Hl & Hs & Hpb & Hext & Hfr).
exists st'. split_and!; try done.
- intros k' Hne. destruct (state_fragments st !! k) as [fs|] eqn:Hk0.
  + unfold _init_param_state in Hrun. rewrite Hk0 in Hrun. by injection Hrun as <-.
  + destruct (init_param_state_stages k st p Hwf Hk0 Hp)
      as (bs0 & bs1 & fr1 & bs2 & _ & _ & _ & Hrun' & _).
    rewrite Hrun' in Hrun. injection Hrun as <-. simpl.
    by rewrite lookup_insert_ne.
- intros Hk0.
  destruct (init_param_state_stages k st p Hwf Hk0 Hp)
    as (bs0 & bs1 & fr1 & bs2 & Hens & Hsplit & Hmain & Hrun' & _).
  rewrite Hrun' in Hrun. injection Hrun as <-. simpl.
  apply ensure_bucket_nonempty in Hens.
  destruct Hwf as ((HA & _) & _).
  pose proof (split_param_extend _ _ _ _ _ _ _ _ _ HA Hsplit) as Hext1.
  assert (bs1 ≠ []).
  { destruct bs0 as [|b0 bs0]; [done|].
    destruct (Hext1 0%nat b0 eq_refl) as (b' & Hb' & _). by destruct bs1. }
  assert (Hlay : bucket_layout <$> bs2 = bucket_layout <$> bs1).
  { destruct (store_params (config st)); [|by injection Hmain as <-].
    by eapply init_main_params_layout. }
  destruct bs2; [|done]. by destruct bs1.
Qed.

(** The loop "Initialize parameters" of [init_params]. *)
Lemma init_params_loop l :
∀ st, layout_wf st →
  ∃ st',
    for_each (λ k st, if decide (is_Some (lookup_param st k))
                      then _init_param_state k st else Ok st) l st = Ok st'
    ∧ layout_wf st'
    ∧ config st' = config st ∧ param_groups st' = param_groups st
    ∧ param_grad st' = param_grad st
    ∧ pre_forward_hook_is_enabled st' = pre_forward_hook_is_enabled st
    ∧ _grads_buckets st' = _grads_buckets st
    ∧ status_log st' = status_log st
    ∧ state_step st' = state_step st
    ∧ _params_buckets st' = _params_buckets st
    ∧ buckets_extend (state_buckets st) (state_buckets st')
    ∧ (∀ k fs, state_fragments st !! k = Some fs →
         state_fragments st' !! k = Some fs)
    ∧ (∀ k, k ∈ l → is_Some (lookup_param st k) →
         is_Some (state_fragments st' !! k))
    ∧ (∀ k, is_Some (state_fragments st' !! k) →
         is_Some (state_fragments st !! k)
         ∨ (k ∈ l ∧ is_Some (lookup_param st k)))
    ∧ (∀ k, k ∈ l → is_Some (lookup_param st k) →
         state_fragments st !! k = None → state_buckets st' ≠ []).
Proof.
induction l as [|k l IH]; intros st Hwf; simpl.
- exists st. split_and!; try done.
  + apply buckets_extend_refl.
  + intros k Hk. by apply elem_of_nil in Hk.
  + intros k Hk. by left.
  + intros k Hk. by apply elem_of_nil in Hk.
- destruct (decide (is_Some (lookup_param st k))) as [(p & Hp)|Hnp].
  + destruct (init_param_state_only k st p Hwf Hp)
      as (st1 & Hrun & Hwf1 & Hk1 & Hc & Hpg & Hg & Hh & Hgb & Hl & Hs & Hpb
          & Hext & Hfr & Hoth & Hne).
    rewrite Hrun. simpl.
    destruct (IH st1 Hwf1)
      as (st' & Hrun' & Hwf' & Hc' & Hpg' & Hg' & Hh' & Hgb' & Hl' & Hs' & Hpb'
          & Hext' & Hfr' & Hall' & Honly' & Hne').
    assert (Hlp : ∀ k0, lookup_param st1 k0 = lookup_param st k0).
    { intros k0. unfold lookup_param. by rewrite Hpg. }
    exists st'. split; [done|]. split; [done|].
    split_and!; try congruence.
    * by eapply buckets_extend_trans.
    * intros k0 fs Hk0. by apply Hfr', Hfr.
    * intros k0 Hk0 Hp0. apply elem_of_cons in Hk0 as [->|Hk0].
      -- destruct Hk1 as (fs & Hfs). exists fs. by apply Hfr'.
      -- apply Hall'; [done|]. by rewrite Hlp.
    * intros k0 Hk0. destruct (Honly' _ Hk0) as [Hin|(Hin & Hp0)].
      -- destruct (decide (k0 = k)) as [->|Hnek].
         ++ right. split; [by left|]. by eexists.
         ++ left. by rewrite <- (Hoth _ Hnek).
      -- right. split; [by right|]. by rewrite <- Hlp.
    * intros k0 Hk0 Hp0 Hnone.
      assert (Hst1 : ∀ bs', buckets_extend (state_buckets st1) bs' →
                            state_buckets st1 ≠ [] → bs' ≠ []).
      { intros bs' Hx Hne1. destruct (state_buckets st1) as [|b0 ?]; [done|].
        destruct (Hx 0%nat b0 eq_refl) as (b' & Hb' & _). by destruct bs'. }
      apply elem_of_cons in Hk0 as [->|Hk0].
      -- apply (Hst1 _ Hext'). by apply Hne.
      -- destruct (decide (k0 = k)) as [->|Hnek].
         ++ apply (Hst1 _ Hext'). by apply Hne.
         ++ apply (Hne' k0); [done|by rewrite Hlp|].
            by rewrite (Hoth _ Hnek).
  + destruct (IH st Hwf)
      as (st' & Hrun' & Hwf' & Hc' & Hpg' & Hg' & Hh' & Hgb' & Hl' & Hs' & Hpb'
          & Hext' & Hfr' & Hall' & Honly' & Hne').
    exists st'. split; [done|]. split; [done|].
    split_and!; try done.
    * intros k0 Hk0 Hp0. apply elem_of_cons in Hk0 as [->|Hk0]; [done|].
      by apply Hall'.
    * intros k0 Hk0. destruct (Honly' _ Hk0) as [|(Hin & Hp0)]; [by left|].
      right. split; [by right|done].
    * intros k0 Hk0 Hp0 Hnone. apply elem_of_cons in Hk0 as [->|Hk0]; [done|].
      by eapply Hne'.
Qed.

Lemma sum_bucket_sizes_pos st :
layout_wf st → state_buckets st ≠ [] →
0 < foldr Z.add 0 (bucket_size <$> state_buckets st).
Proof.
intros ((HA & HS & HD) & Hbs & _) Hne.
apply foldr_add_pos.
- apply Forall_fmap, Forall_lookup. intros i b Hb. simpl.
  destruct (Hbs _ _ Hb) as (B1 & B2 & _).
  rewrite B2, B1. by apply Z.mul_pos_pos.
- by destruct (state_buckets st).
Qed.
End InitParamsFacts.

Section InitParamsTheorem.
Context {T : Type} `{TensorElt T}.
Implicit Types (st : Optimizer T).

(** The loop of [init_params] over all parameters, and the loop over
  those that had no fragments at the start. *)
Lemma init_params_loop_filter st0 l :
∀ st, layout_wf st →
  (∀ k fs, state_fragments st0 !! k = Some fs → state_fragments st !! k = Some fs) →
  Forall (λ k, is_Some (lookup_param st k)) l →
  for_each (λ k st, match state_fragments st !! k with
                    | Some _ => Ok st
                    | None => _init_param_state k st
                    end) l st
  = for_each (λ k st, if decide (is_Some (lookup_param st k))
                      then _init_param_state k st else Ok st)
      (filter (λ k, state_fragments st0 !! k = None) l) st.
Proof.
induction l as [|k l IH]; intros st Hwf Hext Hreg; [done|].
apply Forall_cons in Hreg as ((p & Hp) & Hreg).
destruct (state_fragments st0 !! k) as [fs|] eqn:Hk0.
- rewrite filter_cons_False by (by rewrite Hk0). simpl.
  rewrite (Hext _ _ Hk0). simpl. by apply IH.
- rewrite filter_cons_True by done. simpl.
  rewrite decide_True by (by eexists).
  assert (E : match state_fragments st !! k with
              | Some _ => Ok st
              | None => _init_param_state k st
              end = _init_param_state k st).
  { unfold _init_param_state. by destruct (state_fragments st !! k). }
  rewrite E.
  destruct (init_param_state_only k st p Hwf Hp)
    as (st1 & -> & Hwf1 & _ & _ & Hpg & _ & _ & _ & _ & _ & _ & _ & Hfr & _).
  simpl. apply IH; [done| |].
  + intros k' fs Hk'. by apply Hfr, Hext.
  + eapply Forall_impl; [exact Hreg|]. intros k'. unfold lookup_param.
    by rewrite Hpg.
Qed.

Lemma init_params_loop_skip st l :
(∀ k, lookup_param st k = None) →
for_each (λ k st, if decide (is_Some (lookup_param st k))
                  then _init_param_state k st else Ok st) l st = Ok st.
Proof.
intros Hnone. induction l as [|k l IH]; [done|]. simpl.
rewrite decide_False; [done|]. rewrite Hnone. by intros [].
Qed.

Lemma init_params_of_Ok st (params : option (list ParamKey)) :
layout_wf st →
Forall (λ k, is_Some (lookup_param st k)) (default [] params) →
∃ st', init_params_of params st = Ok st' ∧ layout_wf st'
  ∧ (∀ k, k ∈ default (parameters st) params →
       is_Some (state_fragments st' !! k))
  ∧ (∀ k fs, state_fragments st !! k = Some fs →
       state_fragments st' !! k = Some fs)
  ∧ (∀ k, is_Some (state_fragments st' !! k) →
       is_Some (state_fragments st !! k) ∨ k ∈ default (parameters st) params)
  ∧ buckets_extend (state_buckets st) (state_buckets st')
  ∧ config st' = config st ∧ param_groups st' = param_groups st
  ∧ param_grad st' = param_grad st
  ∧ pre_forward_hook_is_enabled st' = pre_forward_hook_is_enabled st
  ∧ _grads_buckets st' = _grads_buckets st
  ∧ status_log st' = status_log st
  ∧ _params_buckets st' = _params_buckets st
  ∧ state_step st' = state_step st
  ∧ (params = None → init_params st = Ok st').
Proof.
intros Hwf Hreg0. unfold init_params_of.
set (all := default (parameters st) params).
assert (Hreg : Forall (λ k, is_Some (lookup_param st k)) all).
{ subst all. destruct params as [ps|]; [done|]. simpl.
  apply Forall_forall. intros k. by rewrite elem_of_parameters. }
set (l := filter (λ k, state_fragments st !! k = None) all).
assert (Hold : params = None →
          init_params st
          = for_each (λ k st, if decide (is_Some (lookup_param st k))
                              then _init_param_state k st else Ok st) l st).
{ intros ->. unfold init_params. apply init_params_loop_filter; try done. }
destruct (init_params_loop l st Hwf)
  as (st' & Hrun & Hwf' & Hc' & Hpg' & Hg' & Hh' & Hgb' & Hl' & Hs' & Hpb'
      & Hext' & Hfr' & Hall' & Honly' & Hne').
assert (Hres : ∀ k, k ∈ all → is_Some (state_fragments st' !! k)).
{ intros k Hk. destruct (state_fragments st !! k) as [fs|] eqn:Hk0.
  - exists fs. by apply Hfr'.
  - apply Hall'.
    + subst l. apply list_elem_of_filter. done.
    + rewrite Forall_forall in Hreg. by apply Hreg. }
assert (Honly : ∀ k, is_Some (state_fragments st' !! k) →
          is_Some (state_fragments st !! k) ∨ k ∈ all).
{ intros k Hk. destruct (Honly' _ Hk) as [|(Hin & _)]; [by left|].
  right. subst l. by apply list_elem_of_filter in Hin as (_ & ?). }
destruct l as [|k0 l0] eqn:El.
- simpl in Hrun. injection Hrun as <-. exists st. split_and!; try done;
    try (intros Hp; by rewrite (Hold Hp)).
- rewrite Hrun. simpl.
  assert (Hk0 : k0 ∈ filter (λ k, state_fragments st !! k = None) all)
    by (fold l; rewrite El; by left).
  apply list_elem_of_filter in Hk0 as (Hk0 & Hin0).
  assert (Hne : state_buckets st' ≠ []).
  { apply (Hne' k0); [by left| |done].
    rewrite Forall_forall in Hreg. by apply Hreg. }
  pose proof (sum_bucket_sizes_pos st' Hwf' Hne) as Hpos.
  exists st'. split.
  + destruct (decide _); [|done].
    destruct (Z.eqb_spec (foldr Z.add 0 (bucket_size <$> state_buckets st')) 0);
      [lia|done].
  + split_and!; try done; try (intros Hp; by rewrite (Hold Hp)).
Qed.
End InitParamsTheorem.

(** [init_params(params)] returns, for parameters of the optimizer, with
    every given parameter initialized (all parameters when none is
    given), keeps the layout well formed and the fragments of the
    parameters that were initialized before, initializes no other
    parameter, and touches neither gradients nor parameter buckets (no
    pre-forward hook is enabled).  On an
    optimizer without parameters and buckets a call with a tensor that has
    no fragments fails with a division by zero in the bucket
    utilization. *)
Theorem init_params_initializes {T : Type} `{TensorElt T} :
  (∀ (st : Optimizer T) (params : option (list ParamKey)),
     layout_wf st →
     Forall (λ k, is_Some (lookup_param st k)) (default [] params) →
     (∀ k, hook_is_enabled k st = false) →
     ∃ st', init_params_of params st = Ok st' ∧ layout_wf st'
       ∧ (∀ k, k ∈ default (parameters st) params →
            is_Some (state_fragments st' !! k))
       ∧ (∀ k fs, state_fragments st !! k = Some fs →
            state_fragments st' !! k = Some fs)
       ∧ (∀ k, is_Some (state_fragments st' !! k) →
            is_Some (state_fragments st !! k)
            ∨ k ∈ default (parameters st) params)
       ∧ buckets_extend (state_buckets st) (state_buckets st')
       ∧ param_groups st' = param_groups st
       ∧ param_grad st' = param_grad st
       ∧ _grads_buckets st' = _grads_buckets st
       ∧ _params_buckets st' = _params_buckets st
       ∧ state_step st' = state_step st
       ∧ (params = None → init_params st = Ok st'))
  ∧ (∀ (st : Optimizer T) (ps : list ParamKey),
       parameters st = [] → state_buckets st = [] →
       filter (λ k, state_fragments st !! k = None) ps ≠ [] →
       init_params_of (Some ps) st = Raise ZeroDivisionError).
Proof.
  split.
  - intros st params Hwf Hreg _.
    destruct (init_params_of_Ok st params Hwf Hreg)
      as (st' & Hrun & Hwf' & Hall & Hfr & Honly & Hext & Hc & Hpg & Hg & Hh
          & Hgb & Hl & Hpb & Hs & Hold).
    exists st'. by split_and!.
  - intros st ps Hpar Hbs Hne. unfold init_params_of. simpl.
    destruct (filter _ ps) as [|k l] eqn:El; [done|].
    rewrite init_params_loop_skip.
    + simpl. by rewrite Hpar, Hbs.
    + intros k'. destruct (lookup_param st k') eqn:E; [|done].
      assert (Hin : k' ∈ parameters st) by (apply elem_of_parameters; by eexists).
      rewrite Hpar in Hin. by apply elem_of_nil in Hin.
Qed.

(** Two parameters of 40 elements: [init_params()] initializes both. *)
Lemma init_params_initializes_witness :
  ∃ st' : Optimizer Z,
    init_params_of None
      (example_optimizer (example_config 32 64 1 0)
         [[replicate 40 1; replicate 40 2]]) = Ok st'
    ∧ is_Some (state_fragments st' !! (0%nat, 0%nat))
    ∧ is_Some (state_fragments st' !! (0%nat, 1%nat)).
Proof.
  destruct (init_params_initializes (T:=Z)) as (Hinit & _).
  destruct (Hinit (example_optimizer (example_config 32 64 1 0)
                     [[replicate 40 1; replicate 40 2]]) None)
    as (st' & Hrun & _ & Hall & _).
  { apply example_layout_wf; lia. }
  { constructor. }
  { done. }
  exists st'. split; [done|]. split; apply Hall; simpl.
  - by left.
  - right. by left.
Defined.

Section GradFrame.
Context {T : Type} `{TensorElt T} `{Collectives T}.
Implicit Types (st : Optimizer T).

Lemma for_each_frame {A B} (g : Optimizer T → B)
  (body : A → Optimizer T → result (Optimizer T)) l :
(∀ x s s', body x s = Ok s' → g s' = g s) →
∀ st st', for_each body l st = Ok st' → g st' = g st.
Proof.
intros Hbody. induction l as [|x l IH]; intros st st'; simpl.
- by intros [= <-].
- intros Hrun. apply bind_Ok in Hrun as (s1 & H1 & Hrun).
  rewrite (IH _ _ Hrun). by eapply Hbody.
Qed.

Lemma finish_bucket_frame bid st st' :
finish_bucket bid st = Ok st' → non_grad_state st' = non_grad_state st.
Proof.
unfold finish_bucket. destruct (decide _); [|by intros [= <-]].
intros Hrun. apply bind_Ok in Hrun as (sh & _ & [= <-]). done.
Qed.

Lemma finish_frame st st' :
_finish_bucket_grad_sync st = Ok st' → non_grad_state st' = non_grad_state st.
Proof. apply for_each_frame. intros bid. apply finish_bucket_frame. Qed.

Lemma start_bucket_frame bid st st' :
start_bucket bid st = Ok st' → non_grad_state st' = non_grad_state st.
Proof.
unfold start_bucket. intros Hrun. apply bind_Ok in Hrun as (s1 & H1 & Hrun).
assert (E1 : non_grad_state s1 = non_grad_state st).
{ destruct (decide _); [by apply finish_frame|by injection H1 as <-]. }
rewrite <- E1. clear H1 E1.
destruct (_ =? 1); [by injection Hrun as <-|].
destruct (grads_bucket _); [|done].
destruct (_ =? 0); [done|].
apply bind_Ok in Hrun as (z & _ & [= <-]). done.
Qed.

Lemma reduce_scatter_bucket_frame bid st st' :
reduce_scatter_bucket bid st = Ok st' → non_grad_state st' = non_grad_state st.
Proof.
unfold reduce_scatter_bucket. destruct (grads_bucket _); [|done].
by intros [= <-].
Qed.

Lemma all_reduce_bucket_frame bid st st' :
all_reduce_bucket bid st = Ok st' → non_grad_state st' = non_grad_state st.
Proof.
unfold all_reduce_bucket. destruct (sync_grads_shard _); [|done].
by intros [= <-].
Qed.

Lemma start_frame l st st' :
_start_bucket_grad_sync l st = Ok st' → non_grad_state st' = non_grad_state st.
Proof.
unfold _start_bucket_grad_sync. intros Hrun.
apply bind_Ok in Hrun as (s1 & H1 & Hrun).
apply bind_Ok in Hrun as (s2 & H2 & Hrun).
apply bind_Ok in Hrun as (s3 & H3 & Hrun).
apply finish_frame in H1.
apply (for_each_frame non_grad_state) in H2; [|intros bid; apply start_bucket_frame].
assert (E3 : non_grad_state s3 = non_grad_state s2).
{ destruct (1 <? distributed_size (config s2)); [|by injection H3 as <-].
  revert H3. apply for_each_frame. intros bid. apply reduce_scatter_bucket_frame. }
assert (E4 : non_grad_state st' = non_grad_state s3).
{ destruct (1 <? redundant_size (config s3)); [|by injection Hrun as <-].
  revert Hrun. apply for_each_frame. intros bid. apply all_reduce_bucket_frame. }
congruence.
Qed.

Lemma grad_copy_fragment_frame k f st st' :
grad_copy_fragment k f st = Ok st' → non_grad_state st' = non_grad_state st.
Proof.
unfold grad_copy_fragment.
change (state_buckets (touch_grads_bucket (bucket_id f) st))
  with (state_buckets st).
destruct (state_buckets st !! bucket_id f); [|done].
destruct (param_range f) as [gs ge], (bucket_range f) as [bs be].
intros Hrun. apply bind_Ok in Hrun as (s1 & H1 & Hrun).
assert (E1 : non_grad_state s1 = non_grad_state st).
{ destruct (decide _); [|by injection H1 as <-].
  apply finish_frame in H1. by rewrite H1. }
clear H1. apply bind_Ok in Hrun as (s2 & H2 & Hrun).
assert (E2 : non_grad_state s2 = non_grad_state s1).
{ destruct (grads_bucket _); [by injection H2 as <-|].
  apply bind_Ok in H2 as (zs & _ & [= <-]). done. }
clear H2.
destruct (param_grad s2 !! k); [|injection Hrun as <-; congruence].
destruct (grads_bucket _); [|done].
apply bind_Ok in Hrun as (gb' & _ & [= <-]).
transitivity (non_grad_state s2); [done|congruence].
Qed.

(** [_grad_copy] for a parameter that has its fragments. *)
Lemma grad_copy_frame k st st' :
is_Some (state_fragments st !! k) →
_grad_copy k st = Ok st' → non_grad_state st' = non_grad_state st.
Proof.
intros (fs & Hfs). unfold _grad_copy. rewrite Hfs. simpl.
intros Hrun. apply bind_Ok in Hrun as (s1 & H1 & [= <-]).
apply (for_each_frame non_grad_state) in H1;
  [|intros f; apply grad_copy_fragment_frame].
by rewrite <- H1.
Qed.

Lemma register_grad_frame k f st st' :
register_grad k f st = Ok st' → non_grad_state st' = non_grad_state st.
Proof.
unfold register_grad.
change (state_buckets (touch_grads_bucket (bucket_id f) st))
  with (state_buckets st).
destruct (state_buckets st !! bucket_id f); [|done].
destruct (decide _); [|by intros [= <-]].
destruct (grads_bucket _); [by intros [= <-]|].
intros Hrun. apply bind_Ok in Hrun as (z & _ & [= <-]). done.
Qed.

Lemma register_grads_frame k st st' :
register_grads k st = Ok st' → non_grad_state st' = non_grad_state st.
Proof.
unfold register_grads. destruct (state_fragments st !! k); [|done].
apply for_each_frame. intros f. apply register_grad_frame.
Qed.

Lemma try_start_frame l ilb st st' :
_try_start_bucket_grad_sync l ilb st = Ok st' →
non_grad_state st' = non_grad_state st.
Proof.
unfold _try_start_bucket_grad_sync. intros Hrun.
apply bind_Ok in Hrun as (s1 & H1 & Hrun).
apply (for_each_frame non_grad_state) in H1;
  [|intros k; apply register_grads_frame].
rewrite <- H1. destruct (filter _ _); [by injection Hrun as <-|].
by apply start_frame in Hrun.
Qed.

Lemma force_prepare_bucket_frame bid st st' :
force_prepare_bucket bid st = Ok st' → non_grad_state st' = non_grad_state st.
Proof.
unfold force_prepare_bucket. destruct (decide _); [|by intros [= <-]].
destruct (grads_bucket _); [by intros [= <-]|].
destruct (state_buckets st !! bid); [|done].
intros Hrun. apply bind_Ok in Hrun as (z & _ & [= <-]). done.
Qed.

Lemma force_fill_bucket_frame bid st st' :
force_fill_bucket bid st = Ok st' → non_grad_state st' = non_grad_state st.
Proof.
unfold force_fill_bucket. destruct (grads_shard _); [by intros [= <-]|].
change (state_buckets (touch_grads_bucket bid st)) with (state_buckets st).
destruct (state_buckets st !! bid); [|done].
intros Hrun. apply bind_Ok in Hrun as (z & _ & [= <-]). done.
Qed.

Lemma force_frame st st' :
_force_bucket_grad_sync st = Ok st' → non_grad_state st' = non_grad_state st.
Proof.
unfold _force_bucket_grad_sync. intros Hrun.
apply bind_Ok in Hrun as (s1 & H1 & Hrun).
apply bind_Ok in Hrun as (s2 & H2 & Hrun).
apply bind_Ok in Hrun as (s3 & H3 & Hrun).
apply (for_each_frame non_grad_state) in H1;
  [|intros bid; apply force_prepare_bucket_frame].
assert (E2 : non_grad_state s2 = non_grad_state s1).
{ destruct (filter _ _); [by injection H2 as <-|]. by apply start_frame in H2. }
apply finish_frame in H3.
apply (for_each_frame non_grad_state) in Hrun;
  [|intros bid; apply force_fill_bucket_frame].
congruence.
Qed.
End GradFrame.

(** A loop with an invariant that knows the elements already processed. *)
Lemma for_each_prefix {A S} (P : list A → S → Prop)
    (body : A → S → result S) (l : list A) (s : S) :
  (∀ pre x suf s, l = pre ++ x :: suf → P pre s →
     ∃ s', body x s = Ok s' ∧ P (pre ++ [x]) s') →
  P [] s → ∃ s', for_each body l s = Ok s' ∧ P l s'.
Proof.
  intros Hstep.
  assert (Hgen : ∀ suf pre s, l = pre ++ suf → P pre s →
            ∃ s', for_each body suf s = Ok s' ∧ P l s').
  { induction suf as [|x suf IH]; intros pre s0 El HP.
    - rewrite app_nil_r in El. subst. by exists s0.
    - destruct (Hstep pre x suf s0 El HP) as (s1 & H1 & HP1).
      simpl. rewrite H1. simpl. apply (IH (pre ++ [x])); [|done].
      by rewrite <- app_assoc. }
  intros HP. by apply (Hgen l []).
Qed.

Section GradSyncFacts.
Context {T : Type} `{TensorElt T} `{Collectives T} `{!CollectivesOk T}.
Implicit Types (st : Optimizer T) (gb : GradientBucket T) (sb : StateBucket T).
Implicit Types (G : gmap nat (GradientBucket T)) (L : list StatusWrite).

Lemma non_grad_state_lookup_param st st' k :
non_grad_state st' = non_grad_state st → lookup_param st' k = lookup_param st k.
Proof. intros [= _ Hpg _]. unfold lookup_param. by rewrite Hpg. Qed.

Lemma layout_keys_initialized st k :
layout_wf st →
k ∈ fragment_key <$> concat (fragments <$> state_buckets st) →
is_Some (lookup_param st k) ∧ is_Some (state_fragments st !! k).
Proof.
intros Hlay Hk. apply list_elem_of_fmap in Hk as (f & -> & Hf).
apply elem_of_concat in Hf as (fl & Hf & Hl).
apply list_elem_of_fmap in Hl as (sb & -> & Hsb).
apply list_elem_of_lookup in Hsb as (bid & Hsb).
split; [by eapply layout_key_param|].
destruct Hlay as (_ & Hbs & _).
destruct (Hbs _ _ Hsb) as (_ & _ & _ & _ & _ & _ & _ & _ & Hall).
rewrite Forall_forall in Hall. destruct (Hall _ Hf) as (_ & (fs & Hfs & _) & _).
by exists fs.
Qed.

(** [grad_sync]: the loop over the parameters and the forced
  synchronization. *)
Lemma grad_sync_run st :
layout_wf st → grads_wf st →
∃ st1 st',
  grad_sync st = Ok st'
  ∧ _force_bucket_grad_sync st1 = Ok st'
  ∧ step_ok st st1 ∧ step_ok st1 st'
  ∧ non_grad_state st1 = non_grad_state st
  ∧ non_grad_state st' = non_grad_state st
  ∧ (∀ k, k ∈ fragment_key <$> concat (fragments <$> state_buckets st) →
       param_grad st' !! k = None)
  ∧ (∀ k, k ∉ fragment_key <$> concat (fragments <$> state_buckets st) →
       param_grad st' !! k = param_grad st !! k).
Proof.
intros Hlay Hgr. unfold grad_sync.
set (keys := fragment_key <$> concat (fragments <$> state_buckets st)).
set (body := λ k st, match lookup_param st k with
                     | Some _ => _ | None => _ end).
destruct (for_each_prefix
            (λ pre s, step_ok st s ∧ non_grad_state s = non_grad_state st
                      ∧ (∀ k, k ∈ pre → param_grad s !! k = None)
                      ∧ (∀ k, k ∉ pre → param_grad s !! k = param_grad st !! k))
            body keys st) as (st1 & Hloop & Hstep1 & Hfr1 & Hdone & Hrest).
{ intros pre k suf s Ekeys (Hs & Hfr & Hd & Hr).
  pose proof Hs as (Hlay1 & Hgr1 & _).
  assert (Hk : k ∈ keys) by (rewrite Ekeys; apply elem_of_app; right; by left).
  destruct (layout_keys_initialized st k Hlay Hk) as ((p & Hp) & Hfs).
  unfold body. rewrite (non_grad_state_lookup_param _ _ _ Hfr), Hp.
  destruct (param_grad s !! k) eqn:E.
  - destruct (accumulate_step k false s Hlay1 Hgr1) as (s' & Hrun & Hstep & Eg).
    { rewrite (non_grad_state_lookup_param _ _ _ Hfr). by exists p. }
    simpl in Hrun. exists s'. split; [exact Hrun|].
    apply bind_Ok in Hrun as (s0 & Hc & Ht).
    apply grad_copy_frame in Hc;
      [|injection Hfr as _ _ _ _ -> _ _; exact Hfs].
    apply try_start_frame in Ht.
    split; [by eapply step_ok_trans|]. split; [congruence|]. split.
    + intros k' Hk'. rewrite Eg. apply elem_of_app in Hk' as [Hk'|Hk'].
      * destruct (decide (k' = k)) as [->|Hne]; [by rewrite lookup_delete_eq|].
        rewrite lookup_delete_ne by done. by apply Hd.
      * apply list_elem_of_singleton in Hk' as ->. by rewrite lookup_delete_eq.
    + intros k' Hk'. rewrite Eg.
      assert (k' ≠ k).
      { intros ->. apply Hk', elem_of_app. right. by left. }
      rewrite lookup_delete_ne by done. apply Hr.
      intros Hin. apply Hk', elem_of_app. by left.
  - exists s. split; [done|]. split; [done|]. split; [done|]. split.
    + intros k' Hk'. apply elem_of_app in Hk' as [Hk'|Hk']; [by apply Hd|].
      by apply list_elem_of_singleton in Hk' as ->.
    + intros k' Hk'. apply Hr. intros Hin. apply Hk', elem_of_app. by left. }
{ split; [by apply step_ok_refl|]. split; [done|]. split; [|done].
  intros k Hk. by apply elem_of_nil in Hk. }
rewrite Hloop. simpl. pose proof Hstep1 as (Hlay1 & Hgr1 & _).
destruct (force_step st1 Hlay1 Hgr1) as (st2 & Hrun & Hstep2 & Eg & _).
exists st1, st2. split; [done|]. split; [done|]. split; [done|]. split; [done|].
split; [done|]. apply force_frame in Hrun. split; [congruence|].
split; intros k Hk; rewrite Eg; [by apply Hdone|by apply Hrest].
Qed.

(** [_try_start_bucket_grad_sync([param], True)] does not start the last
  bucket. *)
Lemma try_start_skips_last k fs G L st (last : nat) :
layout_wf st → buckets_wf st G → state_fragments st !! k = Some fs →
(∀ f, f ∈ fs →
   ∃ gb, G !! bucket_id f = Some gb ∧ status gb = PARTIALLY_FILLED) →
Z.of_nat last = Z.of_nat (length (state_buckets st)) - 1 →
status (default GradientBucket_init (G !! last)) ≠ SYNCING →
∃ G' Lnew,
  _try_start_bucket_grad_sync [k] true (with_grads G L st)
  = Ok (with_grads G' (L ++ Lnew) st)
  ∧ status (default GradientBucket_init (G' !! last)) ≠ SYNCING
  ∧ grads_bucket (default GradientBucket_init (G' !! last))
    = grads_bucket (default GradientBucket_init (G !! last))
  ∧ grads_shard (default GradientBucket_init (G' !! last))
    = grads_shard (default GradientBucket_init (G !! last)).
Proof.
intros Hlay HG Hfs Hpart Hlast Hns.
pose proof Hlay as ((HA & HS & HD) & Hbs & _).
destruct (register_grads_spec k fs G L st Hlay HG Hfs Hpart)
  as (G1 & L1 & Hreg & HL1 & HG1 & Hdom1 & Hmove1).
unfold _try_start_bucket_grad_sync. cbn [for_each].
rewrite Hreg. cbn [mbind result_bind].
set (filled_buckets := filter _ _).
assert (Hsb : is_Some (state_buckets st !! last)).
{ apply lookup_lt_is_Some. lia. }
destruct Hsb as (sb & Hsb).
assert (H1 : status (default GradientBucket_init (G1 !! last)) ≠ SYNCING
             ∧ grads_bucket (default GradientBucket_init (G1 !! last))
               = grads_bucket (default GradientBucket_init (G !! last))
             ∧ grads_shard (default GradientBucket_init (G1 !! last))
               = grads_shard (default GradientBucket_init (G !! last))).
{ destruct (Hmove1 last sb Hsb) as [->|(gb & Hgb & Hs & Hg & Hk & ->)]; [done|].
  rewrite Hgb. simpl. unfold registered. case_decide; simpl; by rewrite ?Hs. }
destruct H1 as (S1 & B1 & Sh1).
destruct filled_buckets as [|b0 bl] eqn:Efilled.
{ exists G1, L1. split_and!; try done. }
rewrite <- Efilled.
assert (Hnin : last ∉ filled_buckets).
{ unfold filled_buckets. intros Hin.
  apply list_elem_of_filter in Hin as ((Hn & _) & _). apply Hn. split; [done|].
  change (state_buckets (with_grads G1 (L ++ L1) st)) with (state_buckets st). lia. }
clear b0 bl Efilled.
destruct (sorted_bucket_ids_spec G1 (L ++ L1) st) as (Hnd & Hin).
assert (Hfl : ∀ bid, bid ∈ filled_buckets →
          ∃ gb, G1 !! bid = Some gb ∧ status gb = FULLY_FILLED).
{ intros bid Hb. apply list_elem_of_filter in Hb as ((_ & Hs) & Hb).
  apply Hin in Hb as (gb & Hgb). exists gb. split; [done|].
  unfold grads_bucket_at in Hs. simpl in Hs. by rewrite Hgb in Hs. }
destruct (start_spec filled_buckets G1 (L ++ L1) st) as (G2 & Hstart & HG2); try done.
{ by apply NoDup_filter. }
{ intros bid gb. by apply (buckets_wf_finish_ok st). }
{ intros bid Hb. destruct (Hfl _ Hb) as (gb & Hgb & Hs).
  destruct (HG1 _ _ Hgb) as (sb' & Hsb' & Hok).
  destruct Hok as (_ & _ & _ & G5 & _). destruct G5 as (g & Hg); [by right|].
  exists gb, g. split_and!; try done. by rewrite Hs. }
rewrite Hstart. eexists G2, _. rewrite <- app_assoc. split; [reflexivity|].
rewrite HG2, decide_False by done.
destruct (G1 !! last) as [gb|]; simpl in *; [|done].
rewrite finished_not_syncing by done. done.
Qed.
End GradSyncFacts.

(** ** Gradient synchronization as a whole *)
Lemma concat_fmap_all_nil {A B} (f : A → list B) (l : list A) :
  (∀ x, x ∈ l → f x = []) → concat (f <$> l) = [].
Proof.
  induction l as [|x l IH]; intros Hall; [done|]. simpl.
  rewrite (Hall x) by (by left). simpl. apply IH. intros y Hy. apply Hall. by right.
Qed.

(** [_finish_bucket_grad_sync] returns on every well-formed state.  A
    bucket that is not [SYNCING] stays as it is; a [SYNCING] bucket
    becomes [READY], its synchronized shard is added to the gradient shard
    (or becomes the gradient shard when there is none), and its bucket
    buffer and synchronized shard are released.  The configuration, the
    parameters, the optimizer state (buckets, fragments, step count), the
    parameter gradients, the hook flags and the parameter buckets stay as
    they are, and a second call changes nothing.  (The cached gradient
    norm, which the method discards when it finishes a bucket, is outside
    the model.) *)
Theorem finish_bucket_grad_sync_settles
    {T : Type} `{TensorElt T} `{Collectives T} `{!CollectivesOk T}
    (st : Optimizer T) :
  layout_wf st → grads_wf st →
  ∃ st', _finish_bucket_grad_sync st = Ok st'
    ∧ config st' = config st ∧ param_groups st' = param_groups st
    ∧ state_buckets st' = state_buckets st
    ∧ state_fragments st' = state_fragments st
    ∧ state_step st' = state_step st
    ∧ param_grad st' = param_grad st
    ∧ pre_forward_hook_is_enabled st' = pre_forward_hook_is_enabled st
    ∧ _params_buckets st' = _params_buckets st
    ∧ (∀ bid gb, _grads_buckets st' !! bid = Some gb → status gb ≠ SYNCING)
    ∧ (∀ bid, is_Some (_grads_buckets st' !! bid)
              ↔ is_Some (_grads_buckets st !! bid))
    ∧ (∀ bid gb, _grads_buckets st !! bid = Some gb → status gb ≠ SYNCING →
         _grads_buckets st' !! bid = Some gb)
    ∧ (∀ bid gb, _grads_buckets st !! bid = Some gb → status gb = SYNCING →
         ∃ gb' sy,
           _grads_buckets st' !! bid = Some gb'
           ∧ sync_grads_shard gb = Some sy
           ∧ status gb' = READY
           ∧ grads_shard gb'
             = Some (match grads_shard gb with
                     | None => sy
                     | Some sh => zip_with tadd sh sy
                     end)
           ∧ grads_bucket gb' = None ∧ sync_grads_shard gb' = None
           ∧ grads_generated gb' = grads_generated gb)
    ∧ _finish_bucket_grad_sync st' = Ok st'.
Proof.
  intros Hlay Hgr.
  assert (Hfin : ∀ bid gb, _grads_buckets st !! bid = Some gb → finish_ok gb)
    by (intros bid gb; by apply grads_wf_finish_ok).
  pose proof (finish_spec (_grads_buckets st) (status_log st) st Hfin) as Hrun.
  rewrite <- with_grads_eta in Hrun.
  eexists. split; [exact Hrun|]. do 8 (split; [done|]). simpl.
  split.
  { intros bid gb. rewrite lookup_fmap.
    destruct (_grads_buckets st !! bid); [|done]. intros [= <-].
    apply finished_status. }
  split.
  { intros bid. by rewrite lookup_fmap, fmap_is_Some. }
  split.
  { intros bid gb Hgb Hs. rewrite lookup_fmap, Hgb. simpl.
    by rewrite finished_not_syncing. }
  split.
  { intros bid gb Hgb Hs. destruct Hgr as (Hg & _).
    destruct (Hg _ _ Hgb) as (sb & Hsb & (_ & _ & G4 & _)).
    destruct (G4 Hs) as (sy & Hsy & _).
    eexists _, sy. rewrite lookup_fmap, Hgb. simpl. split; [done|].
    split; [done|]. unfold finished. rewrite decide_True by done. simpl.
    rewrite Hsy. by destruct (grads_shard gb). }
  set (G' := finished <$> _grads_buckets st).
  set (L' := status_log st ++ _).
  assert (Hns : ∀ bid gb, G' !! bid = Some gb → status gb ≠ SYNCING).
  { intros bid gb. unfold G'. rewrite lookup_fmap.
    destruct (_grads_buckets st !! bid); [|done]. intros [= <-].
    apply finished_status. }
  rewrite (finish_spec G' L' st).
  - rewrite concat_fmap_all_nil.
    + rewrite app_nil_r. do 2 f_equal. apply map_eq. intros bid.
      rewrite lookup_fmap.
      destruct (G' !! bid) as [gb|] eqn:E; simpl; [|done].
      rewrite finished_not_syncing; [done|]. by eapply Hns.
    + intros bid _. unfold finish_writes. rewrite decide_False; [done|].
      destruct (G' !! bid) as [gb|] eqn:E; simpl; [by eapply Hns|done].
  - intros bid gb Hgb Hs. by destruct (Hns _ _ Hgb).
Qed.

(** A bucket whose shard holds 5 is in flight with the gradient 3: the
    call leaves it [READY] with the shard 8, and a second call changes
    nothing. *)
Lemma finish_bucket_grad_sync_settles_witness :
  ∃ st st' gb gb' : _,
    run [OpSetGrad (0%nat, 0%nat) (replicate 10 5);
         OpAccumulate (0%nat, 0%nat) false;
         OpForce;
         OpSetGrad (0%nat, 0%nat) (replicate 10 3);
         OpAccumulate (0%nat, 0%nat) false]
      (example_mapped (example_config 32 64 1 0) [[replicate 10 7]]) = Ok st
    ∧ _grads_buckets st !! 0%nat = Some gb ∧ status gb = SYNCING
    ∧ _finish_bucket_grad_sync st = Ok st'
    ∧ _grads_buckets st' !! 0%nat = Some gb' ∧ status gb' = READY
    ∧ grads_shard gb' = Some (replicate 10 8 ++ replicate 54 0)
    ∧ _finish_bucket_grad_sync st' = Ok st'.
Proof.
  destruct (example_mapped_wf 32 64 1 0 [[replicate 10 7]] (replicate 10 7))
    as (Hwf & HG & Hg); try lia; [done|].
  set (st0 := example_mapped (example_config 32 64 1 0) [[replicate 10 7]]) in *.
  set (ops := [OpSetGrad (0%nat, 0%nat) (replicate 10 5);
               OpAccumulate (0%nat, 0%nat) false;
               OpForce;
               OpSetGrad (0%nat, 0%nat) (replicate 10 3);
               OpAccumulate (0%nat, 0%nat) false] : list (Op Z)).
  assert (Hgr0 : grads_wf st0).
  { split.
    - intros bid gb. by rewrite HG, lookup_empty.
    - intros k g. by rewrite Hg, lookup_empty. }
  assert (Hp : lookup_param st0 (0%nat, 0%nat) = Some (replicate 10 7))
    by (vm_compute; reflexivity).
  assert (Hh : hook_is_enabled (0%nat, 0%nat) st0 = false)
    by (vm_compute; reflexivity).
  assert (Hset : ∀ g : list Z, length g = 10%nat →
                   op_ok st0 (OpSetGrad (0%nat, 0%nat) g)).
  { intros g Hl. exists (replicate 10 7). split; [exact Hp|exact Hl]. }
  assert (Hacc : op_ok st0 (OpAccumulate (0%nat, 0%nat) false)).
  { split; [by exists (replicate 10 7)|exact Hh]. }
  destruct (run_step ops st0 Hwf Hgr0) as (st & Hrun & Hlay & Hgr & _).
  { unfold ops. apply Forall_cons_2; [by apply Hset|].
    apply Forall_cons_2; [exact Hacc|]. apply Forall_cons_2; [exact I|].
    apply Forall_cons_2; [by apply Hset|].
    apply Forall_cons_2; [exact Hacc|]. apply Forall_nil_2. }
  assert (Hvals : ∃ gb : GradientBucket Z,
            _grads_buckets (match run ops st0 with Ok s => s | _ => st0 end) !! 0%nat
            = Some gb
            ∧ status gb = SYNCING
            ∧ grads_shard gb = Some (replicate 10 5 ++ replicate 54 0)
            ∧ sync_grads_shard gb = Some (replicate 10 3 ++ replicate 54 0)).
  { eexists. split; [vm_compute; reflexivity|].
    split; [vm_compute; reflexivity|]. split; vm_compute; reflexivity. }
  rewrite Hrun in Hvals. destruct Hvals as (gb & Hgb & Hs & Hsh0 & Hsy0).
  destruct (finish_bucket_grad_sync_settles st Hlay Hgr)
    as (st' & Hfin & _ & _ & _ & _ & _ & _ & _ & _ & _ & _ & _ & Hsync & Hagain).
  destruct (Hsync 0%nat gb Hgb Hs) as (gb' & sy & Hgb' & Hsy & Hs' & Hsh & _).
  exists st, st', gb, gb'.
  split; [exact Hrun|]. split; [exact Hgb|]. split; [exact Hs|].
  split; [exact Hfin|]. split; [exact Hgb'|]. split; [exact Hs'|].
  split; [|exact Hagain].
  rewrite Hsh, Hsh0. rewrite Hsy0 in Hsy. injection Hsy as <-.
  vm_compute. reflexivity.
Defined.

Section GradSyncTheorems.
Context {T : Type} `{TensorElt T} `{Collectives T} `{!CollectivesOk T}.
Implicit Types (st : Optimizer T).

Lemma forced_ready st bid sb :
layout_wf st → grads_wf st → state_buckets st !! bid = Some sb →
∃ shard,
  status (forced (config st) sb (grads_bucket_at bid st)) = READY
  ∧ grads_bucket (forced (config st) sb (grads_bucket_at bid st)) = None
  ∧ grads_shard (forced (config st) sb (grads_bucket_at bid st)) = Some shard
  ∧ length shard = Z.to_nat (shard_size sb).
Proof.
intros Hlay Hgr Hsb.
pose proof (grads_bucket_at_ok st bid sb Hgr Hsb) as Hok.
destruct (forced_value (config st) sb _ Hok) as (Hs & Hb & shard & Hsh & _).
exists shard. split_and!; try done.
destruct Hlay as ((HA & HS & HD) & Hbs & _).
destruct (Hbs _ _ Hsb) as (B1 & B2 & _).
assert (Hok' : gbucket_ok sb (forced (config st) sb (grads_bucket_at bid st))).
{ apply gbucket_ok_forced; try done. lia. }
destruct Hok' as (_ & G3 & _). by apply G3.
Qed.
End GradSyncTheorems.

(** [grad_sync] returns on every well-formed state.  Afterwards every
    bucket of the optimizer state is [READY] and has a gradient shard of
    the shard size and no bucket buffer, the gradient of every parameter
    with a fragment in a bucket is [None], the gradients of the other
    parameters are untouched, and the configuration, the parameters, the
    optimizer state (buckets, fragments, step count), the hook flags and
    the parameter buckets stay as they are.  (No pre-forward hook is
    enabled; the cached gradient norm, which the synchronization
    discards, is outside the model.) *)
Theorem grad_sync_synchronizes
    {T : Type} `{TensorElt T} `{Collectives T} `{!CollectivesOk T}
    (st : Optimizer T) :
  layout_wf st → grads_wf st → (∀ k, hook_is_enabled k st = false) →
  ∃ st', grad_sync st = Ok st'
    ∧ layout_wf st' ∧ grads_wf st'
    ∧ config st' = config st ∧ param_groups st' = param_groups st
    ∧ state_buckets st' = state_buckets st
    ∧ state_fragments st' = state_fragments st
    ∧ state_step st' = state_step st
    ∧ pre_forward_hook_is_enabled st' = pre_forward_hook_is_enabled st
    ∧ _params_buckets st' = _params_buckets st
    ∧ (∀ bid sb, state_buckets st !! bid = Some sb →
         ∃ gb shard,
           _grads_buckets st' !! bid = Some gb
           ∧ status gb = READY
           ∧ grads_shard gb = Some shard
           ∧ length shard = Z.to_nat (shard_size sb)
           ∧ grads_bucket gb = None)
    ∧ (∀ bid, state_buckets st !! bid = None → _grads_buckets st' !! bid = None)
    ∧ (∀ k, k ∈ fragment_key <$> concat (fragments <$> state_buckets st) →
         param_grad st' !! k = None)
    ∧ (∀ k, k ∉ fragment_key <$> concat (fragments <$> state_buckets st) →
         param_grad st' !! k = param_grad st !! k).
Proof.
  intros Hlay Hgr _.
  destruct (grad_sync_run st Hlay Hgr)
    as (st1 & st' & Hrun & Hforce & Hstep1 & Hstep2 & Hfr1 & Hfr & Hdone & Hrest).
  pose proof Hstep1 as (Hlay1 & Hgr1 & _).
  pose proof Hstep2 as (Hlay' & Hgr' & _).
  destruct (force_step st1 Hlay1 Hgr1) as (st2 & Hrun2 & _ & _ & _ & _ & HG & Hnone).
  assert (st2 = st') as -> by congruence.
  assert (Ebs : state_buckets st1 = state_buckets st)
    by (by injection Hfr1 as _ _ -> _ _ _ _).
  injection Hfr as Ec Epg Ebs' Est Efs Eh Epb.
  exists st'. split_and!; try done.
  - intros bid sb Hsb. rewrite <- Ebs in Hsb.
    destruct (forced_ready st1 bid sb Hlay1 Hgr1 Hsb) as (shard & ? & ? & ? & ?).
    eexists _, shard. split; [by apply HG|done].
  - intros bid Hsb. apply Hnone. by rewrite Ebs.
Qed.

(** A gradient of ten elements is synchronized. *)
Lemma grad_sync_synchronizes_witness :
  ∃ st' gb,
    grad_sync
      (set_param_grad {[ (0%nat, 0%nat) := replicate 10 5 ]}
         (example_mapped (example_config 32 64 1 0) [[replicate 10 7]])) = Ok st'
    ∧ _grads_buckets st' !! 0%nat = Some gb ∧ status gb = READY
    ∧ param_grad st' !! (0%nat, 0%nat) = None.
Proof.
  destruct (example_mapped_wf 32 64 1 0 [[replicate 10 7]] (replicate 10 7))
    as (Hwf & HG & Hg); try lia; [done|].
  set (st := set_param_grad {[ (0%nat, 0%nat) := replicate 10 5 ]}
               (example_mapped (example_config 32 64 1 0) [[replicate 10 7]])).
  destruct (grad_sync_synchronizes st)
    as (st' & Hrun & _ & _ & _ & _ & _ & _ & _ & _ & _ & Hb & _ & Hk & _).
  { exact Hwf. }
  { split.
    - intros bid gb Hgb.
      change (_grads_buckets st)
        with (_grads_buckets
                (example_mapped (example_config 32 64 1 0) [[replicate 10 7]])) in Hgb.
      by rewrite HG, lookup_empty in Hgb.
    - intros k g Hkg.
      change (param_grad st) with ({[ (0%nat, 0%nat) := replicate 10 5 ]}
                                   : gmap ParamKey (list Z)) in Hkg.
      apply lookup_singleton_Some in Hkg as (<- & <-).
      by exists (replicate 10 7). }
  { done. }
  destruct (state_buckets st !! 0%nat) as [sb|] eqn:Hsb; [|by vm_compute in Hsb].
  destruct (Hb 0%nat sb Hsb) as (gb & shard & Hgb & Hs & _).
  exists st', gb. split; [done|]. split; [done|]. split; [done|].
  apply Hk. vm_compute. by left.
Defined.

(** [zero_grad] discards what the gradient buckets hold, whatever their
    status: a [grad_sync] right after [zero_grad(set_to_none=True)]
    returns with every bucket [READY], without buffer and with a gradient
    shard of zeros.  [zero_grad] removes every gradient bucket; with
    [set_to_none] every parameter gradient becomes [None], otherwise
    every gradient that exists is filled with zeros; the configuration,
    the parameters, the optimizer state (buckets, fragments, step count),
    the hook flags and the parameter buckets stay as they are.  (No
    pre-forward hook is enabled; the gradient scale, the cached gradient
    norm and the overflow buffer, which [zero_grad] resets, are outside
    the model.) *)
Theorem zero_grad_discards_gradients
    {T : Type} `{TensorElt T} `{Collectives T} `{!CollectivesOk T}
    (st : Optimizer T) (set_to_none : bool) :
  layout_wf st → grads_wf st → (∀ k, hook_is_enabled k st = false) →
  (∃ st', grad_sync (zero_grad true st) = Ok st'
     ∧ (∀ bid sb, state_buckets st !! bid = Some sb →
          ∃ gb, _grads_buckets st' !! bid = Some gb
            ∧ status gb = READY
            ∧ grads_shard gb = Some (replicate (Z.to_nat (shard_size sb)) tzero)
            ∧ grads_bucket gb = None)
     ∧ ∀ k, param_grad st' !! k = None)
  ∧ _grads_buckets (zero_grad set_to_none st) = ∅
  ∧ (∀ k, param_grad (zero_grad set_to_none st) !! k
          = if set_to_none then None
            else (λ g, replicate (length g) tzero) <$> param_grad st !! k)
  ∧ config (zero_grad set_to_none st) = config st
  ∧ param_groups (zero_grad set_to_none st) = param_groups st
  ∧ state_buckets (zero_grad set_to_none st) = state_buckets st
  ∧ state_fragments (zero_grad set_to_none st) = state_fragments st
  ∧ state_step (zero_grad set_to_none st) = state_step st
  ∧ pre_forward_hook_is_enabled (zero_grad set_to_none st)
    = pre_forward_hook_is_enabled st
  ∧ _params_buckets (zero_grad set_to_none st) = _params_buckets st.
Proof.
  intros Hlay Hgr _. split.
  2:{ split; [by destruct set_to_none|]. split.
      { intros k. destruct set_to_none; simpl; [by rewrite lookup_empty|].
        by rewrite lookup_fmap. }
      by destruct set_to_none. }
  pose proof (zero_grad_step true st Hlay Hgr) as (Hlay0 & Hgr0 & _).
  set (st0 := zero_grad true st) in *.
  unfold grad_sync. rewrite for_each_id.
  - simpl. destruct (force_step st0 Hlay0 Hgr0) as (st' & Hrun & _ & Eg & _ & _ & HG & _).
    exists st'. split; [done|]. split.
    + intros bid sb Hsb.
      eexists. split; [by apply (HG bid sb)|].
      unfold grads_bucket_at. simpl. rewrite lookup_empty. simpl.
      unfold forced, filled, finished. simpl. done.
    + intros k. rewrite Eg. simpl. by rewrite lookup_empty.
  - intros k Hk.
    change (state_buckets st0) with (state_buckets st) in Hk.
    destruct (layout_keys_initialized st k Hlay Hk) as ((p & Hp) & _).
    change (lookup_param st0 k) with (lookup_param st k). rewrite Hp.
    simpl. by rewrite lookup_empty.
Qed.

(** After an accumulated gradient, [zero_grad] and [grad_sync] leave a
    shard of zeros. *)
Lemma zero_grad_discards_gradients_witness :
  ∃ st' gb,
    grad_sync
      (zero_grad true
         (set_param_grad {[ (0%nat, 0%nat) := replicate 10 5 ]}
            (example_mapped (example_config 32 64 1 0) [[replicate 10 7]])))
    = Ok st'
    ∧ _grads_buckets st' !! 0%nat = Some gb
    ∧ grads_shard gb = Some (replicate 64 0).
Proof.
  destruct (example_mapped_wf 32 64 1 0 [[replicate 10 7]] (replicate 10 7))
    as (Hwf & HG & Hg); try lia; [done|].
  set (st := set_param_grad {[ (0%nat, 0%nat) := replicate 10 5 ]}
               (example_mapped (example_config 32 64 1 0) [[replicate 10 7]])).
  destruct (zero_grad_discards_gradients st true) as ((st' & Hrun & Hb & _) & _).
  { exact Hwf. }
  { split.
    - intros bid gb Hgb.
      change (_grads_buckets st)
        with (_grads_buckets
                (example_mapped (example_config 32 64 1 0) [[replicate 10 7]])) in Hgb.
      by rewrite HG, lookup_empty in Hgb.
    - intros k g Hkg.
      change (param_grad st) with ({[ (0%nat, 0%nat) := replicate 10 5 ]}
                                   : gmap ParamKey (list Z)) in Hkg.
      apply lookup_singleton_Some in Hkg as (<- & <-).
      by exists (replicate 10 7). }
  { done. }
  destruct (state_buckets st !! 0%nat) as [sb|] eqn:Hsb; [|by vm_compute in Hsb].
  destruct (Hb 0%nat sb Hsb) as (gb & Hgb & _ & Hsh & _).
  exists st', gb. split; [done|]. split; [done|].
  vm_compute in Hsb. injection Hsb as <-. done.
Defined.

(** [_try_start_bucket_grad_sync(params=[param], ignore_last_bucket=True)],
    called when the gradient of [param] has been copied into its buckets,
    does not start the synchronization of the last bucket: it returns with
    the last bucket not [SYNCING] and with the bucket buffer and the
    gradient shard of that bucket as they were, also when all fragments of
    the bucket have their gradients. *)
Theorem try_start_ignores_last_bucket
    {T : Type} `{TensorElt T} `{Collectives T} `{!CollectivesOk T}
    (st : Optimizer T) (k : ParamKey) (fs : list ParameterFragment) (last : nat) :
  layout_wf st → grads_wf st → state_fragments st !! k = Some fs →
  (∀ f, f ∈ fs →
     ∃ gb, _grads_buckets st !! bucket_id f = Some gb
           ∧ status gb = PARTIALLY_FILLED) →
  Z.of_nat last = Z.of_nat (length (state_buckets st)) - 1 →
  status (grads_bucket_at last st) ≠ SYNCING →
  ∃ st', _try_start_bucket_grad_sync [k] true st = Ok st'
    ∧ non_grad_state st' = non_grad_state st
    ∧ status (grads_bucket_at last st') ≠ SYNCING
    ∧ grads_bucket (grads_bucket_at last st') = grads_bucket (grads_bucket_at last st)
    ∧ grads_shard (grads_bucket_at last st') = grads_shard (grads_bucket_at last st).
Proof.
  intros Hlay Hgr Hfs Hpart Hlast Hns.
  destruct (try_start_skips_last k fs (_grads_buckets st) (status_log st) st last)
    as (G' & Lnew & Hrun & Hs & Hb & Hsh); try done.
  { exact (proj1 Hgr). }
  rewrite <- with_grads_eta in Hrun.
  eexists. split; [exact Hrun|]. split; [done|]. done.
Qed.

(** One parameter fills the only bucket: with [ignore_last_bucket] the
    bucket becomes [FULLY_FILLED] and is not started. *)
Lemma try_start_ignores_last_bucket_witness :
  ∃ st1 st',
    _grad_copy (0%nat, 0%nat)
      (set_param_grad {[ (0%nat, 0%nat) := replicate 64 5 ]}
         (example_mapped (example_config 32 64 1 0) [[replicate 64 7]])) = Ok st1
    ∧ _try_start_bucket_grad_sync [(0%nat, 0%nat)] true st1 = Ok st'
    ∧ status (grads_bucket_at 0 st') ≠ SYNCING.
Proof.
  destruct (example_mapped_wf 32 64 1 0 [[replicate 64 7]] (replicate 64 7))
    as (Hwf & HG & Hg); try lia; [done|].
  set (st := set_param_grad {[ (0%nat, 0%nat) := replicate 64 5 ]}
               (example_mapped (example_config 32 64 1 0) [[replicate 64 7]])).
  destruct (grad_copy_step (0%nat, 0%nat) st) as (st1 & fs & Hcopy & Hstep & _ & Hfs & Hpart).
  { exact Hwf. }
  { split.
    - intros bid gb Hgb.
      change (_grads_buckets st)
        with (_grads_buckets
                (example_mapped (example_config 32 64 1 0) [[replicate 64 7]])) in Hgb.
      by rewrite HG, lookup_empty in Hgb.
    - intros k g Hkg.
      change (param_grad st) with ({[ (0%nat, 0%nat) := replicate 64 5 ]}
                                   : gmap ParamKey (list Z)) in Hkg.
      apply lookup_singleton_Some in Hkg as (<- & <-).
      by exists (replicate 64 7). }
  { by exists (replicate 64 7). }
  destruct Hstep as (Hlay1 & Hgr1 & _).
  assert (Hst1 : length (state_buckets st1) = 1%nat
                 ∧ status (grads_bucket_at 0 st1) = PARTIALLY_FILLED).
  { vm_compute in Hcopy. injection Hcopy as <-. by vm_compute. }
  destruct Hst1 as (Hlen & Hs0).
  destruct (try_start_ignores_last_bucket st1 (0%nat, 0%nat) fs 0 Hlay1 Hgr1 Hfs Hpart)
    as (st' & Hrun & _ & Hns & _).
  { rewrite Hlen. lia. }
  { by rewrite Hs0. }
  by exists st1, st'.
Defined.

Section NoSync.
Context {T : Type} `{TensorElt T} `{Collectives T} `{!CollectivesOk T}.
Implicit Types (st : Optimizer T).

Lemma copy_edge_not_syncing (w : StatusWrite) : copy_edge w → sw_new w ≠ SYNCING.
Proof. intros [(_ & E)|(_ & E)]; by rewrite E. Qed.

Lemma restore_config st st1 :
  config st1
  = set_overlap_grad_sync false (set_greedy_grad_copy false (config st)) ∨
  config st1
  = set_overlap_grad_sync false (set_greedy_grad_copy true (config st)) →
  set_overlap_grad_sync (overlap_grad_sync (config st))
    (set_greedy_grad_copy (greedy_grad_copy (config st)) (config st1))
  = config st.
Proof. intros [->| ->]; by destruct (config st). Qed.
End NoSync.

(** The post-backward hook of a parameter inside [with no_sync(greedy)]:
    the call returns with the flags [greedy_grad_copy] and
    [overlap_grad_sync] of the optimizer as they were before the block, the
    parameter initialised, and no bucket set to [SYNCING], also when the
    optimizer overlaps gradient synchronization.  With
    [greedy_grad_copy=False] the gradient stays in [param.grad] and the
    gradient buckets are untouched; with [greedy_grad_copy=True] the
    gradient is copied into its buckets, left [PARTIALLY_FILLED], and
    [param.grad] is deleted. *)
Theorem no_sync_defers_synchronization
    {T : Type} `{TensorElt T} `{Collectives T} `{!CollectivesOk T}
    (st : Optimizer T) (k : ParamKey) (greedy : bool) :
  layout_wf st → grads_wf st → is_Some (lookup_param st k) →
  hook_is_enabled k st = false →
  ∃ st' fs Lnew,
    no_sync greedy (post_backward_hook k) st = Ok st'
    ∧ config st' = config st
    ∧ state_fragments st' !! k = Some fs
    ∧ status_log st' = status_log st ++ Lnew
    ∧ Forall (λ w, sw_new w ≠ SYNCING) Lnew
    ∧ if greedy
      then param_grad st' = delete k (param_grad st)
           ∧ ∀ f, f ∈ fs →
               ∃ gb, _grads_buckets st' !! bucket_id f = Some gb
                     ∧ status gb = PARTIALLY_FILLED
      else param_grad st' = param_grad st
           ∧ _grads_buckets st' = _grads_buckets st ∧ Lnew = [].
Proof.
  intros Hlay Hgr Hp Hflag.
  unfold no_sync.
  set (st0 := set_config
                (set_overlap_grad_sync false
                   (set_greedy_grad_copy greedy (config st))) st).
  assert (Hlay0 : layout_wf st0) by exact Hlay.
  assert (Hgr0 : grads_wf st0) by exact Hgr.
  assert (Hp0 : is_Some (lookup_param st0 k)) by exact Hp.
  unfold post_backward_hook.
  change (hook_is_enabled k st0) with (hook_is_enabled k st). rewrite Hflag.
  set (need := bool_decide (state_fragments st0 !! k = None)).
  assert (∃ st1, (if need then _init_param_state k st0 else Ok st0) = Ok st1
            ∧ layout_wf st1 ∧ grads_wf st1
            ∧ is_Some (state_fragments st1 !! k)
            ∧ config st1 = config st0 ∧ param_groups st1 = param_groups st
            ∧ param_grad st1 = param_grad st
            ∧ _grads_buckets st1 = _grads_buckets st
            ∧ status_log st1 = status_log st)
    as (st1 & -> & Hlay1 & Hgr1 & Hfs1 & Ec1 & Epg1 & Egrad1 & EG1 & EL1).
  { unfold need. case_bool_decide as Hn.
    - destruct Hp0 as (p & Hp0).
      destruct (init_param_state_wf k st0 p Hlay0 Hp0)
        as (st1 & Hrun & Hlay1 & Hfs & Ec & Epg & Egrad & Eflag & EG & EL & _ & _
            & Hext & _).
      exists st1. split_and!; try done.
      destruct (init_param_state_step k st0 Hlay0 Hgr0 (ex_intro _ p Hp0))
        as (st1' & Hrun' & Hstep & _).
      rewrite Hrun in Hrun'. injection Hrun' as <-. exact (proj1 (proj2 Hstep)).
    - exists st0. split_and!; try done.
      destruct (state_fragments st0 !! k); [eauto|done]. }
  simpl. rewrite Ec1.
  change (greedy_grad_copy (config st0)) with greedy.
  destruct greedy.
  - assert (Hp1 : is_Some (lookup_param st1 k)).
    { unfold lookup_param. rewrite Epg1. exact Hp. }
    destruct Hp1 as (p1 & Hp1).
    destruct (grad_copy_run k st1 p1 Hlay1 Hgr1 Hp1)
      as (st2 & fs & Hlay2 & Hfs & Ec & Epg & Egrad & Eflag & EG & EL & Estep & Epb
          & Hext & Hmono & HG0 & Hrun).
    destruct (Hrun (λ pre G, ∀ f, f ∈ pre →
                      ∃ gb, G !! bucket_id f = Some gb ∧ status gb = PARTIALLY_FILLED))
      as (G' & Lnew & Hcopy & HL & HG' & HI).
    { intros pre f suf G G1 sb Heq HG HI Hsb Hb Ho f' Hf'.
      destruct (decide (bucket_id f' = bucket_id f)) as [Eb|Hne].
      - rewrite Eb, Hb. eexists. split; [done|]. done.
      - apply elem_of_app in Hf' as [Hf'|Hf'].
        + destruct (HI _ Hf') as (gb & Hgb & Hs).
          destruct (Ho _ Hne) as [E|E]; rewrite E, Hgb; simpl.
          * eauto.
          * eexists. split; [done|]. rewrite finished_not_syncing; [done|].
            by rewrite Hs.
        + apply list_elem_of_singleton in Hf'. by subst. }
    { intros f Hf. by apply elem_of_nil in Hf. }
    rewrite Hcopy. simpl.
    change (overlap_grad_sync (config st2)) with (overlap_grad_sync (config st2)).
    rewrite Ec, Ec1. simpl.
    eexists _, fs, Lnew. split; [done|]. simpl.
    split. { apply restore_config. right. by rewrite Ec, Ec1. }
    split; [done|]. split; [by rewrite EL1|].
    split. { eapply Forall_impl; [exact HL|]. apply copy_edge_not_syncing. }
    split; [by rewrite Egrad, Egrad1|]. exact HI.
  - destruct Hfs1 as (fs & Hfs).
    eexists _, fs, []. split; [done|]. simpl.
    split. { apply restore_config. left. by rewrite Ec1. }
    split; [done|]. split; [by rewrite EL1, app_nil_r|].
    split; [by constructor|]. done.
Qed.

(** A parameter that fills the only bucket: outside [no_sync] its
    post-backward hook starts the synchronization of the bucket, inside
    [no_sync(greedy_grad_copy=True)] the bucket is left partially filled. *)
Lemma no_sync_defers_synchronization_witness :
  let st := set_param_grad {[ (0%nat, 0%nat) := replicate 64 5 ]}
              (example_mapped (example_config 32 64 1 0) [[replicate 64 7]]) in
  ∃ st' gb,
    no_sync true (post_backward_hook (0%nat, 0%nat)) st = Ok st'
    ∧ config st' = config st
    ∧ _grads_buckets st' !! 0%nat = Some gb
    ∧ status gb = PARTIALLY_FILLED
    ∧ param_grad st' !! (0%nat, 0%nat) = None.
Proof.
  intros st.
  destruct (example_mapped_wf 32 64 1 0 [[replicate 64 7]] (replicate 64 7))
    as (Hwf & HG & Hg); try lia; [done|].
  destruct (no_sync_defers_synchronization st (0%nat, 0%nat) true)
    as (st' & fs & Lnew & Hrun & Ec & Hfs & _ & _ & Egrad & Hpart).
  { exact Hwf. }
  { split.
    - intros bid gb Hgb.
      change (_grads_buckets st)
        with (_grads_buckets
                (example_mapped (example_config 32 64 1 0) [[replicate 64 7]])) in Hgb.
      by rewrite HG, lookup_empty in Hgb.
    - intros k g Hkg.
      change (param_grad st) with ({[ (0%nat, 0%nat) := replicate 64 5 ]}
                                   : gmap ParamKey (list Z)) in Hkg.
      apply lookup_singleton_Some in Hkg as (<- & <-).
      by exists (replicate 64 7). }
  { by exists (replicate 64 7). }
  { done. }
  assert (Hf : ∃ f, f ∈ fs ∧ bucket_id f = 0%nat).
  { vm_compute in Hrun. injection Hrun as <-. vm_compute in Hfs.
    injection Hfs as <-. eexists. split; [by apply list_elem_of_here|done]. }
  destruct Hf as (f & Hf & Hb).
  destruct (Hpart f Hf) as (gb & Hgb & Hs). rewrite Hb in Hgb.
  exists st', gb. split; [done|]. split; [done|]. split; [done|]. split; [done|].
  rewrite Egrad. by rewrite lookup_delete_eq.
Defined.

Section ParamView.
Context {T : Type} `{TensorElt T} `{Collectives T}.
Implicit Types (st : Optimizer T) (pb : ParameterBucket.t T).

Lemma head_filter_fmap {X} (P : list (nat * X)) (g : nat * X → nat * X) (b : nat) :
(∀ x, (g x).1 = x.1) →
head (filter (λ x, x.1 = b) (g <$> P)) = g <$> head (filter (λ x, x.1 = b) P).
Proof.
intros Hg. induction P as [|x P IH]; [done|]. rewrite fmap_cons.
destruct (decide (x.1 = b)) as [E|E].
- rewrite !filter_cons_True; [done|done|by rewrite Hg].
- rewrite !filter_cons_False; [done|done|by rewrite Hg].
Qed.

Lemma head_filter_key {X} (P : list (nat * X)) (b : nat) x :
head (filter (λ x, x.1 = b) P) = Some x → x.1 = b ∧ x ∈ P.
Proof.
intros Hh. apply head_Some_elem_of in Hh.
apply list_elem_of_filter in Hh. done.
Qed.

Lemma params_bucket_at_update bid f st b :
params_bucket_at b (update_params_bucket bid f st)
= if decide (b = bid) then f <$> params_bucket_at b st
  else params_bucket_at b st.
Proof.
unfold params_bucket_at, update_params_bucket. simpl.
rewrite head_filter_fmap by (intros x; by destruct (decide _)).
destruct (head _) as [x|] eqn:Hh; [|by destruct (decide _)].
apply head_filter_key in Hh as (Hx & _). simpl.
destruct (decide (b = bid)) as [->|Hne].
- by rewrite decide_True.
- rewrite decide_False; [done|congruence].
Qed.

Lemma params_bucket_at_finish st b :
params_bucket_at b (_finish_bucket_param_sync st)
= finished_param <$> params_bucket_at b st.
Proof.
unfold params_bucket_at, _finish_bucket_param_sync. simpl.
rewrite head_filter_fmap by (intros x; by destruct (decide _)).
destruct (head _) as [x|]; [|done]. simpl. unfold finished_param.
by destruct (decide _).
Qed.

Lemma params_bucket_at_delete bid st b :
params_bucket_at b (delete_params_bucket bid st)
= if decide (b = bid) then None else params_bucket_at b st.
Proof.
unfold params_bucket_at, delete_params_bucket. simpl.
induction (_params_buckets st) as [|x P IH]; [by destruct (decide _)|].
destruct (decide (x.1 = bid)) as [E|E].
- rewrite (filter_cons_False (λ x, x.1 ≠ bid)) by (by intros ?).
  rewrite IH. destruct (decide (b = bid)) as [->|Hne]; [done|].
  rewrite (filter_cons_False (λ x, x.1 = b)); [done|congruence].
- rewrite (filter_cons_True (λ x, x.1 ≠ bid)) by done.
  destruct (decide (x.1 = b)) as [Eb|Eb].
  + rewrite !(filter_cons_True (λ x, x.1 = b)) by done. simpl.
    rewrite decide_False; [done|congruence].
  + rewrite !(filter_cons_False (λ x, x.1 = b)) by done. exact IH.
Qed.

Lemma pending_update bid f st :
pending (update_params_bucket bid f st) = pending st.
Proof.
unfold pending, update_params_bucket. simpl. rewrite <- list_fmap_compose.
apply list_fmap_ext. intros i x Hx. simpl. by destruct (decide _).
Qed.

Lemma pending_finish st : pending (_finish_bucket_param_sync st) = pending st.
Proof.
unfold pending, _finish_bucket_param_sync. simpl. rewrite <- list_fmap_compose.
apply list_fmap_ext. intros i x Hx. simpl. by destruct (decide _).
Qed.

Lemma pending_delete bid st :
pending (delete_params_bucket bid st) = filter (λ b, b ≠ bid) (pending st).
Proof.
unfold pending, delete_params_bucket. simpl.
induction (_params_buckets st) as [|x P IH]; [done|]. rewrite fmap_cons.
destruct (decide (x.1 = bid)) as [E|E].
- rewrite (filter_cons_False (λ x, x.1 ≠ bid)) by (by intros ?).
  rewrite (filter_cons_False (λ b, b ≠ bid)) by (by intros ?). exact IH.
- rewrite (filter_cons_True (λ x, x.1 ≠ bid)) by done.
  rewrite (filter_cons_True (λ b, b ≠ bid)) by done. by rewrite fmap_cons, IH.
Qed.

Lemma pending_is_Some st b : is_Some (params_bucket_at b st) ↔ b ∈ pending st.
Proof.
unfold params_bucket_at, pending.
induction (_params_buckets st) as [|x P IH].
- split; [by intros [? ?]|by intros ?%elem_of_nil].
- rewrite fmap_cons. destruct (decide (x.1 = b)) as [E|E].
  + rewrite filter_cons_True by done. simpl. split; [|by eauto].
    intros _. rewrite E. by left.
  + rewrite filter_cons_False by done. rewrite IH. split; [by right|].
    intros [?|?]%elem_of_cons; [congruence|done].
Qed.

Lemma pending_head st bid pb P :
_params_buckets st = (bid, pb) :: P → params_bucket_at bid st = Some pb.
Proof.
intros E. unfold params_bucket_at. rewrite E.
by rewrite filter_cons_True by done.
Qed.
End ParamView.

Section ParamStart.
Context {T : Type} `{TensorElt T} `{Collectives T}.
Implicit Types (st : Optimizer T) (pb : ParameterBucket.t T).

Lemma for_each_pointwise (c : Config)
  (body : nat → Optimizer T → result (Optimizer T))
  (g : ParameterBucket.t T → ParameterBucket.t T)
  (ok : ParameterBucket.t T → Prop) (l : list nat) :
(∀ bid st pb, config st = c → params_bucket_at bid st = Some pb → ok pb →
   ∃ st', body bid st = Ok st' ∧ bucket_step g [bid] st st') →
NoDup l →
∀ st, config st = c →
  (∀ bid, bid ∈ l → ∃ pb, params_bucket_at bid st = Some pb ∧ ok pb) →
  ∃ st', for_each body l st = Ok st' ∧ bucket_step g l st st'.
Proof.
intros Hbody. induction l as [|x l IH]; intros Hnd st Hc Hl.
- exists st. split; [done|]. split_and!; try done.
- apply NoDup_cons in Hnd as (Hx & Hnd).
  destruct (Hl x) as (pb & Hpb & Hok); [by left|].
  destruct (Hbody x st pb Hc Hpb Hok) as (s1 & Hrun1 & E1 & P1 & N1 & B1).
  destruct (IH Hnd s1) as (s2 & Hrun2 & E2 & P2 & N2 & B2).
  { rewrite <- Hc. by injection E1. }
  { intros bid Hbid. rewrite B1. rewrite decide_False.
    - apply Hl. by right.
    - intros ->%list_elem_of_singleton. done. }
  exists s2. split; [simpl; by rewrite Hrun1|].
  split; [congruence|]. split; [congruence|]. split; [congruence|].
  intros b. rewrite B2, B1.
  destruct (decide (b = x)) as [->|Hne].
  + rewrite (decide_False (P := x ∈ l)) by done.
    rewrite decide_True by (by apply list_elem_of_singleton).
    rewrite decide_True by (by left). done.
  + rewrite (decide_False (P := b ∈ [x]))
      by (by intros ?%list_elem_of_singleton).
    destruct (decide (b ∈ l)) as [Hin|Hin].
    * by rewrite decide_True by (by right).
    * rewrite decide_False; [done|]. by intros [?|?]%elem_of_cons.
Qed.

Lemma start_param_bucket_step bid st pb :
0 < distributed_size (config st) →
params_bucket_at bid st = Some pb → is_Some (ParameterBucket.params_shard pb) →
∃ st', start_param_bucket bid st = Ok st'
  ∧ bucket_step (started_param (config st)) [bid] st st'.
Proof.
intros HD Hpb (sh & Hsh). unfold start_param_bucket. rewrite Hpb.
set (c := config st).
assert (∃ x,
  (if distributed_size c =? 1 then Ok (ParameterBucket.params_shard pb)
   else match ParameterBucket.params_bucket pb with
        | Some pb0 => Ok (Some pb0)
        | None =>
          match ParameterBucket.params_shard pb with
          | None => Raise AttributeError
          | Some sh => z ← zeros (Z.of_nat (length sh) * distributed_size c);
                       Ok (Some z)
          end
        end) = Ok x
  ∧ x = ParameterBucket.params_bucket (started_param c pb)) as (x & -> & Hx).
{ unfold started_param. simpl. destruct (distributed_size c =? 1); [by eauto|].
  destruct (ParameterBucket.params_bucket pb); [by eauto|].
  rewrite Hsh. unfold zeros.
  destruct (Z.ltb_spec (Z.of_nat (length sh) * distributed_size c) 0) as [Hneg|_].
  { pose proof (Z.mul_nonneg_nonneg (Z.of_nat (length sh)) (distributed_size c)).
    unfold c in *. lia. }
  simpl. eauto. }
simpl. eexists. split; [done|]. split_and!; try done.
- apply pending_update.
- intros b. rewrite params_bucket_at_update.
  destruct (decide (b = bid)) as [->|Hne].
  + rewrite decide_True by (by apply list_elem_of_singleton).
    rewrite Hpb. simpl. by rewrite Hx.
  + by rewrite decide_False by (by intros ?%list_elem_of_singleton).
Qed.

Lemma all_gather_bucket_step bid st pb :
params_bucket_at bid st = Some pb → is_Some (ParameterBucket.params_shard pb) →
∃ st', all_gather_bucket bid st = Ok st'
  ∧ bucket_step (gathered_param (config st)) [bid] st st'.
Proof.
intros Hpb (sh & Hsh). unfold all_gather_bucket. rewrite Hpb, Hsh.
eexists. split; [done|]. split_and!; try done.
- apply pending_update.
- intros b. rewrite params_bucket_at_update.
  destruct (decide (b = bid)) as [->|Hne].
  + rewrite decide_True by (by apply list_elem_of_singleton).
    rewrite Hpb. simpl. unfold gathered_param. by rewrite Hsh.
  + by rewrite decide_False by (by intros ?%list_elem_of_singleton).
Qed.

Lemma start_bucket_param_sync_run ids st :
0 < distributed_size (config st) → NoDup ids →
(∀ b pb, b ∈ ids → params_bucket_at b st = Some pb →
   ParameterBucket.status pb = ParameterStatus.SHARDED →
   is_Some (ParameterBucket.params_shard pb)) →
∃ st', _start_bucket_param_sync ids st = Ok st'
  ∧ non_param_state st' = non_param_state st
  ∧ param_groups st' = param_groups st
  ∧ pending st' = pending st
  ∧ ∀ b, params_bucket_at b st'
         = start_sync (config st) ids b <$> params_bucket_at b st.
Proof.
intros HD Hnd Hids. unfold _start_bucket_param_sync.
set (s0 := _finish_bucket_param_sync st).
set (buckets := filter (λ bucket_id,
                 ParameterBucket.status <$> params_bucket_at bucket_id s0
                 = Some ParameterStatus.SHARDED) ids).
set (c := config st) in *.
assert (Hb : ∀ b, b ∈ buckets ↔
          b ∈ ids ∧ ∃ pb, params_bucket_at b st = Some pb
                      ∧ ParameterBucket.status pb = ParameterStatus.SHARDED).
{ intros b. unfold buckets. rewrite list_elem_of_filter.
  unfold s0. rewrite params_bucket_at_finish.
  destruct (params_bucket_at b st) as [pb|]; simpl.
  - unfold finished_param. destruct (decide _) as [E|E]; simpl.
    + split; [by intros ([=] & _)|]. intros (_ & pb' & [= <-] & E'). congruence.
    + split.
      * intros ([= E'] & Hin). eauto.
      * intros (Hin & pb' & [= <-] & E'). by rewrite E'.
  - split; [by intros ([=] & _)|]. by intros (_ & pb' & [=] & _). }
assert (Hnd' : NoDup buckets) by (by apply NoDup_filter).
destruct (for_each_pointwise c start_param_bucket (started_param c)
            (λ pb, is_Some (ParameterBucket.params_shard pb)) buckets)
  with (st := s0) as (s1 & -> & E1 & P1 & N1 & B1); try done.
{ intros bid s pb Ec Hpb Hok. rewrite <- Ec.
  apply (start_param_bucket_step bid s pb); try done. by rewrite Ec. }
{ intros b (Hin & pb & Hpb & Es)%Hb. exists pb. split.
  - unfold s0. rewrite params_bucket_at_finish, Hpb. simpl.
    unfold finished_param. rewrite decide_False; [done|]. by rewrite Es.
  - by apply (Hids b pb). }
simpl.
assert (Ec1 : config s1 = c) by (by injection E1).
rewrite Ec1.
assert (∃ s2,
  (if 1 <? distributed_size c then for_each all_gather_bucket buckets s1
   else Ok s1) = Ok s2
  ∧ bucket_step (if 1 <? distributed_size c then gathered_param c else id)
      buckets s1 s2) as (s2 & -> & E2 & P2 & N2 & B2).
{ destruct (1 <? distributed_size c).
  - apply (for_each_pointwise c all_gather_bucket (gathered_param c)
             (λ pb, is_Some (ParameterBucket.params_shard pb))); try done.
    + intros bid s pb Ec Hpb Hok. rewrite <- Ec.
      by apply (all_gather_bucket_step bid s pb).
    + intros b Hin. pose proof Hin as (Hin' & pb & Hpb & Es)%Hb.
      rewrite B1. rewrite decide_True by done.
      unfold s0. rewrite params_bucket_at_finish, Hpb. simpl.
      eexists. split; [done|]. unfold finished_param.
      rewrite decide_False by (by rewrite Es). simpl. by apply (Hids b pb).
  - exists s1. split; [done|]. split_and!; try done.
    intros b. destruct (decide _); [|done].
    by destruct (params_bucket_at b s1). }
exists s2. split; [done|]. split; [by rewrite E2, E1|].
split; [by rewrite P2, P1|].
split. { rewrite N2, N1. apply pending_finish. }
intros b. rewrite B2, B1. unfold s0. rewrite params_bucket_at_finish.
destruct (params_bucket_at b st) as [pb|] eqn:Hpb; simpl;
  [|by repeat destruct (decide _)].
unfold start_sync.
destruct (decide (b ∈ buckets)) as [Hin|Hin].
- pose proof Hin as (Hin' & pb' & Hpb' & Es)%Hb.
  rewrite Hpb in Hpb'. injection Hpb' as <-.
  rewrite decide_True by done. simpl.
  unfold finished_param. rewrite decide_False by (by rewrite Es).
  by destruct (1 <? distributed_size c).
- rewrite decide_False; [done|]. intros (Hin' & Es). apply Hin, Hb. eauto.
Qed.

Lemma finished_param_values c pb :
bucket_values c (finished_param pb) = bucket_values c pb
∧ ParameterBucket.params_updated (finished_param pb)
  = ParameterBucket.params_updated pb
∧ (ParameterBucket.status pb ≠ ParameterStatus.SHARDED →
   ParameterBucket.status (finished_param pb) = ParameterStatus.READY)
∧ (ParameterBucket.status pb = ParameterStatus.SHARDED → finished_param pb = pb).
Proof.
destruct pb as [sh bk [] u]; unfold finished_param, bucket_values; simpl;
  split_and!; done.
Qed.

Lemma start_sync_values c ids b pb :
0 < distributed_size c → is_Some (bucket_values c pb) →
bucket_values c (finished_param (start_sync c ids b pb)) = bucket_values c pb
∧ ParameterBucket.params_updated (finished_param (start_sync c ids b pb))
  = ParameterBucket.params_updated pb
∧ (b ∈ ids →
   ParameterBucket.status (finished_param (start_sync c ids b pb))
   = ParameterStatus.READY).
Proof.
intros HD (v & Hv). unfold start_sync.
destruct (decide (b ∈ ids ∧ _)) as [(Hin & Es)|Hn].
- destruct pb as [sh bk s u]. simpl in Es. subst s.
  unfold bucket_values in Hv. simpl in Hv.
  destruct sh as [sh|]; [|done].
  unfold finished_param, gathered_param, started_param, bucket_values.
  destruct (Z.ltb_spec 1 (distributed_size c)) as [H1|H1]; simpl.
  + destruct (Z.eqb_spec (distributed_size c) 1); [lia|]. done.
  + destruct (Z.eqb_spec (distributed_size c) 1); [|lia]. done.
- destruct (finished_param_values c pb) as (V1 & U1 & R1 & S1).
  destruct (finished_param_values c (finished_param pb)) as (V2 & U2 & R2 & S2).
  split; [congruence|]. split; [congruence|]. intros Hin.
  destruct (decide (ParameterBucket.status pb = ParameterStatus.SHARDED)) as [E|E].
  + destruct Hn. done.
  + apply R1 in E. destruct (finished_param_values c (finished_param pb))
      as (_ & _ & _ & _).
    unfold finished_param at 1. rewrite decide_False; [done|]. by rewrite E.
Qed.

Lemma param_copy_settles ids st :
0 < distributed_size (config st) → NoDup ids →
(∀ b pb, params_bucket_at b st = Some pb →
   is_Some (bucket_values (config st) pb)) →
∃ st',
  (if decide (Exists (λ bucket_id,
                ParameterBucket.status <$> params_bucket_at bucket_id st
                ≠ Some ParameterStatus.READY) ids)
   then st ← _start_bucket_param_sync ids st;
        Ok (_finish_bucket_param_sync st)
   else Ok st) = Ok st'
  ∧ settled ids st st'.
Proof.
intros HD Hnd Hids. destruct (decide _) as [Hex|Hall].
- destruct (start_bucket_param_sync_run ids st HD Hnd)
    as (s1 & -> & E1 & P1 & N1 & B1).
  { intros b pb Hin Hpb Es. destruct (Hids b pb Hpb) as (v & Hv).
    unfold bucket_values in Hv. rewrite Es in Hv.
    destruct (ParameterBucket.params_shard pb); [eauto|done]. }
  simpl. eexists. split; [done|]. split; [by rewrite <- E1|].
  split; [by rewrite <- P1|].
  split. { rewrite <- N1. apply pending_finish. }
  intros b. rewrite params_bucket_at_finish, B1.
  destruct (params_bucket_at b st) as [pb|] eqn:Hpb; [|done]. simpl.
  eexists. split; [done|].
  apply start_sync_values; [done|]. by apply (Hids b).
- exists st. split; [done|]. split_and!; try done.
  intros b. destruct (params_bucket_at b st) as [pb|] eqn:Hpb; [|done].
  exists pb. split_and!; try done. intros Hin.
  apply not_Exists_Forall in Hall; [|intros ?; apply _].
  rewrite Forall_forall in Hall. specialize (Hall b Hin). simpl in Hall.
  rewrite Hpb in Hall. simpl in Hall.
  destruct (ParameterBucket.status pb); try done; destruct Hall; done.
Qed.
End ParamStart.

Section ParamCopy.
Context {T : Type} `{TensorElt T} `{Collectives T}.
Implicit Types (st : Optimizer T) (pb : ParameterBucket.t T).
Implicit Types (f g : ParameterFragment).

Lemma lookup_param_set st k (grp : list (list T)) (p' : list T) k' :
param_groups st !! k.1 = Some grp → is_Some (grp !! k.2) →
lookup_param
  (set_param_groups (<[k.1 := <[k.2 := p']> grp]> (param_groups st)) st) k'
= if decide (k' = k) then Some p' else lookup_param st k'.
Proof.
intros Hg (p & Hp). unfold lookup_param. simpl.
destruct k as [gi i], k' as [gi' i']. simpl in *.
destruct (decide ((gi', i') = (gi, i))) as [E|Hne].
- injection E as -> ->. rewrite decide_True by done.
  rewrite list_lookup_insert_eq by (by eapply lookup_lt_Some). simpl.
  by rewrite list_lookup_insert_eq by (by eapply lookup_lt_Some).
- rewrite decide_False by done. destruct (decide (gi' = gi)) as [->|Hg'].
  + rewrite list_lookup_insert_eq by (by eapply lookup_lt_Some). simpl.
    rewrite Hg. simpl. rewrite list_lookup_insert_ne; [done|congruence].
  + by rewrite list_lookup_insert_ne.
Qed.

(** One fragment is copied from the buffer [v] of its bucket. *)
Lemma param_copy_fragment_run f st pb v p :
params_bucket_at (bucket_id f) st = Some pb →
ParameterBucket.params_bucket pb = Some v →
lookup_param st (fragment_key f) = Some p →
0 ≤ (param_range f).1 → (param_range f).1 < (param_range f).2 →
(param_range f).2 ≤ Z.of_nat (length p) →
0 ≤ (bucket_range f).1 → (bucket_range f).1 ≤ (bucket_range f).2 →
(bucket_range f).2 ≤ Z.of_nat (length v) →
(param_range f).2 - (param_range f).1 = (bucket_range f).2 - (bucket_range f).1 →
∃ st', param_copy_fragment f st = Ok st'
  ∧ non_param_state st' = non_param_state st
  ∧ _params_buckets st' = _params_buckets st
  ∧ ∀ k', lookup_param st' k'
          = if decide (k' = fragment_key f)
            then Some (tensor_slice_set p (param_range f).1 (param_range f).2
                         (tensor_slice v (bucket_range f).1 (bucket_range f).2))
            else lookup_param st k'.
Proof.
intros Hpb Hv Hp P1 P2 P3 B1 B2 B3 Hsz. unfold param_copy_fragment.
destruct (bucket_range f) as [bs be], (param_range f) as [ps pe]. simpl in *.
destruct (Z.ltb_spec ps pe); [|lia]. rewrite Hpb, Hv.
assert (Hlen : length (tensor_slice v bs be) = Z.to_nat (be - bs))
  by (by apply tensor_slice_length).
unfold lookup_param in Hp.
destruct (param_groups st !! (fragment_key f).1) as [grp|] eqn:Hg; [|done].
change (grp !! (fragment_key f).2 = Some p) in Hp.
assert (Hrun : param_slice_copy_ (fragment_key f) ps pe (tensor_slice v bs be) st
               = Ok (set_param_groups
                       (<[(fragment_key f).1 :=
                            <[(fragment_key f).2 :=
                                tensor_slice_set p ps pe (tensor_slice v bs be)]> grp]>
                          (param_groups st)) st)).
{ unfold param_slice_copy_. rewrite Hg, Hp.
  rewrite slice_copy_Ok; [done|lia|lia|done|]. rewrite Hlen. f_equal. lia. }
destruct (tensor_slice v bs be) as [|x src] eqn:Hsrc.
{ simpl in Hlen. lia. }
rewrite Hrun. eexists. split; [done|]. split; [done|]. split; [done|].
intros k'. by apply lookup_param_set.
Qed.

(** The loop "Copy values from bucket buffers to params" over fragments of
  one parameter with separate ranges. *)
Lemma param_copy_loop (k : ParamKey) (V : ParameterFragment → list T)
  (frags : list ParameterFragment) :
NoDup frags →
(∀ f g i, f ∈ frags → g ∈ frags →
   in_range i (param_range f) → in_range i (param_range g) → f = g) →
∀ st p,
  lookup_param st k = Some p →
  (∀ f, f ∈ frags →
     fragment_key f = k
     ∧ (∃ pb, params_bucket_at (bucket_id f) st = Some pb
              ∧ ParameterBucket.params_bucket pb = Some (V f))
     ∧ 0 ≤ (param_range f).1 ∧ (param_range f).1 < (param_range f).2
     ∧ (param_range f).2 ≤ Z.of_nat (length p)
     ∧ 0 ≤ (bucket_range f).1 ∧ (bucket_range f).1 ≤ (bucket_range f).2
     ∧ (bucket_range f).2 ≤ Z.of_nat (length (V f))
     ∧ (param_range f).2 - (param_range f).1
       = (bucket_range f).2 - (bucket_range f).1) →
  ∃ st' p',
    for_each param_copy_fragment frags st = Ok st'
    ∧ non_param_state st' = non_param_state st
    ∧ _params_buckets st' = _params_buckets st
    ∧ (∀ k', k' ≠ k → lookup_param st' k' = lookup_param st k')
    ∧ lookup_param st' k = Some p' ∧ length p' = length p
    ∧ (∀ f, f ∈ frags →
         tensor_slice p' (param_range f).1 (param_range f).2
         = tensor_slice (V f) (bucket_range f).1 (bucket_range f).2)
    ∧ (∀ i : nat, (∀ f, f ∈ frags → ¬ in_range (Z.of_nat i) (param_range f)) →
         p' !! i = p !! i).
Proof.
induction frags as [|f frags IH]; intros Hnd Hsep st p Hp Hall.
- exists st, p. split_and!; try done. by intros f ?%elem_of_nil.
- apply NoDup_cons in Hnd as (Hf & Hnd).
  destruct (Hall f) as (Hk & (pb & Hpb & Hv) & P1 & P2 & P3 & B1 & B2 & B3 & Hsz);
    [by left|].
  rewrite <- Hk in Hp.
  destruct (param_copy_fragment_run f st pb (V f) p)
    as (s1 & Hrun1 & E1 & N1 & L1); try done.
  set (src := tensor_slice (V f) (bucket_range f).1 (bucket_range f).2) in *.
  set (p1 := tensor_slice_set p (param_range f).1 (param_range f).2 src) in *.
  assert (Hsrc : length src = Z.to_nat ((param_range f).2 - (param_range f).1)).
  { unfold src. rewrite tensor_slice_length by done. f_equal. lia. }
  assert (Hlen1 : length p1 = length p).
  { unfold p1. apply tensor_slice_set_length; try done. lia. }
  assert (Hp1 : lookup_param s1 k = Some p1).
  { rewrite L1. rewrite decide_True by done. done. }
  destruct (IH Hnd) with (st := s1) (p := p1)
    as (s2 & p2 & Hrun2 & E2 & N2 & L2 & Hp2 & Hlen2 & Hcopied & Hout).
  { intros g h i Hg Hh. apply Hsep; by right. }
  { done. }
  { intros g Hg.
    destruct (Hall g) as (Hkg & (pbg & Hpbg & Hvg) & R); [by right|].
    split; [done|]. split.
    - exists pbg. split; [|done]. unfold params_bucket_at. rewrite N1. done.
    - by rewrite Hlen1. }
  exists s2, p2. split; [simpl; by rewrite Hrun1|].
  split; [congruence|]. split; [congruence|].
  split. { intros k' Hne. rewrite L2 by done. rewrite L1.
           rewrite decide_False; [done|congruence]. }
  split; [done|]. split; [congruence|]. split.
  + intros g [->|Hg]%elem_of_cons; [|by apply Hcopied].
    transitivity (tensor_slice p1 (param_range f).1 (param_range f).2).
    * apply list_eq. intros i.
      rewrite !tensor_slice_lookup; try done; try lia.
      destruct (decide _); [|done]. apply Hout. intros g Hg Hin.
      assert (f = g).
      { apply (Hsep f g (Z.of_nat (Z.to_nat (param_range f).1 + i)));
          [by left|by right| |done]. unfold in_range. lia. }
      by subst.
    * unfold p1. apply tensor_slice_set_same; try done. lia.
  + intros i Hi. rewrite Hout by (intros g Hg; apply Hi; by right).
    unfold p1. rewrite tensor_slice_set_lookup; try done; try lia.
    destruct (decide _); [done|]. destruct (decide _); [|done].
    destruct (Hi f); [by left|]. unfold in_range. lia.
Qed.

(** "Delete buckets if possible" for one fragment. *)
Lemma param_bucket_done_run f st pb sb :
params_bucket_at (bucket_id f) st = Some pb →
state_buckets st !! bucket_id f = Some sb →
∃ st', param_bucket_done f st = Ok st'
  ∧ non_param_state st' = non_param_state st
  ∧ param_groups st' = param_groups st
  ∧ pending st' `sublist_of` pending st
  ∧ ∀ b, params_bucket_at b st'
         = if decide (b = bucket_id f)
           then marked (state_buckets st) (fragment_key f) b pb
           else params_bucket_at b st.
Proof.
intros Hpb Hsb. unfold param_bucket_done. rewrite Hpb.
change (state_buckets (update_params_bucket _ _ st)) with (state_buckets st).
rewrite Hsb. rewrite params_bucket_at_update.
rewrite (decide_True (P := bucket_id f = bucket_id f)) by done.
rewrite Hpb. simpl.
destruct (decide (Some (size ({[fragment_key f]} ∪ ParameterBucket.params_updated pb))
                  = Some (length (fragments sb)))) as [E|E].
- eexists. split; [done|]. split; [done|]. split; [done|]. split.
  + rewrite pending_delete, pending_update. apply sublist_filter.
  + intros b. rewrite params_bucket_at_delete, params_bucket_at_update.
    destruct (decide (b = bucket_id f)) as [->|Hne]; [|done].
    unfold marked. rewrite Hsb. simpl. rewrite decide_True; [done|congruence].
- eexists. split; [done|]. split; [done|]. split; [done|]. split.
  + by rewrite pending_update.
  + intros b. rewrite params_bucket_at_update.
    destruct (decide (b = bucket_id f)) as [->|Hne]; [|done].
    rewrite Hpb. unfold marked. rewrite Hsb. simpl.
    rewrite decide_False; [done|congruence].
Qed.

(** The loop "Delete buckets if possible" over fragments of the parameter
  [k] that lie in separate buckets. *)
Lemma param_done_loop (k : ParamKey) (frags : list ParameterFragment) :
NoDup (bucket_id <$> frags) →
∀ st,
  (∀ f, f ∈ frags →
     fragment_key f = k
     ∧ is_Some (params_bucket_at (bucket_id f) st)
     ∧ is_Some (state_buckets st !! bucket_id f)) →
  ∃ st', for_each param_bucket_done frags st = Ok st'
    ∧ non_param_state st' = non_param_state st
    ∧ param_groups st' = param_groups st
    ∧ pending st' `sublist_of` pending st
    ∧ ∀ b, params_bucket_at b st'
           = if decide (b ∈ bucket_id <$> frags)
             then params_bucket_at b st ≫= marked (state_buckets st) k b
             else params_bucket_at b st.
Proof.
induction frags as [|f frags IH]; intros Hnd st Hall.
- exists st. split_and!; try done.
- rewrite fmap_cons in Hnd. apply NoDup_cons in Hnd as (Hf & Hnd).
  destruct (Hall f) as (Hk & (pb & Hpb) & (sb & Hsb)); [by left|].
  destruct (param_bucket_done_run f st pb sb Hpb Hsb)
    as (s1 & Hrun1 & E1 & P1 & N1 & B1).
  assert (Ebs : state_buckets s1 = state_buckets st) by (by injection E1).
  destruct (IH Hnd s1) as (s2 & Hrun2 & E2 & P2 & N2 & B2).
  { intros g Hg. destruct (Hall g) as (Hkg & Hpg & Hsg); [by right|].
    split; [done|]. split; [|by rewrite Ebs].
    rewrite B1. rewrite decide_False; [done|].
    intros Heq. apply Hf. apply list_elem_of_fmap. exists g. done. }
  exists s2. split; [simpl; by rewrite Hrun1|].
  split; [congruence|]. split; [congruence|].
  split; [by etrans|].
  intros b. rewrite B2, B1, Ebs. rewrite fmap_cons.
  destruct (decide (b = bucket_id f)) as [->|Hne].
  + rewrite (decide_False (P := bucket_id f ∈ bucket_id <$> frags)) by done.
    rewrite decide_True by (by left). rewrite Hpb. simpl. by rewrite Hk.
  + destruct (decide (b ∈ bucket_id <$> frags)) as [Hin|Hin].
    * by rewrite decide_True by (by right).
    * rewrite decide_False; [done|]. by intros [?|?]%elem_of_cons.
Qed.
End ParamCopy.

Section ParamCopyRun.
Context {T : Type} `{TensorElt T} `{Collectives T}.
Implicit Types (st : Optimizer T) (pb : ParameterBucket.t T).
Implicit Types (f g : ParameterFragment).

Lemma NoDup_fmap_filter {A B} (h : A → B) (P : A → Prop)
  `{∀ x, Decision (P x)} (l : list A) :
NoDup (h <$> l) → NoDup (h <$> filter P l).
Proof.
induction l as [|x l IH]; [done|]. rewrite fmap_cons.
intros (Hx & Hnd)%NoDup_cons. destruct (decide (P x)).
- rewrite filter_cons_True by done. rewrite fmap_cons. apply NoDup_cons.
  split; [|by apply IH]. intros (y & Hy & Hin)%list_elem_of_fmap.
  apply list_elem_of_filter in Hin as (_ & Hin). apply Hx.
  apply list_elem_of_fmap. by exists y.
- rewrite filter_cons_False by done. by apply IH.
Qed.

(** The layout invariant reads the parameters only for their sizes. *)
Lemma layout_wf_params st st' :
config st' = config st → state_buckets st' = state_buckets st →
state_fragments st' = state_fragments st →
(∀ k, length <$> lookup_param st' k = length <$> lookup_param st k) →
layout_wf st → layout_wf st'.
Proof.
intros Ec Eb Ef Hlen (Hc & Hbs & Hfm). split; [by rewrite Ec|].
rewrite Ec, Eb, Ef. split; [done|].
intros k fs Hk. destruct (Hfm k fs Hk) as (p & Hp & (Hp2 & Hch & Hall)).
specialize (Hlen k). unfold lookup_param in Hlen. rewrite Hp in Hlen.
destruct (param_groups st' !! k.1 ≫= λ grp, grp !! k.2) as [p'|] eqn:Hp';
  [|done].
simpl in Hlen. injection Hlen as Hlen.
exists p'. split; [done|]. rewrite Hlen. split_and!; [|done|done].
exists p'. split; [done|lia].
Qed.

Lemma fragments_separate st k fs f g i :
layout_wf st → state_fragments st !! k = Some fs → f ∈ fs → g ∈ fs →
in_range i (param_range f) → in_range i (param_range g) → f = g.
Proof.
intros (Hc & Hbs & Hfm) Hk Hf Hg If Ig.
destruct (Hfm _ _ Hk) as (p & Hp & (_ & Hch & _)).
apply list_elem_of_lookup in Hf as (j1 & H1).
apply list_elem_of_lookup in Hg as (j2 & H2).
assert (j1 = j2).
{ eapply (chain_disjoint _ _ _ j1 j2 _ _ i Hch); [| |exact If|exact Ig].
  - by rewrite list_lookup_fmap, H1.
  - by rewrite list_lookup_fmap, H2. }
subst. congruence.
Qed.

(** [_param_copy(param)] for the parameter [k]. *)
Lemma param_copy_run k st :
layout_wf st → params_wf st →
∃ st',
  let frags := filter (λ f, is_Some (params_bucket_at (bucket_id f) st))
                 (default [] (state_fragments st !! k)) in
  _param_copy [k] st = Ok st'
  ∧ non_param_state st' = non_param_state st
  ∧ pending st' `sublist_of` pending st
  ∧ (∀ k', k' ≠ k → lookup_param st' k' = lookup_param st k')
  ∧ (∀ k', length <$> lookup_param st' k' = length <$> lookup_param st k')
  ∧ (∀ f pb v, f ∈ frags →
       params_bucket_at (bucket_id f) st = Some pb →
       bucket_values (config st) pb = Some v → fragment_copied st' f v)
  ∧ (∀ i : nat,
       (∀ f, f ∈ frags → ¬ in_range (Z.of_nat i) (param_range f)) →
       lookup_param st' k ≫= (λ p, p !! i) = lookup_param st k ≫= (λ p, p !! i))
  ∧ (∀ b, match params_bucket_at b st with
          | None => params_bucket_at b st' = None
          | Some pb =>
            ∃ pb1,
              bucket_values (config st) pb1 = bucket_values (config st) pb
              ∧ ParameterBucket.params_updated pb1
                = ParameterBucket.params_updated pb
              ∧ params_bucket_at b st'
                = if decide (b ∈ bucket_id <$> frags)
                  then marked (state_buckets st) k b pb1 else Some pb1
          end).
Proof.
intros Hlay Hpar. unfold _param_copy. simpl concat. rewrite app_nil_r.
set (frags := filter (λ f, is_Some (params_bucket_at (bucket_id f) st))
                (default [] (state_fragments st !! k))).
set (bucket_ids := remove_dups (bucket_id <$> frags)).
pose proof Hlay as ((_ & _ & HD) & _).
destruct (param_copy_settles bucket_ids st HD) as (s1 & -> & E1 & P1 & N1 & B1).
{ apply NoDup_remove_dups. }
{ intros b pb Hpb. destruct (Hpar b pb Hpb) as (sb & _ & (v & Hv & _) & _).
  by rewrite Hv. }
simpl.
assert (Hl1 : ∀ k', lookup_param s1 k' = lookup_param st k').
{ intros k'. unfold lookup_param. by rewrite P1. }
assert (Ebs1 : state_buckets s1 = state_buckets st) by (by injection E1).
destruct (state_fragments st !! k) as [fs|] eqn:Hfs.
2:{ exists s1. simpl. split; [done|]. split; [done|]. split; [by rewrite N1|].
    split; [by intros; apply Hl1|]. split; [by intros; rewrite Hl1|].
    split; [by intros f pb v ?%elem_of_nil|]. split; [by intros; rewrite Hl1|].
    intros b. specialize (B1 b). destruct (params_bucket_at b st) as [pb|]; [|done].
    destruct B1 as (pb1 & Hpb1 & V1 & U1 & _). exists pb1.
    split; [done|]. split; [done|]. done. }
simpl in frags.
destruct (Hlay) as (_ & _ & Hfm). destruct (Hfm _ _ Hfs) as (p & Hp & _).
change (lookup_param st k = Some p) in Hp.
(* what is known of a fragment to copy *)
assert (Hfrag : ∀ f, f ∈ frags →
  f ∈ fs ∧ fragment_key f = k
  ∧ ∃ pb pb1 sb v,
      params_bucket_at (bucket_id f) st = Some pb
      ∧ bucket_values (config st) pb = Some v
      ∧ params_bucket_at (bucket_id f) s1 = Some pb1
      ∧ ParameterBucket.params_bucket pb1 = Some v
      ∧ state_buckets st !! bucket_id f = Some sb
      ∧ length v = Z.to_nat (bucket_size sb)
      ∧ 0 ≤ (param_range f).1 ∧ (param_range f).1 < (param_range f).2
      ∧ (param_range f).2 ≤ Z.of_nat (length p)
      ∧ 0 ≤ (bucket_range f).1 ∧ (bucket_range f).1 ≤ (bucket_range f).2
      ∧ (bucket_range f).2 ≤ Z.of_nat (length v)
      ∧ (param_range f).2 - (param_range f).1
        = (bucket_range f).2 - (bucket_range f).1).
{ intros f (Hpend & Hin)%list_elem_of_filter. destruct Hpend as (pb & Hpb).
  destruct (layout_fragment st k fs f Hlay Hfs Hin)
    as (sb & p0 & Hsb & Hp0 & Hfin & Hkey & Hbok & R1 & R2 & R3 & R4 & R5 & R6 & R7).
  rewrite Hp in Hp0. injection Hp0 as <-.
  destruct (Hpar _ _ Hpb) as (sb' & Hsb' & (v & Hv & Hlen) & _).
  rewrite Hsb in Hsb'. injection Hsb' as <-.
  split; [done|]. split; [done|].
  specialize (B1 (bucket_id f)). rewrite Hpb in B1.
  destruct B1 as (pb1 & Hpb1 & V1 & U1 & R).
  assert (Hready : ParameterBucket.status pb1 = ParameterStatus.READY).
  { apply R. unfold bucket_ids. apply elem_of_remove_dups.
    apply list_elem_of_fmap. exists f. split; [done|].
    apply list_elem_of_filter. split; [by exists pb|done]. }
  exists pb, pb1, sb, v. split_and!; try done; try lia.
  unfold bucket_values in V1 at 1. rewrite Hready in V1. by rewrite V1. }
destruct (param_copy_loop k
            (λ f, default [] (params_bucket_at (bucket_id f) s1
                              ≫= ParameterBucket.params_bucket)) frags)
  with (st := s1) (p := p)
  as (s2 & p' & -> & E2 & N2 & L2 & Hp2 & Hlen2 & Hcopied & Hout).
{ apply NoDup_filter. eapply NoDup_fmap_1. by eapply layout_bucket_ids_NoDup. }
{ intros f g i Hf Hg. destruct (Hfrag f Hf) as (Hf' & _).
  destruct (Hfrag g Hg) as (Hg' & _). by apply (fragments_separate st k fs). }
{ by rewrite Hl1. }
{ intros f Hf.
  destruct (Hfrag f Hf) as (Hin & Hkey & pb & pb1 & sb & v & Hpb & Hv & Hpb1 & Hbk
                            & Hsb & Hlen & R).
  split; [done|]. rewrite Hpb1. simpl. rewrite Hbk. simpl.
  split; [by exists pb1|]. done. }
simpl.
assert (Ebs2 : state_buckets s2 = state_buckets st).
{ transitivity (state_buckets s1); [by injection E2|done]. }
assert (Hat2 : ∀ b, params_bucket_at b s2 = params_bucket_at b s1).
{ intros b. unfold params_bucket_at. by rewrite N2. }
assert (Hnd3 : NoDup (bucket_id <$> frags)).
{ apply NoDup_fmap_filter. by eapply layout_bucket_ids_NoDup. }
assert (Hall3 : ∀ f, f ∈ frags →
          fragment_key f = k
          ∧ is_Some (params_bucket_at (bucket_id f) s2)
          ∧ is_Some (state_buckets s2 !! bucket_id f)).
{ intros f Hf.
  destruct (Hfrag f Hf) as (Hin & Hkey & pb & pb1 & sb & v & Hpb & Hv & Hpb1 & Hbk
                            & Hsb & Hlen & R).
  split; [done|]. rewrite Hat2, Hpb1, Ebs2, Hsb. eauto. }
destruct (param_done_loop k frags Hnd3 s2 Hall3)
  as (s3 & Hrun3 & E3 & P3 & N3 & B3).
assert (Hl3 : ∀ k', lookup_param s3 k' = lookup_param s2 k').
{ intros k'. unfold lookup_param. by rewrite P3. }
exists s3. simpl. split; [done|].
split; [by rewrite E3, E2, E1|].
split. { etrans; [exact N3|]. unfold pending. rewrite N2. fold (pending s1).
         by rewrite N1. }
split. { intros k' Hne. by rewrite Hl3, L2, Hl1. }
split. { intros k'. rewrite Hl3. destruct (decide (k' = k)) as [->|Hne].
         - rewrite Hp2, Hp. simpl. by rewrite Hlen2.
         - by rewrite L2, Hl1. }
split. { intros f pb v Hf Hpb Hv.
  destruct (Hfrag f Hf) as (Hin & Hkey & pb' & pb1 & sb & v' & Hpb' & Hv' & Hpb1
                            & Hbk & Hsb & Hlen & R).
  rewrite Hpb in Hpb'. injection Hpb' as <-. rewrite Hv in Hv'. injection Hv' as <-.
  exists p'. split; [by rewrite Hkey, Hl3|]. rewrite (Hcopied f Hf).
  by rewrite Hpb1; simpl; rewrite Hbk. }
split. { intros i Hi. rewrite Hl3, Hp2, Hp. simpl. by apply Hout. }
intros b. specialize (B1 b). rewrite B3, Hat2, Ebs2.
destruct (params_bucket_at b st) as [pb|].
- destruct B1 as (pb1 & -> & V1 & U1 & _). exists pb1. split; [done|].
  split; [done|]. by destruct (decide _).
- rewrite B1. by destruct (decide _).
Qed.
End ParamCopyRun.

Section ParamSyncLoop.
Context {T : Type} `{TensorElt T} `{Collectives T}.
Implicit Types (st : Optimizer T) (pb : ParameterBucket.t T).
Implicit Types (f g : ParameterFragment).

Lemma sync_inv_refl st : layout_wf st → params_wf st → sync_inv st st.
Proof.
intros Hlay Hpar. split_and!; try done.
- intros b pb Hpb. exists pb. done.
- intros b pb0 sb f v Hpb Hsb Hf Hv Hnot [Hnone|(pb & Hpb' & Hin)].
  + congruence.
  + rewrite Hpb in Hpb'. injection Hpb' as <-. done.
Qed.

Lemma tensor_slice_ext (p p' : list T) (a b : Z) :
length p' = length p → 0 ≤ a → a ≤ b → b ≤ Z.of_nat (length p) →
(∀ i : nat, a ≤ Z.of_nat i < b → p' !! i = p !! i) →
tensor_slice p' a b = tensor_slice p a b.
Proof.
intros Hlen Ha Hab Hb Hext. apply list_eq. intros i.
rewrite !tensor_slice_lookup; try done; try lia.
destruct (decide _); [|done]. apply Hext. lia.
Qed.

(** The keys of a bucket whose updated parameters are as many as its
  fragments are all updated. *)
Lemma updated_all (sb : StateBucket T) (X : gset ParamKey) k :
NoDup (fragment_key <$> fragments sb) →
(∀ k', k' ∈ X → k' ∈ fragment_key <$> fragments sb) →
size X = length (fragments sb) →
k ∈ fragment_key <$> fragments sb → k ∈ X.
Proof.
intros Hnd Hsub Hsize Hk.
assert (HX : X = list_to_set (fragment_key <$> fragments sb)).
{ apply set_subseteq_size_eq.
  - intros k' Hk'. apply elem_of_list_to_set. by apply Hsub.
  - rewrite size_list_to_set by done. rewrite length_fmap. lia. }
rewrite HX. by apply elem_of_list_to_set.
Qed.

Lemma updated_size (sb : StateBucket T) (X : gset ParamKey) :
NoDup (fragment_key <$> fragments sb) →
(∀ k', k' ∈ X → k' ∈ fragment_key <$> fragments sb) →
(size X ≤ length (fragments sb))%nat.
Proof.
intros Hnd Hsub.
rewrite <- (length_fmap fragment_key), <- (size_list_to_set (C := gset ParamKey))
  by done.
apply subseteq_size. intros k' Hk'. apply elem_of_list_to_set. by apply Hsub.
Qed.

Lemma bucket_fragment st b sb f :
layout_wf st → state_buckets st !! b = Some sb → f ∈ fragments sb →
bucket_id f = b
∧ ∃ fs, state_fragments st !! fragment_key f = Some fs ∧ f ∈ fs.
Proof.
intros (_ & Hbs & _) Hsb Hf.
destruct (Hbs _ _ Hsb) as (_ & _ & _ & _ & _ & _ & _ & _ & B9).
rewrite Forall_forall in B9. destruct (B9 _ Hf) as (Hid & Hfs & _). done.
Qed.

Lemma bucket_keys_NoDup st b sb :
layout_wf st → state_buckets st !! b = Some sb →
NoDup (fragment_key <$> fragments sb).
Proof.
intros (_ & Hbs & _) Hsb.
by destruct (Hbs _ _ Hsb) as (_ & _ & _ & _ & _ & _ & _ & B8 & _).
Qed.

(** One call of [_param_copy(param)] in the loop of [param_sync]. *)
Lemma sync_inv_step st0 st k :
sync_inv st0 st →
∃ st', _param_copy [k] st = Ok st'
  ∧ sync_inv st0 st'
  ∧ pending st' `sublist_of` pending st
  ∧ (∀ b k', done_for st b k' → done_for st' b k')
  ∧ (∀ fs f, state_fragments st !! k = Some fs → f ∈ fs →
       done_for st' (bucket_id f) k).
Proof.
intros (Hlay & Hpar & E0 & Hlen0 & Hval0 & Hcop0 & Hout0).
destruct (param_copy_run k st Hlay Hpar)
  as (st' & Hrun & E & N & Lo & Ll & Hc & Ho & Hb).
set (frags := filter (λ f, is_Some (params_bucket_at (bucket_id f) st))
                (default [] (state_fragments st !! k))) in *.
assert (Ec0 : config st = config st0) by (by injection E0).
assert (Ebs0 : state_buckets st = state_buckets st0) by (by injection E0).
assert (Ec : config st' = config st) by (by injection E).
assert (Ebs : state_buckets st' = state_buckets st) by (by injection E).
assert (Efm : state_fragments st' = state_fragments st) by (by injection E).
assert (Hlay' : layout_wf st') by (by apply (layout_wf_params st st')).
(* the fragments that are copied *)
assert (Hfrags : ∀ f, f ∈ frags →
          ∃ fs, state_fragments st !! k = Some fs ∧ f ∈ fs
                ∧ is_Some (params_bucket_at (bucket_id f) st)).
{ intros f Hf. unfold frags in Hf.
  destruct (state_fragments st !! k) as [fs|]; [|by apply elem_of_nil in Hf].
  apply list_elem_of_filter in Hf as (Hp & Hin). eauto. }
assert (Hids : ∀ b sb, b ∈ bucket_id <$> frags → state_buckets st !! b = Some sb →
          k ∈ fragment_key <$> fragments sb).
{ intros b sb (f & -> & Hf)%list_elem_of_fmap Hsb.
  destruct (Hfrags f Hf) as (fs & Hfs & Hin & _).
  destruct (layout_fragment st k fs f Hlay Hfs Hin)
    as (sb' & p0 & Hsb' & _ & Hfin & Hkey & _).
  rewrite Hsb in Hsb'. injection Hsb' as <-.
  apply list_elem_of_fmap. by exists f. }
(* the buckets after the call *)
assert (Hbucket : ∀ b pb', params_bucket_at b st' = Some pb' →
          ∃ pb sb, params_bucket_at b st = Some pb
            ∧ state_buckets st !! b = Some sb
            ∧ bucket_values (config st) pb' = bucket_values (config st) pb
            ∧ if decide (b ∈ bucket_id <$> frags)
              then ParameterBucket.params_updated pb'
                   = {[k]} ∪ ParameterBucket.params_updated pb
                   ∧ size ({[k]} ∪ ParameterBucket.params_updated pb)
                     ≠ length (fragments sb)
              else ParameterBucket.params_updated pb'
                   = ParameterBucket.params_updated pb).
{ intros b pb' Hpb'. specialize (Hb b).
  destruct (params_bucket_at b st) as [pb|] eqn:Hpb; [|congruence].
  destruct (Hpar b pb Hpb) as (sb & Hsb & _).
  destruct Hb as (pb1 & V1 & U1 & Hat). exists pb, sb. split; [done|].
  split; [done|]. rewrite Hpb' in Hat.
  destruct (decide (b ∈ bucket_id <$> frags)) as [Hin|Hin].
  - unfold marked in Hat. rewrite Hsb in Hat. simpl in Hat.
    destruct (decide _) as [|Hne]; [done|]. injection Hat as ->.
    simpl. split; [exact V1|]. rewrite U1 in *. done.
  - injection Hat as ->. done. }
assert (Hdel : ∀ b pb, params_bucket_at b st = Some pb →
          params_bucket_at b st' = None →
          ∃ sb, state_buckets st !! b = Some sb
            ∧ size ({[k]} ∪ ParameterBucket.params_updated pb)
              = length (fragments sb)).
{ intros b pb Hpb Hnone. specialize (Hb b). rewrite Hpb in Hb.
  destruct (Hpar b pb Hpb) as (sb & Hsb & _).
  destruct Hb as (pb1 & V1 & U1 & Hat). exists sb. split; [done|].
  rewrite Hnone in Hat. destruct (decide _); [|done].
  unfold marked in Hat. rewrite Hsb in Hat. simpl in Hat.
  destruct (decide _) as [Heq|]; [|done]. by rewrite U1 in Heq. }
assert (Hnone : ∀ b, params_bucket_at b st = None → params_bucket_at b st' = None).
{ intros b Hn. specialize (Hb b). by rewrite Hn in Hb. }
assert (Hmono : ∀ b k', done_for st b k' → done_for st' b k').
{ intros b k' [Hn|(pb & Hpb & Hin)]; [left; by apply Hnone|].
  destruct (params_bucket_at b st') as [pb'|] eqn:Hpb'; [|by left].
  right. exists pb'. split; [done|].
  destruct (Hbucket b pb' Hpb') as (pb2 & sb & Hpb2 & _ & _ & Hu).
  rewrite Hpb in Hpb2. injection Hpb2 as <-.
  destruct (decide _); [destruct Hu as (-> & _)|by rewrite Hu].
  apply elem_of_union. by right. }
exists st'. split; [done|]. split; [|split; [done|split; [done|]]].
- split; [done|]. split.
  { (* params_wf *)
    intros b pb' Hpb'.
    destruct (Hbucket b pb' Hpb') as (pb & sb & Hpb & Hsb & Hv & Hu).
    destruct (Hpar b pb Hpb) as (sb' & Hsb' & (Hval & Hsub & Hsize)).
    rewrite Hsb in Hsb'. injection Hsb' as <-.
    exists sb. rewrite Ebs, Ec. split; [done|]. split; [by rewrite Hv|].
    destruct (decide (b ∈ bucket_id <$> frags)) as [Hin|Hin].
    - destruct Hu as (Hu & Hne). rewrite Hu.
      assert (Hsub' : ∀ k', k' ∈ {[k]} ∪ ParameterBucket.params_updated pb →
                        k' ∈ fragment_key <$> fragments sb).
      { intros k' [->%elem_of_singleton|Hk']%elem_of_union;
          [by apply (Hids b)|by apply Hsub]. }
      split; [done|].
      pose proof (updated_size sb _ (bucket_keys_NoDup st b sb Hlay Hsb) Hsub').
      lia.
    - by rewrite Hu. }
  split; [by rewrite E|].
  split; [intros k'; by rewrite Ll|].
  split.
  { intros b pb' Hpb'.
    destruct (Hbucket b pb' Hpb') as (pb & sb & Hpb & Hsb & Hv & Hu).
    destruct (Hval0 b pb Hpb) as (pb0 & Hpb0 & Hv0 & Hu0).
    exists pb0. split; [done|]. rewrite <- Ec0. split; [by rewrite Hv, Ec0|].
    destruct (decide _); [destruct Hu as (-> & _)|by rewrite Hu].
    intros x Hx. apply elem_of_union. right. by apply Hu0. }
  split.
  { intros b pb0 sb f v Hpb0 Hsb Hf Hv Hnot Hdone.
    rewrite <- Ebs0 in Hsb.
    destruct (bucket_fragment st b sb f Hlay Hsb Hf) as (Hid & fs & Hfs & Hin).
    destruct (layout_fragment st _ fs f Hlay Hfs Hin)
      as (sb' & p & Hsb' & Hp & _ & _ & _ & R1 & R2 & R3 & _).
    destruct (decide (fragment_key f = k)) as [Hk|Hk].
    - destruct (params_bucket_at b st) as [pb|] eqn:Hpb.
      + destruct (Hval0 b pb Hpb) as (pb0' & Hpb0' & Hv0 & _).
        rewrite Hpb0 in Hpb0'. injection Hpb0' as <-.
        apply (Hc f pb v).
        * unfold frags. rewrite <- Hk, Hfs. simpl.
          apply list_elem_of_filter. split; [|done]. rewrite Hid, Hpb. eauto.
        * by rewrite Hid.
        * by rewrite Ec0, Hv0.
      + destruct (Hcop0 b pb0 sb f v) as (p0 & Hp0 & Hsl); try done.
        { by rewrite <- Ebs0. }
        { by left. }
        rewrite Hp in Hp0. injection Hp0 as <-.
        specialize (Ll (fragment_key f)). rewrite Hp in Ll.
        destruct (lookup_param st' (fragment_key f)) as [p'|] eqn:Hp'; [|done].
        simpl in Ll. injection Ll as Ll.
        exists p'. split; [done|]. rewrite <- Hsl.
        apply tensor_slice_ext; try done; try lia.
        intros i Hi. specialize (Ho i). rewrite <- Hk, Hp', Hp in Ho.
        simpl in Ho. apply Ho. intros g Hg Hrange.
        destruct (Hfrags g Hg) as (fs' & Hfs' & Hing & (pbg & Hpbg)).
        rewrite <- Hk, Hfs in Hfs'. injection Hfs' as <-.
        assert (f = g).
        { apply (fragments_separate st (fragment_key f) fs f g (Z.of_nat i));
            try done. }
        subst g. rewrite Hid, Hpb in Hpbg. done.
    - destruct (Hcop0 b pb0 sb f v) as (p0 & Hp0 & Hsl); try done.
      { by rewrite <- Ebs0. }
      { destruct Hdone as [Hn|(pb' & Hpb' & Hin')].
        - destruct (params_bucket_at b st) as [pb|] eqn:Hpb; [|by left].
          right. exists pb. split; [done|].
          destruct (Hdel b pb Hpb Hn) as (sb2 & Hsb2 & Hsize).
          rewrite Hsb in Hsb2. injection Hsb2 as <-.
          destruct (Hpar b pb Hpb) as (sb2 & Hsb2 & (_ & Hsub & _)).
          rewrite Hsb in Hsb2. injection Hsb2 as <-.
          assert (Hall : fragment_key f ∈ {[k]} ∪ ParameterBucket.params_updated pb).
          { apply (updated_all sb); try done.
            - by apply (bucket_keys_NoDup st b).
            - intros k' [->%elem_of_singleton|Hk']%elem_of_union;
                [|by apply Hsub].
              apply (Hids b); [|done].
              specialize (Hb b). rewrite Hpb in Hb.
              destruct Hb as (pb1 & _ & _ & Hat). rewrite Hn in Hat.
              by destruct (decide (b ∈ bucket_id <$> frags)).
            - apply list_elem_of_fmap. by exists f. }
          apply elem_of_union in Hall as [Hs|Hs]; [|done].
          by apply elem_of_singleton in Hs.
        - destruct (Hbucket b pb' Hpb') as (pb & sb2 & Hpb & _ & _ & Hu).
          right. exists pb. split; [done|].
          destruct (decide _); [destruct Hu as (Hu & _)|]; rewrite Hu in Hin';
            [|done].
          apply elem_of_union in Hin' as [Hs|Hs]; [|done].
          by apply elem_of_singleton in Hs. }
      exists p0. split; [|done]. by rewrite Lo. }
  { intros k' i Hi. rewrite <- Hout0 by done.
    destruct (decide (k' = k)) as [->|Hne]; [|by rewrite Lo].
    apply Ho. intros g Hg.
    destruct (Hfrags g Hg) as (fs & Hfs & Hing & (pbg & Hpbg)).
    destruct (layout_fragment st k fs g Hlay Hfs Hing)
      as (sb & p & Hsb & _ & Hgin & Hkey & _).
    destruct (Hval0 _ _ Hpbg) as (pb0 & Hpb0 & _).
    apply (Hi (bucket_id g) pb0 sb g); try done. by rewrite <- Ebs0. }
- intros fs f Hfs Hin.
  destruct (params_bucket_at (bucket_id f) st) as [pb|] eqn:Hpb;
    [|left; by apply Hnone].
  destruct (params_bucket_at (bucket_id f) st') as [pb'|] eqn:Hpb'; [|by left].
  right. exists pb'. split; [done|].
  destruct (Hbucket _ pb' Hpb') as (pb2 & sb & _ & _ & _ & Hu).
  rewrite decide_True in Hu.
  + destruct Hu as (-> & _). apply elem_of_union. left.
    by apply elem_of_singleton.
  + apply list_elem_of_fmap. exists f. split; [done|].
    unfold frags. rewrite Hfs. simpl. apply list_elem_of_filter.
    split; [|done]. rewrite Hpb. eauto.
Qed.

(** The loop of [param_sync] over the fragments of the first bucket
  discards that bucket. *)
Lemma sync_bucket st0 st bid sb :
sync_inv st0 st → state_buckets st0 !! bid = Some sb →
∃ st', for_each (λ f st, _param_copy [fragment_key f] st)
         (reverse (fragments sb)) st = Ok st'
  ∧ sync_inv st0 st'
  ∧ pending st' `sublist_of` pending st
  ∧ params_bucket_at bid st' = None.
Proof.
intros Hinv Hsb.
destruct (for_each_prefix
            (λ pre s, sync_inv st0 s ∧ pending s `sublist_of` pending st
                      ∧ ∀ f, f ∈ pre → done_for s bid (fragment_key f))
            (λ f st, _param_copy [fragment_key f] st)
            (reverse (fragments sb)) st)
  as (st' & Hrun & Hinv' & Hsub & Hdone).
- intros pre x suf s El (Hi & Hs & Hd).
  destruct (sync_inv_step st0 s (fragment_key x) Hi)
    as (s' & Hrun & Hi' & Hs' & Hmono & Hnew).
  exists s'. split; [done|]. split; [done|]. split; [by etrans|].
  intros f [Hf|Hf]%elem_of_app.
  + apply Hmono. by apply Hd.
  + apply list_elem_of_singleton in Hf as ->.
    assert (Hx : x ∈ fragments sb).
    { apply elem_of_reverse. rewrite El. apply elem_of_app. right. by left. }
    destruct Hi as (Hlay & _ & E & _).
    assert (Hsb' : state_buckets s !! bid = Some sb).
    { replace (state_buckets s) with (state_buckets st0); [done|].
      by injection E. }
    destruct (bucket_fragment s bid sb x Hlay Hsb' Hx) as (Hid & fs & Hfs & Hin).
    rewrite <- Hid. by apply (Hnew fs).
- split; [done|]. split; [done|]. by intros f ?%elem_of_nil.
- exists st'. split; [done|]. split; [done|]. split; [done|].
  destruct (params_bucket_at bid st') as [pb|] eqn:Hpb; [|done]. exfalso.
  destruct Hinv' as (Hlay & Hpar & E & _).
  destruct (Hpar bid pb Hpb) as (sb' & Hsb' & (_ & Hsub' & Hsize)).
  assert (sb' = sb) as ->.
  { replace (state_buckets st') with (state_buckets st0) in Hsb';
      [congruence|by injection E]. }
  assert (Hall : ∀ k, k ∈ fragment_key <$> fragments sb →
                   k ∈ ParameterBucket.params_updated pb).
  { intros k (f & -> & Hf)%list_elem_of_fmap.
    destruct (Hdone f) as [Hn|(pb' & Hpb' & Hin)].
    - by apply elem_of_reverse.
    - congruence.
    - rewrite Hpb in Hpb'. by injection Hpb' as <-. }
  assert (length (fragments sb) ≤ size (ParameterBucket.params_updated pb))%nat.
  { rewrite <- (length_fmap fragment_key).
    rewrite <- (size_list_to_set (C := gset ParamKey))
      by (by apply (bucket_keys_NoDup st' bid)).
    apply subseteq_size. intros k Hk. apply Hall.
    by apply elem_of_list_to_set in Hk. }
  lia.
Qed.

Lemma param_sync_loop_run st0 (fuel : nat) :
∀ st, sync_inv st0 st → (length (_params_buckets st) ≤ fuel)%nat →
  ∃ st', param_sync_loop fuel st = Ok st'
    ∧ sync_inv st0 st' ∧ _params_buckets st' = [].
Proof.
induction fuel as [|fuel IH]; intros st Hinv Hlen.
- destruct (_params_buckets st) as [|x P] eqn:E; [|simpl in Hlen; lia].
  exists st. simpl. by rewrite E.
- cbn [param_sync_loop].
  destruct (_params_buckets st) as [|[bid pb] P] eqn:E; [by exists st|].
  pose proof (pending_head st bid pb P E) as Hpb.
  pose proof Hinv as (Hlay & Hpar & E0 & _).
  destruct (Hpar bid pb Hpb) as (sb & Hsb & _). rewrite Hsb.
  destruct (sync_bucket st0 st bid sb Hinv) as (s1 & -> & Hinv1 & Hsub & Hnone).
  { replace (state_buckets st0) with (state_buckets st); [done|].
    by injection E0. }
  simpl. apply IH; [done|].
  unfold pending in Hsub at 2. rewrite E in Hsub. rewrite fmap_cons in Hsub.
  apply sublist_cons_r in Hsub as [Hsub|(l' & Hl' & _)].
  + apply sublist_length in Hsub. unfold pending in Hsub.
    rewrite !length_fmap in Hsub. simpl in Hlen. lia.
  + exfalso. assert (Hin : bid ∈ pending s1) by (rewrite Hl'; by left).
    apply pending_is_Some in Hin as (pb' & Hpb'). simpl in Hpb'. congruence.
Qed.
End ParamSyncLoop.

(** [param_sync] returns with [_params_buckets] empty and with every
    parameter holding the values of the parameter buckets: for every
    bucket that waits and every fragment of it whose parameter the bucket
    does not count as updated, the parameter at the parameter range of
    the fragment equals the gathered bucket at the bucket range of the
    fragment.  Elements of parameters outside these fragments, the sizes
    of the parameters and the rest of the optimizer are unchanged.  (The
    buckets that wait hold their values and have a parameter left to
    update; no pre-forward hook is enabled.) *)
Theorem param_sync_copies_parameters
    {T : Type} `{TensorElt T} `{Collectives T} (st : Optimizer T) :
  layout_wf st → params_wf st → (∀ k, hook_is_enabled k st = false) →
  ∃ st', param_sync st = Ok st'
    ∧ _params_buckets st' = []
    ∧ non_param_state st' = non_param_state st
    ∧ layout_wf st'
    ∧ (∀ k, length <$> lookup_param st' k = length <$> lookup_param st k)
    ∧ (∀ b pb sb f v,
         params_bucket_at b st = Some pb → state_buckets st !! b = Some sb →
         f ∈ fragments sb → bucket_values (config st) pb = Some v →
         fragment_key f ∉ ParameterBucket.params_updated pb →
         fragment_copied st' f v)
    ∧ (∀ k (i : nat),
         (∀ b pb sb f,
            params_bucket_at b st = Some pb → state_buckets st !! b = Some sb →
            f ∈ fragments sb → fragment_key f = k →
            ¬ in_range (Z.of_nat i) (param_range f)) →
         lookup_param st' k ≫= (λ p, p !! i) = lookup_param st k ≫= (λ p, p !! i)).
Proof.
  intros Hlay Hpar _.
  destruct (param_sync_loop_run st (length (_params_buckets st)) st)
    as (s1 & Hrun & Hinv & Hnil); [by apply sync_inv_refl|done|].
  destruct Hinv as (Hlay1 & Hpar1 & E1 & Hlen1 & Hval1 & Hcop1 & Hout1).
  unfold param_sync. rewrite Hrun. simpl.
  exists (set_params_buckets [] s1). split; [done|]. split; [done|].
  split; [exact E1|]. split; [exact Hlay1|]. split; [exact Hlen1|].
  split; [|exact Hout1].
  intros b pb sb f v Hpb Hsb Hf Hv Hnot.
  destruct (Hcop1 b pb sb f v) as (p & Hp & Hsl); try done.
  - left. unfold params_bucket_at. by rewrite Hnil.
  - by exists p.
Qed.

(** A parameter of ten elements in a bucket of two shards of 64 elements
    whose local shard holds the value 3. *)
Lemma param_sync_copies_parameters_witness :
  let st :=
    set_params_buckets
      [(0%nat, {| ParameterBucket.params_shard := Some (replicate 64 3);
                  ParameterBucket.params_bucket := None;
                  ParameterBucket.status := ParameterStatus.SHARDED;
                  ParameterBucket.params_updated := ∅ |})]
      (example_mapped (example_config 32 64 2 0) [[replicate 10 7]]) in
  ∃ st', param_sync st = Ok st'
    ∧ _params_buckets st' = []
    ∧ lookup_param st' (0%nat, 0%nat) = Some (replicate 10 3).
Proof.
  intros st.
  destruct (example_mapped_wf 32 64 2 0 [[replicate 10 7]] (replicate 10 7))
    as (Hwf & _ & _); try lia; [done|].
  destruct (param_sync_copies_parameters st) as (st' & Hrun & Hnil & _).
  { exact Hwf. }
  { intros bid pb Hpb. destruct bid as [|bid]; [|by vm_compute in Hpb].
    injection Hpb as <-.
    destruct (state_buckets st !! 0%nat) as [sb|] eqn:Hsb; [|by vm_compute in Hsb].
    exists sb. split; [done|]. vm_compute in Hsb. injection Hsb as <-.
    split; [|split].
    - eexists. split; [reflexivity|]. by vm_compute.
    - intros k Hk. by apply elem_of_empty in Hk.
    - change (size (∅ : gset ParamKey) < 1)%nat. rewrite size_empty. lia. }
  { done. }
  exists st'. split; [done|]. split; [done|].
  vm_compute in Hrun. injection Hrun as <-. by vm_compute.
Defined.

Section TryStartParam.
Context {T : Type} `{TensorElt T} `{Collectives T}.
Implicit Types (st : Optimizer T) (pb : ParameterBucket.t T).

Lemma params_bucket_at_elem st b pb :
params_bucket_at b st = Some pb → (b, pb) ∈ _params_buckets st.
Proof.
unfold params_bucket_at. intros Hh.
destruct (head _) as [[b' pb']|] eqn:Hhd; [|done].
apply head_filter_key in Hhd as (Hk & Hin). simpl in *. by simplify_eq.
Qed.

Lemma params_bucket_at_NoDup st b pb :
NoDup (pending st) → (b, pb) ∈ _params_buckets st →
params_bucket_at b st = Some pb.
Proof.
unfold pending, params_bucket_at.
induction (_params_buckets st) as [|[b' pb'] P IH]; intros Hnd Hin.
- by apply elem_of_nil in Hin.
- rewrite fmap_cons in Hnd. apply NoDup_cons in Hnd as (Hb' & Hnd).
  apply elem_of_cons in Hin as [[= <- <-]|Hin].
  + by rewrite filter_cons_True by done.
  + rewrite filter_cons_False; [by apply IH|]. simpl. intros ->.
    apply Hb'. apply list_elem_of_fmap. by exists (b, pb).
Qed.

Lemma sync_started_values c pb :
0 < distributed_size c →
ParameterBucket.status pb = ParameterStatus.SHARDED →
ParameterBucket.status (sync_started c pb) = ParameterStatus.SYNCING
∧ ParameterBucket.params_updated (sync_started c pb)
  = ParameterBucket.params_updated pb
∧ (is_Some (ParameterBucket.params_shard pb) →
   bucket_values c (sync_started c pb) = bucket_values c pb
   ∧ ParameterBucket.params_bucket (sync_started c pb) = bucket_values c pb).
Proof.
intros HD Es. destruct pb as [sh bk s u]. simpl in Es. subst s.
unfold sync_started, gathered_param, started_param, bucket_values. simpl.
destruct (Z.ltb_spec 1 (distributed_size c)) as [H1|H1]; simpl.
- destruct sh as [sh|]; simpl.
  + destruct (Z.eqb_spec (distributed_size c) 1); [lia|]. done.
  + split; [done|]. split; [done|]. by intros [? ?].
- destruct (Z.eqb_spec (distributed_size c) 1); [|lia]. simpl.
  split; [done|]. split; [done|]. by destruct sh.
Qed.

(** [_try_start_bucket_param_sync()] *)
Lemma try_start_param_run st :
layout_wf st → params_wf st → NoDup (pending st) →
∃ st' (started : list nat),
  _try_start_bucket_param_sync None st = Ok st'
  ∧ non_param_state st' = non_param_state st
  ∧ param_groups st' = param_groups st
  ∧ pending st' = pending st
  ∧ (Exists (λ x, ParameterBucket.status x.2 = ParameterStatus.SYNCING)
       (_params_buckets st) → st' = st)
  ∧ (∀ b, params_bucket_at b st'
          = (λ pb, if decide (b ∈ started ∧ ParameterBucket.status pb
                                             = ParameterStatus.SHARDED)
                   then sync_started (config st) pb else pb)
              <$> params_bucket_at b st)
  ∧ (¬ Exists (λ x, ParameterBucket.status x.2 = ParameterStatus.SYNCING)
       (_params_buckets st) →
     ∀ x, head (filter (λ x, ParameterBucket.status x.2 = ParameterStatus.SHARDED)
                  (_params_buckets st)) = Some x →
          x.1 ∈ started).
Proof.
intros Hlay Hpar Hnd. unfold _try_start_bucket_param_sync.
assert (Hid : ∀ b, params_bucket_at b st
          = (λ pb, if decide (b ∈ @nil nat ∧ ParameterBucket.status pb
                                             = ParameterStatus.SHARDED)
                   then sync_started (config st) pb else pb)
              <$> params_bucket_at b st).
{ intros b. by destruct (params_bucket_at b st) as [pb|]. }
destruct (decide (Exists _ _)) as [Hex|Hnex].
{ exists st, []. simpl. split_and!; try done. }
destruct (head (filter _ (_params_buckets st))) as [x|] eqn:Hhead.
2:{ exists st, []. simpl. split_and!; try done. }
pose proof Hhead as Hx. apply head_Some_elem_of in Hx.
apply list_elem_of_filter in Hx as (Hxs & Hxin).
destruct x as [bx pbx]. simpl in Hxs.
pose proof (params_bucket_at_NoDup st bx pbx Hnd Hxin) as Hpbx.
destruct (Hpar bx pbx Hpbx) as (sb & Hsb & (_ & _ & Hsize)).
simpl. rewrite Hsb.
destruct (last (fragments sb)) as [fragment|] eqn:Hlast.
2:{ apply last_None in Hlast. rewrite Hlast in Hsize. simpl in Hsize. lia. }
assert (Hfin : fragment ∈ fragments sb).
{ apply last_Some in Hlast as (l' & ->). apply elem_of_app. right. by left. }
destruct (bucket_fragment st bx sb fragment Hlay Hsb Hfin) as (Hbid & fs & Hfs & Hin).
simpl. rewrite Hfs. simpl.
set (buckets := filter (λ bucket_id,
                  ParameterBucket.status <$> params_bucket_at bucket_id st
                  = Some ParameterStatus.SHARDED)
                 (merge_sort (≤)%nat
                    (elements (list_to_set (bucket_id <$> fs) : gset nat)))).
assert (Hbx : bx ∈ buckets).
{ unfold buckets. apply list_elem_of_filter. split; [by rewrite Hpbx; simpl; rewrite Hxs|].
  rewrite merge_sort_Permutation, elem_of_elements, elem_of_list_to_set.
  apply list_elem_of_fmap. by exists fragment. }
pose proof Hlay as ((_ & _ & HD) & _).
destruct (start_bucket_param_sync_run buckets st HD) as (s1 & Hrun & E1 & P1 & N1 & B1).
{ apply NoDup_filter. rewrite merge_sort_Permutation. apply NoDup_elements. }
{ intros b pb Hb Hpb Es. destruct (Hpar b pb Hpb) as (sb' & _ & (v & Hv & _) & _).
  unfold bucket_values in Hv. rewrite Es in Hv.
  destruct (ParameterBucket.params_shard pb); [eauto|done]. }
exists s1, buckets.
split. { destruct buckets as [|b0 bl] eqn:Eb; [by apply elem_of_nil in Hbx|].
         exact Hrun. }
split; [done|]. split; [done|]. split; [done|]. split; [done|]. split.
- intros b. rewrite B1. destruct (params_bucket_at b st) as [pb|] eqn:Hpb; [|done].
  simpl. f_equal. unfold start_sync. destruct (decide _); [done|].
  unfold finished_param. rewrite decide_False; [done|]. intros Es. apply Hnex.
  apply Exists_exists. exists (b, pb). split; [|done].
  by apply params_bucket_at_elem.
- intros _ x [= <-]. done.
Qed.

(** A launch keeps the values of the buckets. *)
Lemma try_start_param_kept st st' (started : list nat) :
layout_wf st → params_wf st →
non_param_state st' = non_param_state st →
(∀ b, params_bucket_at b st'
      = (λ pb, if decide (b ∈ started ∧ ParameterBucket.status pb
                                         = ParameterStatus.SHARDED)
               then sync_started (config st) pb else pb)
          <$> params_bucket_at b st) →
(∀ b pb, params_bucket_at b st = Some pb →
   ∃ pb', params_bucket_at b st' = Some pb'
     ∧ bucket_values (config st) pb' = bucket_values (config st) pb
     ∧ ParameterBucket.params_updated pb' = ParameterBucket.params_updated pb)
∧ params_wf st'.
Proof.
intros Hlay Hpar E B. pose proof Hlay as ((_ & _ & HD) & _).
assert (Hkeep : ∀ b pb, params_bucket_at b st = Some pb →
          ∃ pb', params_bucket_at b st' = Some pb'
            ∧ bucket_values (config st) pb' = bucket_values (config st) pb
            ∧ ParameterBucket.params_updated pb'
              = ParameterBucket.params_updated pb).
{ intros b pb Hpb. rewrite B, Hpb. simpl. eexists. split; [done|].
  destruct (decide _) as [(_ & Es)|]; [|done].
  destruct (sync_started_values (config st) pb HD Es) as (_ & U & V).
  split; [|done]. apply V.
  destruct (Hpar b pb Hpb) as (sb & _ & (v & Hv & _) & _).
  unfold bucket_values in Hv. rewrite Es in Hv.
  destruct (ParameterBucket.params_shard pb); [eauto|done]. }
split; [done|].
intros b pb' Hpb'. rewrite B in Hpb'.
destruct (params_bucket_at b st) as [pb|] eqn:Hpb; [|done].
destruct (Hkeep b pb Hpb) as (pb2 & Hpb2 & V & U).
rewrite B, Hpb in Hpb2. rewrite Hpb' in Hpb2. injection Hpb2 as <-.
destruct (Hpar b pb Hpb) as (sb & Hsb & (Hv & Hsub & Hsize)).
exists sb. replace (state_buckets st') with (state_buckets st) by (by injection E).
replace (config st') with (config st) by (by injection E).
split; [done|]. unfold pbucket_ok. by rewrite V, U.
Qed.

Lemma try_start_param_step st :
layout_wf st → params_wf st → NoDup (pending st) →
∃ st',
  _try_start_bucket_param_sync None st = Ok st'
  ∧ non_param_state st' = non_param_state st
  ∧ param_groups st' = param_groups st
  ∧ pending st' = pending st
  ∧ params_wf st'.
Proof.
intros Hlay Hpar Hnd.
destruct (try_start_param_run st Hlay Hpar Hnd)
  as (st' & started & Hrun & E & P & N & _ & B & _).
destruct (try_start_param_kept st st' started Hlay Hpar E B) as (_ & Hpar').
by exists st'.
Qed.
End TryStartParam.

(** [_try_start_bucket_param_sync()] without parameters does nothing while
    a bucket is [SYNCING].  Otherwise it launches the all-gather of the
    first bucket that is [SHARDED]: that bucket becomes [SYNCING] and its
    buffer holds the gathered shards.  No parameter changes, no bucket is
    added or deleted, and every bucket keeps its values and the parameters
    it counts as updated. *)
Theorem try_start_param_sync_launches_next
    {T : Type} `{TensorElt T} `{Collectives T} (st : Optimizer T) :
  layout_wf st → params_wf st → NoDup (pending st) →
  ∃ st',
    _try_start_bucket_param_sync None st = Ok st'
    ∧ non_param_state st' = non_param_state st
    ∧ param_groups st' = param_groups st
    ∧ pending st' = pending st
    ∧ params_wf st'
    ∧ (Exists (λ x, ParameterBucket.status x.2 = ParameterStatus.SYNCING)
         (_params_buckets st) → st' = st)
    ∧ (∀ b pb, params_bucket_at b st = Some pb →
         ∃ pb', params_bucket_at b st' = Some pb'
           ∧ bucket_values (config st) pb' = bucket_values (config st) pb
           ∧ ParameterBucket.params_updated pb' = ParameterBucket.params_updated pb)
    ∧ (¬ Exists (λ x, ParameterBucket.status x.2 = ParameterStatus.SYNCING)
         (_params_buckets st) →
       ∀ b pb,
         head (filter (λ x, ParameterBucket.status x.2 = ParameterStatus.SHARDED)
                 (_params_buckets st)) = Some (b, pb) →
         ∃ pb', params_bucket_at b st' = Some pb'
           ∧ ParameterBucket.status pb' = ParameterStatus.SYNCING
           ∧ ParameterBucket.params_bucket pb' = bucket_values (config st) pb).
Proof.
  intros Hlay Hpar Hnd.
  destruct (try_start_param_run st Hlay Hpar Hnd)
    as (st' & started & Hrun & E & P & N & Hex & B & Hfirst).
  destruct (try_start_param_kept st st' started Hlay Hpar E B) as (Hkeep & Hpar').
  pose proof Hlay as ((_ & _ & HD) & _).
  exists st'. split; [done|]. split; [done|]. split; [done|]. split; [done|].
  split; [done|]. split; [done|]. split; [done|].
  intros Hnex b pb Hhead.
  pose proof (Hfirst Hnex _ Hhead) as Hin. simpl in Hin.
  apply head_Some_elem_of in Hhead.
  apply list_elem_of_filter in Hhead as (Es & Hxin). simpl in Es.
  pose proof (params_bucket_at_NoDup st b pb Hnd Hxin) as Hpb.
  rewrite B, Hpb. simpl. eexists. split; [done|].
  rewrite decide_True by done.
  destruct (sync_started_values (config st) pb HD Es) as (S' & _ & V).
  split; [done|]. apply V.
  destruct (Hpar b pb Hpb) as (sb & _ & (v & Hv & _) & _).
  unfold bucket_values in Hv. rewrite Es in Hv.
  destruct (ParameterBucket.params_shard pb); [eauto|done].
Qed.

(** The example of a bucket of two shards: the bucket is gathered. *)
Lemma try_start_param_sync_launches_next_witness :
  let st :=
    set_params_buckets
      [(0%nat, {| ParameterBucket.params_shard := Some (replicate 64 3);
                  ParameterBucket.params_bucket := None;
                  ParameterBucket.status := ParameterStatus.SHARDED;
                  ParameterBucket.params_updated := ∅ |})]
      (example_mapped (example_config 32 64 2 0) [[replicate 10 7]]) in
  ∃ st' pb', _try_start_bucket_param_sync None st = Ok st'
    ∧ params_bucket_at 0 st' = Some pb'
    ∧ ParameterBucket.status pb' = ParameterStatus.SYNCING
    ∧ ParameterBucket.params_bucket pb' = Some (replicate 128 3).
Proof.
  intros st.
  destruct (example_mapped_wf 32 64 2 0 [[replicate 10 7]] (replicate 10 7))
    as (Hwf & _ & _); try lia; [done|].
  destruct (try_start_param_sync_launches_next st)
    as (st' & Hrun & _ & _ & _ & _ & _ & _ & Hfirst).
  { exact Hwf. }
  { intros bid pb Hpb. destruct bid as [|bid]; [|by vm_compute in Hpb].
    injection Hpb as <-.
    destruct (state_buckets st !! 0%nat) as [sb|] eqn:Hsb; [|by vm_compute in Hsb].
    exists sb. split; [done|]. vm_compute in Hsb. injection Hsb as <-.
    split; [|split].
    - eexists. split; [reflexivity|]. by vm_compute.
    - intros k Hk. by apply elem_of_empty in Hk.
    - change (size (∅ : gset ParamKey) < 1)%nat. rewrite size_empty. lia. }
  { apply NoDup_singleton. }
  destruct (Hfirst) with (b := 0%nat)
    (pb := {| ParameterBucket.params_shard := Some (replicate 64 3);
              ParameterBucket.params_bucket := None;
              ParameterBucket.status := ParameterStatus.SHARDED;
              ParameterBucket.params_updated := (∅ : gset ParamKey) |})
    as (pb' & Hpb' & Hs & Hv).
  { intros Hex. apply Exists_exists in Hex as (x & Hx & Hsx).
    apply list_elem_of_singleton in Hx. subst x. done. }
  { done. }
  exists st', pb'. split; [done|]. split; [done|]. split; [done|].
  rewrite Hv. reflexivity.
Defined.

(** The first read of a parameter whose pre-forward hook is enabled
    synchronizes the parameter: the read returns with the hook of the
    parameter disabled (the hooks of the other parameters are as before),
    every fragment of the parameter that lay in a waiting bucket holds the
    gathered values of its bucket, and no other parameter is changed.  The
    next read of the parameter does nothing. *)
Theorem pre_forward_hook_synchronizes_parameter
    {T : Type} `{TensorElt T} `{Collectives T} (st : Optimizer T) (k : ParamKey) :
  layout_wf st → params_wf st → NoDup (pending st) →
  hook_is_enabled k st = true →
  ∃ st',
    getattribute_with_pre_forward_hook k st = Ok st'
    ∧ hook_is_enabled k st' = false
    ∧ (∀ k', k' ≠ k → hook_is_enabled k' st' = hook_is_enabled k' st)
    ∧ layout_wf st' ∧ params_wf st' ∧ NoDup (pending st')
    ∧ (∀ fs f pb v,
         state_fragments st !! k = Some fs → f ∈ fs →
         params_bucket_at (bucket_id f) st = Some pb →
         bucket_values (config st) pb = Some v → fragment_copied st' f v)
    ∧ (∀ k', k' ≠ k → lookup_param st' k' = lookup_param st k')
    ∧ getattribute_with_pre_forward_hook k st' = Ok st'.
Proof.
  intros Hlay Hpar Hnd Hen. unfold getattribute_with_pre_forward_hook at 1.
  rewrite Hen.
  set (st1 := set_pre_forward_hook_is_enabled
                (<[k := false]> (pre_forward_hook_is_enabled st)) st).
  assert (Hlay1 : layout_wf st1) by exact Hlay.
  assert (Hpar1 : params_wf st1) by exact Hpar.
  assert (Hoff : ∀ s : Optimizer T,
            pre_forward_hook_is_enabled s = pre_forward_hook_is_enabled st1 →
            hook_is_enabled k s = false
            ∧ (∀ k', k' ≠ k → hook_is_enabled k' s = hook_is_enabled k' st)
            ∧ getattribute_with_pre_forward_hook k s = Ok s).
  { intros s Es.
    assert (Hk : hook_is_enabled k s = false).
    { unfold hook_is_enabled. rewrite Es. simpl. by rewrite lookup_insert_eq. }
    split; [done|]. split.
    - intros k' Hne. unfold hook_is_enabled. rewrite Es. simpl.
      by rewrite lookup_insert_ne.
    - unfold getattribute_with_pre_forward_hook. by rewrite Hk. }
  unfold pre_forward_hook.
  destruct (state_fragments st1 !! k) as [fs|] eqn:Hfs.
  2:{ exists st1. destruct (Hoff st1 eq_refl) as (O1 & O2 & O3).
      split; [done|]. split; [done|]. split; [done|]. split; [done|].
      split; [done|]. split; [done|]. split; [|done].
      intros fs f pb v Hfs'. change (state_fragments st !! k = None) in Hfs.
      congruence. }
  destruct (sync_inv_step st1 st1 k (sync_inv_refl st1 Hlay1 Hpar1))
    as (s2 & Hrun2 & Hinv2 & Hsub2 & _ & _).
  destruct (param_copy_run k st1 Hlay1 Hpar1)
    as (s2' & Hrun2' & E2 & _ & Lo2 & _ & Hc2 & _).
  rewrite Hrun2 in Hrun2'. injection Hrun2' as <-.
  rewrite Hrun2. simpl.
  destruct Hinv2 as (Hlay2 & Hpar2 & _).
  assert (Hnd2 : NoDup (pending s2)).
  { eapply sublist_NoDup; [|exact Hsub2]. exact Hnd. }
  assert (Hcopied : ∀ fs f pb v,
            state_fragments st !! k = Some fs → f ∈ fs →
            params_bucket_at (bucket_id f) st = Some pb →
            bucket_values (config st) pb = Some v → fragment_copied s2 f v).
  { intros fs' f pb v Hfs' Hf Hpb Hv. apply (Hc2 f pb v); try done.
    change (state_fragments st1 !! k) with (state_fragments st !! k).
    rewrite Hfs'. simpl. apply list_elem_of_filter. split; [|done].
    change (params_bucket_at (bucket_id f) st1)
      with (params_bucket_at (bucket_id f) st). rewrite Hpb. eauto. }
  assert (Hflags2 : pre_forward_hook_is_enabled s2 = pre_forward_hook_is_enabled st1)
    by (by injection E2).
  destruct (overlap_param_sync (config s2)).
  - destruct (try_start_param_step s2 Hlay2 Hpar2 Hnd2)
      as (s3 & Hrun3 & E3 & P3 & N3 & Hpar3).
    assert (Hl3 : ∀ k', lookup_param s3 k' = lookup_param s2 k').
    { intros k'. unfold lookup_param. by rewrite P3. }
    destruct (Hoff s3) as (O1 & O2 & O3).
    { rewrite <- Hflags2. by injection E3. }
    exists s3. split; [done|]. split; [done|]. split; [done|].
    split. { apply (layout_wf_params s2 s3); try done; try (by injection E3).
             intros k'. by rewrite Hl3. }
    split; [done|]. split; [by rewrite N3|]. split.
    + intros fs' f pb v Hfs' Hf Hpb Hv.
      destruct (Hcopied fs' f pb v Hfs' Hf Hpb Hv) as (p & Hp & Hsl).
      exists p. split; [by rewrite Hl3|done].
    + split; [|done]. intros k' Hne. rewrite Hl3. by apply Lo2.
  - destruct (Hoff s2 Hflags2) as (O1 & O2 & O3).
    exists s2. split; [done|]. split; [done|]. split; [done|]. split; [done|].
    split; [done|]. split; [done|]. split; [done|]. split; [|done].
    intros k' Hne. by apply Lo2.
Qed.

(** The example of a bucket of two shards with the hook of the parameter
    enabled: the read copies the gathered values into the parameter. *)
Lemma pre_forward_hook_synchronizes_parameter_witness :
  let st :=
    set_pre_forward_hook_is_enabled {[ (0%nat, 0%nat) := true ]}
      (set_params_buckets
         [(0%nat, {| ParameterBucket.params_shard := Some (replicate 64 3);
                     ParameterBucket.params_bucket := None;
                     ParameterBucket.status := ParameterStatus.SHARDED;
                     ParameterBucket.params_updated := ∅ |})]
         (example_mapped (example_config 32 64 2 0) [[replicate 10 7]])) in
  ∃ st', getattribute_with_pre_forward_hook (0%nat, 0%nat) st = Ok st'
    ∧ hook_is_enabled (0%nat, 0%nat) st' = false
    ∧ lookup_param st' (0%nat, 0%nat) = Some (replicate 10 3).
Proof.
  intros st.
  destruct (example_mapped_wf 32 64 2 0 [[replicate 10 7]] (replicate 10 7))
    as (Hwf & _ & _); try lia; [done|].
  destruct (pre_forward_hook_synchronizes_parameter st (0%nat, 0%nat))
    as (st' & Hrun & Hoff & _).
  { exact Hwf. }
  { intros bid pb Hpb. destruct bid as [|bid]; [|by vm_compute in Hpb].
    injection Hpb as <-.
    destruct (state_buckets st !! 0%nat) as [sb|] eqn:Hsb; [|by vm_compute in Hsb].
    exists sb. split; [done|]. vm_compute in Hsb. injection Hsb as <-.
    split; [|split].
    - eexists. split; [reflexivity|]. by vm_compute.
    - intros k Hk. by apply elem_of_empty in Hk.
    - change (size (∅ : gset ParamKey) < 1)%nat. rewrite size_empty. lia. }
  { apply NoDup_singleton. }
  { done. }
  exists st'. split; [done|]. split; [done|].
  vm_compute in Hrun. injection Hrun as <-. by vm_compute.
Defined.

(** [param_sync] does not return when the first bucket of
    [_params_buckets] has no fragments, as the bucket made for a first
    parameter without elements: the body of the loop leaves
    [_params_buckets] as it is, so the loop is still running after every
    number of iterations. *)
Theorem param_sync_hangs_without_fragments
    {T : Type} `{TensorElt T} `{Collectives T} (st : Optimizer T)
    (bid : nat) (pb : ParameterBucket.t T) (rest : list (nat * ParameterBucket.t T))
    (sb : StateBucket T) :
  _params_buckets st = (bid, pb) :: rest →
  state_buckets st !! bid = Some sb → fragments sb = [] →
  (∀ fuel, param_sync_loop fuel st = OutOfFuel) ∧ param_sync st = OutOfFuel.
Proof.
  intros Hp Hsb Hf.
  assert (Hloop : ∀ fuel, param_sync_loop fuel st = OutOfFuel).
  { induction fuel as [|fuel IH]; simpl; rewrite Hp; [done|].
    rewrite Hsb, Hf. simpl. exact IH. }
  split; [done|]. unfold param_sync. by rewrite Hloop.
Qed.

(** The optimizer whose only parameter has no elements, with the bucket of
    that parameter waiting. *)
Lemma param_sync_hangs_without_fragments_witness :
  let st :=
    set_params_buckets [(0%nat, ParameterBucket.init)]
      (example_mapped (example_config 32 64 1 0) [[ [] ]]) in
  (∀ fuel, param_sync_loop fuel st = OutOfFuel) ∧ param_sync st = OutOfFuel.
Proof.
  intros st.
  destruct (state_buckets st !! 0%nat) as [sb|] eqn:Hsb; [|by vm_compute in Hsb].
  apply (param_sync_hangs_without_fragments st 0 ParameterBucket.init [] sb);
    [done|done|].
  vm_compute in Hsb. by injection Hsb as <-.
Defined.

Section LoadFacts.
Context {T : Type} `{TensorElt T} `{Collectives T}.
Implicit Types (c : Config) (b : StateBucket T) (bs : list (StateBucket T)).
Implicit Types (st : Optimizer T).

Lemma state_equiv_refl b : state_equiv b b.
Proof. by split_and!. Qed.

Lemma state_equiv_trans b1 b2 b3 :
state_equiv b1 b2 → state_equiv b2 b3 → state_equiv b1 b3.
Proof.
intros (A1 & A2 & A3 & A4 & A5 & A6 & A7) (B1 & B2 & B3 & B4 & B5 & B6 & B7).
split_and!; congruence.
Qed.

Lemma Forall2_state_equiv_refl bs : Forall2 state_equiv bs bs.
Proof. apply Forall2_same_length_lookup. split; [done|].
intros i x y Hx Hy. rewrite Hx in Hy. injection Hy as <-. apply state_equiv_refl.
Qed.

Lemma Forall2_state_equiv_trans bs1 bs2 bs3 :
Forall2 state_equiv bs1 bs2 → Forall2 state_equiv bs2 bs3 →
Forall2 state_equiv bs1 bs3.
Proof.
intros H1 H2. eapply Forall2_trans; [|exact H1|exact H2].
intros x y z. apply state_equiv_trans.
Qed.

Lemma Forall2_state_equiv_insert bs i b b' :
bs !! i = Some b → state_equiv b b' → Forall2 state_equiv bs (<[i := b']> bs).
Proof.
intros Hb He. apply Forall2_same_length_lookup.
split; [by rewrite length_insert|]. intros j x y Hx Hy.
destruct (decide (i = j)) as [->|Hne].
- rewrite list_lookup_insert_eq in Hy by (by eapply lookup_lt_Some).
  injection Hy as <-. rewrite Hb in Hx. by injection Hx as <-.
- rewrite list_lookup_insert_ne in Hy by done. rewrite Hx in Hy.
  injection Hy as <-. apply state_equiv_refl.
Qed.

Lemma bucket_ok_state_equiv c fm i b b' :
state_equiv b b' → bucket_ok c fm i b → bucket_ok c fm i b'.
Proof.
intros (A1 & A2 & A3 & A4 & A5 & A6 & A7)
       (B1 & B2 & B3 & B4 & B5 & B6 & B7 & B8 & B9).
unfold bucket_ok. rewrite A1, A2, A3, A4, A5, A6.
split_and!; try done; try lia.
- destruct (params_shard b) as [t|], (params_shard b') as [t'|];
    simpl in A7; try done.
  destruct B6 as (? & ?). split; [done|]. injection A7 as A7. lia.
- eapply Forall_impl; [exact B9|]. intros f (F1 & F2 & F3).
  split; [done|]. split; [done|]. unfold fragment_shape_ok in *. by rewrite A2.
Qed.

Lemma layout_ok_state_equiv c pg bs bs' fm :
Forall2 state_equiv bs bs' → layout_ok c pg bs fm → layout_ok c pg bs' fm.
Proof.
intros He (Hb & Hf). split.
- intros i b' Hi.
  destruct (Forall2_lookup_r _ _ _ _ _ He Hi) as (b & Hb0 & Heq).
  eapply bucket_ok_state_equiv; [exact Heq|]. by apply Hb.
- intros k fs Hk. destruct (Hf _ _ Hk) as (p & Hp & (Hp2 & Hch & Hall)).
  exists p. split; [done|]. split_and!; try done.
  eapply Forall_impl; [exact Hall|]. intros f (Hkey & b & Hb0 & Hin).
  split; [done|].
  destruct (Forall2_lookup_l _ _ _ _ _ He Hb0) as (b' & Hb' & Heq).
  exists b'. split; [done|]. destruct Heq as (_ & _ & _ & -> & _). done.
Qed.

Lemma load_ready_equiv c entry bs bs' g :
Forall2 state_equiv bs bs' → load_ready c entry bs g → load_ready c entry bs' g.
Proof.
intros He (b & Hb & HS & Hs & Hz & Hp & L1 & L2 & L3).
destruct (Forall2_lookup_l _ _ _ _ _ He Hb) as (b' & Hb' & Heq).
destruct Heq as (A1 & A2 & A3 & A4 & A5 & A6 & A7).
exists b'. unfold fragment_shape_ok in *. rewrite A2, A5, A6.
destruct Hs as (Hs1 & Hs2 & Hs3).
split_and!; try done; try lia.
intros t' Ht'. rewrite Ht' in A7. destruct (params_shard b) as [t|]; [|done].
simpl in A7. injection A7 as A7. rewrite A7. by apply L3.
Qed.

(** One fragment is loaded. *)
Lemma load_fragment_run c entry g st :
load_ready c entry (state_buckets st) g →
∃ bs',
  load_fragment entry g st = Ok (set_state_buckets bs' st)
  ∧ Forall2 state_equiv (state_buckets st) bs'
  ∧ (∀ key, state_loaded key bs' g (get_state key entry))
  ∧ (∀ h v key, state_loaded key (state_buckets st) h v →
       shard_separate c g h → state_loaded key bs' h v).
Proof.
intros (b & Hb & HS & (Hf & Hps & Hlen) & Hz & Hp & L1 & L2 & L3).
unfold load_fragment. destruct (in_local_shard g) eqn:Eloc.
2:{ exists (state_buckets st). split; [by destruct st|].
    split; [apply Forall2_state_equiv_refl|]. split; [|done].
    intros key b' sh ps pe ss se _ _ _ Hs.
    rewrite Hf in Eloc, Hs. unfold make_fragment in Eloc, Hs.
    simpl in Eloc, Hs. by rewrite Eloc in Hs. }
rewrite Hb. pose proof Eloc as Eloc'. rewrite Hf in Eloc'.
destruct (make_fragment_local c (fragment_key g) (bucket_id g) (shard_size b)
            (param_range g).1 (param_range g).2
            (bucket_range g).1 (bucket_range g).2 Hz ltac:(lia) Hlen Eloc')
  as (s & e & Hs1 & Hs2 & Hs3 & Hse & HeS & Hlo & Hhi & _).
rewrite <- Hf in Hs1, Hs3. rewrite Hs3, Hs1.
set (ps := s + shard_size b * distributed_rank c - (bucket_range g).1
           + (param_range g).1) in *.
set (pe := e + shard_size b * distributed_rank c - (bucket_range g).1
           + (param_range g).1) in *.
assert (Hsrc : ∀ key, length (tensor_slice (get_state key entry) ps pe)
                      = Z.to_nat (e - s)).
{ intros key. specialize (Hp key).
  rewrite tensor_slice_length; unfold ps, pe; lia. }
assert (Hpsh : ∃ psh,
  match params_shard b with
  | Some t =>
    ps' ← slice_copy_ t s e (tensor_slice (sd_param entry) ps pe); Ok (Some ps')
  | None => Ok None
  end = Ok psh
  ∧ psh = (λ t, tensor_slice_set t s e (tensor_slice (sd_param entry) ps pe))
            <$> params_shard b).
{ destruct (params_shard b) as [t|] eqn:Ht; [|by eexists].
  rewrite slice_copy_Ok; try lia.
  - by eexists.
  - rewrite (L3 t); [lia|done].
  - exact (Hsrc KeyParam). }
destruct Hpsh as (psh & -> & Hpsh). simpl.
rewrite (slice_copy_Ok (exp_avg_shard b));
  [|lia|lia|lia|exact (Hsrc KeyExpAvg)]. simpl.
rewrite (slice_copy_Ok (exp_avg_sq_shard b));
  [|lia|lia|lia|exact (Hsrc KeyExpAvgSq)]. simpl.
set (b' := set_exp_avg_sq_shard _ (set_exp_avg_shard _ (set_params_shard psh b))).
exists (<[bucket_id g := b']> (state_buckets st)). split; [done|].
assert (Hlt : (bucket_id g < length (state_buckets st))%nat)
  by (by eapply lookup_lt_Some).
assert (Hsh' : ∀ key sh, bucket_state key b' = Some sh →
          ∃ t, bucket_state key b = Some t
            ∧ length t = Z.to_nat (shard_size b)
            ∧ sh = tensor_slice_set t s e (tensor_slice (get_state key entry) ps pe)).
{ intros key sh Hsh. destruct key; simpl in Hsh.
  - rewrite Hpsh in Hsh. destruct (params_shard b) as [t|] eqn:Ht; [|done].
    simpl in Hsh. injection Hsh as <-. exists t. split; [done|].
    split; [by apply L3|done].
  - injection Hsh as <-. eexists. split; [done|]. done.
  - injection Hsh as <-. eexists. split; [done|]. done. }
split.
{ eapply Forall2_state_equiv_insert; [exact Hb|].
  unfold state_equiv, b'. simpl. split_and!; try done.
  - apply tensor_slice_set_length; try lia. exact (Hsrc KeyExpAvg).
  - apply tensor_slice_set_length; try lia. exact (Hsrc KeyExpAvgSq).
  - rewrite Hpsh. destruct (params_shard b) as [t|] eqn:Ht; [|done]. simpl.
    f_equal. apply tensor_slice_set_length; try lia;
      [rewrite (L3 t); [lia|done]|exact (Hsrc KeyParam)]. }
split.
- intros key b2 sh ps' pe' ss se Hb2 Hsh Hp' Hs'.
  rewrite list_lookup_insert_eq in Hb2 by done. injection Hb2 as <-.
  rewrite Hs3 in Hp'. rewrite Hs1 in Hs'. injection Hp' as <- <-.
  injection Hs' as <- <-.
  destruct (Hsh' key sh Hsh) as (t & Ht & Hlt' & ->).
  apply tensor_slice_set_same; try lia. exact (Hsrc key).
- intros h v key Hh Hsep b2 sh ps' pe' ss se Hb2 Hsh Hp' Hs'.
  destruct (decide (bucket_id h = bucket_id g)) as [E|E].
  + destruct Hsep as [|Hsep]; [done|].
    destruct (Hsep _ _ _ _ Hs1 Hs') as (X1 & X2 & X3 & X4).
    rewrite E, list_lookup_insert_eq in Hb2 by done. injection Hb2 as <-.
    destruct (Hsh' key sh Hsh) as (t & Ht & Hlt' & ->).
    rewrite tensor_slice_set_other; try lia; [|exact (Hsrc key)].
    eapply Hh; eauto. by rewrite E.
  + rewrite list_lookup_insert_ne in Hb2 by done. by eapply Hh.
Qed.

(** The fragments of one parameter are loaded. *)
Lemma load_fragments_run c entry frags :
∀ st,
  Forall (load_ready c entry (state_buckets st)) frags →
  NoDup (bucket_id <$> frags) →
  ∃ bs',
    for_each (load_fragment entry) frags st = Ok (set_state_buckets bs' st)
    ∧ Forall2 state_equiv (state_buckets st) bs'
    ∧ (∀ g key, g ∈ frags → state_loaded key bs' g (get_state key entry))
    ∧ (∀ h v key, state_loaded key (state_buckets st) h v →
         (∀ g, g ∈ frags → shard_separate c g h) → state_loaded key bs' h v).
Proof.
induction frags as [|g frags IH]; intros st Hall Hnd.
- exists (state_buckets st). split; [by destruct st|].
  split; [apply Forall2_state_equiv_refl|]. split; [|done].
  by intros g key ?%elem_of_nil.
- apply Forall_cons in Hall as (Hg & Hall).
  rewrite fmap_cons in Hnd. apply NoDup_cons in Hnd as (Hnin & Hnd).
  destruct (load_fragment_run c entry g st Hg) as (bs1 & Hrun1 & He1 & Hnew & Hold).
  destruct (IH (set_state_buckets bs1 st)) as (bs2 & Hrun2 & He2 & IH1 & IH2).
  { eapply Forall_impl; [exact Hall|]. intros g'. by apply load_ready_equiv. }
  { done. }
  exists bs2. split; [simpl; rewrite Hrun1; simpl; exact Hrun2|].
  split; [by eapply Forall2_state_equiv_trans|]. split.
  + intros g' key [->|Hg']%elem_of_cons; [|by apply IH1].
    apply IH2; [apply Hnew|]. intros g' Hg'. left. intros E. apply Hnin.
    rewrite E. apply list_elem_of_fmap. by exists g'.
  + intros h v key Hh Hsep. apply IH2.
    * apply Hold; [done|]. apply Hsep. by left.
    * intros g' Hg'. apply Hsep. by right.
Qed.
End LoadFacts.

Section LoadLoop.
Context {T : Type} `{TensorElt T} `{Collectives T}.
Implicit Types (c : Config) (b : StateBucket T) (bs : list (StateBucket T)).
Implicit Types (st : Optimizer T) (sd : StateDict T).

Lemma load_param_run sd st0 k bs :
layout_wf st0 → Forall2 state_equiv (state_buckets st0) bs →
is_Some (state_fragments st0 !! k) → entry_ready sd st0 k →
∃ bs',
  load_param sd k (set_state_buckets bs st0) = Ok (set_state_buckets bs' st0)
  ∧ Forall2 state_equiv (state_buckets st0) bs'
  ∧ param_loaded sd st0 k bs'
  ∧ ∀ k', param_loaded sd st0 k' bs → param_loaded sd st0 k' bs'.
Proof.
intros Hlay He (fs & Hfs) (p & idx & entry & Hp & Hpos & Hidx & Hentry & Hlen).
pose proof Hlay as ((_ & HS & _) & Hbs & Hfm).
destruct (Hfm _ _ Hfs) as (p' & Hp' & (_ & Hch & _)).
change (lookup_param st0 k = Some p') in Hp'. rewrite Hp in Hp'.
injection Hp' as <-.
destruct fs as [|f0 fs0].
{ simpl in Hch. lia. }
set (fs := f0 :: fs0) in *.
assert (Hkey0 : fragment_key f0 = k).
{ destruct (layout_fragment st0 k _ f0 Hlay Hfs) as (_ & _ & _ & _ & _ & Hk & _);
    [by left|done]. }
unfold load_param.
change (state_fragments (set_state_buckets bs st0)) with (state_fragments st0).
change (param_groups (set_state_buckets bs st0)) with (param_groups st0).
rewrite Hfs. unfold fs at 1. rewrite Hkey0, Hidx. simpl. rewrite Hentry.
fold fs.
destruct (load_fragments_run (config st0) entry fs (set_state_buckets bs st0))
  as (bs' & Hrun & He' & Hnew & Hold).
{ apply Forall_forall. intros g Hg.
  apply (load_ready_equiv _ _ (state_buckets st0)); [done|].
  destruct (layout_fragment st0 k fs g Hlay Hfs Hg)
    as (sb & p0 & Hsb & Hp0 & Hgin & Hk & Hbok & R1 & R2 & R3 & _).
  rewrite Hp in Hp0. injection Hp0 as <-.
  pose proof Hbok as (B1 & B2 & B3 & B4 & B5 & B6 & B7 & B8 & B9).
  rewrite Forall_forall in B9. destruct (B9 _ Hgin) as (_ & _ & Hshape).
  exists sb. split_and!; try done; try lia.
  - intros key. rewrite Hlen. done.
  - intros t Ht. rewrite Ht in B6. by destruct B6. }
{ by eapply layout_bucket_ids_NoDup. }
exists bs'. split; [exact Hrun|].
split; [by eapply Forall2_state_equiv_trans|]. split.
- intros fs' f idx' entry' key Hfs' Hf Hidx' Hentry'.
  rewrite Hfs in Hfs'. injection Hfs' as <-.
  rewrite Hidx in Hidx'. injection Hidx' as <-.
  rewrite Hentry in Hentry'. injection Hentry' as <-. by apply Hnew.
- intros k' Hk' fs' f idx' entry' key Hfs' Hf Hidx' Hentry'.
  destruct (decide (k' = k)) as [->|Hne].
  + rewrite Hfs in Hfs'. injection Hfs' as <-.
    rewrite Hidx in Hidx'. injection Hidx' as <-.
    rewrite Hentry in Hentry'. injection Hentry' as <-. by apply Hnew.
  + apply Hold; [by eapply Hk'|]. intros g Hg.
    destruct (decide (bucket_id f = bucket_id g)) as [E|E]; [|by left].
    right.
    destruct (layout_fragment st0 k fs g Hlay Hfs Hg)
      as (sb & _ & Hsb & _ & Hgin & Hkg & Hbok & _).
    destruct (layout_fragment st0 k' fs' f Hlay Hfs' Hf)
      as (sb' & _ & Hsb' & _ & Hfin & Hkf & _).
    rewrite E, Hsb in Hsb'. injection Hsb' as <-.
    apply (shard_ranges_disjoint (config st0) (state_fragments st0)
             (bucket_id g) sb f g); try done; [lia|congruence].
Qed.

Lemma load_params_run sd st0 (l : list ParamKey) :
layout_wf st0 →
Forall (λ k, is_Some (state_fragments st0 !! k) ∧ entry_ready sd st0 k) l →
∀ bs, Forall2 state_equiv (state_buckets st0) bs →
  ∃ bs',
    for_each (load_param sd) l (set_state_buckets bs st0)
    = Ok (set_state_buckets bs' st0)
    ∧ Forall2 state_equiv (state_buckets st0) bs'
    ∧ (∀ k, k ∈ l → param_loaded sd st0 k bs')
    ∧ ∀ k, param_loaded sd st0 k bs → param_loaded sd st0 k bs'.
Proof.
intros Hlay. induction l as [|k l IH]; intros Hall bs He.
- exists bs. split; [done|]. split; [done|]. split; [|done].
  by intros k ?%elem_of_nil.
- apply Forall_cons in Hall as ((Hk & Hentry) & Hall).
  destruct (load_param_run sd st0 k bs Hlay He Hk Hentry)
    as (bs1 & Hrun1 & He1 & Hnew & Hold).
  destruct (IH Hall bs1 He1) as (bs2 & Hrun2 & He2 & IH1 & IH2).
  exists bs2. split; [simpl; rewrite Hrun1; simpl; exact Hrun2|].
  split; [done|]. split.
  + intros k' [->|Hk']%elem_of_cons; [by apply IH2|by apply IH1].
  + intros k' Hk'. by apply IH2, Hold.
Qed.
End LoadLoop.

Section LoadTheorem.
Context {T : Type} `{TensorElt T} `{Collectives T} `{!CollectivesOk T}.
Implicit Types (st : Optimizer T) (sd : StateDict T).

(** "Make sure params are initialized" and "Finish any asynchronous
  communication" when no parameter bucket waits. *)
Lemma checkpoint_prepare_run st :
layout_wf st → grads_wf st → _params_buckets st = [] →
∃ st', checkpoint_prepare st = Ok st' ∧ layout_wf st'
  ∧ config st' = config st ∧ param_groups st' = param_groups st
  ∧ state_step st' = state_step st
  ∧ pre_forward_hook_is_enabled st' = pre_forward_hook_is_enabled st
  ∧ _params_buckets st' = []
  ∧ (∀ k, k ∈ parameters st → is_Some (state_fragments st' !! k))
  ∧ (∀ k fs, state_fragments st !! k = Some fs →
       state_fragments st' !! k = Some fs)
  ∧ buckets_extend (state_buckets st) (state_buckets st').
Proof.
intros Hlay Hgr Hpb.
destruct (init_params_of_Ok st None Hlay)
  as (s1 & _ & Hlay1 & Hall1 & Hkeep1 & _ & Hext1 & Ec1 & Epg1 & Egrad1 & Efl1
      & EG1 & EL1 & Epb1 & Est1 & Hinit); [by constructor|].
assert (Hgr1 : grads_wf s1) by (by eapply grads_wf_extend).
destruct (grad_sync_run s1 Hlay1 Hgr1)
  as (s1' & s2 & Hsync & _ & _ & Hstep2 & _ & E2 & _).
assert (Hlay2 : layout_wf s2).
{ eapply layout_wf_frame; [| | | |exact Hlay1]; by injection E2. }
assert (Epb2 : _params_buckets s2 = []).
{ rewrite <- Hpb, <- Epb1. by injection E2. }
unfold checkpoint_prepare. rewrite (Hinit eq_refl). simpl. rewrite Hsync. simpl.
unfold param_sync. rewrite Epb2. simpl. rewrite Epb2. simpl.
exists (set_params_buckets [] s2). split; [done|].
split; [exact Hlay2|]. simpl.
split. { rewrite <- Ec1. by injection E2. }
split. { rewrite <- Epg1. by injection E2. }
split. { rewrite <- Est1. by injection E2. }
split. { rewrite <- Efl1. by injection E2. }
split; [done|].
replace (state_fragments s2) with (state_fragments s1) by (by injection E2).
replace (state_buckets s2) with (state_buckets s1) by (by injection E2).
done.
Qed.
End LoadTheorem.

(** [_load_state_dict_v2(state_dict)] on an optimizer without waiting
    parameter buckets, whose parameters all have elements, and a state
    dictionary that has, for every parameter, buffers of the size of the
    parameter: the call returns with the step count of the dictionary and
    with every parameter initialized; for every fragment in the local
    shard the shards [params_shard] (when kept), [exp_avg_shard] and
    [exp_avg_sq_shard] of its bucket hold, at the shard range of the
    fragment, the values of the buffers ["param"], ["exp_avg"] and
    ["exp_avg_sq"] at the shard parameter range.  (No pre-forward hook is
    enabled.) *)
Theorem load_state_dict_v2_loads
    {T : Type} `{TensorElt T} `{Collectives T} `{!CollectivesOk T}
    (st : Optimizer T) (sd : StateDict T) :
  layout_wf st → grads_wf st → _params_buckets st = [] →
  (∀ k, hook_is_enabled k st = false) →
  (∀ k, k ∈ parameters st → entry_ready sd st k) →
  ∃ st',
    _load_state_dict_v2 sd st = Ok st'
    ∧ state_step st' = sd_step sd
    ∧ layout_wf st'
    ∧ config st' = config st ∧ param_groups st' = param_groups st
    ∧ (∀ k, k ∈ parameters st → is_Some (state_fragments st' !! k))
    ∧ ∀ k fs f idx entry key,
        state_fragments st' !! k = Some fs → f ∈ fs →
        param_index (param_groups st) k = Ok idx →
        sd_state sd !! idx = Some entry →
        state_loaded key (state_buckets st') f (get_state key entry).
Proof.
  intros Hlay Hgr Hpb _ Hentries.
  destruct (checkpoint_prepare_run st Hlay Hgr Hpb)
    as (s1 & Hprep & Hlay1 & Ec1 & Epg1 & Est1 & _ & _ & Hall1 & _ & _).
  unfold _load_state_dict_v2. rewrite Hprep. simpl.
  set (st0 := set_state_step (sd_step sd) s1).
  assert (Hlay0 : layout_wf st0) by exact Hlay1.
  assert (Hpars : parameters st0 = parameters st).
  { unfold parameters. simpl. by rewrite Epg1. }
  destruct (load_params_run sd st0 (parameters st0) Hlay0)
    with (bs := state_buckets st0) as (bs' & Hrun & He & Hloaded & _).
  { apply Forall_forall. intros k Hk. rewrite Hpars in Hk. split.
    - by apply Hall1.
    - destruct (Hentries k Hk) as (p & idx & entry & Hp & Hpos & Hidx & Hen & Hlen).
      exists p, idx, entry. unfold lookup_param. simpl.
      rewrite Epg1. split_and!; done. }
  { apply Forall2_state_equiv_refl. }
  replace (set_state_buckets (state_buckets st0) st0) with st0 in Hrun
    by (by destruct s1).
  exists (set_state_buckets bs' st0). split; [exact Hrun|]. simpl.
  split; [done|].
  split. { destruct Hlay0 as (Hc & Hok). split; [done|].
           by apply (layout_ok_state_equiv _ _ (state_buckets st0)). }
  split; [done|]. split; [done|]. split; [done|].
  intros k fs f idx entry key Hfs Hf Hidx Hen.
  apply (Hloaded k) with (fs := fs) (idx := idx); try done.
  - rewrite Hpars. apply elem_of_parameters.
    destruct Hlay1 as (_ & _ & Hfm). destruct (Hfm k fs Hfs) as (p & Hp & _).
    exists p. unfold lookup_param. by rewrite <- Epg1.
  - simpl. by rewrite Epg1.
Qed.

(** A new optimizer with one parameter of ten elements loads a
    checkpoint. *)
Lemma load_state_dict_v2_loads_witness :
  let st := example_optimizer (example_config 32 64 1 0) [[replicate 10 7]] in
  let sd := {| sd_step := 5;
               sd_state := {[ 0%nat := {| sd_param := replicate 10 1;
                                          sd_exp_avg := replicate 10 2;
                                          sd_exp_avg_sq := replicate 10 3 |} ]} |} in
  ∃ st', _load_state_dict_v2 sd st = Ok st'
    ∧ state_step st' = 5
    ∧ exp_avg_shard <$> state_buckets st' = [replicate 10 2 ++ replicate 54 0]
    ∧ exp_avg_sq_shard <$> state_buckets st' = [replicate 10 3 ++ replicate 54 0]
    ∧ params_shard <$> state_buckets st'
      = [Some (replicate 10 1 ++ replicate 54 0)].
Proof.
  intros st sd.
  destruct (load_state_dict_v2_loads st sd) as (st' & Hrun & Hstep & _).
  { apply example_layout_wf; lia. }
  { split.
    - intros bid gb Hgb. simpl in Hgb. by rewrite lookup_empty in Hgb.
    - intros k g Hkg. simpl in Hkg. by rewrite lookup_empty in Hkg. }
  { done. }
  { done. }
  { intros k Hk. apply list_elem_of_singleton in Hk as ->.
    exists (replicate 10 7), 0%nat,
      {| sd_param := replicate 10 1; sd_exp_avg := replicate 10 2;
         sd_exp_avg_sq := replicate 10 3 |}.
    split; [done|]. split; [simpl; lia|]. split; [done|]. split; [done|].
    by intros []. }
  exists st'. split; [done|]. split; [done|].
  vm_compute in Hrun. injection Hrun as <-. by vm_compute.
Defined.

Section CheckpointErrors.
Context {T : Type} `{TensorElt T} `{Collectives T} `{!CollectivesOk T}.
Implicit Types (st : Optimizer T) (sd : StateDict T).

(** A parameter without elements has no fragments. *)
Lemma empty_param_fragments st k fs :
layout_wf st → state_fragments st !! k = Some fs → lookup_param st k = Some [] →
fs = [].
Proof.
intros (_ & _ & Hfm) Hfs Hp. destruct (Hfm _ _ Hfs) as (p & Hp' & (_ & Hch & _)).
change (lookup_param st k = Some p) in Hp'. rewrite Hp in Hp'.
injection Hp' as <-. destruct fs as [|f fs]; [done|]. simpl in Hch.
destruct Hch as (E & Hlt & Hch). apply chain_le in Hch. simpl in Hch. lia.
Qed.
End CheckpointErrors.

(** [_load_state_dict_v2(state_dict)] fails at the first parameter, in
    the order of [parameters()], that has no elements or no entry in the
    state dictionary: with [IndexError] for a parameter without elements
    (its list of fragments is empty), with [KeyError] for a parameter
    with elements whose index is not a key of [state_dict["state"]].
    (The parameters before it have their buffers in the dictionary; no
    parameter bucket waits and no pre-forward hook is enabled.) *)
Theorem load_state_dict_v2_fails
    {T : Type} `{TensorElt T} `{Collectives T} `{!CollectivesOk T}
    (st : Optimizer T) (sd : StateDict T)
    (pre suf : list ParamKey) (k : ParamKey) :
  layout_wf st → grads_wf st → _params_buckets st = [] →
  (∀ k, hook_is_enabled k st = false) →
  parameters st = pre ++ k :: suf →
  (∀ k', k' ∈ pre → entry_ready sd st k') →
  (lookup_param st k = Some [] → _load_state_dict_v2 sd st = Raise IndexError)
  ∧ (∀ p idx, lookup_param st k = Some p → (0 < length p)%nat →
       param_index (param_groups st) k = Ok idx → sd_state sd !! idx = None →
       _load_state_dict_v2 sd st = Raise KeyError).
Proof.
  intros Hlay Hgr Hpb _ Hpars Hentries.
  destruct (checkpoint_prepare_run st Hlay Hgr Hpb)
    as (s1 & Hprep & Hlay1 & Ec1 & Epg1 & Est1 & _ & _ & Hall1 & _ & _).
  set (st0 := set_state_step (sd_step sd) s1).
  assert (Hlay0 : layout_wf st0) by exact Hlay1.
  assert (Hpars0 : parameters st0 = pre ++ k :: suf).
  { rewrite <- Hpars. unfold parameters. simpl. by rewrite Epg1. }
  assert (Hl0 : ∀ k', lookup_param st0 k' = lookup_param st k').
  { intros k'. unfold lookup_param. simpl. by rewrite Epg1. }
  destruct (load_params_run sd st0 pre Hlay0)
    with (bs := state_buckets st0) as (bs' & Hrun & He & _).
  { apply Forall_forall. intros k' Hk'. split.
    - apply Hall1. rewrite Hpars. apply elem_of_app. by left.
    - destruct (Hentries k' Hk') as (p & idx & entry & Hp & Hpos & Hidx & Hen & Hlen).
      exists p, idx, entry. rewrite Hl0. simpl. rewrite Epg1. split_and!; done. }
  { apply Forall2_state_equiv_refl. }
  replace (set_state_buckets (state_buckets st0) st0) with st0 in Hrun
    by (by destruct s1).
  assert (Hk : is_Some (state_fragments st0 !! k)).
  { apply Hall1. rewrite Hpars. apply elem_of_app. right. by left. }
  destruct Hk as (fs & Hfs).
  assert (Hload : ∀ e,
            load_param sd k (set_state_buckets bs' st0) = Raise e →
            _load_state_dict_v2 sd st = Raise e).
  { intros e Hbody. unfold _load_state_dict_v2. rewrite Hprep. simpl.
    fold st0. rewrite Hpars0.
    change (for_each (load_param sd) (pre ++ k :: suf) st0 = Raise e).
    rewrite for_each_app, Hrun. simpl. by rewrite Hbody. }
  split.
  - intros Hp. apply Hload. unfold load_param.
    change (state_fragments (set_state_buckets bs' st0)) with (state_fragments st0).
    rewrite Hfs. rewrite <- Hl0 in Hp.
    by rewrite (empty_param_fragments st0 k fs Hlay0 Hfs Hp).
  - intros p idx Hp Hpos Hidx Hnone. apply Hload. unfold load_param.
    change (state_fragments (set_state_buckets bs' st0)) with (state_fragments st0).
    change (param_groups (set_state_buckets bs' st0)) with (param_groups s1).
    rewrite Hfs.
    destruct (Hlay0) as (_ & _ & Hfm).
    destruct (Hfm _ _ Hfs) as (p' & Hp' & (_ & Hch & _)).
    change (lookup_param st0 k = Some p') in Hp'. rewrite Hl0, Hp in Hp'.
    injection Hp' as <-.
    destruct fs as [|f0 fs0]; [simpl in Hch; lia|].
    destruct (layout_fragment st0 k _ f0 Hlay0 Hfs) as (_ & _ & _ & _ & _ & Hkey & _);
      [by left|].
    rewrite Hkey, Epg1, Hidx. simpl. by rewrite Hnone.
Qed.

(** An optimizer whose second parameter has no elements, and one whose
    parameter has no entry in the dictionary. *)
Lemma load_state_dict_v2_fails_witness :
  let sd := {| sd_step := 5;
               sd_state := {[ 0%nat := {| sd_param := replicate 10 1;
                                          sd_exp_avg := replicate 10 2;
                                          sd_exp_avg_sq := replicate 10 3 |} ]} |} in
  _load_state_dict_v2 sd
    (example_optimizer (example_config 32 64 1 0) [[replicate 10 7; []]])
  = Raise IndexError
  ∧ _load_state_dict_v2 sd
      (example_optimizer (example_config 32 64 1 0) [[replicate 10 7; replicate 4 7]])
    = Raise KeyError.
Proof.
  intros sd.
  assert (Hentry : ∀ pg, entry_ready sd
            (example_optimizer (example_config 32 64 1 0) [replicate 10 7 :: pg])
            (0%nat, 0%nat)).
  { intros pg. exists (replicate 10 7), 0%nat,
      {| sd_param := replicate 10 1; sd_exp_avg := replicate 10 2;
         sd_exp_avg_sq := replicate 10 3 |}.
    split; [done|]. split; [simpl; lia|]. split; [done|]. split; [done|].
    by intros []. }
  assert (Hgr : ∀ pg, grads_wf (example_optimizer (example_config 32 64 1 0) pg)).
  { intros pg. split.
    - intros bid gb Hgb. simpl in Hgb. by rewrite lookup_empty in Hgb.
    - intros k g Hkg. simpl in Hkg. by rewrite lookup_empty in Hkg. }
  assert (Hpre : ∀ pg k', k' ∈ [(0%nat, 0%nat)] →
            entry_ready sd
              (example_optimizer (example_config 32 64 1 0) [replicate 10 7 :: pg]) k').
  { intros pg k' Hk'. apply list_elem_of_singleton in Hk' as ->. apply Hentry. }
  assert (Hwf : ∀ pg, layout_wf (example_optimizer (example_config 32 64 1 0) pg)).
  { intros pg. apply example_layout_wf; lia. }
  split.
  - apply (load_state_dict_v2_fails
             (example_optimizer (example_config 32 64 1 0) [[replicate 10 7; []]])
             sd [(0%nat, 0%nat)] [] (0%nat, 1%nat)
             (Hwf _) (Hgr _) eq_refl (λ _, eq_refl) eq_refl (Hpre _)).
    done.
  - apply (load_state_dict_v2_fails
             (example_optimizer (example_config 32 64 1 0)
                [[replicate 10 7; replicate 4 7]])
             sd [(0%nat, 0%nat)] [] (0%nat, 1%nat)
             (Hwf _) (Hgr _) eq_refl (λ _, eq_refl) eq_refl (Hpre _))
      with (p := replicate 4 7) (idx := 1%nat); try done.
    simpl. lia.
Defined.

Section StateDictErrors.
Context {T : Type} `{TensorElt T} `{Collectives T} `{!CollectivesOk T}.
Implicit Types (st : Optimizer T) (sd : StateDict T).

(** "Initialize state dict with CPU buffers" stops at the first parameter
  without elements. *)
Lemma init_state_dict_empty_param st (l : list ParamKey) :
layout_wf st →
(∀ k, k ∈ l → is_Some (state_fragments st !! k)) →
(∃ k, k ∈ l ∧ lookup_param st k = Some []) →
∀ entries : gmap nat (ParamState T),
  for_each (λ k (entries : gmap nat (ParamState T)),
              match state_fragments st !! k with
              | None => Raise KeyError
              | Some [] => Raise IndexError
              | Some (fragment :: _) =>
                index ← param_index (param_groups st) (fragment_key fragment);
                match lookup_param st k with
                | None => Raise IndexError
                | Some param =>
                  let z : list T := replicate (length param) tzero in
                  Ok (<[index := {| sd_param := z; sd_exp_avg := z;
                                    sd_exp_avg_sq := z |}]> entries)
                end
              end) l entries
  = Raise IndexError.
Proof.
intros Hlay. induction l as [|k l IH]; intros Hinit (k0 & Hin & Hempty) entries.
- by apply elem_of_nil in Hin.
- simpl. destruct (Hinit k) as (fs & Hfs); [by left|]. rewrite Hfs.
  destruct fs as [|f fs]; [done|].
  destruct (layout_fragment st k _ f Hlay Hfs)
    as (sb & p & _ & Hp & _ & Hkey & _); [by left|].
  assert (Hne : k0 ≠ k).
  { intros ->. by pose proof (empty_param_fragments st k _ Hlay Hfs Hempty). }
  assert (∃ idx, param_index (param_groups st) k = Ok idx) as (idx & Hidx).
  { unfold param_index. unfold lookup_param in Hp. rewrite Hp. eauto. }
  rewrite Hkey, Hidx. simpl. rewrite Hp. simpl. apply IH.
  + intros k' Hk'. apply Hinit. by right.
  + exists k0. split; [|done]. by apply elem_of_cons in Hin as [?|?].
Qed.
End StateDictErrors.

(** [_state_dict_v2()] of a single process fails with [IndexError] when
    the optimizer has a parameter without elements: the parameter is
    initialized with an empty list of fragments, of which the first one is
    read.  (No parameter bucket waits and no pre-forward hook is
    enabled.) *)
Theorem state_dict_v2_rejects_empty_parameter
    {T : Type} `{TensorElt T} `{Collectives T} `{!CollectivesOk T}
    (st : Optimizer T) (k : ParamKey) :
  layout_wf st → grads_wf st → _params_buckets st = [] →
  (∀ k, hook_is_enabled k st = false) →
  distributed_size (config st) = 1 →
  lookup_param st k = Some [] →
  _state_dict_v2 [st] = Raise IndexError.
Proof.
  intros Hlay Hgr Hpb _ HD Hempty.
  destruct (checkpoint_prepare_run st Hlay Hgr Hpb)
    as (s1 & Hprep & Hlay1 & Ec1 & Epg1 & Est1 & _ & _ & Hall1 & _ & _).
  unfold _state_dict_v2. simpl. rewrite Hprep. simpl.
  rewrite decide_True by (by rewrite Ec1, HD).
  unfold init_state_dict.
  assert (Hinit : ∀ k', k' ∈ parameters s1 → is_Some (state_fragments s1 !! k')).
  { intros k' Hk'. apply Hall1. unfold parameters in *. by rewrite <- Epg1. }
  assert (Hk : ∃ k, k ∈ parameters s1 ∧ lookup_param s1 k = Some []).
  { exists k. split.
    - apply elem_of_parameters. unfold lookup_param in *. rewrite Epg1.
      by rewrite Hempty.
    - unfold lookup_param in *. by rewrite Epg1. }
  by rewrite (init_state_dict_empty_param s1 (parameters s1) Hlay1 Hinit Hk).
Qed.

(** An optimizer whose second parameter has no elements. *)
Lemma state_dict_v2_rejects_empty_parameter_witness :
  _state_dict_v2
    [example_optimizer (example_config 32 64 1 0) [[replicate 10 7; []]]]
  = Raise IndexError.
Proof.
  assert (Hwf : layout_wf (example_optimizer (example_config 32 64 1 0)
                             [[replicate 10 7; []]])).
  { apply example_layout_wf; lia. }
  assert (Hgr : grads_wf (example_optimizer (example_config 32 64 1 0)
                            [[replicate 10 7; []]])).
  { split.
    - intros bid gb Hgb. simpl in Hgb. by rewrite lookup_empty in Hgb.
    - intros k g Hkg. simpl in Hkg. by rewrite lookup_empty in Hkg. }
  exact (state_dict_v2_rejects_empty_parameter _ (0%nat, 1%nat)
           Hwf Hgr eq_refl (λ _, eq_refl) eq_refl eq_refl).
Defined.

Section ClosedBuckets.
Context {T : Type} `{TensorElt T}.
Implicit Types (st : Optimizer T) (bs : list (StateBucket T)).





End ClosedBuckets.

Section EffectiveBucket.
Context {T : Type} `{TensorElt T}.
Implicit Types (st : Optimizer T) (bs : list (StateBucket T)).
Implicit Types (param_ids : list (ParamKey * list T)).











End EffectiveBucket.


